(** * Storage-management core: persistent trie, LRU-K replacer, buffer pool

    A shallow embedding of

      - [src/primer/trie.cpp]                  (Trie::Get / Put / Remove),
      - [src/buffer/lru_k_replacer.cpp]        (LRUKReplacer),
      - [src/buffer/buffer_pool_manager.cpp]   (BufferPoolManager),

    followed by the properties the specification states about them.

    Conventions.  C++ maps and sets are [gmap] / [gset]; [std::list]
    and arrays are Rocq lists; fallible code runs in the [outcome] monad,
    which separates a normal return from an aborted assertion and from
    undefined behaviour (null dereference, erase through an iterator that
    designates no element, index outside an array). *)

From stdpp Require Import gmap strings list fin_maps fin_sets sorting.
From Stdlib Require Import ZArith Ascii.

#[local] Set Warnings "-register-all,-clear-no-such-hyp".
#[local] Open Scope Z_scope.

(* ================================================================= *)
(** * Outcomes of fallible code *)

Inductive outcome (A : Type) : Type :=
  | Ok (a : A)            (* the call returns *)
  | ContractViolation     (* a BUSTUB_ASSERT fails: the process aborts *)
  | Undefined.            (* undefined behaviour in the C++ sense *)
Arguments Ok {A} a.
Arguments ContractViolation {A}.
Arguments Undefined {A}.

#[global] Instance outcome_ret : MRet outcome := @Ok.
#[global] Instance outcome_bind : MBind outcome := λ A B f m,
  match m with
  | Ok a => f a
  | ContractViolation => ContractViolation
  | Undefined => Undefined
  end.

Definition is_Ok {A} (m : outcome A) : Prop := ∃ a, m = Ok a.

(** The value a call returned, [d] if it did not return. *)
Definition returned {A} (d : A) (m : outcome A) : A :=
  match m with
  | Ok a => a
  | _ => d
  end.

(* ================================================================= *)
(** * The persistent trie, as values (src/primer/trie.cpp) *)

Module Trie.

(** The value types [Put] and [Get] are instantiated at (trie.cpp, the
    explicit instantiations at the end of the file). *)
Inductive ValueType : Type :=
  | TUInt32 | TUInt64 | TString | TInteger | TMoveBlocked.

#[global] Instance ValueType_eq_dec : EqDecision ValueType.
Proof. solve_decision. Defined.

(** A payload is the object a [TrieNodeWithValue<T>] owns, with its
    dynamic type: the tag plays the role of the C++ run-time type that
    [dynamic_cast] inspects. *)
Inductive Payload : Type :=
  | VUInt32 (x : Z)
  | VUInt64 (x : Z)
  | VString (s : string)
  | VInteger (x : Z)              (* std::unique_ptr<uint32_t> *)
  | VMoveBlocked (waited : bool).

Definition type_of (v : Payload) : ValueType :=
  match v with
  | VUInt32 _ => TUInt32
  | VUInt64 _ => TUInt64
  | VString _ => TString
  | VInteger _ => TInteger
  | VMoveBlocked _ => TMoveBlocked
  end.

(** [TrieNode] and [TrieNodeWithValue<T>] in one type: [value_] is [Some]
    exactly for a [TrieNodeWithValue], which is also when the C++ field
    [is_value_node_] is set.  [children_] is the [std::map] from a byte to
    the shared child. *)
Inductive TrieNode : Type :=
  | Node (value_ : option Payload) (children_ : gmap ascii TrieNode).

Definition value_ (n : TrieNode) : option Payload :=
  match n with Node v _ => v end.
Definition children_ (n : TrieNode) : gmap ascii TrieNode :=
  match n with Node _ ch => ch end.
Definition is_value_node_ (n : TrieNode) : bool :=
  match value_ n with Some _ => true | None => false end.

(** [std::make_shared<TrieNode>()]: no value, no children. *)
Definition TrieNode_new : TrieNode := Node None ∅.
(** [std::make_shared<TrieNode>(children)]. *)
Definition TrieNode_of (ch : gmap ascii TrieNode) : TrieNode := Node None ch.
(** [std::make_shared<TrieNodeWithValue<T>>(std::make_shared<T>(value))]. *)
Definition TrieNodeWithValue_new (v : Payload) : TrieNode := Node (Some v) ∅.

(** Modelled from the spec: [TrieNode::Clone] lives in primer/trie.h, which
    is not among the sources.  "clone_shallow produces a new node sharing
    the same child map contents; subclasses override it so that a value
    node clones as a value node." *)
Definition Clone (n : TrieNode) : TrieNode :=
  match n with Node v ch => Node v ch end.

(** [n->children_[c] = child] and [n->children_.erase(c)] on a node the
    caller owns (a fresh clone). *)
Definition set_child (n : TrieNode) (c : ascii) (child : TrieNode) : TrieNode :=
  Node (value_ n) (<[c := child]> (children_ n)).
Definition erase_child (n : TrieNode) (c : ascii) : TrieNode :=
  Node (value_ n) (delete c (children_ n)).
(** [node->children_ = ch] on the fresh value node of [Put]. *)
Definition with_children (n : TrieNode) (ch : gmap ascii TrieNode) : TrieNode :=
  Node (value_ n) ch.

(** [dynamic_cast<const TrieNodeWithValue<T> *>(node)] followed by
    [->value_.get()]: the payload when the node is a value node of type
    [T], the null pointer otherwise. *)
Definition dynamic_cast (T : ValueType) (n : TrieNode) : option Payload :=
  match value_ n with
  | Some v => if decide (type_of v = T) then Some v else None
  | None => None
  end.

(** A trie is its root pointer; [None] is [nullptr]. *)
Record Trie : Type := mkTrie { root_ : option TrieNode }.

Definition empty : Trie := mkTrie None.

(** ** Trie::Get (trie.cpp 7-38) *)

(** The [for (auto c : key)] loop of [Get]: [None] when a child is missing. *)
Fixpoint walk (node : TrieNode) (key : list ascii) : option TrieNode :=
  match key with
  | [] => Some node
  | c :: rest =>
      match children_ node !! c with
      | None => None
      | Some child => walk child rest
      end
  end.

Definition Get (T : ValueType) (t : Trie) (key : list ascii) : option Payload :=
  match root_ t with
  | None => None
  | Some node =>
      match walk node key with
      | None => None
      | Some node =>
          if negb (is_value_node_ node) then None else dynamic_cast T node
      end
  end.

(** ** Trie::Put (trie.cpp 40-95) *)

(** Lines 56-59: the chain built back to front when there is no root. *)
Definition put_chain (key : list ascii) (node : TrieNode) : TrieNode :=
  foldl (λ node c, TrieNode_of {[c := node]}) node (rev key).

(** Lines 76-93.  [p] is the freshly cloned node the loop stands on, [key]
    the bytes still to consume.  One iteration clones the child under [c]
    (or makes a new [TrieNode]) and stores it in [p->children_[c]]; the
    last iteration's store is overwritten after the loop (line 93) by
    [node], which has taken over the children of that last clone
    (lines 89-91). *)
Fixpoint put_loop (p : TrieNode) (key : list ascii) (node : TrieNode) : TrieNode :=
  match key with
  | [] => p
  | c :: rest =>
      let new_node :=
        match children_ p !! c with
        | Some child => Clone child
        | None => TrieNode_new
        end in
      match rest with
      | [] =>
          let node :=
            if decide (children_ new_node = ∅) then node
            else with_children node (children_ new_node) in
          set_child (set_child p c new_node) c node
      | _ :: _ => set_child p c (put_loop new_node rest node)
      end
  end.

Definition Put (t : Trie) (key : list ascii) (value : Payload) : Trie :=
  let node := TrieNodeWithValue_new value in
  match root_ t with
  | None => mkTrie (Some (put_chain key node))
  | Some root =>
      match key with
      | [] => mkTrie (Some (with_children node (children_ root)))
      | _ :: _ => mkTrie (Some (put_loop (Clone root) key node))
      end
  end.

(** ** Trie::Remove (trie.cpp 97-155) *)

(** Lines 106-114: the nodes met along [key] are appended to [path];
    [None] is the early [return *this]. *)
Fixpoint collect_path (node : TrieNode) (key : list ascii) (path : list TrieNode)
    : option (list TrieNode) :=
  match key with
  | [] => Some path
  | c :: rest =>
      match children_ node !! c with
      | Some child => collect_path child rest (path ++ [child])
      | None => None
      end
  end.

(** [key[k_idx]]: reading outside the view is undefined. *)
Definition key_at (key : list ascii) (k_idx : nat) : outcome ascii :=
  match key !! k_idx with
  | Some c => Ok c
  | None => Undefined
  end.

(** Lines 123-133: the backward loop over [path.rbegin() + 1 .. path.rend()]
    when the last node of the path has no children.  [its] is what is left
    of the reversed path; [k_idx] runs down with it ([k_idx--] on a
    [size_t]; the value after the last iteration is never read). *)
Fixpoint prune_loop (its : list TrieNode) (key : list ascii)
    (clone_node : TrieNode) (copy_rest : bool) (k_idx : nat)
    : outcome (TrieNode * bool) :=
  match its with
  | [] => Ok (clone_node, copy_rest)
  | it :: its' =>
      if (is_value_node_ it || bool_decide (1 < size (children_ it))%nat)
           && negb copy_rest then
        c ← key_at key k_idx;
        prune_loop its' key (erase_child (Clone it) c) true (k_idx - 1)%nat
      else if copy_rest then
        c ← key_at key k_idx;
        prune_loop its' key (set_child (Clone it) c clone_node) copy_rest
                   (k_idx - 1)%nat
      else
        prune_loop its' key clone_node copy_rest (k_idx - 1)%nat
  end.

(** Lines 143-147: the backward loop of the other branch. *)
Fixpoint copy_loop (its : list TrieNode) (key : list ascii)
    (clone_node : TrieNode) (k_idx : nat) : outcome TrieNode :=
  match its with
  | [] => Ok clone_node
  | it :: its' =>
      c ← key_at key k_idx;
      copy_loop its' key (set_child (Clone it) c clone_node) (k_idx - 1)%nat
  end.

Definition Remove (t : Trie) (key : list ascii) : outcome Trie :=
  match root_ t with
  | None => Undefined            (* [node->children_] / [path.back()->children_] on nullptr *)
  | Some root =>
      match collect_path root key [root] with
      | None => Ok t             (* line 110 *)
      | Some path =>
          let clone_node := TrieNode_new in
          let k_idx := (length key - 1)%nat in
          match last path with
          | None => Undefined
          | Some back =>
              clone_node ←
                (if decide (children_ back = ∅) then
                   r ← prune_loop (tail (rev path)) key clone_node false k_idx;
                   Ok r.1
                 else
                   let clone_node :=
                     if is_value_node_ back
                     then TrieNode_of (children_ (Clone back))
                     else clone_node in
                   copy_loop (tail (rev path)) key clone_node k_idx);
              if bool_decide (children_ clone_node = ∅) && negb (is_value_node_ clone_node)
              then Ok (mkTrie None)
              else Ok (mkTrie (Some clone_node))
          end
      end
  end.

(** ** Derived notions used in the statements *)

Definition key_of (s : string) : list ascii := String.list_ascii_of_string s.

(** The node a key leads to, if any. *)
Definition node_at (t : Trie) (key : list ascii) : option TrieNode :=
  match root_ t with
  | None => None
  | Some root => walk root key
  end.

(** A key is present when some [Get<T>] finds it, that is when its node
    exists and is a value node. *)
Definition present (t : Trie) (key : list ascii) : Prop :=
  ∃ n, node_at t key = Some n ∧ is_value_node_ n = true.

(** A dangling node: neither a value nor children. *)
Definition dangling (n : TrieNode) : Prop :=
  is_value_node_ n = false ∧ children_ n = ∅.

(** Every leaf is a value node: no key leads to a dangling node. *)
Definition leaves_have_values (t : Trie) : Prop :=
  ∀ key n, node_at t key = Some n → ¬ dangling n.

(** Recursive reading of [Remove]'s backward loops, used to reason about
    them: what becomes of the subtree [n] when [key] is taken out below
    it, [None] when the subtree disappears.  [back_value] tells what the
    code does with the node the key ends at when that node has children. *)
Fixpoint remove_rec (n : TrieNode) (key : list ascii) : option TrieNode :=
  match key with
  | [] =>
      if decide (children_ n = ∅) then None
      else if is_value_node_ n then Some (TrieNode_of (children_ n))
      else Some TrieNode_new
  | c :: rest =>
      match children_ n !! c with
      | None => Some n
      | Some child =>
          match remove_rec child rest with
          | Some child' => Some (set_child n c child')
          | None =>
              if is_value_node_ n || bool_decide (1 < size (children_ n))%nat
              then Some (erase_child n c)
              else None
          end
      end
  end.

(** The last test of [Remove] (lines 150-152) on what the loops leave:
    a root with neither a value nor children becomes [nullptr]. *)
Definition final_check (o : option TrieNode) : option TrieNode :=
  match o with
  | Some r =>
      if bool_decide (children_ r = ∅) && negb (is_value_node_ r)
      then None else Some r
  | None => None
  end.

(** The [clone_node] the backward loops start from, given the node [m]
    the key ends at. *)
Definition start_node (m : TrieNode) : TrieNode :=
  if decide (children_ m = ∅) then TrieNode_new
  else if is_value_node_ m then TrieNode_of (children_ m) else TrieNode_new.

(** Observations through an optional root. *)
Definition walk_opt (o : option TrieNode) (key : list ascii) : option TrieNode :=
  n ← o; walk n key.
Definition lookup_value (o : option TrieNode) (key : list ascii) : option Payload :=
  n ← walk_opt o key; value_ n.
Definition cast_to (T : ValueType) (v : Payload) : option Payload :=
  if decide (type_of v = T) then Some v else None.

End Trie.


(* ================================================================= *)
(** * The trie as shared nodes in a store

    [Put] builds the new trie by cloning nodes and then assigning to the
    [children_] of the clones.  Whether the old version is untouched
    depends on which objects those assignments reach, so here nodes are
    objects in a store, [std::shared_ptr] values are addresses, and
    every [children_[c] = ...] is a store update at the address written
    through. *)

Module TrieHeap.
Import Trie.

Abbreviation loc := positive (only parsing).

Record HNode : Type := mkHNode {
  h_value : option Payload;          (* [Some] for a TrieNodeWithValue *)
  h_children : gmap ascii loc;       (* children_, as addresses *)
}.

Abbreviation heap := (gmap positive HNode) (only parsing).

(** [std::make_shared]: a new object at an address not in use. *)
Definition alloc (h : heap) (n : HNode) : loc * heap :=
  let l := fresh (dom h) in (l, <[l := n]> h).

(** Dereferencing a pointer that designates no object is undefined. *)
Definition read (h : heap) (l : loc) : outcome HNode :=
  match h !! l with
  | Some n => Ok n
  | None => Undefined
  end.

(** [l->Clone()] turned into a [shared_ptr]: a new object with the same
    value and the same child pointers (see [Trie.Clone]). *)
Definition clone (h : heap) (l : loc) : outcome (loc * heap) :=
  n ← read h l; Ok (alloc h n).

(** [l->children_[c] = child]. *)
Definition store_child (h : heap) (l : loc) (c : ascii) (child : loc)
    : outcome heap :=
  n ← read h l;
  Ok (<[l := mkHNode (h_value n) (<[c := child]> (h_children n))]> h).

(** [l->children_ = ch]. *)
Definition store_children (h : heap) (l : loc) (ch : gmap ascii loc)
    : outcome heap :=
  n ← read h l; Ok (<[l := mkHNode (h_value n) ch]> h).

(** ** Trie::Get *)

Fixpoint h_walk (h : heap) (node : loc) (key : list ascii) : outcome (option loc) :=
  match key with
  | [] => Ok (Some node)
  | c :: rest =>
      n ← read h node;
      match h_children n !! c with
      | None => Ok None
      | Some child => h_walk h child rest
      end
  end.

Definition hGet (T : ValueType) (h : heap) (root : option loc) (key : list ascii)
    : outcome (option Payload) :=
  match root with
  | None => Ok None
  | Some node =>
      o ← h_walk h node key;
      match o with
      | None => Ok None
      | Some node =>
          n ← read h node;
          Ok (match h_value n with
              | Some v => if decide (type_of v = T) then Some v else None
              | None => None
              end)
      end
  end.

(** ** Trie::Put *)

(** Lines 56-59, over the key read backwards. *)
Fixpoint h_put_chain (h : heap) (rkey : list ascii) (node : loc) : loc * heap :=
  match rkey with
  | [] => (node, h)
  | c :: rkey' =>
      let '(new_node, h) := alloc h (mkHNode None {[c := node]}) in
      h_put_chain h rkey' new_node
  end.

(** Lines 76-87; returns [pre_node], [p] and the store after the loop. *)
Fixpoint h_put_loop (h : heap) (p pre_node : loc) (key : list ascii)
    : outcome (loc * loc * heap) :=
  match key with
  | [] => Ok (pre_node, p, h)
  | c :: rest =>
      pn ← read h p;
      '(new_node, h) ←
        match h_children pn !! c with
        | Some child => clone h child
        | None => Ok (alloc h (mkHNode None ∅))
        end;
      h ← store_child h p c new_node;
      h_put_loop h new_node p rest
  end.

Definition hPut (h : heap) (root : option loc) (key : list ascii) (value : Payload)
    : outcome (option loc * heap) :=
  let '(node, h) := alloc h (mkHNode (Some value) ∅) in
  match root with
  | None =>
      let '(node, h) := h_put_chain h (rev key) node in
      Ok (Some node, h)
  | Some root =>
      match last key with
      | None =>                                   (* key.empty() *)
          rn ← read h root;
          h ← store_children h node (h_children rn);
          Ok (Some node, h)
      | Some back =>
          '(p, h) ← clone h root;
          '(pre_node, p_end, h) ← h_put_loop h p p key;
          pe ← read h p_end;
          h ← (if decide (h_children pe = ∅) then Ok h
               else store_children h node (h_children pe));
          h ← store_child h pre_node back node;
          Ok (Some p, h)
      end
  end.

(** ** Well-formed stores *)

(** Every child pointer stored in the heap designates an object. *)
Definition closed (h : heap) : Prop :=
  ∀ l n c l', h !! l = Some n → h_children n !! c = Some l' → is_Some (h !! l').

Definition root_in (h : heap) (root : option loc) : Prop :=
  match root with
  | None => True
  | Some l => is_Some (h !! l)
  end.

(** Children of a node all designate objects of [h]. *)
Definition children_in (h : heap) (n : HNode) : Prop :=
  ∀ c l', h_children n !! c = Some l' → is_Some (h !! l').

(** What the steps of [Put] keep true with respect to the store [h0] the
    call started from: objects of [h0] are unchanged, the store stays
    closed. *)
Record put_inv (h0 h : heap) : Prop := {
  inv_sub : h0 ⊆ h;
  inv_closed : closed h;
}.

(** The store object at [l] and everything below it is the tree [n]. *)
Inductive repr (h : heap) : loc → TrieNode → Prop :=
  | repr_node l hn n :
      h !! l = Some hn →
      h_value hn = value_ n →
      (∀ c, option_Forall2 (repr h) (h_children hn !! c) (children_ n !! c)) →
      repr h l n.

Definition repr_root (h : heap) (root : option loc) (t : Trie) : Prop :=
  option_Forall2 (repr h) root (root_ t).

End TrieHeap.

(* ================================================================= *)
(** * The LRU-K replacer (src/buffer/lru_k_replacer.cpp) *)

Module LRUKReplacer.

(** [size_t] arithmetic. *)
Definition size_t_max : Z := 2 ^ 64 - 1.
Definition to_size_t (x : Z) : Z := x mod 2 ^ 64.
(** [(size_t)frame_id] for a signed [frame_id_t]. *)
Definition size_t_of_int (x : Z) : Z :=
  if bool_decide (x < 0) then x + 2 ^ 64 else x.

(** A [std::list<frame_id_t>] whose elements keep an identity, so that a
    stored [std::list::iterator] can be told valid (its element is still
    in the list) from invalid.  An element is (identity, frame id); an
    iterator is the identity of the element it designates. *)
Abbreviation frame_list := (list (nat * Z)) (only parsing).

(** The state of a replacer.  lru_k_replacer.h is not among the sources;
    the members are those the .cpp file uses.  Modelled from the spec:
    "count_map[frame] = total accesses", kept as an unbounded integer.
    [next_node_] is not a member: it numbers the list elements created so
    far. *)
Record LRUKReplacer : Type := mkReplacer {
  replacer_size_ : Z;
  k_ : Z;
  inf_history_list_ : list (nat * Z);
  history_list_ : list (nat * Z);
  inf_history_iter_map_ : gmap Z nat;
  history_iter_map_ : gmap Z nat;
  count_map_ : gmap Z Z;
  non_evictable_set_ : gset Z;
  curr_size_ : Z;
  next_node_ : nat;
}.

(** [LRUKReplacer::LRUKReplacer(num_frames, k)]. *)
Definition new (num_frames k : Z) : LRUKReplacer :=
  {| replacer_size_ := num_frames; k_ := k;
     inf_history_list_ := []; history_list_ := [];
     inf_history_iter_map_ := ∅; history_iter_map_ := ∅;
     count_map_ := ∅; non_evictable_set_ := ∅;
     curr_size_ := 0; next_node_ := 0 |}.

(** The condition of the BUSTUB_ASSERTs:
    [(size_t)frame_id < replacer_size_ && frame_id >= 0]. *)
Definition frame_ok (r : LRUKReplacer) (frame_id : Z) : bool :=
  bool_decide (size_t_of_int frame_id < replacer_size_ r) && bool_decide (0 ≤ frame_id).

(** The first element satisfying [P], and the list without it: a scan
    that stops at an element and erases it through the loop iterator. *)
Fixpoint take_first {A} (P : A → bool) (l : list A) : option (A * list A) :=
  match l with
  | [] => None
  | x :: l' =>
      if P x then Some (x, l')
      else '(y, rest) ← take_first P l'; Some (y, x :: rest)
  end.

(** [l.erase(m[frame_id])] for an iterator map [m].  [m[frame_id]] on a
    missing key yields a value-initialised iterator; erasing through it,
    or through an iterator whose element has left the list, is
    undefined. *)
Definition erase_at (l : list (nat * Z)) (m : gmap Z nat) (frame_id : Z)
    : outcome (list (nat * Z)) :=
  match m !! frame_id with
  | None => Undefined
  | Some it =>
      match take_first (λ x, bool_decide (x.1 = it)) l with
      | Some (_, rest) => Ok rest
      | None => Undefined
      end
  end.

Definition evictable (r : LRUKReplacer) (x : nat * Z) : bool :=
  bool_decide (x.2 ∉ non_evictable_set_ r).

(** ** Evict (lines 20-48): the frame written to [*frame_id] when the
    result is [true], and the state afterwards *)
Definition Evict (r : LRUKReplacer) : option Z * LRUKReplacer :=
  if bool_decide (curr_size_ r = 0) then (None, r)
  else
    match take_first (evictable r) (inf_history_list_ r) with
    | Some ((_, evict_id), rest) =>
        (Some evict_id,
         {| replacer_size_ := replacer_size_ r; k_ := k_ r;
            inf_history_list_ := rest;
            history_list_ := history_list_ r;
            inf_history_iter_map_ := delete evict_id (inf_history_iter_map_ r);
            history_iter_map_ := history_iter_map_ r;
            count_map_ := delete evict_id (count_map_ r);
            non_evictable_set_ := non_evictable_set_ r;
            curr_size_ := to_size_t (curr_size_ r - 1);
            next_node_ := next_node_ r |})
    | None =>
        match take_first (evictable r) (history_list_ r) with
        | Some ((_, evict_id), rest) =>
            (Some evict_id,
             {| replacer_size_ := replacer_size_ r; k_ := k_ r;
                inf_history_list_ := inf_history_list_ r;
                history_list_ := rest;
                inf_history_iter_map_ := inf_history_iter_map_ r;
                history_iter_map_ := delete evict_id (history_iter_map_ r);
                count_map_ := delete evict_id (count_map_ r);
                non_evictable_set_ := non_evictable_set_ r;
                curr_size_ := to_size_t (curr_size_ r - 1);
                next_node_ := next_node_ r |})
        | None => (None, r)
        end
    end.

(** ** RecordAccess (lines 50-79) *)
Definition RecordAccess (r : LRUKReplacer) (frame_id : Z) : outcome LRUKReplacer :=
  if negb (frame_ok r frame_id) then ContractViolation
  else
    let it := next_node_ r in
    match count_map_ r !! frame_id with
    | None =>                                         (* first record *)
        Ok {| replacer_size_ := replacer_size_ r; k_ := k_ r;
              inf_history_list_ := inf_history_list_ r ++ [(it, frame_id)];
              history_list_ := history_list_ r;
              inf_history_iter_map_ := <[frame_id := it]> (inf_history_iter_map_ r);
              history_iter_map_ := history_iter_map_ r;
              count_map_ := <[frame_id := 1]> (count_map_ r);
              non_evictable_set_ := non_evictable_set_ r;
              curr_size_ := to_size_t (curr_size_ r + 1);
              next_node_ := S it |}
    | Some count =>
        if bool_decide (k_ r ≤ count) then            (* in the LRU list *)
          rest ← erase_at (history_list_ r) (history_iter_map_ r) frame_id;
          Ok {| replacer_size_ := replacer_size_ r; k_ := k_ r;
                inf_history_list_ := inf_history_list_ r;
                history_list_ := rest ++ [(it, frame_id)];
                inf_history_iter_map_ := inf_history_iter_map_ r;
                history_iter_map_ := <[frame_id := it]> (history_iter_map_ r);
                count_map_ := <[frame_id := count + 1]> (count_map_ r);
                non_evictable_set_ := non_evictable_set_ r;
                curr_size_ := curr_size_ r;
                next_node_ := S it |}
        else if bool_decide (k_ r ≤ count + 1) then   (* leaves the FIFO list *)
          rest ← erase_at (inf_history_list_ r) (inf_history_iter_map_ r) frame_id;
          Ok {| replacer_size_ := replacer_size_ r; k_ := k_ r;
                inf_history_list_ := rest;
                history_list_ := history_list_ r ++ [(it, frame_id)];
                inf_history_iter_map_ := inf_history_iter_map_ r;
                history_iter_map_ := <[frame_id := it]> (history_iter_map_ r);
                count_map_ := <[frame_id := count + 1]> (count_map_ r);
                non_evictable_set_ := non_evictable_set_ r;
                curr_size_ := curr_size_ r;
                next_node_ := S it |}
        else                                          (* stays in the FIFO list *)
          Ok {| replacer_size_ := replacer_size_ r; k_ := k_ r;
                inf_history_list_ := inf_history_list_ r;
                history_list_ := history_list_ r;
                inf_history_iter_map_ := inf_history_iter_map_ r;
                history_iter_map_ := history_iter_map_ r;
                count_map_ := <[frame_id := count + 1]> (count_map_ r);
                non_evictable_set_ := non_evictable_set_ r;
                curr_size_ := curr_size_ r;
                next_node_ := it |}
    end.

(** ** SetEvictable (lines 81-95) *)
Definition with_evictability (r : LRUKReplacer) (s : gset Z) (size : Z)
    : LRUKReplacer :=
  {| replacer_size_ := replacer_size_ r; k_ := k_ r;
     inf_history_list_ := inf_history_list_ r;
     history_list_ := history_list_ r;
     inf_history_iter_map_ := inf_history_iter_map_ r;
     history_iter_map_ := history_iter_map_ r;
     count_map_ := count_map_ r;
     non_evictable_set_ := s;
     curr_size_ := size;
     next_node_ := next_node_ r |}.

Definition SetEvictable (r : LRUKReplacer) (frame_id : Z) (set_evictable : bool)
    : outcome LRUKReplacer :=
  if negb (frame_ok r frame_id) then ContractViolation
  else
    match count_map_ r !! frame_id with
    | None => Ok r
    | Some _ =>
        let r :=
          if bool_decide (frame_id ∉ non_evictable_set_ r) && negb set_evictable
          then with_evictability r ({[frame_id]} ∪ non_evictable_set_ r)
                                 (to_size_t (curr_size_ r - 1))
          else r in
        let r :=
          if bool_decide (frame_id ∈ non_evictable_set_ r) && set_evictable
          then with_evictability r (non_evictable_set_ r ∖ {[frame_id]})
                                 (to_size_t (curr_size_ r + 1))
          else r in
        Ok r
    end.

(** ** Remove (lines 97-115) *)
Definition Remove (r : LRUKReplacer) (frame_id : Z) : outcome LRUKReplacer :=
  if negb (frame_ok r frame_id) then ContractViolation
  else
    match count_map_ r !! frame_id with
    | None => Ok r
    | Some count =>
        if bool_decide (frame_id ∈ non_evictable_set_ r) then Ok r
        else if bool_decide (k_ r ≤ count) then
          rest ← erase_at (history_list_ r) (history_iter_map_ r) frame_id;
          Ok {| replacer_size_ := replacer_size_ r; k_ := k_ r;
                inf_history_list_ := inf_history_list_ r;
                history_list_ := rest;
                inf_history_iter_map_ := inf_history_iter_map_ r;
                history_iter_map_ := delete frame_id (history_iter_map_ r);
                count_map_ := delete frame_id (count_map_ r);
                non_evictable_set_ := non_evictable_set_ r;
                curr_size_ := to_size_t (curr_size_ r - 1);
                next_node_ := next_node_ r |}
        else
          rest ← erase_at (inf_history_list_ r) (inf_history_iter_map_ r) frame_id;
          Ok {| replacer_size_ := replacer_size_ r; k_ := k_ r;
                inf_history_list_ := rest;
                history_list_ := history_list_ r;
                inf_history_iter_map_ := delete frame_id (inf_history_iter_map_ r);
                history_iter_map_ := history_iter_map_ r;
                count_map_ := delete frame_id (count_map_ r);
                non_evictable_set_ := non_evictable_set_ r;
                curr_size_ := to_size_t (curr_size_ r - 1);
                next_node_ := next_node_ r |}
    end.

Definition Size (r : LRUKReplacer) : Z := curr_size_ r.

(** ** Sequences of calls *)

Inductive call : Type :=
  | CallRecordAccess (frame_id : Z)
  | CallSetEvictable (frame_id : Z) (set_evictable : bool)
  | CallRemove (frame_id : Z)
  | CallEvict.

Definition step (r : LRUKReplacer) (c : call) : outcome LRUKReplacer :=
  match c with
  | CallRecordAccess f => RecordAccess r f
  | CallSetEvictable f b => SetEvictable r f b
  | CallRemove f => Remove r f
  | CallEvict => Ok (Evict r).2
  end.

Fixpoint run (r : LRUKReplacer) (calls : list call) : outcome LRUKReplacer :=
  match calls with
  | [] => Ok r
  | c :: calls' => r' ← step r c; run r' calls'
  end.

(** The states a replacer built with [(num_frames, k)], both [size_t],
    can be in after a sequence of calls that all returned. *)
Definition reachable (num_frames k : Z) (r : LRUKReplacer) : Prop :=
  0 ≤ num_frames ≤ size_t_max ∧ 0 ≤ k ≤ size_t_max ∧
  ∃ calls, run (new num_frames k) calls = Ok r.

(** ** Notions used in the statements *)

(** The frames of a list, in list order. *)
Definition frames (l : list (nat * Z)) : list Z := l.*2.

Definition tracked (r : LRUKReplacer) (f : Z) : Prop := is_Some (count_map_ r !! f).

(** The frame the specification says [evict] returns: the first frame of
    the infinite-history list that is not in the non-evictable set,
    otherwise the first such frame of the history list. *)
Definition victim (r : LRUKReplacer) : option Z :=
  match head (filter (λ f, f ∉ non_evictable_set_ r)
                     (frames (inf_history_list_ r))) with
  | Some f => Some f
  | None =>
      head (filter (λ f, f ∉ non_evictable_set_ r) (frames (history_list_ r)))
  end.

(** List membership by access count, as the specification puts it. *)
Definition lists_by_count (r : LRUKReplacer) : Prop :=
  ∀ f count, count_map_ r !! f = Some count →
    (f ∈ frames (inf_history_list_ r) ↔ count < k_ r) ∧
    (f ∈ frames (history_list_ r) ↔ k_ r ≤ count).

(** ** Consistency of the replacer's members *)

Definition all_nodes (r : LRUKReplacer) : list (nat * Z) :=
  inf_history_list_ r ++ history_list_ r.

Definition evictable_frames (r : LRUKReplacer) : gset Z :=
  dom (count_map_ r) ∖ non_evictable_set_ r.

(** An iterator map [m] and the list [l] it refers to agree: the entry of
    a frame in the list designates its element, and no entry designates
    the element of another frame. *)
Definition iters_agree (m : gmap Z nat) (l : list (nat * Z)) : Prop :=
  (∀ it f, (it, f) ∈ l → m !! f = Some it) ∧
  (∀ f it g, m !! f = Some it → (it, g) ∈ l → g = f).

Record consistent (r : LRUKReplacer) : Prop := {
  cs_size_bound : 0 ≤ replacer_size_ r ≤ size_t_max;
  cs_range : ∀ f, tracked r f → 0 ≤ f < replacer_size_ r;
  cs_frames_nodup : NoDup (frames (all_nodes r));
  cs_ids_nodup : NoDup ((all_nodes r).*1);
  cs_ids_lt : ∀ x, x ∈ all_nodes r → (x.1 < next_node_ r)%nat;
  cs_inf_iters_lt : ∀ f it, inf_history_iter_map_ r !! f = Some it → (it < next_node_ r)%nat;
  cs_hist_iters_lt : ∀ f it, history_iter_map_ r !! f = Some it → (it < next_node_ r)%nat;
  cs_tracked : ∀ f, tracked r f ↔ f ∈ frames (all_nodes r);
  cs_inf_iters : iters_agree (inf_history_iter_map_ r) (inf_history_list_ r);
  cs_hist_iters : iters_agree (history_iter_map_ r) (history_list_ r);
  cs_non_evictable : ∀ f, f ∈ non_evictable_set_ r → tracked r f;
  cs_curr_size : curr_size_ r = Z.of_nat (size (evictable_frames r));
}.

(** [l'] is [l] with the frame [f] taken out. *)
Definition erased (l l' : list Z) (f : Z) : Prop :=
  ∃ l1 l2, l = l1 ++ f :: l2 ∧ l' = l1 ++ l2.

(** A frame leaves the replacer: by [Evict] or by [Remove]. *)
Definition dropped (r r' : LRUKReplacer) (f : Z) : Prop :=
  k_ r' = k_ r ∧ replacer_size_ r' = replacer_size_ r ∧
  non_evictable_set_ r' = non_evictable_set_ r ∧
  (f ∉ non_evictable_set_ r) ∧
  count_map_ r' = delete f (count_map_ r) ∧
  ((erased (frames (inf_history_list_ r)) (frames (inf_history_list_ r')) f ∧
    frames (history_list_ r') = frames (history_list_ r))
   ∨ (erased (frames (history_list_ r)) (frames (history_list_ r')) f ∧
      frames (inf_history_list_ r') = frames (inf_history_list_ r))).

(** ** A logical clock over a sequence of calls

    To speak of "oldest first access" and "least recently accessed", the
    calls of a sequence are numbered and each frame is stamped with the
    number of the access that made it tracked and of its latest
    access. *)
Record stamps : Type := mkStamps {
  first_access : gmap Z nat;
  last_access : gmap Z nat;
}.

Definition stamp (r : LRUKReplacer) (st : stamps) (clock : nat) (c : call) : stamps :=
  match c with
  | CallRecordAccess f =>
      {| first_access :=
           match count_map_ r !! f with
           | None => <[f := clock]> (first_access st)
           | Some _ => first_access st
           end;
         last_access := <[f := clock]> (last_access st) |}
  | _ => st
  end.

Fixpoint run_clocked (r : LRUKReplacer) (st : stamps) (clock : nat)
    (calls : list call) : outcome (LRUKReplacer * stamps) :=
  match calls with
  | [] => Ok (r, st)
  | c :: calls' =>
      r' ← step r c; run_clocked r' (stamp r st clock c) (S clock) calls'
  end.

(** [f] was stamped before [g]. *)
Definition earlier (m : gmap Z nat) (f g : Z) : Prop :=
  ∃ a b, m !! f = Some a ∧ m !! g = Some b ∧ (a < b)%nat.

(** What the stamps say about the two lists. *)
Record clocked (r : LRUKReplacer) (st : stamps) (clock : nat) : Prop := {
  ck_inf_stamped : ∀ f, f ∈ frames (inf_history_list_ r) →
      ∃ a, first_access st !! f = Some a ∧ (a < clock)%nat;
  ck_hist_stamped : ∀ f, f ∈ frames (history_list_ r) →
      ∃ a, last_access st !! f = Some a ∧ (a < clock)%nat;
  ck_inf_sorted :
      StronglySorted (earlier (first_access st)) (frames (inf_history_list_ r));
  ck_hist_sorted :
      StronglySorted (earlier (last_access st)) (frames (history_list_ r));
  ck_hist_count : ∀ f, f ∈ frames (history_list_ r) →
      ∃ count, count_map_ r !! f = Some count ∧ k_ r ≤ count;
}.

(** Consistent, with the lists split by count, for a [k] of at least 2. *)
Definition sound (r : LRUKReplacer) : Prop :=
  2 ≤ k_ r ∧ consistent r ∧ lists_by_count r.

End LRUKReplacer.

(* ================================================================= *)
(** * The buffer pool manager (src/buffer/buffer_pool_manager.cpp)

    One thread at a time runs a pool method (each holds [latch_] for its
    whole body), so a method is a function on the pool state.
    [DiskScheduler::Schedule] followed by [future.get()] is the request
    carried out on the disk before the caller goes on; the pool state
    records the requests in the order they were scheduled. *)

Module BufferPoolManager.

Definition INVALID_PAGE_ID : Z := -1.

(** [page_id_t] and [pin_count_] are 32-bit signed integers. *)
Definition INT32_MAX : Z := 2 ^ 31 - 1.
Definition wrap_int32 (x : Z) : Z := (x + 2 ^ 31) mod 2 ^ 32 - 2 ^ 31.

Record Page : Type := mkPage {
  data_ : list ascii;
  page_id_ : Z;
  pin_count_ : Z;
  is_dirty_ : bool;
}.

(** A [DiskRequest] as the scheduler receives it: the direction, the
    page id, and for a write the bytes of the buffer at that moment. *)
Record DiskRequest : Type := mkRequest {
  is_write_ : bool;
  req_page_id_ : Z;
  req_data_ : list ascii;
}.

Record BufferPoolManager : Type := mkPool {
  pool_size_ : Z;
  pages_ : list Page;
  free_list_ : list Z;
  page_table_ : gmap Z Z;
  replacer_ : LRUKReplacer.LRUKReplacer;
  next_page_id_ : Z;
  disk_ : gmap Z (list ascii);     (* what the DiskManager holds *)
  requests_ : list DiskRequest;    (* scheduled so far, oldest first *)
  deallocated_ : list Z;           (* DeallocatePage calls so far *)
}.

Definition set_pages (s : BufferPoolManager) (v : list Page) :=
  mkPool (pool_size_ s) v (free_list_ s) (page_table_ s) (replacer_ s)
         (next_page_id_ s) (disk_ s) (requests_ s) (deallocated_ s).
Definition set_free_list (s : BufferPoolManager) (v : list Z) :=
  mkPool (pool_size_ s) (pages_ s) v (page_table_ s) (replacer_ s)
         (next_page_id_ s) (disk_ s) (requests_ s) (deallocated_ s).
Definition set_page_table (s : BufferPoolManager) (v : gmap Z Z) :=
  mkPool (pool_size_ s) (pages_ s) (free_list_ s) v (replacer_ s)
         (next_page_id_ s) (disk_ s) (requests_ s) (deallocated_ s).
Definition set_replacer (s : BufferPoolManager) (v : LRUKReplacer.LRUKReplacer) :=
  mkPool (pool_size_ s) (pages_ s) (free_list_ s) (page_table_ s) v
         (next_page_id_ s) (disk_ s) (requests_ s) (deallocated_ s).
Definition set_next_page_id (s : BufferPoolManager) (v : Z) :=
  mkPool (pool_size_ s) (pages_ s) (free_list_ s) (page_table_ s) (replacer_ s)
         v (disk_ s) (requests_ s) (deallocated_ s).
Definition set_disk (s : BufferPoolManager) (d : gmap Z (list ascii))
    (q : list DiskRequest) :=
  mkPool (pool_size_ s) (pages_ s) (free_list_ s) (page_table_ s) (replacer_ s)
         (next_page_id_ s) d q (deallocated_ s).
Definition set_deallocated (s : BufferPoolManager) (v : list Z) :=
  mkPool (pool_size_ s) (pages_ s) (free_list_ s) (page_table_ s) (replacer_ s)
         (next_page_id_ s) (disk_ s) (requests_ s) v.

Section WithPageSize.

(** BUSTUB_PAGE_SIZE, from common/config.h, which is not among the
    sources. *)
Variable PAGE_SIZE : nat.

(** [Page::ResetMemory]: [memset(data_, 0, PAGE_SIZE)]. *)
Definition zeroed : list ascii := replicate PAGE_SIZE zero.

(** Modelled from the spec: [Page::Page()] is in storage/page/page.h, not
    among the sources; a fresh frame has zeroed memory, no page, no pin
    and is clean. *)
Definition Page_new : Page := mkPage zeroed INVALID_PAGE_ID 0 false.

(** Modelled from the spec: [DiskManager::ReadPage(id, buf)] and
    [WritePage(id, buf)] are external; a page never written reads as
    zeros ("empty disk contents = zeroed pages"). *)
Definition ReadPage (disk : gmap Z (list ascii)) (page_id : Z) : list ascii :=
  default zeroed (disk !! page_id).
Definition WritePage (disk : gmap Z (list ascii)) (page_id : Z) (buf : list ascii)
    : gmap Z (list ascii) :=
  <[page_id := buf]> disk.

(** [BufferPoolManager::BufferPoolManager(pool_size, disk_manager, replacer_k)]
    on a disk with contents [disk]. *)
Definition new (pool_size replacer_k : Z) (disk : gmap Z (list ascii))
    : BufferPoolManager :=
  {| pool_size_ := pool_size;
     pages_ := replicate (Z.to_nat pool_size) Page_new;
     free_list_ := seqZ 0 pool_size;
     page_table_ := ∅;
     replacer_ := LRUKReplacer.new pool_size replacer_k;
     next_page_id_ := 0;
     disk_ := disk;
     requests_ := [];
     deallocated_ := [] |}.

(** [pages_[frame_id]]; outside the array the access is undefined. *)
Definition get_page (s : BufferPoolManager) (frame_id : Z) : outcome Page :=
  if bool_decide (0 ≤ frame_id) then
    match pages_ s !! Z.to_nat frame_id with
    | Some pg => Ok pg
    | None => Undefined
    end
  else Undefined.

Definition put_page (s : BufferPoolManager) (frame_id : Z) (pg : Page)
    : BufferPoolManager :=
  set_pages s (<[Z.to_nat frame_id := pg]> (pages_ s)).

(** [Schedule({true, data, page_id, promise}); future.get()]. *)
Definition write_back (s : BufferPoolManager) (pg : Page) : BufferPoolManager :=
  set_disk s (WritePage (disk_ s) (page_id_ pg) (data_ pg))
             (requests_ s ++ [mkRequest true (page_id_ pg) (data_ pg)]).

(** [Schedule({false, data, page_id, promise}); future.get()]: the bytes
    the buffer holds afterwards, and the state. *)
Definition read_in (s : BufferPoolManager) (page_id : Z)
    : list ascii * BufferPoolManager :=
  (ReadPage (disk_ s) page_id,
   set_disk s (disk_ s) (requests_ s ++ [mkRequest false page_id []])).

(** Lines 74-89 of NewPage, repeated as lines 114-129 of FetchPage: a
    frame from the back of the free list, else a victim of the replacer,
    written back if dirty and taken out of the page table.  [None] is
    the [return nullptr]. *)
Definition find_frame (s : BufferPoolManager)
    : outcome (option Z * BufferPoolManager) :=
  match last (free_list_ s) with
  | Some frame_id =>
      Ok (Some frame_id, set_free_list s (removelast (free_list_ s)))
  | None =>
      let '(victim, r) := LRUKReplacer.Evict (replacer_ s) in
      let s := set_replacer s r in
      match victim with
      | Some frame_id =>
          pg ← get_page s frame_id;
          let s := if is_dirty_ pg then write_back s pg else s in
          Ok (Some frame_id, set_page_table s (delete (page_id_ pg) (page_table_ s)))
      | None => Ok (None, s)
      end
  end.

(** [replacer_->RecordAccess(frame_id); replacer_->SetEvictable(frame_id, false)]. *)
Definition touch_and_pin (s : BufferPoolManager) (frame_id : Z)
    : outcome BufferPoolManager :=
  r ← LRUKReplacer.RecordAccess (replacer_ s) frame_id;
  r ← LRUKReplacer.SetEvictable r frame_id false;
  Ok (set_replacer s r).

(** ** NewPage (lines 71-102).  [out] is what [*page_id] holds before the
    call; the result is the frame of the returned page ([None] for
    [nullptr]), what [*page_id] holds afterwards, and the state. *)
Definition NewPage (s : BufferPoolManager) (out : Z)
    : outcome (option Z * Z * BufferPoolManager) :=
  '(found, s) ← find_frame s;
  match found with
  | None => Ok (None, out, s)
  | Some frame_id =>
      let page_id := next_page_id_ s in              (* AllocatePage() *)
      let s := set_next_page_id s (wrap_int32 (page_id + 1)) in
      _ ← get_page s frame_id;
      let s := put_page s frame_id (mkPage zeroed page_id 1 false) in
      s ← touch_and_pin s frame_id;
      Ok (Some frame_id, page_id, set_page_table s (<[page_id := frame_id]> (page_table_ s)))
  end.

(** ** FetchPage (lines 104-144) *)
Definition FetchPage (s : BufferPoolManager) (page_id : Z)
    : outcome (option Z * BufferPoolManager) :=
  match page_table_ s !! page_id with
  | Some frame_id =>
      pg ← get_page s frame_id;
      if bool_decide (pin_count_ pg = INT32_MAX) then Undefined   (* signed overflow *)
      else
        let s := put_page s frame_id
                   (mkPage (data_ pg) (page_id_ pg) (pin_count_ pg + 1) (is_dirty_ pg)) in
        s ← touch_and_pin s frame_id;
        Ok (Some frame_id, s)
  | None =>
      '(found, s) ← find_frame s;
      match found with
      | None => Ok (None, s)
      | Some frame_id =>
          _ ← get_page s frame_id;
          let '(buf, s) := read_in s page_id in
          let s := put_page s frame_id (mkPage buf page_id 1 false) in
          s ← touch_and_pin s frame_id;
          Ok (Some frame_id, set_page_table s (<[page_id := frame_id]> (page_table_ s)))
      end
  end.

(** ** UnpinPage (lines 146-165) *)
Definition UnpinPage (s : BufferPoolManager) (page_id : Z) (is_dirty : bool)
    : outcome (bool * BufferPoolManager) :=
  match page_table_ s !! page_id with
  | None => Ok (false, s)
  | Some frame_id =>
      pg ← get_page s frame_id;
      if bool_decide (pin_count_ pg ≤ 0) then Ok (false, s)
      else
        let pin := pin_count_ pg - 1 in
        let s := put_page s frame_id
                   (mkPage (data_ pg) (page_id_ pg) pin (is_dirty || is_dirty_ pg)) in
        if bool_decide (pin ≤ 0) then
          r ← LRUKReplacer.SetEvictable (replacer_ s) frame_id true;
          Ok (true, set_replacer s r)
        else Ok (true, s)
  end.

(** ** FlushPage (lines 167-185) and FlushAllPages (lines 187-191) *)
Definition FlushPage (s : BufferPoolManager) (page_id : Z)
    : outcome (bool * BufferPoolManager) :=
  if bool_decide (page_id = INVALID_PAGE_ID) then Ok (false, s)
  else
    match page_table_ s !! page_id with
    | None => Ok (false, s)
    | Some frame_id =>
        pg ← get_page s frame_id;
        let s := write_back s pg in
        Ok (true, put_page s frame_id
                    (mkPage (data_ pg) (page_id_ pg) (pin_count_ pg) false))
    end.

Fixpoint flush_frames (s : BufferPoolManager) (frame_ids : list Z)
    : outcome BufferPoolManager :=
  match frame_ids with
  | [] => Ok s
  | frame_id :: rest =>
      pg ← get_page s frame_id;
      r ← FlushPage s (page_id_ pg);
      flush_frames r.2 rest
  end.

Definition FlushAllPages (s : BufferPoolManager) : outcome BufferPoolManager :=
  flush_frames s (seqZ 0 (pool_size_ s)).

(** ** DeletePage (lines 193-212).  [DeallocatePage] is declared in the
    header, which is not among the sources; the model records the call. *)
Definition DeletePage (s : BufferPoolManager) (page_id : Z)
    : outcome (bool * BufferPoolManager) :=
  match page_table_ s !! page_id with
  | None => Ok (true, s)
  | Some frame_id =>
      pg ← get_page s frame_id;
      if bool_decide (pin_count_ pg > 0) then Ok (false, s)
      else
        r ← LRUKReplacer.Remove (replacer_ s) frame_id;
        let s := set_replacer s r in
        let s := set_page_table s (delete page_id (page_table_ s)) in
        let s := set_free_list s (free_list_ s ++ [frame_id]) in
        let s := put_page s frame_id (mkPage zeroed INVALID_PAGE_ID 0 false) in
        let s := set_deallocated s (deallocated_ s ++ [page_id]) in
        Ok (true, s)
  end.

(** A client writing [bytes] at [offset] into the page it got back for
    frame [frame_id] ([page->GetData()]). *)
Fixpoint overwrite (buf : list ascii) (offset : nat) (bytes : list ascii) : list ascii :=
  match bytes with
  | [] => buf
  | b :: bytes' => overwrite (<[offset := b]> buf) (S offset) bytes'
  end.

Definition write_bytes (s : BufferPoolManager) (frame_id : Z) (offset : nat)
    (bytes : list ascii) : outcome BufferPoolManager :=
  pg ← get_page s frame_id;
  Ok (put_page s frame_id
        (mkPage (overwrite (data_ pg) offset bytes) (page_id_ pg)
                (pin_count_ pg) (is_dirty_ pg))).

(** ** The end-to-end scenario of the specification

    [NewPage] gives id0; the client writes "A" at offset 0 and unpins
    id0 dirty; three more [NewPage] calls give id1, id2, id3, the last
    one evicting id0; then [FetchPage(id0)].  With [unpin_id1] the client
    unpins id1 before that last call.  The result is the frame
    [FetchPage] returned, if any, with its bytes. *)
Definition eviction_scenario (pool_size replacer_k : Z) (unpin_id1 : bool)
    : outcome (option (Z * list ascii)) :=
  let s := new pool_size replacer_k ∅ in
  '(page0, id0, s) ← NewPage s INVALID_PAGE_ID;
  match page0 with
  | None => Ok None
  | Some frame0 =>
      s ← write_bytes s frame0 0 ["A"%char];
      '(_, s) ← UnpinPage s id0 true;
      '(_, id1, s) ← NewPage s INVALID_PAGE_ID;
      '(_, id2, s) ← NewPage s INVALID_PAGE_ID;
      '(_, id3, s) ← NewPage s INVALID_PAGE_ID;
      '(_, s) ← (if unpin_id1 then UnpinPage s id1 false else Ok (true, s));
      '(page, s) ← FetchPage s id0;
      match page with
      | None => Ok None
      | Some frame =>
          pg ← get_page s frame; Ok (Some (frame, data_ pg))
      end
  end.

(** The pool of the scenario just before the [NewPage] that gives id3:
    full, with the page of id0 dirty and unpinned. *)
Definition full_pool_with_dirty_page (pool_size replacer_k : Z)
    : outcome BufferPoolManager :=
  let s := new pool_size replacer_k ∅ in
  '(page0, id0, s) ← NewPage s INVALID_PAGE_ID;
  match page0 with
  | None => Undefined
  | Some frame0 =>
      s ← write_bytes s frame0 0 ["A"%char];
      '(_, s) ← UnpinPage s id0 true;
      '(_, _, s) ← NewPage s INVALID_PAGE_ID;
      '(_, _, s) ← NewPage s INVALID_PAGE_ID;
      Ok s
  end.

(** ** Well-formed pools *)

(** What the pool's methods keep true of its members when the replacer
    was built with [k ≥ 2]: the replacer is consistent and covers the
    frames of the page array, the page table and the free list name
    frames of the array, pin counts are not negative, and a resident
    page nobody pins is evictable. *)
Record pool_ok (s : BufferPoolManager) : Prop := {
  po_k : 2 ≤ LRUKReplacer.k_ (replacer_ s);
  po_replacer : LRUKReplacer.consistent (replacer_ s);
  po_lists : LRUKReplacer.lists_by_count (replacer_ s);
  po_size : LRUKReplacer.replacer_size_ (replacer_ s)
            = Z.of_nat (length (pages_ s));
  po_table : ∀ page_id frame_id, page_table_ s !! page_id = Some frame_id →
      0 ≤ frame_id < Z.of_nat (length (pages_ s));
  po_free : ∀ frame_id, frame_id ∈ free_list_ s →
      0 ≤ frame_id < Z.of_nat (length (pages_ s));
  po_pins : ∀ pg, pg ∈ pages_ s → 0 ≤ pin_count_ pg;
  po_unpinned : ∀ page_id frame_id pg,
      page_table_ s !! page_id = Some frame_id →
      get_page s frame_id = Ok pg → pin_count_ pg ≤ 0 →
      frame_id ∉ LRUKReplacer.non_evictable_set_ (replacer_ s);
}.

End WithPageSize.

End BufferPoolManager.

(* ================================================================= *)
(** * The buffer pool over sequences of calls *)

Module PoolInvariants.
Import BufferPoolManager.

Section WithPageSize.

Variable PAGE_SIZE : nat.

(** The public methods of the pool (buffer_pool_manager.cpp 71-212). *)
Inductive pool_call : Type :=
  | CallNewPage
  | CallFetchPage (page_id : Z)
  | CallUnpinPage (page_id : Z) (is_dirty : bool)
  | CallFlushPage (page_id : Z)
  | CallFlushAllPages
  | CallDeletePage (page_id : Z).

(** The state a call leaves. *)
Definition pool_step (s : BufferPoolManager) (c : pool_call)
    : outcome BufferPoolManager :=
  match c with
  | CallNewPage => r ← NewPage PAGE_SIZE s INVALID_PAGE_ID; Ok r.2
  | CallFetchPage page_id => r ← FetchPage PAGE_SIZE s page_id; Ok r.2
  | CallUnpinPage page_id is_dirty => r ← UnpinPage s page_id is_dirty; Ok r.2
  | CallFlushPage page_id => r ← FlushPage s page_id; Ok r.2
  | CallFlushAllPages => FlushAllPages s
  | CallDeletePage page_id => r ← DeletePage PAGE_SIZE s page_id; Ok r.2
  end.

(** What a client has to respect: [NewPage] is not called once the
    allocator has handed out [INT32_MAX], a page is fetched only under an
    id that [NewPage] has handed out, and a page is not pinned more than
    [INT32_MAX] times. *)
Definition allowed (s : BufferPoolManager) (c : pool_call) : Prop :=
  match c with
  | CallNewPage => next_page_id_ s < INT32_MAX
  | CallFetchPage page_id =>
      0 ≤ page_id < next_page_id_ s ∧
      ∀ frame_id pg, page_table_ s !! page_id = Some frame_id →
                     get_page s frame_id = Ok pg → pin_count_ pg < INT32_MAX
  | _ => True
  end.

(** The states of a pool built with [(pool_size, replacer_k)] over a disk,
    after calls that respected [allowed] and returned. *)
Inductive pool_reachable (pool_size replacer_k : Z) : BufferPoolManager → Prop :=
  | reach_new disk :
      pool_reachable pool_size replacer_k (new PAGE_SIZE pool_size replacer_k disk)
  | reach_step s c s' :
      pool_reachable pool_size replacer_k s →
      allowed s c → pool_step s c = Ok s' →
      pool_reachable pool_size replacer_k s'.

(** The page a resident page id is held in. *)
Definition resident (s : BufferPoolManager) (page_id frame_id : Z) : Prop :=
  page_table_ s !! page_id = Some frame_id.

(** How the members of a pool hang together: on top of [pool_ok], the
    page table maps a page id to a frame that holds that id, resident ids
    were handed out by the allocator, the frames of the free list are
    blank and listed once, every frame is free or resident, the replacer
    tracks exactly the resident frames, and a pinned frame is in the
    replacer's non-evictable set. *)
Record pool_wf (s : BufferPoolManager) : Prop := {
  wf_ok : pool_ok s;
  wf_pool_size : pool_size_ s = Z.of_nat (length (pages_ s));
  wf_next : 0 ≤ next_page_id_ s ≤ INT32_MAX;
  wf_table_ids : ∀ page_id frame_id pg,
      resident s page_id frame_id → get_page s frame_id = Ok pg →
      page_id_ pg = page_id;
  wf_ids : ∀ page_id frame_id,
      resident s page_id frame_id → 0 ≤ page_id < next_page_id_ s;
  wf_free_blank : ∀ frame_id,
      frame_id ∈ free_list_ s →
      get_page s frame_id = Ok (mkPage (zeroed PAGE_SIZE) INVALID_PAGE_ID 0 false);
  wf_free_nodup : NoDup (free_list_ s);
  wf_cover : ∀ frame_id,
      0 ≤ frame_id < Z.of_nat (length (pages_ s)) →
      frame_id ∈ free_list_ s ∨ ∃ page_id, resident s page_id frame_id;
  wf_tracked : ∀ frame_id,
      LRUKReplacer.tracked (replacer_ s) frame_id ↔
      ∃ page_id, resident s page_id frame_id;
  wf_pinned : ∀ page_id frame_id pg,
      resident s page_id frame_id → get_page s frame_id = Ok pg →
      0 < pin_count_ pg →
      frame_id ∈ LRUKReplacer.non_evictable_set_ (replacer_ s);
}.

(** What the frame-acquisition lines of [NewPage] and [FetchPage] leave
    when they hand out the frame [frame_id], from a state [s] to a state
    [s1]: the frame is out of the free list, of the page table and of the
    replacer, and nothing else has moved. *)
Record frame_taken (s s1 : BufferPoolManager) (frame_id : Z) : Prop := {
  ft_ok : pool_ok s1;
  ft_range : 0 ≤ frame_id < Z.of_nat (length (pages_ s));
  ft_pages : pages_ s1 = pages_ s;
  ft_pool_size : pool_size_ s1 = pool_size_ s;
  ft_next : next_page_id_ s1 = next_page_id_ s;
  ft_untracked : ¬ LRUKReplacer.tracked (replacer_ s1) frame_id;
  ft_tracked : ∀ g, g ≠ frame_id →
      LRUKReplacer.tracked (replacer_ s1) g ↔ LRUKReplacer.tracked (replacer_ s) g;
  ft_non_evictable :
      LRUKReplacer.non_evictable_set_ (replacer_ s1)
      = LRUKReplacer.non_evictable_set_ (replacer_ s);
  ft_evictable : frame_id ∉ LRUKReplacer.non_evictable_set_ (replacer_ s);
  ft_table : ∀ page_id g, g ≠ frame_id →
      page_table_ s1 !! page_id = Some g ↔ page_table_ s !! page_id = Some g;
  ft_table_sub : ∀ page_id, page_table_ s !! page_id = None →
      page_table_ s1 !! page_id = None;
  ft_not_resident : ∀ page_id, page_table_ s1 !! page_id ≠ Some frame_id;
  ft_free : ∀ g, g ≠ frame_id → g ∈ free_list_ s1 ↔ g ∈ free_list_ s;
  ft_not_free : frame_id ∉ free_list_ s1;
  ft_free_nodup : NoDup (free_list_ s1);
  ft_origin :
      frame_id ∈ free_list_ s ∨
      ∃ page_id pg, resident s page_id frame_id ∧ get_page s frame_id = Ok pg ∧
                    pin_count_ pg ≤ 0;
  ft_disk :
      disk_ s1 = disk_ s ∨
      ∃ pg, get_page s frame_id = Ok pg ∧ is_dirty_ pg = true ∧
            disk_ s1 = WritePage (disk_ s) (page_id_ pg) (data_ pg);
}.

(** What [NewPage] and [FetchPage] on a miss leave when they return the
    frame [frame_id] for the page [page_id] with the bytes [data]: the
    frame was taken as [frame_taken] says, now holds the page with pin
    count 1, clean and non-evictable, and the page table maps the page id,
    which was not resident, to it. *)
Definition page_installed (s s' : BufferPoolManager) (frame_id page_id : Z)
    (data : list ascii) : Prop :=
  ∃ s1, frame_taken s s1 frame_id ∧
    pages_ s' = <[Z.to_nat frame_id := mkPage data page_id 1 false]> (pages_ s) ∧
    page_table_ s' = <[page_id := frame_id]> (page_table_ s1) ∧
    free_list_ s' = free_list_ s1 ∧
    page_table_ s !! page_id = None ∧
    frame_id ∈ LRUKReplacer.non_evictable_set_ (replacer_ s') ∧
    disk_ s' = disk_ s1 ∧
    (disk_ s1 = disk_ s ∨
     ∃ pg, get_page s frame_id = Ok pg ∧ is_dirty_ pg = true ∧
           disk_ s1 = WritePage (disk_ s) (page_id_ pg) (data_ pg)).

End WithPageSize.

End PoolInvariants.

(* ================================================================= *)
(** * The disk scheduler (src/buffer/buffer_pool_manager.cpp 21-48)

    The scheduler owns a queue of requests and a background thread that
    carries them out.  Other threads and the worker take turns; a turn is
    one call of [Schedule], the destructor's [Put(std::nullopt)], or one
    round of the worker's loop.

    Modelled from the spec: the queue ([Channel], common/channel.h) is
    not among the sources; it is the "producer/consumer queue" of the
    specification, whose [Get] blocks while the queue is empty and
    otherwise takes the oldest element, and whose [Put] appends. *)

Module DiskScheduler.

(** A [DiskRequest] (disk_scheduler.h is not among the sources; the
    members are those the .cpp file uses).  [data_] is a pointer to a
    buffer, here the address of the buffer; [callback_] is the promise
    the request owns, here its identity. *)
Record DiskRequest : Type := mkDiskRequest {
  is_write_ : bool;
  data_ : nat;
  page_id_ : Z;
  callback_ : nat;
}.

(** The scheduler with what it acts on: the disk behind [disk_manager_],
    the buffers requests point to, the promises that have been given a
    value.  [worker_exited_] tells that [StartWorkerThread] has returned.
    [performed_] is not a member: it lists the requests carried out so
    far, oldest first. *)
Record DiskScheduler : Type := mkDiskScheduler {
  disk_ : gmap Z (list ascii);
  memory_ : gmap nat (list ascii);
  request_queue_ : list (option DiskRequest);
  promises_ : gmap nat bool;
  worker_exited_ : bool;
  performed_ : list DiskRequest;
}.

Definition set_queue (s : DiskScheduler) (q : list (option DiskRequest)) :=
  mkDiskScheduler (disk_ s) (memory_ s) q (promises_ s) (worker_exited_ s)
                  (performed_ s).

Section WithPageSize.

Variable PAGE_SIZE : nat.

(** [DiskScheduler::DiskScheduler(disk_manager)] (lines 21-24): the
    worker is started on an empty queue. *)
Definition new (disk : gmap Z (list ascii)) (memory : gmap nat (list ascii))
    : DiskScheduler :=
  mkDiskScheduler disk memory [] ∅ false [].

(** [Schedule(r)] (line 34). *)
Definition Schedule (s : DiskScheduler) (r : DiskRequest) : DiskScheduler :=
  set_queue s (request_queue_ s ++ [Some r]).

(** The first line of the destructor (line 28). *)
Definition signal_exit (s : DiskScheduler) : DiskScheduler :=
  set_queue s (request_queue_ s ++ [None]).

(** The body of the worker's loop (lines 40-46) for the request [r]:
    the disk manager copies the buffer to the disk or the disk to the
    buffer, then the promise is given the value [true].  Copying from or
    to a buffer that does not exist is undefined; giving a value to a
    promise that has one throws, and an exception that leaves the thread
    function aborts the process. *)
Definition perform (s : DiskScheduler) (r : DiskRequest) : outcome DiskScheduler :=
  match memory_ s !! data_ r with
  | None => Undefined
  | Some buf =>
      let disk :=
        if is_write_ r
        then BufferPoolManager.WritePage (disk_ s) (page_id_ r) buf
        else disk_ s in
      let memory :=
        if is_write_ r then memory_ s
        else <[data_ r := BufferPoolManager.ReadPage PAGE_SIZE (disk_ s) (page_id_ r)]>
               (memory_ s) in
      match promises_ s !! callback_ r with
      | Some _ => ContractViolation
      | None =>
          Ok (mkDiskScheduler disk memory (request_queue_ s)
                (<[callback_ r := true]> (promises_ s)) (worker_exited_ s)
                (performed_ s ++ [r]))
      end
  end.

(** One round of [StartWorkerThread]'s loop (line 39 and the body): with
    nothing in the queue the worker stays blocked in [Get]; on
    [std::nullopt] it leaves the loop; on a request it carries it out. *)
Definition worker_turn (s : DiskScheduler) : outcome DiskScheduler :=
  if worker_exited_ s then Ok s
  else
    match request_queue_ s with
    | [] => Ok s
    | None :: q =>
        Ok (mkDiskScheduler (disk_ s) (memory_ s) q (promises_ s) true
                            (performed_ s))
    | Some r :: q => perform (set_queue s q) r
    end.

(** The turns of the scheduler's threads. *)
Inductive event : Type :=
  | EvSchedule (r : DiskRequest)
  | EvSignalExit
  | EvWorker.

Definition step (s : DiskScheduler) (e : event) : outcome DiskScheduler :=
  match e with
  | EvSchedule r => Ok (Schedule s r)
  | EvSignalExit => Ok (signal_exit s)
  | EvWorker => worker_turn s
  end.

Fixpoint run (s : DiskScheduler) (events : list event) : outcome DiskScheduler :=
  match events with
  | [] => Ok s
  | e :: events' => s' ← step s e; run s' events'
  end.

(** What the turns put into the queue, in order. *)
Definition puts (events : list event) : list (option DiskRequest) :=
  omap (λ e, match e with
             | EvSchedule r => Some (Some r)
             | EvSignalExit => Some None
             | EvWorker => None
             end) events.

(** The worker left to itself for [n] rounds. *)
Fixpoint worker_turns (n : nat) (s : DiskScheduler) : outcome DiskScheduler :=
  match n with
  | O => Ok s
  | S n' => s' ← worker_turn s; worker_turns n' s'
  end.

(** [background_thread_->join()] (line 30) while no other thread puts
    anything: the worker runs, one round for each element of the queue;
    [None] when it has not returned by then, which is when it is blocked
    on an empty queue for good. *)
Definition join (s : DiskScheduler) : outcome (option DiskScheduler) :=
  s' ← worker_turns (length (request_queue_ s)) s;
  Ok (if worker_exited_ s' then Some s' else None).

(** [DiskScheduler::~DiskScheduler()] (lines 26-32). *)
Definition destroy (s : DiskScheduler) : outcome (option DiskScheduler) :=
  join (signal_exit s).

End WithPageSize.

End DiskScheduler.

(* ================================================================= *)
(** * Page guards (storage/page/page_guard.cpp, which the sources hold
      at the end of src/primer/trie.cpp, lines 184-256) and the guarded
      fetches of the pool (src/buffer/buffer_pool_manager.cpp 216-240)

    Guards are objects with an address: moving from a guard changes the
    guard moved from, and a guard may be assigned to itself.  The model
    keeps the guards that are alive in a store and the methods act on
    addresses of that store. *)

Module PageGuard.

(** Modelled from the spec: page_guard.h is not among the sources.  A
    [BasicPageGuard] "owns a (pool, page) pair"; its members are those
    the .cpp file uses.  There is one pool, so [bpm_] is either the null
    pointer ([false]) or the pool; [page_] is the null pointer or a frame
    of [pages_].  A [ReadPageGuard] or [WritePageGuard] is its one member
    [guard_], a [BasicPageGuard]. *)
Record BasicPageGuard : Type := mkBasicPageGuard {
  bpm_ : bool;
  page_ : option Z;
  is_dirty_ : bool;
}.

(** Modelled from the spec: "a guard for a null page [...] acts as an
    inert guard"; this is the guard a default constructor leaves. *)
Definition BasicPageGuard_default : BasicPageGuard :=
  mkBasicPageGuard false None false.

(** What guards ask of the page and of the pool.  [Page::RLatch] and the
    like are declared in storage/page/page.h, which is not among the
    sources: the model records the calls, in order, and does not say
    when a latch makes its caller wait. *)
Inductive Action : Type :=
  | RLatch (frame_id : Z)
  | RUnlatch (frame_id : Z)
  | WLatch (frame_id : Z)
  | WUnlatch (frame_id : Z)
  | Unpin (page_id : Z) (is_dirty : bool).

Record World : Type := mkWorld {
  pool_ : BufferPoolManager.BufferPoolManager;
  guards_ : gmap nat BasicPageGuard;     (* the guards alive, by address *)
  calls_ : list Action;                  (* oldest first *)
}.

(** Using a guard that is not alive is undefined. *)
Definition guard_at (w : World) (g : nat) : outcome BasicPageGuard :=
  match guards_ w !! g with
  | Some x => Ok x
  | None => Undefined
  end.

Definition set_guard (w : World) (g : nat) (x : BasicPageGuard) : World :=
  mkWorld (pool_ w) (<[g := x]> (guards_ w)) (calls_ w).

(** The assignments to one member of the guard at [g]. *)
Definition set_bpm (w : World) (g : nat) (v : bool) : outcome World :=
  x ← guard_at w g; Ok (set_guard w g (mkBasicPageGuard v (page_ x) (is_dirty_ x))).
Definition set_page (w : World) (g : nat) (v : option Z) : outcome World :=
  x ← guard_at w g; Ok (set_guard w g (mkBasicPageGuard (bpm_ x) v (is_dirty_ x))).
Definition set_is_dirty (w : World) (g : nat) (v : bool) : outcome World :=
  x ← guard_at w g; Ok (set_guard w g (mkBasicPageGuard (bpm_ x) (page_ x) v)).

Definition add_call (w : World) (a : Action) : World :=
  mkWorld (pool_ w) (guards_ w) (calls_ w ++ [a]).

(** A new guard object at the address [g], which must not be in use. *)
Definition construct (w : World) (g : nat) (x : BasicPageGuard) : outcome World :=
  match guards_ w !! g with
  | Some _ => Undefined
  | None => Ok (set_guard w g x)
  end.

(** ** BasicPageGuard (lines 189-219) *)

(** [BasicPageGuard::Drop()]. *)
Definition BasicPageGuard_Drop (w : World) (this : nat) : outcome World :=
  x ← guard_at w this;
  w ← (if bpm_ x then
         match page_ x with
         | Some frame_id =>
             pg ← BufferPoolManager.get_page (pool_ w) frame_id;
             let page_id := BufferPoolManager.page_id_ pg in
             r ← BufferPoolManager.UnpinPage (pool_ w) page_id (is_dirty_ x);
             Ok (mkWorld r.2 (guards_ w) (calls_ w ++ [Unpin page_id (is_dirty_ x)]))
         | None => Ok w
         end
       else Ok w);
  w ← set_bpm w this false;
  set_page w this None.

(** The five assignments the move constructor and the move assignment
    share: [bpm_ = that.bpm_; page_ = that.page_; that.page_ = nullptr;
    that.bpm_ = nullptr; is_dirty_ = that.is_dirty_]. *)
Definition take_over (w : World) (this that : nat) : outcome World :=
  y ← guard_at w that; w ← set_bpm w this (bpm_ y);
  y ← guard_at w that; w ← set_page w this (page_ y);
  w ← set_page w that None;
  w ← set_bpm w that false;
  y ← guard_at w that; set_is_dirty w this (is_dirty_ y).

(** [BasicPageGuard::BasicPageGuard(BasicPageGuard &&that)]: the new
    object at [this]. *)
Definition BasicPageGuard_move (w : World) (this that : nat) : outcome World :=
  w ← construct w this BasicPageGuard_default;
  take_over w this that.

(** [BasicPageGuard::operator=(BasicPageGuard &&that)]. *)
Definition BasicPageGuard_assign (w : World) (this that : nat) : outcome World :=
  w ← BasicPageGuard_Drop w this;
  take_over w this that.

(** [BasicPageGuard::~BasicPageGuard()]: after [Drop] the object is no
    more. *)
Definition BasicPageGuard_destroy (w : World) (this : nat) : outcome World :=
  w ← BasicPageGuard_Drop w this;
  Ok (mkWorld (pool_ w) (delete this (guards_ w)) (calls_ w)).

(** ** ReadPageGuard (lines 221-236) *)

Definition ReadPageGuard_Drop (w : World) (this : nat) : outcome World :=
  x ← guard_at w this;
  let w := match page_ x with
           | Some frame_id => add_call w (RUnlatch frame_id)
           | None => w
           end in
  BasicPageGuard_Drop w this.

(** [ReadPageGuard::ReadPageGuard(ReadPageGuard &&that)]: the member
    [guard_] of the new object is built by default, then assigned. *)
Definition ReadPageGuard_move (w : World) (this that : nat) : outcome World :=
  w ← construct w this BasicPageGuard_default;
  BasicPageGuard_assign w this that.

Definition ReadPageGuard_assign (w : World) (this that : nat) : outcome World :=
  w ← ReadPageGuard_Drop w this;
  BasicPageGuard_assign w this that.

(** [ReadPageGuard::~ReadPageGuard()], followed by the destructor of the
    member [guard_]. *)
Definition ReadPageGuard_destroy (w : World) (this : nat) : outcome World :=
  w ← ReadPageGuard_Drop w this;
  BasicPageGuard_destroy w this.

(** ** WritePageGuard (lines 238-254) *)

Definition WritePageGuard_Drop (w : World) (this : nat) : outcome World :=
  x ← guard_at w this;
  let w := match page_ x with
           | Some frame_id => add_call w (WUnlatch frame_id)
           | None => w
           end in
  w ← set_is_dirty w this true;
  BasicPageGuard_Drop w this.

Definition WritePageGuard_move (w : World) (this that : nat) : outcome World :=
  w ← construct w this BasicPageGuard_default;
  BasicPageGuard_assign w this that.

Definition WritePageGuard_assign (w : World) (this that : nat) : outcome World :=
  w ← WritePageGuard_Drop w this;
  BasicPageGuard_assign w this that.

Definition WritePageGuard_destroy (w : World) (this : nat) : outcome World :=
  w ← WritePageGuard_Drop w this;
  BasicPageGuard_destroy w this.

(** ** The guarded fetches of the pool *)

Section WithPageSize.

Variable PAGE_SIZE : nat.

(** [return {this, page}]: the guard the caller receives, at the address
    [g]. *)
Definition return_guard (w : World) (pool : BufferPoolManager.BufferPoolManager)
    (g : nat) (page : option Z) : outcome World :=
  construct (mkWorld pool (guards_ w) (calls_ w)) g (mkBasicPageGuard true page false).

(** [FetchPageBasic] (lines 216-219). *)
Definition FetchPageBasic (w : World) (page_id : Z) (g : nat) : outcome World :=
  r ← BufferPoolManager.FetchPage PAGE_SIZE (pool_ w) page_id;
  return_guard w r.2 g r.1.

(** [FetchPageRead] (lines 221-227). *)
Definition FetchPageRead (w : World) (page_id : Z) (g : nat) : outcome World :=
  r ← BufferPoolManager.FetchPage PAGE_SIZE (pool_ w) page_id;
  let w := match r.1 with
           | Some frame_id => add_call w (RLatch frame_id)
           | None => w
           end in
  return_guard w r.2 g r.1.

(** [FetchPageWrite] (lines 229-235). *)
Definition FetchPageWrite (w : World) (page_id : Z) (g : nat) : outcome World :=
  r ← BufferPoolManager.FetchPage PAGE_SIZE (pool_ w) page_id;
  let w := match r.1 with
           | Some frame_id => add_call w (WLatch frame_id)
           | None => w
           end in
  return_guard w r.2 g r.1.

(** [NewPageGuarded] (lines 237-240): what [*page_id] holds afterwards,
    and the world. *)
Definition NewPageGuarded (w : World) (out : Z) (g : nat) : outcome (Z * World) :=
  r ← BufferPoolManager.NewPage PAGE_SIZE (pool_ w) out;
  w ← return_guard w r.2 g r.1.1;
  Ok (r.1.2, w).

End WithPageSize.

End PageGuard.

(* ================================================================= *)
(** * Properties of the trie *)

Section TrieFacts.
Import Trie.

(** ** Get after Put *)

Lemma Clone_id n : Clone n = n.
Proof. by destruct n. Qed.

Lemma put_chain_cons c rest node :
  put_chain (c :: rest) node = TrieNode_of {[c := put_chain rest node]}.
Proof. unfold put_chain. simpl. by rewrite foldl_app. Qed.

Lemma walk_put_chain key node : walk (put_chain key node) key = Some node.
Proof.
  induction key as [|c rest IH]; [done|].
  rewrite put_chain_cons. simpl. by rewrite lookup_singleton_eq.
Qed.

(** Unfolding [put_loop] on a key with at least two bytes left. *)
Lemma put_loop_cons2 p c c' rest node :
  put_loop p (c :: c' :: rest) node =
  set_child p c
    (put_loop (match children_ p !! c with
               | Some child => Clone child
               | None => TrieNode_new
               end) (c' :: rest) node).
Proof. reflexivity. Qed.

Lemma walk_put_loop rest : ∀ p c node,
  ∃ n', walk (put_loop p (c :: rest) node) (c :: rest) = Some n'
        ∧ value_ n' = value_ node.
Proof.
  induction rest as [|c' rest IH]; intros p c node.
  - simpl. rewrite lookup_insert_eq. case_decide; eauto.
  - rewrite put_loop_cons2. cbn [walk set_child children_].
    rewrite lookup_insert_eq. apply IH.
Qed.

Lemma Get_of_value T root key n v :
  walk root key = Some n → value_ n = Some v → type_of v = T →
  Get T (mkTrie (Some root)) key = Some v.
Proof.
  intros Hw Hv HT. unfold Get. simpl. rewrite Hw.
  unfold is_value_node_, dynamic_cast. rewrite Hv. simpl.
  by rewrite decide_True.
Qed.

(** The node [Put] leaves at the end of the key carries the value. *)
Lemma Put_installs_value (t : Trie) (key : list ascii) (v : Payload) :
  ∃ root n, root_ (Put t key v) = Some root ∧
    walk root key = Some n ∧ value_ n = Some v.
Proof.
  unfold Put. destruct (root_ t) as [root|].
  - destruct key as [|c rest].
    + by eexists _, _.
    + destruct (walk_put_loop rest (Clone root) c (TrieNodeWithValue_new v))
        as (n' & Hw & Hv).
      by eexists _, _.
  - eexists _, _. split; [done|]. split; [apply walk_put_chain|done].
Qed.

(** C1.  Round trip: in the trie [t.Put(k, v)], [Get<T>(k)] at the type
    [T] of [v] returns the payload [v]; [t] is any trie, the empty one
    included, and [k] any key, the empty one included. *)
Theorem Put_Get_roundtrip (t : Trie) (key : list ascii) (v : Payload) :
  Get (type_of v) (Put t key v) key = Some v.
Proof.
  destruct (Put_installs_value t key v) as (root & n & Hroot & Hw & Hv).
  destruct (Put t key v) as [r]. simpl in Hroot. subst r.
  by eapply Get_of_value.
Qed.

(** ** Remove: the loops read as a recursion *)

Lemma collect_path_acc key : ∀ node acc,
  collect_path node key acc = (acc ++.) <$> collect_path node key [].
Proof.
  induction key as [|c rest IH]; intros node acc; simpl.
  - by rewrite app_nil_r.
  - destruct (children_ node !! c) as [child|]; [|done].
    rewrite (IH child (acc ++ [child])), (IH child [child]).
    destruct (collect_path child rest []) as [ps|]; simpl; [|done].
    by rewrite <- app_assoc.
Qed.

Lemma collect_path_cons node c rest :
  collect_path node (c :: rest) [node] =
  match children_ node !! c with
  | Some child => (node ::.) <$> collect_path child rest [child]
  | None => None
  end.
Proof.
  simpl. destruct (children_ node !! c) as [child|]; [|done].
  rewrite (collect_path_acc rest child [node; child]).
  rewrite (collect_path_acc rest child [child]).
  by destruct (collect_path child rest []).
Qed.

Lemma collect_path_walk key : ∀ node,
  match collect_path node key [node] with
  | Some path => length path = S (length key) ∧ last path = walk node key
                 ∧ ∃ ps, path = node :: ps
  | None => walk node key = None
  end.
Proof.
  induction key as [|c rest IH]; intros node.
  - simpl. eauto.
  - rewrite collect_path_cons. simpl.
    destruct (children_ node !! c) as [child|]; [|done].
    specialize (IH child).
    destruct (collect_path child rest [child]) as [path|]; simpl; [|done].
    destruct IH as (Hlen & Hlast & ps & ->). simpl in *.
    split; [lia|]. split; [|eauto]. done.
Qed.

Lemma key_at_cons c key j : key_at (c :: key) (S j) = key_at key j.
Proof. reflexivity. Qed.

Lemma prune_loop_shift its : ∀ c key cn cr k,
  (length its ≤ k)%nat →
  prune_loop its (c :: key) cn cr k = prune_loop its key cn cr (k - 1)%nat.
Proof.
  induction its as [|it its IH]; intros c key cn cr k Hk; [done|].
  simpl in Hk. destruct k as [|j]; [lia|].
  cbn [prune_loop]. rewrite !key_at_cons.
  replace (S j - 1)%nat with j by lia.
  destruct (_ && _).
  - destruct (key_at key j); simpl; [|done..]. apply IH. lia.
  - destruct cr.
    + destruct (key_at key j); simpl; [|done..]. apply IH. lia.
    + apply IH. lia.
Qed.

Lemma prune_loop_app A : ∀ B key cn cr k,
  prune_loop (A ++ B) key cn cr k =
  r ← prune_loop A key cn cr k; prune_loop B key r.1 r.2 (k - length A)%nat.
Proof.
  induction A as [|it A IH]; intros B key cn cr k.
  - simpl. by rewrite Nat.sub_0_r.
  - cbn [app prune_loop length].
    replace (k - S (length A))%nat with (k - 1 - length A)%nat by lia.
    destruct (_ && _).
    + destruct (key_at key k); simpl; [|done..]. apply IH.
    + destruct cr.
      * destruct (key_at key k); simpl; [|done..]. apply IH.
      * apply IH.
Qed.

Lemma copy_loop_prune its : ∀ key cn k,
  copy_loop its key cn k = r ← prune_loop its key cn true k; Ok r.1.
Proof.
  induction its as [|it its IH]; intros key cn k; [done|].
  cbn [copy_loop prune_loop]. rewrite andb_false_r.
  destruct (key_at key k); simpl; [|done..]. apply IH.
Qed.

Lemma tail_snoc {A} (l : list A) x : l ≠ [] → tail (l ++ [x]) = tail l ++ [x].
Proof. by destruct l. Qed.

Lemma loops_remove_rec key : ∀ node path m,
  collect_path node key [node] = Some path →
  walk node key = Some m →
  prune_loop (tail (rev path)) key (start_node m)
             (negb (bool_decide (children_ m = ∅))) (length key - 1)%nat
  = Ok (match remove_rec node key with
        | Some r => (r, true)
        | None => (start_node m, false)
        end).
Proof.
  induction key as [|c rest IH]; intros node path m Hp Hw.
  - simpl in *. simplify_eq. simpl. unfold start_node.
    case_bool_decide; case_decide; try done. by destruct (is_value_node_ m).
  - rewrite collect_path_cons in Hp. simpl in Hw.
    destruct (children_ node !! c) as [child|] eqn:Hc; [|done].
    destruct (collect_path child rest [child]) as [sub|] eqn:Hsub; [|done].
    simpl in Hp. simplify_eq.
    pose proof (collect_path_walk rest child) as Hcw. rewrite Hsub in Hcw.
    destruct Hcw as (Hlen & _ & ps & ->).
    specialize (IH child _ m Hsub Hw).
    change (rev (node :: child :: ps)) with (rev (child :: ps) ++ [node]).
    rewrite tail_snoc by (simpl; by destruct (rev ps)).
    rewrite prune_loop_app.
    assert (length (tail (rev (child :: ps))) = length rest) as Hl.
    { pose proof (length_rev (child :: ps)) as Hr.
      destruct (rev (child :: ps)); simpl in *; lia. }
    rewrite Hl. simpl length.
    replace (S (length rest) - 1)%nat with (length rest) by lia.
    rewrite prune_loop_shift by lia. rewrite IH. simpl.
    rewrite Nat.sub_diag. cbn [remove_rec]. rewrite Hc.
    destruct (remove_rec child rest) as [child'|]; simpl.
    + rewrite andb_false_r. by rewrite Clone_id.
    + rewrite andb_true_r. destruct (_ || _); simpl; [by rewrite Clone_id|done].
Qed.

Lemma remove_rec_nonleaf key : ∀ node m,
  walk node key = Some m → children_ m ≠ ∅ → is_Some (remove_rec node key).
Proof.
  induction key as [|c rest IH]; intros node m Hw He; simpl in *.
  - simplify_eq. rewrite decide_False by done. by destruct (is_value_node_ m).
  - destruct (children_ node !! c) as [child|]; [|done].
    destruct (IH child m Hw He) as [r ->]. done.
Qed.

Lemma Remove_unfold root key :
  Remove (mkTrie (Some root)) key =
  Ok (match walk root key with
      | None => mkTrie (Some root)
      | Some _ => mkTrie (final_check (remove_rec root key))
      end).
Proof.
  unfold Remove. simpl.
  pose proof (collect_path_walk key root) as Hcw.
  destruct (collect_path root key [root]) as [path|] eqn:Hp.
  - destruct Hcw as (Hlen & Hlast & _).
    destruct (walk root key) as [m|] eqn:Hw.
    2:{ destruct path using rev_ind; [done|]. by rewrite last_snoc in Hlast. }
    rewrite Hlast.
    pose proof (loops_remove_rec key root path m Hp Hw) as HL.
    unfold start_node in HL.
    destruct (decide (children_ m = ∅)) as [He|He].
    + rewrite bool_decide_true in HL by done. simpl in HL. rewrite HL. simpl.
      destruct (remove_rec root key) as [r|]; simpl; [|done].
      by destruct (_ && _).
    + rewrite bool_decide_false in HL by done. simpl in HL.
      rewrite copy_loop_prune, Clone_id, HL. simpl.
      destruct (remove_rec root key) as [r|] eqn:Hr; simpl.
      * by destruct (_ && _).
      * by destruct (remove_rec_nonleaf key root m Hw He) as [? ?]; simplify_eq.
  - by rewrite Hcw.
Qed.

Lemma Get_lookup_value T t key :
  Get T t key = lookup_value (root_ t) key ≫= cast_to T.
Proof.
  unfold Get, lookup_value, walk_opt. destruct (root_ t) as [root|]; simpl; [|done].
  destruct (walk root key) as [n|]; simpl; [|done].
  unfold is_value_node_, dynamic_cast. by destruct (value_ n).
Qed.

Lemma node_at_walk_opt t key : node_at t key = walk_opt (root_ t) key.
Proof. unfold node_at, walk_opt. by destruct (root_ t). Qed.

(** Maps with at most one entry. *)
Lemma small_map_lookup_other {A} (m : gmap ascii A) c x c' :
  m !! c = Some x → ¬ (1 < size m)%nat → c' ≠ c → m !! c' = None.
Proof.
  intros Hc Hs Hne. destruct (m !! c') as [y|] eqn:Hc'; [|done].
  exfalso. apply Hs.
  rewrite <- (insert_id m c x Hc), <- (insert_delete_eq m).
  rewrite map_size_insert_None by apply lookup_delete_eq.
  assert (delete c m !! c' = Some y) as Hd by by rewrite lookup_delete_ne.
  assert (delete c m ≠ ∅) as Hne' by (intros He; by rewrite He in Hd).
  apply map_size_non_empty_iff in Hne'. lia.
Qed.

Lemma big_map_delete_nonempty {A} (m : gmap ascii A) c :
  (1 < size m)%nat → delete c m ≠ ∅.
Proof.
  intros Hs He. apply map_size_empty_iff in He.
  pose proof (map_size_delete c m) as Hd.
  destruct (m !! c); unfold id in Hd; simpl in Hd; lia.
Qed.

Section remove_rec_facts.
Context (m : TrieNode) (Hval : is_value_node_ m = true).

Lemma remove_rec_not_dangling key : ∀ n r,
  walk n key = Some m → remove_rec n key = Some r → ¬ dangling r.
Proof using Hval.
  unfold dangling.
  destruct key as [|c rest]; intros n r Hw Hr [Hnv He]; simpl in *.
  - simplify_eq. rewrite Hval in Hr. case_decide; [done|]. by simplify_eq.
  - destruct (children_ n !! c) as [child|]; [|done].
    destruct (remove_rec child rest) as [child'|].
    + simplify_eq. simpl in He. by apply insert_non_empty in He.
    + destruct (is_value_node_ n) eqn:Hn; simpl in Hr.
      * simplify_eq. unfold is_value_node_ in *. simpl in *. congruence.
      * case_bool_decide; [|done]. simplify_eq. simpl in He.
        by apply big_map_delete_nonempty in He.
Qed.

Lemma walk_opt_remove_rec_cons n c rest child p :
  children_ n !! c = Some child →
  walk_opt (remove_rec n (c :: rest)) (c :: p) = walk_opt (remove_rec child rest) p.
Proof.
  intros Hc. simpl. rewrite Hc.
  destruct (remove_rec child rest) as [child'|]; simpl.
  - by rewrite lookup_insert_eq.
  - destruct (_ || _); simpl; [|done]. by rewrite lookup_delete_eq.
Qed.

Lemma lookup_value_remove_rec_same key : ∀ n,
  walk n key = Some m → lookup_value (remove_rec n key) key = None.
Proof using Hval.
  induction key as [|c rest IH]; intros n Hw.
  - simpl in *. simplify_eq. rewrite Hval. by case_decide.
  - simpl in Hw. destruct (children_ n !! c) as [child|] eqn:Hc; [|done].
    unfold lookup_value. rewrite (walk_opt_remove_rec_cons _ _ _ child) by done.
    by apply IH.
Qed.

Lemma lookup_value_remove_rec_other key : ∀ n key',
  walk n key = Some m → key' ≠ key →
  lookup_value (remove_rec n key) key' = lookup_value (Some n) key'.
Proof using Hval.
  induction key as [|c rest IH]; intros n key' Hw Hne.
  - simpl in Hw. simplify_eq. simpl. rewrite Hval.
    destruct key' as [|c' rest']; [done|].
    case_decide as He; unfold lookup_value; simpl; [|done].
    by rewrite He, lookup_empty.
  - simpl in Hw. destruct (children_ n !! c) as [child|] eqn:Hc; [|done].
    destruct key' as [|c' rest'].
    + simpl. rewrite Hc. destruct (remove_rec child rest); [done|].
      unfold lookup_value. simpl.
      destruct (is_value_node_ n) eqn:Hn; simpl; [done|].
      case_bool_decide; simpl; [done|].
      unfold is_value_node_ in Hn. by destruct (value_ n).
    + destruct (decide (c' = c)) as [->|Hcc].
      * unfold lookup_value. rewrite (walk_opt_remove_rec_cons _ _ _ child) by done.
        simpl. rewrite Hc. apply (IH child rest' Hw). congruence.
      * unfold lookup_value. simpl. rewrite Hc.
        destruct (remove_rec child rest); simpl.
        { by rewrite lookup_insert_ne. }
        destruct (is_value_node_ n) eqn:Hn; simpl.
        { by rewrite lookup_delete_ne. }
        case_bool_decide as Hs; simpl.
        { by rewrite lookup_delete_ne. }
        by rewrite (small_map_lookup_other _ c child c').
Qed.

(** Which nodes on the path are gone. *)
Lemma remove_rec_pruned key : ∀ n p,
  walk n key = Some m → p `prefix_of` key →
  (walk_opt (remove_rec n key) p = None ↔
     children_ m = ∅ ∧
     ∀ q a, p `prefix_of` q → q `prefix_of` key → q ≠ key →
            walk n q = Some a →
            is_value_node_ a = false ∧ (size (children_ a) ≤ 1)%nat).
Proof using Hval.
  induction key as [|c rest IH]; intros n p Hw Hp.
  - apply prefix_nil_inv in Hp as ->. simpl in Hw. simplify_eq.
    simpl. rewrite Hval. split.
    + case_decide; [|done]. intros _. split; [done|].
      intros q a _ Hq Hne. by apply prefix_nil_inv in Hq.
    + intros [He _]. by rewrite decide_True.
  - simpl in Hw. destruct (children_ n !! c) as [child|] eqn:Hc; [|done].
    destruct p as [|c0 p'].
    + specialize (IH child [] Hw (prefix_nil _)).
      simpl. rewrite Hc.
      destruct (remove_rec child rest) as [child'|] eqn:Hr; simpl.
      * split; [done|]. intros [He Hall]. simpl in IH.
        assert (Some child' = None) as Hbad; [|done].
        apply IH. split; [done|]. intros q a _ Hq Hne Ha.
        apply (Hall (c :: q) a); [apply prefix_nil|by apply prefix_cons|congruence|].
        simpl. by rewrite Hc.
      * simpl in IH. destruct IH as [IH _]. destruct (IH eq_refl) as [He Hall].
        destruct (is_value_node_ n) eqn:Hn; simpl.
        { split; [done|]. intros [_ Hall'].
          destruct (Hall' [] n); [done|apply prefix_nil|done|done|congruence]. }
        case_bool_decide as Hs; simpl.
        { split; [done|]. intros [_ Hall'].
          destruct (Hall' [] n); [done|apply prefix_nil|done|done|lia]. }
        split; [|done]. intros _. split; [done|].
        intros q a _ Hq Hne Ha. destruct q as [|c1 q'].
        { simpl in Ha. simplify_eq. split; [done|lia]. }
        pose proof (prefix_cons_inv_1 _ _ _ _ Hq) as ->.
        apply prefix_cons_inv_2 in Hq. simpl in Ha. rewrite Hc in Ha.
        apply (Hall q' a); [apply prefix_nil|done|congruence|done].
    + pose proof (prefix_cons_inv_1 _ _ _ _ Hp) as ->.
      apply prefix_cons_inv_2 in Hp.
      rewrite (walk_opt_remove_rec_cons _ _ _ child) by done.
      rewrite (IH child p' Hw Hp). split; intros [He Hall]; (split; [done|]).
      * intros q a Hpq Hq Hne Ha. destruct q as [|c1 q'].
        { by apply prefix_nil_inv in Hpq. }
        pose proof (prefix_cons_inv_1 _ _ _ _ Hq) as ->.
        apply prefix_cons_inv_2 in Hq. apply prefix_cons_inv_2 in Hpq.
        simpl in Ha. rewrite Hc in Ha.
        apply (Hall q' a); [done|done|congruence|done].
      * intros q a Hpq Hq Hne Ha.
        apply (Hall (c :: q) a);
          [by apply prefix_cons|by apply prefix_cons|congruence|].
        simpl. by rewrite Hc.
Qed.

(** Nodes on the path that are kept are not dangling. *)
Lemma remove_rec_path_not_dangling key : ∀ n p a,
  walk n key = Some m → p `prefix_of` key →
  walk_opt (remove_rec n key) p = Some a → ¬ dangling a.
Proof using Hval.
  induction key as [|c rest IH]; intros n p a Hw Hp Ha.
  - apply prefix_nil_inv in Hp as ->. unfold walk_opt in Ha.
    destruct (remove_rec n []) as [r|] eqn:Hr; simpl in Ha; [|done].
    simplify_eq. by eapply (remove_rec_not_dangling []).
  - destruct p as [|c0 p'].
    + unfold walk_opt in Ha.
      destruct (remove_rec n (c :: rest)) as [r|] eqn:Hr; simpl in Ha; [|done].
      simplify_eq. by eapply (remove_rec_not_dangling (c :: rest)).
    + pose proof (prefix_cons_inv_1 _ _ _ _ Hp) as ->.
      apply prefix_cons_inv_2 in Hp. simpl in Hw.
      destruct (children_ n !! c) as [child|] eqn:Hc; [|done].
      rewrite (walk_opt_remove_rec_cons _ _ _ child) in Ha by done.
      by eapply IH.
Qed.

(** Nodes off the path are nodes of the old trie. *)
Lemma remove_rec_off_path key : ∀ n k a,
  walk n key = Some m → ¬ k `prefix_of` key →
  walk_opt (remove_rec n key) k = Some a → walk n k = Some a.
Proof using Hval.
  induction key as [|c rest IH]; intros n k a Hw Hk Ha.
  - destruct k as [|c' k']; [by destruct Hk|].
    simpl in Hw. simplify_eq. simpl in Ha. rewrite Hval in Ha.
    case_decide; [done|]. done.
  - destruct k as [|c' k']; [destruct Hk; apply prefix_nil|].
    simpl in Hw. destruct (children_ n !! c) as [child|] eqn:Hc; [|done].
    destruct (decide (c' = c)) as [->|Hne].
    + rewrite (walk_opt_remove_rec_cons _ _ _ child) in Ha by done.
      simpl. rewrite Hc. apply (IH child k' a Hw); [|done].
      intros Hp. apply Hk. by apply prefix_cons.
    + simpl in Ha. rewrite Hc in Ha.
      destruct (remove_rec child rest); simpl in Ha.
      { by rewrite lookup_insert_ne in Ha. }
      destruct (_ || _); simpl in Ha; [|done].
      by rewrite lookup_delete_ne in Ha.
Qed.
End remove_rec_facts.

Lemma final_check_not_dangling r : ¬ dangling r → final_check (Some r) = Some r.
Proof.
  unfold dangling, final_check. intros Hd.
  case_bool_decide as He; simpl; [|done].
  destruct (is_value_node_ r); simpl; [done|]. by destruct Hd.
Qed.

(** [Remove] of a present key, in terms of the recursion. *)
Lemma Remove_present_unfold root key m :
  walk root key = Some m → is_value_node_ m = true →
  Remove (mkTrie (Some root)) key = Ok (mkTrie (remove_rec root key)).
Proof.
  intros Hw Hval. rewrite Remove_unfold, Hw. do 2 f_equal.
  destruct (remove_rec root key) as [r|] eqn:Hr; [|done].
  apply final_check_not_dangling. by eapply remove_rec_not_dangling.
Qed.

(** [Remove] when the walk along the key falls off the trie: the early
    [return *this]. *)
Lemma Remove_no_path root key :
  walk root key = None → Remove (mkTrie (Some root)) key = Ok (mkTrie (Some root)).
Proof. intros Hw. by rewrite Remove_unfold, Hw. Qed.

(** [Remove] on the empty trie dereferences the null root. *)
Lemma Remove_empty key : Remove empty key = Undefined.
Proof. reflexivity. Qed.

(** C4.  Removing a present key [key] from [t] returns a trie [t'] in
    which [key] is absent at every type, every other key is observed as
    in [t], no node left on the path of [key] lacks both a value and
    children, the node at a prefix [p] of [key] is gone exactly when the
    node the key ended at had no children and no node from [p] down to
    the parent of that end node holds a value or has another child, and
    [t'] has no root exactly when that holds from the root down.  Tries
    whose leaves all carry values stay so. *)
Theorem Remove_present (t : Trie) (key : list ascii) :
  present t key →
  ∃ t', Remove t key = Ok t' ∧
    (∀ T, Get T t' key = None) ∧
    (∀ T key', key' ≠ key → Get T t' key' = Get T t key') ∧
    (∀ p n, p `prefix_of` key → node_at t' p = Some n → ¬ dangling n) ∧
    (∀ p, p `prefix_of` key →
       (node_at t' p = None ↔
          (∃ m, node_at t key = Some m ∧ children_ m = ∅) ∧
          ∀ q a, p `prefix_of` q → q `prefix_of` key → q ≠ key →
                 node_at t q = Some a →
                 is_value_node_ a = false ∧ (size (children_ a) ≤ 1)%nat)) ∧
    (root_ t' = None ↔
       (∃ m, node_at t key = Some m ∧ children_ m = ∅) ∧
       ∀ q a, q `prefix_of` key → q ≠ key → node_at t q = Some a →
              is_value_node_ a = false ∧ (size (children_ a) ≤ 1)%nat) ∧
    (leaves_have_values t → leaves_have_values t').
Proof.
  intros (m & Hm & Hval). destruct t as [[root|]]; [|done].
  unfold node_at in Hm. simpl in Hm.
  exists (mkTrie (remove_rec root key)).
  assert (∀ p, p `prefix_of` key →
    (node_at (mkTrie (remove_rec root key)) p = None ↔
       (∃ m, node_at (mkTrie (Some root)) key = Some m ∧ children_ m = ∅) ∧
       ∀ q a, p `prefix_of` q → q `prefix_of` key → q ≠ key →
              node_at (mkTrie (Some root)) q = Some a →
              is_value_node_ a = false ∧ (size (children_ a) ≤ 1)%nat)) as Hpruned.
  { intros p Hp. rewrite node_at_walk_opt. simpl.
    rewrite (remove_rec_pruned m Hval key root p Hm Hp).
    unfold node_at. simpl. rewrite Hm. split.
    - intros [He Hall]. eauto.
    - intros [(m' & ? & He) Hall]. by simplify_eq. }
  split; [by eapply Remove_present_unfold|].
  split; [|split; [|split; [|split; [|split]]]].
  - intros T. rewrite Get_lookup_value. simpl.
    by rewrite (lookup_value_remove_rec_same m Hval).
  - intros T key' Hne. rewrite !Get_lookup_value. simpl.
    by rewrite (lookup_value_remove_rec_other m Hval).
  - intros p n Hp. rewrite node_at_walk_opt. simpl.
    by apply (remove_rec_path_not_dangling m Hval key root).
  - exact Hpruned.
  - specialize (Hpruned [] (prefix_nil _)).
    rewrite node_at_walk_opt in Hpruned. simpl in Hpruned.
    assert (walk_opt (remove_rec root key) [] = remove_rec root key) as Hroot
      by by destruct (remove_rec root key).
    rewrite Hroot in Hpruned. simpl. rewrite Hpruned.
    split; intros [He Hall]; (split; [done|]).
    + intros q a. apply Hall, prefix_nil.
    + intros q a _. apply Hall.
  - intros Hinv k a. rewrite node_at_walk_opt. simpl. intros Ha.
    destruct (decide (k `prefix_of` key)) as [Hp|Hp].
    + by apply (remove_rec_path_not_dangling m Hval key root k).
    + apply (Hinv k). unfold node_at. simpl.
      by apply (remove_rec_off_path m Hval key root).
Qed.

(** The hypothesis of [Remove_present] at the key "ab" of the trie that
    holds "abc", "ab" and "abcd". *)
Lemma Remove_present_witness :
  let t := Put (Put (Put empty (key_of "abc") (VUInt32 1))
                    (key_of "ab") (VUInt32 2)) (key_of "abcd") (VUInt32 3) in
  present t (key_of "ab") ∧
  ∃ t', Remove t (key_of "ab") = Ok t' ∧
        Get TUInt32 t' (key_of "ab") = None ∧
        Get TUInt32 t' (key_of "abc") = Some (VUInt32 1).
Proof.
  intros t.
  assert (present t (key_of "ab")) as Hp.
  { eexists. split; [vm_compute; reflexivity|reflexivity]. }
  split; [exact Hp|].
  destruct (Remove_present t (key_of "ab") Hp) as (t' & Hr & Hg & Ho & _).
  exists t'. split; [exact Hr|]. split; [apply Hg|].
  rewrite Ho by (vm_compute; congruence). vm_compute. reflexivity.
Defined.

(** ** Remove of a key that is not present *)

(** C2, at a failing input.  In the trie holding only "ab", the key "a"
    is not present, yet [Remove("a")] returns a trie in which "ab" is no
    longer found: the node for "a" has been replaced by an empty node. *)
Theorem Remove_absent_key_drops_subtree :
  let t := Put empty (key_of "ab") (VUInt32 1) in
  (∀ T, Get T t (key_of "a") = None) ∧
  Get TUInt32 t (key_of "ab") = Some (VUInt32 1) ∧
  ∃ t', Remove t (key_of "a") = Ok t' ∧
        Get TUInt32 t' (key_of "ab") = None.
Proof.
  intros t. split; [by intros []|]. split; [by vm_compute|].
  eexists. split; [vm_compute; reflexivity|]. by vm_compute.
Qed.

(** The same defect on the empty key: the root of the trie holding only
    "ab" has no value, and [Remove("")] returns the empty trie. *)
Lemma Remove_empty_key_drops_trie :
  let t := Put empty (key_of "ab") (VUInt32 1) in
  (∀ T, Get T t [] = None) ∧ Remove t [] = Ok empty.
Proof. intros t. split; [by intros []|]. by vm_compute. Qed.

(** ** Leaves and values *)

(** C9, at a failing input.  [Put("ab", 1)] on the empty trie followed by
    [Remove("a")] yields a trie in which the key "a" leads to a node with
    neither a value nor children. *)
Theorem Remove_leaves_dangling_node :
  ∃ t', Remove (Put empty (key_of "ab") (VUInt32 1)) (key_of "a") = Ok t' ∧
        (∃ n, node_at t' (key_of "a") = Some n ∧ dangling n) ∧
        ¬ leaves_have_values t'.
Proof.
  eexists. split; [vm_compute; reflexivity|].
  assert (∃ n, node_at
     {| root_ := Some (Node None {[ "a"%char := Node None ∅ ]}) |}
     (key_of "a") = Some n ∧ dangling n) as Hd.
  { exists (Node None ∅). split; [by vm_compute|]. by split. }
  split; [exact Hd|].
  destruct Hd as (n & Hn & Hd). intros Hinv. by apply (Hinv _ _ Hn).
Qed.

(** ** Put and the other keys *)

Lemma walk_new_node key : key ≠ [] → walk TrieNode_new key = None.
Proof. destruct key; [done|]. intros _. simpl. by rewrite lookup_empty. Qed.

Lemma walk_same_children n n' key :
  children_ n = children_ n' → key ≠ [] → walk n key = walk n' key.
Proof. destruct key; [done|]. intros Hch _. simpl. by rewrite Hch. Qed.

(** The node [Put] installs at the end of the key: the value of [node]
    over the children of what was there. *)
Lemma put_loop_last p c node :
  children_ node = ∅ →
  put_loop p [c] node =
  set_child p c (with_children node
                   (children_ (match children_ p !! c with
                               | Some child => child
                               | None => TrieNode_new
                               end))).
Proof.
  intros Hn. simpl. unfold set_child. simpl. rewrite insert_insert_eq.
  do 2 f_equal.
  destruct (children_ p !! c) as [child|]; rewrite ?Clone_id; simpl.
  - case_decide as He; [|done]. rewrite He. by destruct node; simplify_eq/=.
  - rewrite decide_True by done. by destruct node; simplify_eq/=.
Qed.

Lemma put_loop_has_child p c rest node :
  children_ node = ∅ → children_ (put_loop p (c :: rest) node) ≠ ∅.
Proof.
  intros Hn. destruct rest; [rewrite put_loop_last by done|rewrite put_loop_cons2];
    simpl; apply insert_non_empty.
Qed.

Lemma put_loop_other_child p c rest node c' :
  children_ node = ∅ → c' ≠ c →
  children_ (put_loop p (c :: rest) node) !! c' = children_ p !! c'.
Proof.
  intros Hn Hc. destruct rest; [rewrite put_loop_last by done|rewrite put_loop_cons2];
    simpl; by rewrite lookup_insert_ne.
Qed.

Lemma put_loop_value p c rest node :
  children_ node = ∅ → value_ (put_loop p (c :: rest) node) = value_ p.
Proof.
  intros Hn. by destruct rest; [rewrite put_loop_last by done|rewrite put_loop_cons2].
Qed.

(** A node of the new trie is either not dangling or a node of the old
    one at the same place, off the key. *)
Lemma walk_put_loop_other key : ∀ p node k n,
  key ≠ [] → children_ node = ∅ → is_value_node_ node = true →
  walk (put_loop p key node) k = Some n →
  ¬ dangling n ∨ (k ≠ [] ∧ k ≠ key ∧ walk p k = Some n).
Proof.
  induction key as [|c rest IH]; intros p node k n Hne Hch Hv Hw; [done|].
  destruct k as [|c' k'].
  { left. simpl in Hw. simplify_eq. intros [_ He].
    by apply (put_loop_has_child p c rest node). }
  destruct (decide (c' = c)) as [->|Hc].
  2:{ right. split; [done|]. split; [congruence|].
      cbn [walk] in *. by rewrite put_loop_other_child in Hw. }
  destruct rest as [|c2 rest].
  - rewrite put_loop_last in Hw by done.
    cbn [walk set_child children_] in Hw. rewrite lookup_insert_eq in Hw.
    destruct k' as [|c3 k3].
    + left. simpl in Hw. simplify_eq. intros [Hnv _].
      unfold is_value_node_ in *. simpl in *. congruence.
    + right. split; [done|]. split; [congruence|].
      cbn [walk]. destruct (children_ p !! c) as [child|]; [exact Hw|].
      simpl in Hw. by rewrite lookup_empty in Hw.
  - rewrite put_loop_cons2 in Hw.
    cbn [walk set_child children_] in Hw. rewrite lookup_insert_eq in Hw.
    destruct (IH _ node k' n ltac:(done) Hch Hv Hw) as [Hd|(Hk0 & Hk & Hw')];
      [by left|].
    right. split; [done|]. split; [congruence|]. cbn [walk].
    destruct (children_ p !! c) as [child|].
    + by rewrite Clone_id in Hw'.
    + by rewrite walk_new_node in Hw'.
Qed.

(** Observations off the key are those of the old trie. *)
Lemma lookup_value_put_loop key : ∀ p node k,
  key ≠ [] → children_ node = ∅ → k ≠ key →
  lookup_value (Some (put_loop p key node)) k = lookup_value (Some p) k.
Proof.
  induction key as [|c rest IH]; intros p node k Hne Hch Hk; [done|].
  unfold lookup_value, walk_opt. cbn [mbind option_bind].
  destruct k as [|c' k'].
  { cbn [walk mbind option_bind]. by rewrite put_loop_value. }
  destruct (decide (c' = c)) as [->|Hc].
  2:{ cbn [walk]. by rewrite put_loop_other_child. }
  destruct rest as [|c2 rest].
  - rewrite put_loop_last by done.
    cbn [walk set_child children_]. rewrite lookup_insert_eq.
    destruct k' as [|c3 k3]; [done|]. simpl.
    destruct (children_ p !! c) as [child|]; [done|].
    simpl. by rewrite lookup_empty.
  - rewrite put_loop_cons2.
    cbn [walk set_child children_]. rewrite lookup_insert_eq.
    assert (k' ≠ c2 :: rest) as Hk' by congruence.
    specialize (IH (match children_ p !! c with
                    | Some child => Clone child | None => TrieNode_new end)
                   node k' ltac:(done) Hch Hk').
    unfold lookup_value, walk_opt in IH. cbn [mbind option_bind] in IH. rewrite IH.
    destruct (children_ p !! c) as [child|]; [by rewrite Clone_id|].
    destruct k'; [done|]. by rewrite walk_new_node.
Qed.

Lemma walk_put_chain_not_dangling key : ∀ node k n,
  is_value_node_ node = true → children_ node = ∅ →
  walk (put_chain key node) k = Some n → ¬ dangling n.
Proof.
  induction key as [|c rest IH]; intros node k n Hv Hch Hw [Hnv He].
  - destruct k as [|c' k'].
    + unfold put_chain in Hw. simpl in Hw. simplify_eq. congruence.
    + unfold put_chain in Hw. simpl in Hw. by rewrite Hch, lookup_empty in Hw.
  - rewrite put_chain_cons in Hw. destruct k as [|c' k'].
    + simpl in Hw. injection Hw as <-. simpl in He.
      by apply map_non_empty_singleton in He.
    + simpl in Hw. destruct (decide (c' = c)) as [->|Hc].
      * rewrite lookup_singleton_eq in Hw. by apply (IH node k' n Hv Hch Hw).
      * by rewrite lookup_singleton_ne in Hw.
Qed.

Lemma lookup_value_put_chain key : ∀ node k,
  children_ node = ∅ → k ≠ key →
  lookup_value (Some (put_chain key node)) k = None.
Proof.
  induction key as [|c rest IH]; intros node k Hch Hk; unfold lookup_value; simpl.
  - destruct k as [|c' k']; [done|]. unfold put_chain. simpl.
    by rewrite Hch, lookup_empty.
  - rewrite put_chain_cons. destruct k as [|c' k']; [done|]. simpl.
    destruct (decide (c' = c)) as [->|Hc].
    + rewrite lookup_singleton_eq. apply (IH node k' Hch). by intros ->.
    + by rewrite lookup_singleton_ne.
Qed.

(** Keys other than the one put are observed as before. *)
Lemma Get_Put_other (t : Trie) (key : list ascii) (v : Payload) T k :
  k ≠ key → Get T (Put t key v) k = Get T t k.
Proof.
  intros Hk. rewrite !Get_lookup_value. f_equal. unfold Put.
  destruct (root_ t) as [root|]; [destruct key as [|c rest]|]; cbn [root_].
  - destruct k as [|c' k']; [done|]. done.
  - rewrite lookup_value_put_loop by done. by rewrite Clone_id.
  - by rewrite lookup_value_put_chain.
Qed.

(** X2.  [Put] keeps the invariant of the trie: when no key of [t] leads
    to a node with neither a value nor children, none of [t.Put(key, v)]
    does, whatever [key] and [v]. *)
Lemma Put_leaves_have_values (t : Trie) (key : list ascii) (v : Payload) :
  leaves_have_values t → leaves_have_values (Put t key v).
Proof.
  intros Hinv k n. unfold node_at, Put.
  destruct (root_ t) as [root|] eqn:Hroot; [destruct key as [|c rest]|]; cbn [root_].
  - destruct k as [|c' k'].
    + intros [= <-] [Hnv _]. done.
    + intros Hw. apply (Hinv (c' :: k')). unfold node_at. by rewrite Hroot.
  - intros [Hd|(_ & _ & Hw)]%walk_put_loop_other; try done.
    apply (Hinv k). unfold node_at. rewrite Hroot. by rewrite Clone_id in Hw.
  - by apply walk_put_chain_not_dangling.
Qed.

End TrieFacts.

(* ================================================================= *)
(** * Put leaves the old version alone *)

Section TrieHeapFacts.
Import Trie TrieHeap.

Implicit Types (h : heap) (l p : loc).

Lemma alloc_spec h n l h' :
  alloc h n = (l, h') → h !! l = None ∧ h' = <[l := n]> h.
Proof.
  unfold alloc. intros [= <- <-]. split; [|done].
  apply not_elem_of_dom, is_fresh.
Qed.

#[local] Opaque alloc.

Lemma read_Ok h l n : read h l = Ok n ↔ h !! l = Some n.
Proof. unfold read. destruct (h !! l); naive_solver. Qed.

Lemma read_is_Some h l : is_Some (h !! l) → ∃ n, read h l = Ok n ∧ h !! l = Some n.
Proof. intros [n Hn]. exists n. by rewrite read_Ok. Qed.

Lemma closed_insert h l n :
  closed h → children_in (<[l := n]> h) n → closed (<[l := n]> h).
Proof.
  intros Hcl Hn l1 n1 c l2 Hl1 Hc.
  destruct (decide (l1 = l)) as [->|Hne].
  - rewrite lookup_insert_eq in Hl1. simplify_eq. by eapply Hn.
  - rewrite lookup_insert_ne in Hl1 by done.
    destruct (Hcl _ _ _ _ Hl1 Hc) as [n2 Hn2].
    destruct (decide (l2 = l)) as [->|Hne2].
    + rewrite lookup_insert_eq. eauto.
    + rewrite lookup_insert_ne by done. eauto.
Qed.

Lemma children_in_mono h h' n :
  (∀ l, is_Some (h !! l) → is_Some (h' !! l)) → children_in h n → children_in h' n.
Proof. intros Hm Hn c l' Hc. eapply Hm, Hn, Hc. Qed.

Lemma is_Some_insert_mono h l n l' :
  is_Some (h !! l') → is_Some (<[l := n]> h !! l').
Proof.
  intros Hs. destruct (decide (l' = l)) as [->|?].
  - rewrite lookup_insert_eq. eauto.
  - by rewrite lookup_insert_ne.
Qed.

Lemma put_inv_alloc h0 h n l h' :
  put_inv h0 h → children_in h n → alloc h n = (l, h') →
  put_inv h0 h' ∧ h0 !! l = None ∧ h' !! l = Some n
  ∧ (∀ l', is_Some (h !! l') → is_Some (h' !! l')).
Proof.
  intros [Hs Hc] Hn Ha. apply alloc_spec in Ha as [Hfresh ->].
  assert (h0 !! l = None) as H0.
  { destruct (h0 !! l) as [x|] eqn:Hx; [|done].
    eapply lookup_weaken in Hx; [|done]. congruence. }
  split; [split|].
  - etrans; [done|]. by apply insert_subseteq.
  - apply closed_insert; [done|].
    eapply children_in_mono; [|done]. intros. by apply is_Some_insert_mono.
  - split; [done|]. split; [by rewrite lookup_insert_eq|].
    intros. by apply is_Some_insert_mono.
Qed.

Lemma put_inv_clone h0 h l0 :
  put_inv h0 h → is_Some (h !! l0) →
  ∃ l h' n, clone h l0 = Ok (l, h') ∧ h !! l0 = Some n ∧
    put_inv h0 h' ∧ h0 !! l = None ∧ h' !! l = Some n
    ∧ (∀ l', is_Some (h !! l') → is_Some (h' !! l')).
Proof.
  intros Hinv [n Hn]. unfold clone, read. rewrite Hn. simpl.
  destruct (alloc h n) as [l h'] eqn:Ha. exists l, h', n.
  split; [done|]. split; [done|].
  eapply put_inv_alloc; [done| |done].
  intros c l' Hc. by eapply (inv_closed _ _ Hinv).
Qed.

Lemma put_inv_store h0 h l n n' :
  put_inv h0 h → h0 !! l = None → h !! l = Some n →
  children_in h n' →
  put_inv h0 (<[l := n']> h) ∧ (∀ l', is_Some (h !! l') → is_Some (<[l := n']> h !! l')).
Proof.
  intros [Hs Hc] H0 Hl Hn. split; [split|].
  - apply map_subseteq_spec. intros l1 n1 H1.
    rewrite lookup_insert_ne by congruence.
    by eapply lookup_weaken.
  - apply closed_insert; [done|].
    eapply children_in_mono; [|done]. intros. by apply is_Some_insert_mono.
  - intros. by apply is_Some_insert_mono.
Qed.

Lemma put_inv_store_child h0 h l c child :
  put_inv h0 h → h0 !! l = None → is_Some (h !! l) → is_Some (h !! child) →
  ∃ h', store_child h l c child = Ok h' ∧ put_inv h0 h'
        ∧ (∀ l', is_Some (h !! l') → is_Some (h' !! l')).
Proof.
  intros Hinv H0 [n Hn] Hch. unfold store_child, read. rewrite Hn. simpl.
  eexists. split; [done|].
  eapply put_inv_store; [done..|].
  intros c' l' Hc'. simpl in Hc'.
  destruct (decide (c' = c)) as [->|Hne].
  - rewrite lookup_insert_eq in Hc'. by simplify_eq.
  - rewrite lookup_insert_ne in Hc' by done. by eapply (inv_closed _ _ Hinv).
Qed.

Lemma put_inv_store_children h0 h l l2 n2 :
  put_inv h0 h → h0 !! l = None → is_Some (h !! l) → h !! l2 = Some n2 →
  ∃ h', store_children h l (h_children n2) = Ok h' ∧ put_inv h0 h'
        ∧ (∀ l', is_Some (h !! l') → is_Some (h' !! l')).
Proof.
  intros Hinv H0 [n Hn] Hch. unfold store_children, read. rewrite Hn. simpl.
  eexists. split; [done|].
  eapply put_inv_store; [done..|].
  intros c' l' Hc'. simpl in Hc'. by eapply (inv_closed _ _ Hinv).
Qed.

Lemma h_put_chain_inv h0 rkey : ∀ h node,
  put_inv h0 h → is_Some (h !! node) →
  ∃ root' h', h_put_chain h rkey node = (root', h') ∧ put_inv h0 h'.
Proof.
  induction rkey as [|c rkey IH]; intros h node Hinv Hnode; simpl.
  - eauto.
  - destruct (alloc h (mkHNode None {[c := node]})) as [new_node h1] eqn:Ha.
    eapply put_inv_alloc in Ha as (Hinv1 & _ & Hnew & _); [|done|].
    + apply IH; [done|eauto].
    + intros c' l'. simpl. intros Hc'.
      destruct (decide (c' = c)) as [->|Hne].
      * rewrite lookup_singleton_eq in Hc'. by simplify_eq.
      * by rewrite lookup_singleton_ne in Hc'.
Qed.

Lemma h_put_loop_inv h0 key : ∀ h p pre,
  put_inv h0 h →
  is_Some (h !! p) → h0 !! p = None →
  is_Some (h !! pre) → h0 !! pre = None →
  ∃ pre' p' h', h_put_loop h p pre key = Ok (pre', p', h') ∧
    put_inv h0 h' ∧
    is_Some (h' !! p') ∧ h0 !! p' = None ∧
    is_Some (h' !! pre') ∧ h0 !! pre' = None ∧
    (∀ l', is_Some (h !! l') → is_Some (h' !! l')).
Proof.
  induction key as [|c rest IH]; intros h p pre Hinv Hp Hp0 Hpre Hpre0; simpl.
  - exists pre, p, h. eauto 10.
  - destruct (read_is_Some _ _ Hp) as (pn & -> & Hpn). simpl.
    assert (∃ new_node h1,
      match h_children pn !! c with
      | Some child => clone h child
      | None => Ok (alloc h (mkHNode None ∅))
      end = Ok (new_node, h1) ∧ put_inv h0 h1 ∧ h0 !! new_node = None ∧
      is_Some (h1 !! new_node) ∧ (∀ l', is_Some (h !! l') → is_Some (h1 !! l')))
      as (new_node & h1 & -> & Hinv1 & Hnew0 & Hnew & Hmono1).
    { destruct (h_children pn !! c) as [child|] eqn:Hc.
      - destruct (put_inv_clone h0 h child Hinv) as (l & h1 & n & -> & _ & ? & ? & ? & ?).
        { by eapply (inv_closed _ _ Hinv). }
        exists l, h1. eauto 10.
      - destruct (alloc h (mkHNode None ∅)) as [l h1] eqn:Ha.
        eapply put_inv_alloc in Ha as (? & ? & ? & ?); [|done|].
        + exists l, h1. eauto 10.
        + intros c' l'. simpl. by rewrite lookup_empty. }
    simpl.
    destruct (put_inv_store_child h0 h1 p c new_node) as (h2 & -> & Hinv2 & Hmono2);
      [done|done|by apply Hmono1|done|].
    simpl.
    destruct (IH h2 new_node p Hinv2) as (pre' & p' & h' & -> & ? & ? & ? & ? & ? & Hmono3);
      [by apply Hmono2|done|by apply Hmono2, Hmono1|done|].
    exists pre', p', h'. split; [done|]. repeat (split; [done|]).
    intros. by apply Hmono3, Hmono2, Hmono1.
Qed.

(** [Put] returns, and no object of the store it started from is
    changed. *)
Lemma hPut_frame h root key v :
  closed h → root_in h root →
  ∃ root' h', hPut h root key v = Ok (root', h') ∧ h ⊆ h' ∧ closed h'.
Proof.
  intros Hcl Hroot. unfold hPut.
  destruct (alloc h (mkHNode (Some v) ∅)) as [node h1] eqn:Ha.
  assert (put_inv h h) as Hinv0 by (split; [done|done]).
  eapply put_inv_alloc in Ha as (Hinv1 & Hnode0 & Hnode & Hmono1); [|done|].
  2:{ intros c l'. simpl. by rewrite lookup_empty. }
  destruct root as [root|].
  - simpl in Hroot. destruct (last key) as [back|] eqn:Hlast.
    + destruct (put_inv_clone h h1 root Hinv1) as (p & h2 & n & -> & _ & Hinv2 & Hp0 & Hp & Hmono2).
      { by apply Hmono1. }
      simpl.
      destruct (h_put_loop_inv h key h2 p p Hinv2)
        as (pre' & p' & h3 & -> & Hinv3 & Hp' & Hp'0 & Hpre' & Hpre'0 & Hmono3);
        [eauto|done|eauto|done|].
      simpl. destruct (read_is_Some _ _ Hp') as (pe & -> & Hpe). simpl.
      assert (∃ h4, (if decide (h_children pe = ∅) then Ok h3
                     else store_children h3 node (h_children pe)) = Ok h4 ∧
                    put_inv h h4 ∧ (∀ l', is_Some (h3 !! l') → is_Some (h4 !! l')))
        as (h4 & -> & Hinv4 & Hmono4).
      { case_decide.
        - exists h3. eauto.
        - eapply put_inv_store_children; [done|done| |done].
          apply Hmono3, Hmono2. eauto. }
      simpl.
      destruct (put_inv_store_child h h4 pre' back node) as (h5 & -> & Hinv5 & _);
        [done|done|by apply Hmono4| |].
      { apply Hmono4, Hmono3, Hmono2. eauto. }
      simpl. exists (Some p), h5. split; [done|]. by destruct Hinv5.
    + destruct (read_is_Some h1 root) as (rn & -> & Hrn); [by apply Hmono1|].
      simpl.
      destruct (put_inv_store_children h h1 node root rn) as (h2 & -> & Hinv2 & _);
        [done|done|eauto|done|].
      simpl. exists (Some node), h2. split; [done|]. by destruct Hinv2.
  - destruct (h_put_chain_inv h (rev key) h1 node Hinv1) as (root' & h' & -> & Hinv');
      [eauto|].
    exists (Some root'), h'. split; [done|]. by destruct Hinv'.
Qed.

Lemma h_walk_frame h h' key : ∀ l,
  closed h → h ⊆ h' → is_Some (h !! l) →
  h_walk h' l key = h_walk h l key
  ∧ ∀ l', h_walk h l key = Ok (Some l') → is_Some (h !! l').
Proof.
  induction key as [|c rest IH]; intros l Hcl Hsub [n Hn]; simpl.
  - split; [done|]. intros l' [= <-]. eauto.
  - unfold read. rewrite Hn, (lookup_weaken _ _ _ _ Hn Hsub). simpl.
    destruct (h_children n !! c) as [child|] eqn:Hc; [|done].
    apply IH; [done..|]. by eapply Hcl.
Qed.

(** C3.  [t.Put(k, v)], run on a store in which every child pointer
    designates a node and on a root [root] of that store, returns, leaves
    every node of the store as it was, and every [Get<T>(k')] on the old
    root gives the same answer in the store after the call as before. *)
Theorem Put_old_version_unchanged (h : heap) (root : option loc)
    (key : list ascii) (v : Payload) :
  closed h → root_in h root →
  ∃ root' h', hPut h root key v = Ok (root', h') ∧
    (∀ l n, h !! l = Some n → h' !! l = Some n) ∧
    (∀ T key', hGet T h' root key' = hGet T h root key').
Proof.
  intros Hcl Hroot.
  destruct (hPut_frame h root key v Hcl Hroot) as (root' & h' & Hput & Hsub & _).
  exists root', h'. split; [done|]. split.
  - intros l n Hl. by eapply lookup_weaken.
  - intros T key'. destruct root as [r|]; [|done]. simpl in *.
    destruct (h_walk_frame h h' key' r Hcl Hsub Hroot) as [-> Hin].
    destruct (h_walk h r key') as [[l'|]| |]; simpl; [|done..].
    destruct (Hin l' eq_refl) as [n Hn].
    unfold read. by rewrite Hn, (lookup_weaken _ _ _ _ Hn Hsub).
Qed.

End TrieHeapFacts.

Section TrieHeapExamples.
Import Trie TrieHeap.

(** The hypotheses of [Put_old_version_unchanged] on the store that holds
    the trie with the key "ab": after [Put("ac", 2)] the old root still
    sees "ab" and does not see "ac". *)
Lemma Put_old_version_unchanged_witness :
  let v1 := returned (None, ∅) (hPut ∅ None (key_of "ab") (VUInt32 1)) in
  let root := v1.1 in
  let h := v1.2 in
  closed h ∧ root_in h root ∧
  ∃ root' h', hPut h root (key_of "ac") (VUInt32 2) = Ok (root', h') ∧
    hGet TUInt32 h' root (key_of "ab") = Ok (Some (VUInt32 1)) ∧
    hGet TUInt32 h' root (key_of "ac") = Ok None.
Proof.
  intros v1 root h.
  assert (closed h) as Hcl.
  { destruct (hPut_frame ∅ None (key_of "ab") (VUInt32 1)) as (r1 & h1 & H1 & _ & Hc).
    - intros l n c l' Hl. by rewrite lookup_empty in Hl.
    - done.
    - assert (h = h1) as -> by (unfold h, v1; by rewrite H1). exact Hc. }
  assert (root_in h root) as Hroot by (vm_compute; eauto).
  split; [exact Hcl|]. split; [exact Hroot|].
  destruct (Put_old_version_unchanged h root (key_of "ac") (VUInt32 2) Hcl Hroot)
    as (root' & h' & Hput & _ & Hget).
  exists root', h'. split; [exact Hput|].
  rewrite !Hget. split; vm_compute; reflexivity.
Defined.

End TrieHeapExamples.

(* ================================================================= *)
(** * The trie as values and the trie in the store *)

Section TrieRefinement.
Import Trie TrieHeap.

#[local] Opaque alloc.

Lemma repr_inv (h : gmap positive HNode) l n :
  repr h l n →
  ∃ hn, h !! l = Some hn ∧ h_value hn = value_ n ∧
    ∀ c, option_Forall2 (repr h) (h_children hn !! c) (children_ n !! c).
Proof. intros [l' hn n' ? ? ?]. eauto. Qed.

(** Objects are only ever added to the store or replaced outside the part
    a tree lives in, so a tree represented in a store is represented in
    every larger one. *)
Lemma repr_mono (h h' : gmap positive HNode) :
  h ⊆ h' → ∀ l n, repr h l n → repr h' l n.
Proof.
  intros Hsub. fix IH 3. intros l n [l0 hn n0 Hl Hv Hc].
  econstructor; [by eapply lookup_weaken|done|].
  intros c. destruct (Hc c) as [x y Hxy|]; constructor. by apply IH.
Qed.

Lemma children_repr_mono (h h' : gmap positive HNode)
    (m1 : gmap ascii positive) (m2 : gmap ascii TrieNode) :
  h ⊆ h' →
  (∀ c, option_Forall2 (repr h) (m1 !! c) (m2 !! c)) →
  ∀ c, option_Forall2 (repr h') (m1 !! c) (m2 !! c).
Proof.
  intros Hsub Hc c. destruct (Hc c); constructor. by eapply repr_mono.
Qed.

Lemma children_repr_empty (h : gmap positive HNode)
    (m1 : gmap ascii positive) (m2 : gmap ascii TrieNode) :
  (∀ c, option_Forall2 (repr h) (m1 !! c) (m2 !! c)) →
  m1 = ∅ ↔ m2 = ∅.
Proof.
  intros Hc. split; intros ->; apply map_empty; intros c; specialize (Hc c);
    rewrite lookup_empty in Hc; by inversion Hc.
Qed.

Lemma children_repr_insert (h : gmap positive HNode)
    (m1 : gmap ascii positive) (m2 : gmap ascii TrieNode) c l n :
  repr h l n →
  (∀ c, option_Forall2 (repr h) (m1 !! c) (m2 !! c)) →
  ∀ c', option_Forall2 (repr h) (<[c := l]> m1 !! c') (<[c := n]> m2 !! c').
Proof.
  intros Hr Hc c'. destruct (decide (c' = c)) as [->|Hne].
  - rewrite !lookup_insert_eq. by constructor.
  - rewrite !lookup_insert_ne by done. apply Hc.
Qed.

(** ** Get *)

Lemma h_walk_repr (h : gmap positive HNode) key : ∀ l n,
  repr h l n →
  ∃ o, h_walk h l key = Ok o ∧ option_Forall2 (repr h) o (walk n key).
Proof.
  induction key as [|c rest IH]; intros l n Hr; simpl.
  - eexists. split; [done|]. by constructor.
  - destruct (repr_inv _ _ _ Hr) as (hn & Hl & Hv & Hc).
    unfold read. rewrite Hl. simpl. specialize (Hc c).
    inversion Hc as [x y Hxy Hx Hy|Hx Hy].
    + by apply IH.
    + eexists. split; [done|]. constructor.
Qed.

(** [Get] on the store returns, and returns what [Get] on the value
    returns. *)
Lemma hGet_refines T (h : gmap positive HNode) root t key :
  repr_root h root t → hGet T h root key = Ok (Get T t key).
Proof.
  unfold repr_root, hGet, Get. intros Hr.
  inversion Hr as [l n Hln Hl Hn|Hl Hn]; [|done].
  destruct (h_walk_repr h key l n Hln) as (o & -> & Ho). simpl.
  inversion Ho as [l' n' Hln' Hl' Hn'|Hl' Hn']; [|done].
  destruct (repr_inv _ _ _ Hln') as (hn & Hhn & Hv & _).
  unfold read. rewrite Hhn. simpl. unfold is_value_node_, dynamic_cast.
  rewrite Hv. by destruct (value_ n').
Qed.

(** ** Put *)

Lemma h_put_chain_repr rkey : ∀ (h : gmap positive HNode) l n,
  repr h l n →
  ∃ l' h', h_put_chain h rkey l = (l', h') ∧ h ⊆ h' ∧
    repr h' l' (foldl (λ node c, TrieNode_of {[c := node]}) n rkey).
Proof.
  induction rkey as [|c rkey IH]; intros h l n Hr; simpl.
  - by exists l, h.
  - destruct (alloc h (mkHNode None {[c := l]})) as [l1 h1] eqn:Ha.
    apply alloc_spec in Ha as [Hf ->].
    assert (h ⊆ <[l1 := mkHNode None {[c := l]}]> h) as Hsub
      by by apply insert_subseteq.
    destruct (IH (<[l1 := mkHNode None {[c := l]}]> h) l1 (TrieNode_of {[c := n]}))
      as (l' & h' & He & Hs & Hr').
    { econstructor; [apply lookup_insert_eq|done|]. intros c'. simpl.
      destruct (decide (c' = c)) as [->|Hne].
      - rewrite !lookup_singleton_eq. constructor. by eapply repr_mono.
      - rewrite !lookup_singleton_ne by done. constructor. }
    exists l', h'. split; [done|]. split; [|done]. by etrans.
Qed.

Lemma value_node_children v (ch : gmap ascii TrieNode) :
  (if decide (ch = ∅) then TrieNodeWithValue_new v
   else with_children (TrieNodeWithValue_new v) ch) = Node (Some v) ch.
Proof. by case_decide; subst. Qed.

(** The loop of [Put] (76-87) followed by lines 88-93, on a store [h] that
    grew out of [h0]: [p] is a fresh clone whose children are still those
    of the original, [l_node] the fresh value node.  The run returns, the
    objects of [h0] are untouched, and [p] ends up as the root of what the
    value model computes. *)
Lemma h_put_loop_repr (h0 : gmap positive HNode) l_node v back key :
  ∀ (h : gmap positive HNode) p pre pn hp,
  key ≠ [] → last key = Some back →
  h0 ⊆ h → h0 !! p = None → h0 !! l_node = None → p ≠ l_node →
  h !! l_node = Some (mkHNode (Some v) ∅) →
  h !! p = Some hp → h_value hp = value_ pn →
  (∀ c, option_Forall2 (repr h0) (h_children hp !! c) (children_ pn !! c)) →
  ∃ h' : gmap positive HNode,
    (∀ B (k : gmap positive HNode → outcome B),
      ('(pre_node, p_end, h) ← h_put_loop h p pre key;
       pe ← read h p_end;
       h ← (if decide (h_children pe = ∅) then Ok h
            else store_children h l_node (h_children pe));
       h ← store_child h pre_node back l_node;
       k h) = k h')
    ∧ h0 ⊆ h'
    ∧ (∀ l, is_Some (h !! l) → l ≠ p → l ≠ l_node → h' !! l = h !! l)
    ∧ repr h' p (put_loop pn key (TrieNodeWithValue_new v)).
Proof.
  induction key as [|c rest IH];
    intros h p pre pn hp Hne Hlast Hsub Hp0 Hn0 Hpn Hnode Hp Hv Hc; [done|].
  (* the node the iteration makes *)
  assert (∃ l_new hx newT,
    match h_children hp !! c with
    | Some child => clone h child
    | None => Ok (alloc h (mkHNode None ∅))
    end = Ok (l_new, <[l_new := hx]> h)
    ∧ h !! l_new = None
    ∧ match children_ pn !! c with
      | Some child => Clone child
      | None => TrieNode_new
      end = newT
    ∧ h_value hx = value_ newT
    ∧ (∀ c, option_Forall2 (repr h0) (h_children hx !! c) (children_ newT !! c)))
    as (l_new & hx & newT & Hstep & Hfresh & HnewT & Hxv & Hxc).
  { specialize (Hc c). inversion Hc as [x y Hxy Hx Hy|Hx Hy].
    - destruct (repr_inv _ _ _ Hxy) as (hx & Hhx & Hxv & Hxc).
      unfold clone, read. rewrite (lookup_weaken _ _ _ _ Hhx Hsub). simpl.
      destruct (alloc h hx) as [l_new h1] eqn:Ha.
      apply alloc_spec in Ha as [Hf ->].
      exists l_new, hx, y. by rewrite Clone_id.
    - destruct (alloc h (mkHNode None ∅)) as [l_new h1] eqn:Ha.
      apply alloc_spec in Ha as [Hf ->].
      exists l_new, (mkHNode None ∅), TrieNode_new.
      repeat (split; [done|]). intros c'. simpl. rewrite !lookup_empty. constructor. }
  assert (l_new ≠ p) as Hnp by (intros ->; congruence).
  assert (l_new ≠ l_node) as Hnn by (intros ->; congruence).
  assert (h0 !! l_new = None) as Hnew0.
  { destruct (h0 !! l_new) as [x|] eqn:Hx; [|done].
    apply (lookup_weaken _ _ _ _ Hx) in Hsub. congruence. }
  set (hp' := mkHNode (h_value hp) (<[c := l_new]> (h_children hp))).
  set (h_b := <[p := hp']> (<[l_new := hx]> h)).
  assert (h0 ⊆ h_b) as Hsub_b.
  { unfold h_b. apply insert_subseteq_r; [done|]. by apply insert_subseteq_r. }
  assert (∀ B (k : gmap positive HNode → outcome B),
    ('(pre_node, p_end, h) ← h_put_loop h p pre (c :: rest);
       pe ← read h p_end;
       h ← (if decide (h_children pe = ∅) then Ok h
            else store_children h l_node (h_children pe));
       h ← store_child h pre_node back l_node;
       k h)
    = ('(pre_node, p_end, h) ← h_put_loop h_b l_new p rest;
       pe ← read h p_end;
       h ← (if decide (h_children pe = ∅) then Ok h
            else store_children h l_node (h_children pe));
       h ← store_child h pre_node back l_node;
       k h)) as Hiter.
  { intros B k. cbn [h_put_loop].
    rewrite (proj2 (read_Ok _ _ _) Hp). cbn [mbind outcome_bind].
    rewrite Hstep. cbn [mbind outcome_bind].
    assert (store_child (<[l_new := hx]> h) p c l_new = Ok h_b) as ->; [|done].
    unfold store_child, read. by rewrite lookup_insert_ne, Hp by done. }
  destruct rest as [|c2 rest'].
  - (* the last byte of the key *)
    simpl in Hlast. injection Hlast as ->.
    set (h1 := if decide (h_children hx = ∅) then h_b
               else <[l_node := mkHNode (Some v) (h_children hx)]> h_b).
    assert (h_b !! l_node = Some (mkHNode (Some v) ∅)) as Hnode_b.
    { unfold h_b. by rewrite !lookup_insert_ne. }
    assert (h_b !! p = Some hp') as Hp_b by (unfold h_b; by rewrite lookup_insert_eq).
    assert (h_b !! l_new = Some hx) as Hnew_b.
    { unfold h_b. rewrite lookup_insert_ne by done. by rewrite lookup_insert_eq. }
    assert ((if decide (h_children hx = ∅) then Ok h_b
             else store_children h_b l_node (h_children hx)) = Ok h1) as Hh1.
    { unfold h1. case_decide; [done|]. unfold store_children, read.
      by rewrite Hnode_b. }
    assert (h1 !! l_node = Some (mkHNode (Some v) (h_children hx))) as Hnode1.
    { unfold h1. case_decide as He.
      - by rewrite He, Hnode_b.
      - by rewrite lookup_insert_eq. }
    assert (∀ l, l ≠ l_node → h1 !! l = h_b !! l) as Hframe1.
    { intros l Hl. unfold h1. case_decide; [done|]. by rewrite lookup_insert_ne. }
    assert (h0 ⊆ h1) as Hsub1.
    { unfold h1. case_decide; [done|]. by apply insert_subseteq_r. }
    set (hp'' := mkHNode (h_value hp') (<[back := l_node]> (h_children hp'))).
    exists (<[p := hp'']> h1). split; [|split; [|split]].
    + intros B k. rewrite Hiter. cbn [h_put_loop mbind outcome_bind].
      rewrite (proj2 (read_Ok _ _ _) Hnew_b). cbn [mbind outcome_bind].
      rewrite Hh1. cbn [mbind outcome_bind].
      assert (store_child h1 p back l_node = Ok (<[p := hp'']> h1)) as ->; [|done].
      unfold store_child, read. by rewrite Hframe1, Hp_b by done.
    + by apply insert_subseteq_r.
    + intros l Hl Hlp Hln. rewrite lookup_insert_ne by done.
      rewrite Hframe1 by done. unfold h_b.
      rewrite lookup_insert_ne by done. rewrite lookup_insert_ne; [done|].
      intros ->. rewrite Hfresh in Hl. by destruct Hl.
    + assert (h0 ⊆ <[p := hp'']> h1) as Hsub' by by apply insert_subseteq_r.
      cbn [put_loop]. rewrite HnewT, value_node_children.
      econstructor; [apply lookup_insert_eq|done|].
      unfold hp'', hp'. cbn [h_children set_child children_ value_].
      apply children_repr_insert.
      * apply (repr_node _ _ (mkHNode (Some v) (h_children hx))); [|done|].
        -- rewrite lookup_insert_ne by done. exact Hnode1.
        -- cbn [h_children children_]. by eapply children_repr_mono.
      * intros c'. destruct (decide (c' = back)) as [->|Hcne].
        -- rewrite !lookup_insert_eq. constructor.
           apply (repr_node _ _ hx); [|exact Hxv|].
           ++ rewrite lookup_insert_ne by done. rewrite Hframe1 by done. exact Hnew_b.
           ++ by eapply children_repr_mono.
        -- rewrite !lookup_insert_ne by done. by eapply children_repr_mono.
  - (* more bytes to go *)
    destruct (IH h_b l_new p newT hx) as (h' & Hrun & Hsub' & Hframe & Hr);
      [done|done|done|done|done|done| | |done|done|].
    { unfold h_b. by rewrite !lookup_insert_ne. }
    { unfold h_b. rewrite lookup_insert_ne by done. by rewrite lookup_insert_eq. }
    exists h'. split; [|split; [|split]].
    + intros B k. rewrite Hiter. apply Hrun.
    + done.
    + intros l Hl Hlp Hln. rewrite Hframe; [| |by intros ->; rewrite Hfresh in Hl; destruct Hl|done].
      * unfold h_b. rewrite lookup_insert_ne by done. rewrite lookup_insert_ne; [done|].
        intros ->. rewrite Hfresh in Hl. by destruct Hl.
      * unfold h_b. rewrite lookup_insert_ne by done.
        rewrite lookup_insert_ne; [done|].
        intros ->. rewrite Hfresh in Hl. by destruct Hl.
    + assert (h' !! p = Some hp') as Hp'.
      { rewrite Hframe; [|unfold h_b; rewrite lookup_insert_eq; eauto|done|done].
        unfold h_b. by rewrite lookup_insert_eq. }
      change (put_loop pn (c :: c2 :: rest') (TrieNodeWithValue_new v))
        with (set_child pn c
                (put_loop (match children_ pn !! c with
                           | Some child => Clone child
                           | None => TrieNode_new
                           end) (c2 :: rest') (TrieNodeWithValue_new v))).
      rewrite HnewT.
      econstructor; [exact Hp'|done|].
      unfold hp'. cbn [h_children set_child children_].
      apply children_repr_insert; [done|]. by eapply children_repr_mono.
Qed.

(** [Put] on the store returns; the store it leaves contains the one it
    started from, object for object, and the root it returns is the trie
    [Put] computes on values. *)
Lemma hPut_refines (h : gmap positive HNode) root t key v :
  repr_root h root t →
  ∃ root' h', hPut h root key v = Ok (root', h') ∧ h ⊆ h' ∧
    repr_root h' root' (Put t key v).
Proof.
  unfold repr_root, hPut, Put. intros Hr.
  destruct (alloc h (mkHNode (Some v) ∅)) as [l_node h1] eqn:Ha.
  apply alloc_spec in Ha as [Hnode0 ->].
  assert (h ⊆ <[l_node := mkHNode (Some v) ∅]> h) as Hsub1 by by apply insert_subseteq.
  inversion Hr as [l n Hln Hl Hn|Hl Hn].
  - destruct (repr_inv _ _ _ Hln) as (hn & Hhn & Hv & Hc).
    assert (l ≠ l_node) as Hlne by (intros ->; congruence).
    destruct key as [|c rest].
    + cbn [last]. unfold read. rewrite lookup_insert_ne, Hhn by done.
      cbn [mbind outcome_bind]. unfold store_children, read.
      rewrite lookup_insert_eq. cbn [mbind outcome_bind h_value].
      eexists _, _. split; [done|]. split.
      * rewrite insert_insert_eq. by apply insert_subseteq.
      * constructor. econstructor; [apply lookup_insert_eq|done|].
        cbn [h_children children_ with_children].
        eapply children_repr_mono; [|done].
        rewrite insert_insert_eq. by apply insert_subseteq.
    + destruct (last (c :: rest)) as [back|] eqn:Hlast.
      2:{ by apply last_None in Hlast. }
      assert (read (<[l_node := mkHNode (Some v) ∅]> h) l = Ok hn) as Hread.
      { apply read_Ok. by rewrite lookup_insert_ne. }
      unfold clone. rewrite Hread. cbn [mbind outcome_bind].
      destruct (alloc (<[l_node := mkHNode (Some v) ∅]> h) hn) as [p h2] eqn:Ha.
      apply alloc_spec in Ha as [Hp1 ->].
      assert (p ≠ l_node) as Hpn by (intros ->; by rewrite lookup_insert_eq in Hp1).
      assert (h !! p = None) as Hp0 by (by rewrite lookup_insert_ne in Hp1).
      destruct (h_put_loop_repr h l_node v back (c :: rest)
        (<[p := hn]> (<[l_node := mkHNode (Some v) ∅]> h)) p p n hn)
        as (h' & Hrun & Hsub' & _ & Hr');
        [done|done| |done|done|done| | |done|done|].
      { apply insert_subseteq_r; [done|]. by apply insert_subseteq_r. }
      { rewrite lookup_insert_ne by done. by rewrite lookup_insert_eq. }
      { by rewrite lookup_insert_eq. }
      cbn [mbind outcome_bind]. rewrite (Hrun _ (λ h, Ok (Some p, h))).
      eexists _, _. split; [done|]. split; [done|].
      constructor. by rewrite Clone_id.
  - destruct (h_put_chain_repr (rev key) (<[l_node := mkHNode (Some v) ∅]> h) l_node
      (TrieNodeWithValue_new v)) as (l' & h' & -> & Hs & Hr').
    { econstructor; [apply lookup_insert_eq|done|]. intros c. simpl.
      rewrite !lookup_empty. constructor. }
    eexists _, _. split; [done|]. split; [by etrans|].
    constructor. exact Hr'.
Qed.

(** The round trip of [Put] and [Get], and the silence of [Put] on the
    other keys, read on the store. *)
Lemma hPut_hGet_same (h : gmap positive HNode) root t key v :
  repr_root h root t →
  ∃ root' h', hPut h root key v = Ok (root', h') ∧
    hGet (type_of v) h' root' key = Ok (Some v).
Proof.
  intros Hr.
  destruct (hPut_refines h root t key v Hr) as (root' & h' & Hput & _ & Hr').
  exists root', h'. split; [done|].
  rewrite (hGet_refines _ _ _ _ _ Hr'). f_equal.
  destruct (Put_installs_value t key v) as (r & n & Hroot & Hw & Hv).
  destruct (Put t key v) as [r']. simpl in Hroot. subst r'.
  by eapply Get_of_value.
Qed.

Lemma hPut_hGet_other (h : gmap positive HNode) root t key v T k :
  repr_root h root t → k ≠ key →
  ∃ root' h', hPut h root key v = Ok (root', h') ∧
    hGet T h' root' k = hGet T h root k.
Proof.
  intros Hr Hk.
  destruct (hPut_refines h root t key v Hr) as (root' & h' & Hput & _ & Hr').
  exists root', h'. split; [done|].
  rewrite (hGet_refines _ _ _ _ _ Hr'), (hGet_refines _ _ _ _ _ Hr).
  f_equal. by apply Get_Put_other.
Qed.

End TrieRefinement.

(* ================================================================= *)
(** * More on the trie: what Put and Remove show to Get *)

Section TrieObservations.
Import Trie.

(** X1.  What [Get] sees after [Put]: in [t.Put(key, v)], [Get<T>(k)]
    returns [v] when [k] is [key] and [T] is the type of [v], the null
    pointer when [k] is [key] and [T] is another type, and what it
    returned on [t] for every other key. *)
Theorem Put_Get_spec (t : Trie) (key : list ascii) (v : Payload)
    (T : ValueType) (k : list ascii) :
  Get T (Put t key v) k =
  if decide (k = key) then (if decide (type_of v = T) then Some v else None)
  else Get T t k.
Proof.
  case_decide as Hk; [subst k|by apply Get_Put_other].
  destruct (Put_installs_value t key v) as (root & n & Hroot & Hw & Hv).
  rewrite Get_lookup_value, Hroot.
  unfold lookup_value, walk_opt. simpl. rewrite Hw. simpl. by rewrite Hv.
Qed.

(** The hypothesis of [Put_leaves_have_values] on the trie holding "ab":
    putting "a" keeps the invariant. *)
Lemma Put_leaves_have_values_witness :
  let t := Put empty (key_of "ab") (VUInt32 1) in
  leaves_have_values t ∧
  leaves_have_values (Put t (key_of "a") (VString "x")).
Proof.
  intros t.
  assert (leaves_have_values t) as Ht.
  { apply Put_leaves_have_values. intros k n Hn. discriminate Hn. }
  split; [exact Ht|]. apply Put_leaves_have_values. exact Ht.
Defined.

(** X3.  [Remove] undoes [Put]: [t.Put(key, v).Remove(key)] returns, the
    key is absent from the result at every type, and every other key is
    observed in the result as in [t]. *)
Theorem Remove_after_Put (t : Trie) (key : list ascii) (v : Payload) :
  ∃ t', Remove (Put t key v) key = Ok t' ∧
    (∀ T, Get T t' key = None) ∧
    (∀ T k, k ≠ key → Get T t' k = Get T t k).
Proof.
  destruct (Put_installs_value t key v) as (root & n & Hroot & Hw & Hv).
  assert (is_value_node_ n = true) as Hval by (unfold is_value_node_; by rewrite Hv).
  exists (mkTrie (remove_rec root key)). split; [|split].
  - destruct (Put t key v) as [r]. simpl in Hroot. subst r.
    by eapply Remove_present_unfold.
  - intros T. rewrite Get_lookup_value. simpl.
    by rewrite (lookup_value_remove_rec_same n Hval key root Hw).
  - intros T k Hk. rewrite <- (Get_Put_other t key v T k Hk).
    rewrite !Get_lookup_value, Hroot. simpl.
    by rewrite (lookup_value_remove_rec_other n Hval key root k Hw Hk).
Qed.

(** X4.  When [Remove] returns.  On the empty trie it dereferences the
    null root.  On any other trie it returns for every key: no read of
    the key outside its bounds, no read of an empty path; and when the
    walk along the key falls off the trie the result is the trie
    itself. *)
Theorem Remove_returns (t : Trie) (key : list ascii) :
  match root_ t with
  | None => Remove t key = Undefined
  | Some root =>
      ∃ t', Remove t key = Ok t' ∧ (node_at t key = None → t' = t)
  end.
Proof.
  destruct t as [[root|]]; simpl; [|done].
  rewrite Remove_unfold. unfold node_at. simpl.
  destruct (walk root key) as [m|] eqn:Hw.
  - eexists. split; [done|]. intros Hn. discriminate Hn.
  - eexists. split; [done|]. done.
Qed.

End TrieObservations.

(* ================================================================= *)
(** * More on the trie in the store: path copying *)

Section TriePathCopy.
Import Trie TrieHeap.

#[local] Opaque alloc.

Lemma alloc_size (h : gmap positive HNode) n l h' :
  alloc h n = (l, h') → size h' = S (size h).
Proof.
  intros Ha. apply alloc_spec in Ha as [Hf ->]. by rewrite map_size_insert_None.
Qed.

Lemma store_child_size (h : gmap positive HNode) l c x h' :
  store_child h l c x = Ok h' → size h' = size h.
Proof.
  unfold store_child, read. destruct (h !! l) as [n|] eqn:Hl; [|done].
  simpl. intros [= <-]. rewrite map_size_insert_Some; [done|eauto].
Qed.

Lemma store_children_size (h : gmap positive HNode) l ch h' :
  store_children h l ch = Ok h' → size h' = size h.
Proof.
  unfold store_children, read. destruct (h !! l) as [n|] eqn:Hl; [|done].
  simpl. intros [= <-]. rewrite map_size_insert_Some; [done|eauto].
Qed.

Lemma clone_size (h : gmap positive HNode) l l' h' :
  clone h l = Ok (l', h') → size h' = S (size h).
Proof.
  unfold clone, read. destruct (h !! l) as [n|]; [|done]. simpl.
  destruct (alloc h n) as [l1 h1] eqn:Ha. intros [= <- <-].
  by eapply alloc_size.
Qed.

Lemma h_put_chain_size rkey : ∀ (h : gmap positive HNode) node l' h',
  h_put_chain h rkey node = (l', h') → size h' = (size h + length rkey)%nat.
Proof.
  induction rkey as [|c rkey IH]; intros h node l' h'; simpl.
  - intros [= _ <-]. lia.
  - destruct (alloc h (mkHNode None {[c := node]})) as [l1 h1] eqn:Ha.
    intros He. apply IH in He. apply alloc_size in Ha. lia.
Qed.

Lemma h_put_loop_size key : ∀ (h : gmap positive HNode) p pre pre' p' h',
  h_put_loop h p pre key = Ok (pre', p', h') →
  size h' = (size h + length key)%nat.
Proof.
  induction key as [|c rest IH]; intros h p pre pre' p' h'; simpl.
  - intros [= _ _ <-]. lia.
  - destruct (read h p) as [pn| |]; simpl; [|done..].
    destruct (match h_children pn !! c with
              | Some child => clone h child
              | None => Ok (alloc h (mkHNode None ∅))
              end) as [[new_node h1]| |] eqn:Hnew; simpl; [|done..].
    assert (size h1 = S (size h)) as Hs1.
    { destruct (h_children pn !! c).
      - by eapply clone_size.
      - destruct (alloc h (mkHNode None ∅)) as [l1 h1'] eqn:Ha.
        injection Hnew as <- <-. by eapply alloc_size. }
    destruct (store_child h1 p c new_node) as [h2| |] eqn:Hst; simpl; [|done..].
    apply store_child_size in Hst. intros He. apply IH in He. lia.
Qed.

(** [Put] allocates the new value node, a copy of the root and one node
    for each byte of the key, and nothing else. *)
Lemma hPut_size (h : gmap positive HNode) root key v root' h' :
  hPut h root key v = Ok (root', h') →
  (size h' ≤ size h + length key + 2)%nat.
Proof.
  unfold hPut.
  destruct (alloc h (mkHNode (Some v) ∅)) as [node h1] eqn:Ha.
  apply alloc_size in Ha. destruct root as [root|].
  - destruct (last key) as [back|].
    + destruct (clone h1 root) as [[p h2]| |] eqn:Hc; simpl; [|done..].
      apply clone_size in Hc.
      destruct (h_put_loop h2 p p key) as [[[pre_node p_end] h3]| |] eqn:Hl;
        simpl; [|done..].
      apply h_put_loop_size in Hl.
      destruct (read h3 p_end) as [pe| |]; simpl; [|done..].
      destruct (if decide (h_children pe = ∅) then Ok h3
                else store_children h3 node (h_children pe))
        as [h4| |] eqn:H4; simpl; [|done..].
      assert (size h4 = size h3) as Hs4.
      { case_decide; [by injection H4 as <-|by eapply store_children_size]. }
      destruct (store_child h4 pre_node back node) as [h5| |] eqn:H5;
        simpl; [|done..].
      apply store_child_size in H5. intros [= _ <-]. lia.
    + destruct (read h1 root) as [rn| |]; simpl; [|done..].
      destruct (store_children h1 node (h_children rn)) as [h2| |] eqn:H2;
        simpl; [|done..].
      apply store_children_size in H2. intros [= _ <-]. lia.
  - destruct (h_put_chain h1 (rev key) node) as [l' h2] eqn:Hc.
    apply h_put_chain_size in Hc. rewrite length_rev in Hc.
    intros [= _ <-]. lia.
Qed.

(** X5.  Path copying.  When the store holds the trie [t] under [root],
    [Put] on the store returns; every object of the store is left as it
    was, so [root] still holds [t]; the root it returns holds the trie
    the value model computes for [t.Put(key, v)], and [Get] through it
    returns what [Get] returns on that trie; and the store has grown by
    no more than one node for each byte of the key and two besides,
    however large [t] is. *)
Theorem hPut_path_copy (h : gmap positive HNode) (root : option positive)
    (t : Trie) (key : list ascii) (v : Payload) :
  repr_root h root t →
  ∃ root' h', hPut h root key v = Ok (root', h') ∧
    (∀ l n, h !! l = Some n → h' !! l = Some n) ∧
    repr_root h' root t ∧
    repr_root h' root' (Put t key v) ∧
    (∀ T k, hGet T h' root' k = Ok (Get T (Put t key v) k)) ∧
    (size h' ≤ size h + length key + 2)%nat.
Proof.
  intros Hr.
  destruct (hPut_refines h root t key v Hr) as (root' & h' & Hput & Hsub & Hr').
  exists root', h'. split; [exact Hput|]. split; [|split; [|split; [|split]]].
  - intros l n Hl. by eapply lookup_weaken.
  - unfold repr_root in *. destruct Hr; constructor. by eapply repr_mono.
  - exact Hr'.
  - intros T k. by apply hGet_refines.
  - by eapply hPut_size.
Qed.

(** The hypothesis of [hPut_path_copy] on the store that holds the trie
    with the key "ab": [Put("ac", 2)] adds at most four nodes, and the
    new root sees both keys. *)
Lemma hPut_path_copy_witness :
  let v1 := returned (None, ∅) (hPut ∅ None (key_of "ab") (VUInt32 1)) in
  let root := v1.1 in
  let h := v1.2 in
  let t := Put empty (key_of "ab") (VUInt32 1) in
  repr_root h root t ∧
  ∃ root' h', hPut h root (key_of "ac") (VUInt32 2) = Ok (root', h') ∧
    (size h' ≤ size h + 4)%nat ∧
    hGet TUInt32 h' root' (key_of "ab") = Ok (Some (VUInt32 1)) ∧
    hGet TUInt32 h' root' (key_of "ac") = Ok (Some (VUInt32 2)).
Proof.
  intros v1 root h t.
  assert (repr_root h root t) as Hr.
  { destruct (hPut_refines ∅ None empty (key_of "ab") (VUInt32 1))
      as (r1 & h1 & H1 & _ & Hr1); [constructor|].
    assert (root = r1 ∧ h = h1) as [-> ->]
      by (unfold root, h, v1; by rewrite H1).
    exact Hr1. }
  split; [exact Hr|].
  destruct (hPut_path_copy h root t (key_of "ac") (VUInt32 2) Hr)
    as (root' & h' & Hput & _ & _ & _ & Hget & Hsize).
  exists root', h'. split; [exact Hput|]. split; [exact Hsize|].
  rewrite !Hget. split; vm_compute; reflexivity.
Defined.

End TriePathCopy.

(* ================================================================= *)
(** * Properties of the LRU-K replacer *)

Section ReplacerFacts.
Import LRUKReplacer.

Implicit Types (r : LRUKReplacer) (f g : Z).

(** ** Scanning and erasing *)

Lemma take_first_Some {A} (P : A → bool) (l : list A) x rest :
  take_first P l = Some (x, rest) →
  ∃ l1 l2, l = l1 ++ x :: l2 ∧ rest = l1 ++ l2 ∧ P x = true
           ∧ Forall (λ y, P y = false) l1.
Proof.
  revert rest. induction l as [|y l IH]; intros rest; simpl; [done|].
  destruct (P y) eqn:Hy.
  - intros [= <- <-]. exists [], l. by repeat split.
  - destruct (take_first P l) as [[z rest']|]; simpl; [|done].
    intros [= <- <-]. destruct (IH rest' eq_refl) as (l1 & l2 & -> & -> & ? & ?).
    exists (y :: l1), l2. repeat split; [done|]. by constructor.
Qed.

Lemma take_first_None {A} (P : A → bool) (l : list A) :
  take_first P l = None ↔ Forall (λ y, P y = false) l.
Proof.
  induction l as [|y l IH]; simpl; [done|].
  destruct (P y) eqn:Hy.
  - split; [done|]. intros HF. apply Forall_cons in HF as [? _]. congruence.
  - destruct (take_first P l) as [[z rest']|]; simpl.
    + split; [done|]. intros HF. apply Forall_cons in HF as [_ HF].
      by apply IH in HF.
    + split; [|done]. intros _. constructor; [done|]. by apply IH.
Qed.

(** The first element of a filtered list, through [take_first]. *)
Lemma take_first_head_filter (P : Z → Prop) `{!∀ x, Decision (P x)}
    (l : list (nat * Z)) :
  head (filter P (frames l)) =
  (λ y, y.1.2) <$> take_first (λ x, bool_decide (P x.2)) l.
Proof.
  induction l as [|[it f] l IH]; simpl; [done|].
  unfold frames in *. simpl. rewrite filter_cons. case_bool_decide as HP; simpl.
  - by rewrite decide_True.
  - rewrite decide_False by done. rewrite IH.
    by destruct (take_first _ l) as [[??]|].
Qed.

Lemma erase_at_Ok (l : list (nat * Z)) m f rest :
  erase_at l m f = Ok rest →
  ∃ it g l1 l2, m !! f = Some it ∧ l = l1 ++ (it, g) :: l2 ∧ rest = l1 ++ l2.
Proof.
  unfold erase_at. destruct (m !! f) as [it|]; [|done].
  destruct (take_first _ l) as [[[it' g] rest']|] eqn:Ht; [|done].
  intros [= <-]. apply take_first_Some in Ht as (l1 & l2 & -> & -> & Hit & _).
  apply bool_decide_eq_true in Hit. simpl in Hit. subst. eauto 10.
Qed.

Lemma erase_at_agree (l : list (nat * Z)) m f it :
  iters_agree m l → (it, f) ∈ l →
  ∃ l1 l2, l = l1 ++ (it, f) :: l2 ∧ erase_at l m f = Ok (l1 ++ l2).
Proof.
  intros [Hin Hfr] Hel. unfold erase_at. rewrite (Hin _ _ Hel).
  destruct (take_first (λ x, bool_decide (x.1 = it)) l) as [[[it' g] rest']|] eqn:Ht.
  - apply take_first_Some in Ht as (l1 & l2 & -> & -> & Hit & _).
    apply bool_decide_eq_true in Hit. simpl in Hit. subst it'.
    assert (g = f) as ->.
    { eapply Hfr; [by apply Hin|]. apply elem_of_app. right. by left. }
    eauto.
  - apply take_first_None in Ht. rewrite Forall_forall in Ht.
    specialize (Ht _ Hel). simpl in Ht. by rewrite bool_decide_true in Ht.
Qed.

(** ** Sizes *)

Lemma to_size_t_id x : 0 ≤ x ≤ size_t_max → to_size_t x = x.
Proof. unfold to_size_t, size_t_max. intros. apply Z.mod_small. lia. Qed.

Lemma size_in_range (X : gset Z) n :
  (∀ f, f ∈ X → 0 ≤ f < n) → Z.of_nat (size X) ≤ Z.max 0 n.
Proof.
  intros HX.
  assert (X ⊆ list_to_set (seqZ 0 n)) as Hsub.
  { intros f Hf. apply elem_of_list_to_set, elem_of_seqZ. specialize (HX f Hf). lia. }
  apply subseteq_size in Hsub.
  rewrite size_list_to_set, length_seqZ in Hsub by apply NoDup_seqZ. lia.
Qed.

Lemma evictable_frames_bound r :
  consistent r → 0 ≤ Z.of_nat (size (evictable_frames r)) ≤ replacer_size_ r.
Proof.
  intros Hc. split; [lia|].
  pose proof (cs_size_bound r Hc).
  etrans; [apply (size_in_range _ (replacer_size_ r))|lia].
  intros f Hf. apply (cs_range r Hc). unfold evictable_frames in Hf.
  apply elem_of_difference in Hf as [Hf _]. by apply elem_of_dom in Hf.
Qed.

(** ** Lists and iterator maps *)

Lemma elem_of_frames (l : list (nat * Z)) g : g ∈ frames l ↔ ∃ it, (it, g) ∈ l.
Proof.
  unfold frames. rewrite list_elem_of_fmap. split.
  - intros ([it g'] & -> & ?). eauto.
  - intros [it ?]. by exists (it, g).
Qed.

Lemma frames_app (l k : list (nat * Z)) : frames (l ++ k) = frames l ++ frames k.
Proof. apply fmap_app. Qed.

Lemma iters_agree_push m (l : list (nat * Z)) f n :
  iters_agree m l →
  (∀ x, x ∈ l → (x.1 < n)%nat) → (∀ g it, m !! g = Some it → (it < n)%nat) →
  f ∉ frames l →
  iters_agree (<[f := n]> m) (l ++ [(n, f)]).
Proof.
  intros [H1 H2] Hl Hm Hf. split.
  - intros it g [Hel|Hel%list_elem_of_singleton]%elem_of_app.
    + rewrite lookup_insert_ne; [by apply H1|].
      intros <-. apply Hf, elem_of_frames. eauto.
    + simplify_eq. by rewrite lookup_insert_eq.
  - intros g it g' Hg [Hel|Hel%list_elem_of_singleton]%elem_of_app.
    + destruct (decide (f = g)) as [->|Hne].
      * rewrite lookup_insert_eq in Hg. simplify_eq.
        specialize (Hl _ Hel). simpl in Hl. lia.
      * rewrite lookup_insert_ne in Hg by done. by eapply H2.
    + simplify_eq. destruct (decide (f = g)) as [|Hne]; [done|].
      rewrite lookup_insert_ne in Hg by done. apply Hm in Hg. lia.
Qed.

Lemma iters_agree_erase m (l1 l2 : list (nat * Z)) x :
  iters_agree m (l1 ++ x :: l2) → iters_agree m (l1 ++ l2).
Proof.
  intros [H1 H2]. split.
  - intros it g Hel. apply H1. set_solver.
  - intros g it g' Hg Hel. eapply H2; [done|]. set_solver.
Qed.

Lemma iters_agree_delete m (l : list (nat * Z)) f :
  iters_agree m l → f ∉ frames l → iters_agree (delete f m) l.
Proof.
  intros [H1 H2] Hf. split.
  - intros it g Hel. rewrite lookup_delete_ne; [by apply H1|].
    intros <-. apply Hf, elem_of_frames. eauto.
  - intros g it g' Hg Hel. apply lookup_delete_Some in Hg as [_ Hg]. by eapply H2.
Qed.

Lemma nodes_add (old new base : list (nat * Z)) n f :
  new ≡ₚ ((n, f) :: base) →
  (old ≡ₚ base ∧ f ∉ frames base) ∨ (∃ it, old ≡ₚ ((it, f) :: base)) →
  NoDup (frames old) → NoDup (old.*1) → (∀ x, x ∈ old → (x.1 < n)%nat) →
  NoDup (frames new) ∧ NoDup (new.*1) ∧ (∀ x, x ∈ new → (x.1 < S n)%nat)
  ∧ ∀ g, g ∈ frames new ↔ g = f ∨ g ∈ frames old.
Proof.
  intros Hnew Hold Hnd Hid Hlt.
  assert (NoDup (frames base) ∧ NoDup (base.*1) ∧ (f ∉ frames base)
          ∧ (∀ x, x ∈ base → (x.1 < n)%nat)
          ∧ ∀ g, g = f ∨ g ∈ frames old ↔ g = f ∨ g ∈ frames base)
    as (Hb1 & Hb2 & Hb3 & Hb4 & Hb5).
  { unfold frames in *. destruct Hold as [[Hp Hf]|[it Hp]].
    - rewrite <- Hp. repeat split; try done.
      + by rewrite Hp.
      + intros x Hx. apply Hlt. by rewrite Hp.
      + by rewrite Hp.
      + by rewrite Hp.
    - rewrite Hp in Hnd, Hid. simpl in *.
      apply NoDup_cons in Hnd as [? ?], Hid as [? ?].
      repeat split; try done.
      + intros x Hx. apply Hlt. rewrite Hp. by right.
      + rewrite Hp. simpl. set_solver.
      + rewrite Hp. simpl. set_solver. }
  unfold frames in *. repeat split.
  - rewrite Hnew. simpl. by apply NoDup_cons.
  - rewrite Hnew. simpl. apply NoDup_cons. split; [|done].
    intros ([it g] & ? & Hx)%list_elem_of_fmap. simpl in *. subst.
    specialize (Hb4 _ Hx). simpl in Hb4. lia.
  - intros x. rewrite Hnew. intros [->|Hx]%elem_of_cons; simpl; [lia|].
    specialize (Hb4 _ Hx). lia.
  - rewrite Hnew. simpl. rewrite elem_of_cons. by rewrite Hb5.
  - rewrite Hnew. simpl. rewrite elem_of_cons. by rewrite Hb5.
Qed.

Lemma nodes_drop (old base : list (nat * Z)) it f n :
  old ≡ₚ ((it, f) :: base) →
  NoDup (frames old) → NoDup (old.*1) → (∀ x, x ∈ old → (x.1 < n)%nat) →
  NoDup (frames base) ∧ NoDup (base.*1) ∧ (∀ x, x ∈ base → (x.1 < n)%nat)
  ∧ (f ∉ frames base) ∧ ∀ g, g ∈ frames base ↔ g ≠ f ∧ g ∈ frames old.
Proof.
  intros Hp Hnd Hid Hlt. unfold frames in *.
  rewrite Hp in Hnd, Hid. simpl in *.
  apply NoDup_cons in Hnd as [? ?], Hid as [? ?].
  repeat split; try done.
  - intros x Hx. apply Hlt. rewrite Hp. by right.
  - set_solver.
  - rewrite Hp. simpl. set_solver.
  - rewrite Hp. simpl. set_solver.
Qed.

(** ** The set of evictable frames *)

Lemma size_add_elem (X : gset Z) f : f ∉ X → size ({[f]} ∪ X) = S (size X).
Proof. intros. rewrite size_union by set_solver. by rewrite size_singleton. Qed.

Lemma size_drop_elem (X : gset Z) f : f ∈ X → size X = S (size (X ∖ {[f]})).
Proof.
  intros. rewrite <- (size_add_elem (X ∖ {[f]}) f) by set_solver. f_equal.
  apply set_eq. intros g. destruct (decide (g = f)); set_solver.
Qed.

(** ** Every call keeps the members consistent *)

Lemma frame_ok_range r f : frame_ok r f = true ↔ 0 ≤ f < replacer_size_ r.
Proof.
  unfold frame_ok, size_t_of_int. rewrite andb_true_iff, !bool_decide_eq_true.
  case_bool_decide; lia.
Qed.

Lemma tracked_insert (cm : gmap Z Z) f c g :
  is_Some (<[f := c]> cm !! g) ↔ g = f ∨ is_Some (cm !! g).
Proof.
  destruct (decide (g = f)) as [->|?].
  - rewrite lookup_insert_eq. naive_solver.
  - rewrite lookup_insert_ne by done. naive_solver.
Qed.

Lemma tracked_delete (cm : gmap Z Z) f g :
  is_Some (delete f cm !! g) ↔ g ≠ f ∧ is_Some (cm !! g).
Proof.
  destruct (decide (g = f)) as [->|?].
  - rewrite lookup_delete_eq. split; [by intros [? ?]|naive_solver].
  - rewrite lookup_delete_ne by done. naive_solver.
Qed.

Ltac open_consistent Hc r :=
  destruct Hc as [Hb Hr Hnd Hid Hlt Hil Hhl Htr Hia Hha Hne Hcs];
  destruct r as [rs k inf hist mi mh cm ne cs n];
  unfold all_nodes, tracked, evictable_frames in *; simpl in *.

Lemma RecordAccess_consistent r f r' :
  consistent r → RecordAccess r f = Ok r' → consistent r'.
Proof.
  intros Hc. pose proof (evictable_frames_bound r Hc) as Hsz.
  unfold RecordAccess.
  destruct (frame_ok r f) eqn:Hok; simpl; [|done].
  apply frame_ok_range in Hok.
  open_consistent Hc r.
  destruct (cm !! f) as [count|] eqn:Hcm.
  - (* already tracked *)
    assert (f ∈ frames (inf ++ hist)) as Hf by (apply Htr; eauto).
    assert (dom (<[f := count + 1]> cm) = dom cm) as Hdom.
    { rewrite dom_insert_L. apply elem_of_dom_2 in Hcm. set_solver. }
    case_bool_decide as Hk.
    + (* touch in the LRU list *)
      destruct (erase_at hist mh f) as [rest| |] eqn:He; simpl; [|done..].
      intros [= <-].
      apply erase_at_Ok in He as (it & g & l1 & l2 & Hit & -> & ->).
      assert (g = f) as ->.
      { eapply (proj2 Hha); [done|]. set_solver. }
      destruct (nodes_add (inf ++ l1 ++ (it, f) :: l2)
                  (inf ++ (l1 ++ l2) ++ [(n, f)]) (inf ++ l1 ++ l2) n f)
        as (N1 & N2 & N3 & N4); [| |done..|].
      { rewrite !app_assoc. by rewrite <- Permutation_cons_append. }
      { right. exists it. rewrite !app_assoc. by rewrite <- Permutation_middle. }
      destruct (nodes_drop (inf ++ l1 ++ (it, f) :: l2) (inf ++ l1 ++ l2) it f n)
        as (_ & _ & D3 & D4 & _); [|done..|].
      { rewrite !app_assoc. by rewrite <- Permutation_middle. }
      constructor; unfold all_nodes, tracked, evictable_frames; simpl; try done.
      * intros g. rewrite tracked_insert. intros [->|?]; [done|by apply Hr].
      * intros g it' Hg. apply Hil in Hg. lia.
      * intros g it' Hg. destruct (decide (f = g)) as [->|?].
        -- rewrite lookup_insert_eq in Hg. simplify_eq. lia.
        -- rewrite lookup_insert_ne in Hg by done. apply Hhl in Hg. lia.
      * intros g. rewrite tracked_insert, N4, Htr. naive_solver.
      * apply iters_agree_push.
        -- by eapply iters_agree_erase.
        -- intros x Hx. apply D3. set_solver.
        -- done.
        -- rewrite frames_app in D4. set_solver.
      * intros g Hg. apply tracked_insert. right. by apply Hne.
      * by rewrite Hdom.
    + case_bool_decide as Hk'.
      * (* promotion *)
        destruct (erase_at inf mi f) as [rest| |] eqn:He; simpl; [|done..].
        intros [= <-].
        apply erase_at_Ok in He as (it & g & l1 & l2 & Hit & -> & ->).
        assert (g = f) as ->.
        { eapply (proj2 Hia); [done|]. set_solver. }
        destruct (nodes_add ((l1 ++ (it, f) :: l2) ++ hist)
                    ((l1 ++ l2) ++ hist ++ [(n, f)]) ((l1 ++ l2) ++ hist) n f)
          as (N1 & N2 & N3 & N4); [| |done..|].
        { rewrite !app_assoc. by rewrite <- Permutation_cons_append. }
        { right. exists it. rewrite <- !app_assoc. simpl. by rewrite <- Permutation_middle. }
        destruct (nodes_drop ((l1 ++ (it, f) :: l2) ++ hist) ((l1 ++ l2) ++ hist) it f n)
          as (_ & _ & D3 & D4 & _); [|done..|].
        { rewrite <- !app_assoc. simpl. by rewrite <- Permutation_middle. }
        constructor; unfold all_nodes, tracked, evictable_frames; simpl; try done.
        -- intros g. rewrite tracked_insert. intros [->|?]; [done|by apply Hr].
        -- intros g it' Hg. apply Hil in Hg. lia.
        -- intros g it' Hg. destruct (decide (f = g)) as [->|?].
           ++ rewrite lookup_insert_eq in Hg. simplify_eq. lia.
           ++ rewrite lookup_insert_ne in Hg by done. apply Hhl in Hg. lia.
        -- intros g. rewrite tracked_insert, N4, Htr. naive_solver.
        -- by eapply iters_agree_erase.
        -- apply iters_agree_push; [done| |done|].
           ++ intros x Hx. apply D3. set_solver.
           ++ rewrite frames_app in D4. set_solver.
        -- intros g Hg. apply tracked_insert. right. by apply Hne.
        -- by rewrite Hdom.
      * (* stays in the FIFO list *)
        intros [= <-].
        constructor; unfold all_nodes, tracked, evictable_frames; simpl; try done.
        -- intros g. rewrite tracked_insert. intros [->|?]; [done|by apply Hr].
        -- intros g. rewrite tracked_insert, <- Htr. naive_solver.
        -- intros g Hg. apply tracked_insert. right. by apply Hne.
        -- by rewrite Hdom.
  - (* first record *)
    intros [= <-].
    assert (f ∉ frames (inf ++ hist)) as Hf.
    { intros Hf%Htr. rewrite Hcm in Hf. by destruct Hf. }
    assert (f ∉ ne) as Hfne.
    { intros Hf'%Hne. rewrite Hcm in Hf'. by destruct Hf'. }
    destruct (nodes_add (inf ++ hist) ((inf ++ [(n, f)]) ++ hist) (inf ++ hist) n f)
      as (N1 & N2 & N3 & N4); [| |done..|].
    { rewrite <- !app_assoc. simpl. by rewrite <- Permutation_middle. }
    { by left. }
    assert (dom (<[f := 1]> cm) ∖ ne = {[f]} ∪ (dom cm ∖ ne)) as Hdom.
    { rewrite dom_insert_L. set_solver. }
    assert (f ∉ dom cm ∖ ne) as Hfd.
    { apply not_elem_of_dom in Hcm. set_solver. }
    constructor; unfold all_nodes, tracked, evictable_frames; simpl; try done.
    + intros g. rewrite tracked_insert. intros [->|?]; [done|by apply Hr].
    + intros g it' Hg. destruct (decide (f = g)) as [->|?].
      * rewrite lookup_insert_eq in Hg. simplify_eq. lia.
      * rewrite lookup_insert_ne in Hg by done. apply Hil in Hg. lia.
    + intros g it' Hg. apply Hhl in Hg. lia.
    + intros g. rewrite tracked_insert, N4, Htr. naive_solver.
    + apply iters_agree_push; [done| |done|].
      * intros x Hx. apply Hlt. set_solver.
      * rewrite frames_app in Hf. set_solver.
    + intros g Hg. apply tracked_insert. right. by apply Hne.
    + rewrite Hdom, size_add_elem by done.
      assert (Z.of_nat (S (size (dom cm ∖ ne))) ≤ rs) as Hle.
      { rewrite <- (size_add_elem _ f) by done. rewrite <- Hdom.
        etrans; [apply (size_in_range _ rs)|lia].
        intros g Hg. apply elem_of_difference in Hg as [Hg _].
        apply elem_of_dom in Hg. apply tracked_insert in Hg as [->|Hg]; [done|].
        by apply Hr. }
      rewrite to_size_t_id; lia.
Qed.

Lemma new_consistent num_frames k :
  0 ≤ num_frames ≤ size_t_max → consistent (new num_frames k).
Proof.
  intros Hn. constructor; unfold all_nodes, tracked, evictable_frames; simpl;
    try done.
  - intros f [? Hf]. by rewrite lookup_empty in Hf.
  - constructor.
  - constructor.
  - intros x Hx. by apply elem_of_nil in Hx.
  - intros f. split; [intros [? Hf]; by rewrite lookup_empty in Hf|].
    intros Hf. by apply elem_of_nil in Hf.
  - split; [intros ?? Hx; by apply elem_of_nil in Hx|done].
  - split; [intros ?? Hx; by apply elem_of_nil in Hx|done].
Qed.

(** Dropping the element of an evictable frame [f] from either list. *)
Lemma drop_consistent rs k inf hist mi mh cm ne cs n inf' hist' mi' mh' it f :
  consistent (mkReplacer rs k inf hist mi mh cm ne cs n) →
  (inf ++ hist) ≡ₚ ((it, f) :: (inf' ++ hist')) →
  iters_agree mi inf → iters_agree mh hist →
  (iters_agree mi inf' ∧ hist' = hist ∧ mi' = delete f mi ∧ mh' = mh ∧
     ∃ l1 l2, inf = l1 ++ (it, f) :: l2 ∧ inf' = l1 ++ l2)
  ∨ (iters_agree mh hist' ∧ inf' = inf ∧ mh' = delete f mh ∧ mi' = mi ∧
     ∃ l1 l2, hist = l1 ++ (it, f) :: l2 ∧ hist' = l1 ++ l2) →
  f ∉ ne →
  consistent (mkReplacer rs k inf' hist' mi' mh' (delete f cm) ne
                         (to_size_t (cs - 1)) n).
Proof.
  intros Hc Hp Hia' Hha' Hcase Hfne.
  pose proof (evictable_frames_bound _ Hc) as Hsz.
  destruct Hc as [Hb Hr Hnd Hid Hlt Hil Hhl Htr Hia Hha Hne Hcs].
  unfold all_nodes, tracked, evictable_frames in *; simpl in *.
  destruct (nodes_drop _ _ _ _ n Hp) as (D1 & D2 & D3 & D4 & D5); [done..|].
  assert (f ∈ dom cm) as Hfd.
  { apply elem_of_dom, Htr. unfold frames. rewrite Hp. simpl. by left. }
  assert (dom (delete f cm) ∖ ne = (dom cm ∖ ne) ∖ {[f]}) as Hdom.
  { rewrite dom_delete_L. set_solver. }
  rewrite frames_app in D4.
  constructor; unfold all_nodes, tracked, evictable_frames; simpl; try done.
  - intros g [_ Hg]%tracked_delete. by apply Hr.
  - destruct Hcase as [(_ & _ & -> & _)|(_ & _ & _ & -> & _)]; [|done].
    intros g it' [_ Hg]%lookup_delete_Some. by eapply Hil.
  - destruct Hcase as [(_ & _ & _ & -> & _)|(_ & _ & -> & _)]; [done|].
    intros g it' [_ Hg]%lookup_delete_Some. by eapply Hhl.
  - intros g. rewrite tracked_delete, D5, Htr. done.
  - destruct Hcase as [(? & _ & -> & _)|(_ & -> & _ & -> & _)]; [|done].
    apply iters_agree_delete; [done|]. set_solver.
  - destruct Hcase as [(_ & -> & _ & -> & _)|(? & _ & -> & _)]; [done|].
    apply iters_agree_delete; [done|]. set_solver.
  - intros g Hg. apply tracked_delete. split; [set_solver|by apply Hne].
  - rewrite Hdom.
    rewrite (size_drop_elem (dom cm ∖ ne) f) in Hcs, Hsz by set_solver.
    rewrite to_size_t_id; lia.
Qed.

Lemma Evict_consistent r : consistent r → consistent (Evict r).2.
Proof.
  intros Hc. unfold Evict. case_bool_decide; [done|].
  destruct (take_first (evictable r) (inf_history_list_ r))
    as [[[it f] rest]|] eqn:Hi.
  - apply take_first_Some in Hi as (l1 & l2 & Hinf & -> & Hev & _).
    apply bool_decide_eq_true in Hev. simpl in *.
    destruct r as [rs k inf hist mi mh cm ne cs n]. simpl in *. subst inf.
    pose proof (cs_inf_iters _ Hc) as Hia. pose proof (cs_hist_iters _ Hc) as Hha.
    simpl in *.
    eapply (drop_consistent _ _ _ _ _ _ _ _ _ _ _ _ _ _ it f); [done| |done|done| |done].
    + rewrite <- !app_assoc. simpl. by rewrite <- Permutation_middle.
    + left. split; [by eapply iters_agree_erase|]. eauto 10.
  - destruct (take_first (evictable r) (history_list_ r))
      as [[[it f] rest]|] eqn:Hh; [|done].
    apply take_first_Some in Hh as (l1 & l2 & Hhist & -> & Hev & _).
    apply bool_decide_eq_true in Hev. simpl in *.
    destruct r as [rs k inf hist mi mh cm ne cs n]. simpl in *. subst hist.
    pose proof (cs_inf_iters _ Hc) as Hia. pose proof (cs_hist_iters _ Hc) as Hha.
    simpl in *.
    eapply (drop_consistent _ _ _ _ _ _ _ _ _ _ _ _ _ _ it f); [done| |done|done| |done].
    + rewrite !app_assoc. by rewrite <- Permutation_middle.
    + right. split; [by eapply iters_agree_erase|]. eauto 10.
Qed.

Lemma Remove_consistent r f r' :
  consistent r → Remove r f = Ok r' → consistent r'.
Proof.
  intros Hc. unfold Remove.
  destruct (frame_ok r f) eqn:Hok; simpl; [|done].
  destruct (count_map_ r !! f) as [count|] eqn:Hcm; [|by intros [= <-]].
  case_bool_decide as Hne; [by intros [= <-]|].
  pose proof (cs_inf_iters _ Hc) as Hia. pose proof (cs_hist_iters _ Hc) as Hha.
  destruct r as [rs k inf hist mi mh cm ne cs n]. simpl in *.
  case_bool_decide as Hk.
  - destruct (erase_at hist mh f) as [rest| |] eqn:He; simpl; [|done..].
    intros [= <-].
    apply erase_at_Ok in He as (it & g & l1 & l2 & Hit & -> & ->).
    assert (g = f) as ->.
    { eapply (proj2 Hha); [done|]. set_solver. }
    eapply (drop_consistent _ _ _ _ _ _ _ _ _ _ _ _ _ _ it f); [done| |done|done| |done].
    + rewrite !app_assoc. by rewrite <- Permutation_middle.
    + right. split; [by eapply iters_agree_erase|]. eauto 10.
  - destruct (erase_at inf mi f) as [rest| |] eqn:He; simpl; [|done..].
    intros [= <-].
    apply erase_at_Ok in He as (it & g & l1 & l2 & Hit & -> & ->).
    assert (g = f) as ->.
    { eapply (proj2 Hia); [done|]. set_solver. }
    eapply (drop_consistent _ _ _ _ _ _ _ _ _ _ _ _ _ _ it f); [done| |done|done| |done].
    + rewrite <- !app_assoc. simpl. by rewrite <- Permutation_middle.
    + left. split; [by eapply iters_agree_erase|]. eauto 10.
Qed.

Lemma SetEvictable_consistent r f b r' :
  consistent r → SetEvictable r f b = Ok r' → consistent r'.
Proof.
  intros Hc. pose proof (evictable_frames_bound r Hc) as Hsz.
  unfold SetEvictable.
  destruct (frame_ok r f) eqn:Hok; simpl; [|done].
  destruct (count_map_ r !! f) as [count|] eqn:Hcm; [|by intros [= <-]].
  intros [= <-].
  destruct Hc as [Hb Hr Hnd Hid Hlt Hil Hhl Htr Hia Hha Hne Hcs].
  destruct r as [rs k inf hist mi mh cm ne cs n].
  unfold all_nodes, tracked, evictable_frames in *; simpl in *.
  assert (f ∈ dom cm) as Hfd by by apply elem_of_dom.
  destruct (decide (f ∈ ne)) as [Hin|Hin]; destruct b; simpl.
  - (* pinned, made evictable *)
    rewrite (bool_decide_false (f ∉ ne)) by auto. simpl.
    rewrite bool_decide_true by done. simpl.
    constructor; unfold all_nodes, tracked, evictable_frames; simpl; try done.
    + intros g Hg. apply Hne. set_solver.
    + assert (dom cm ∖ (ne ∖ {[f]}) = {[f]} ∪ (dom cm ∖ ne)) as ->.
      { apply set_eq. intros g. destruct (decide (g = f)); set_solver. }
      rewrite size_add_elem by set_solver.
      assert (Z.of_nat (S (size (dom cm ∖ ne))) ≤ rs) as Hle.
      { rewrite <- (size_add_elem _ f) by set_solver.
        etrans; [apply (size_in_range _ rs)|lia].
        intros g Hg. apply Hr. apply elem_of_dom. set_solver. }
      rewrite to_size_t_id; lia.
  - (* pinned, stays pinned *)
    rewrite (bool_decide_false (f ∉ ne)) by auto. simpl.
    rewrite andb_false_r. by constructor.
  - (* evictable, stays evictable *)
    rewrite andb_false_r. simpl. rewrite bool_decide_false by done. simpl.
    by constructor.
  - (* evictable, pinned *)
    rewrite (bool_decide_true (f ∉ ne)) by done. simpl.
    rewrite andb_false_r.
    constructor; unfold all_nodes, tracked, evictable_frames; simpl; try done.
    + intros g [->%elem_of_singleton|Hg]%elem_of_union; [eauto|by apply Hne].
    + assert (dom cm ∖ ({[f]} ∪ ne) = (dom cm ∖ ne) ∖ {[f]}) as -> by set_solver.
      rewrite (size_drop_elem (dom cm ∖ ne) f) in Hcs, Hsz by set_solver.
      rewrite to_size_t_id; lia.
Qed.

Lemma step_consistent r c r' : consistent r → step r c = Ok r' → consistent r'.
Proof.
  destruct c; simpl.
  - apply RecordAccess_consistent.
  - apply SetEvictable_consistent.
  - apply Remove_consistent.
  - intros Hc [= <-]. by apply Evict_consistent.
Qed.

Lemma run_consistent calls : ∀ r r',
  consistent r → run r calls = Ok r' → consistent r'.
Proof.
  induction calls as [|c calls IH]; intros r r' Hc; simpl.
  - by intros [= <-].
  - destruct (step r c) as [r1| |] eqn:Hs; simpl; [|done..].
    apply IH. by eapply step_consistent.
Qed.

Lemma reachable_consistent num_frames k r :
  reachable num_frames k r → consistent r.
Proof.
  intros (Hn & _ & calls & Hrun).
  eapply run_consistent; [|done]. by apply new_consistent.
Qed.

(** ** Evict returns the victim *)

Lemma filter_out_absent (l : list Z) f :
  f ∉ l → filter (λ g, g ≠ f) l = l.
Proof.
  induction l as [|g l IH]; [done|]. intros Hf.
  apply not_elem_of_cons in Hf as [Hne Hf].
  rewrite filter_cons, decide_True by done. by rewrite IH.
Qed.

Lemma filter_out_nodup (l1 l2 : list Z) f :
  NoDup (l1 ++ f :: l2) → filter (λ g, g ≠ f) (l1 ++ f :: l2) = l1 ++ l2.
Proof.
  intros Hnd. apply NoDup_app in Hnd as (_ & H1 & [H2 _]%NoDup_cons).
  rewrite filter_app, filter_cons, decide_False by auto.
  rewrite !filter_out_absent; [done|done|].
  intros Hf. apply (H1 f Hf). by left.
Qed.

Lemma victim_take_first r :
  victim r =
  match take_first (evictable r) (inf_history_list_ r) with
  | Some (x, _) => Some x.2
  | None =>
      match take_first (evictable r) (history_list_ r) with
      | Some (x, _) => Some x.2
      | None => None
      end
  end.
Proof.
  unfold victim.
  rewrite !(take_first_head_filter (λ f, f ∉ non_evictable_set_ r)).
  change (λ x : nat * Z, bool_decide (x.2 ∉ non_evictable_set_ r)) with (evictable r).
  destruct (take_first (evictable r) (inf_history_list_ r)) as [[??]|]; simpl; [done|].
  by destruct (take_first (evictable r) (history_list_ r)) as [[??]|].
Qed.

(** With no evictable frame, both scans come back empty. *)
Lemma no_evictable_scan r (l : list (nat * Z)) :
  consistent r → curr_size_ r = 0 → l ⊆ all_nodes r →
  take_first (evictable r) l = None.
Proof.
  intros Hc H0 Hl. apply take_first_None, Forall_forall. intros [it f] Hx.
  unfold evictable. simpl. apply bool_decide_eq_false. intros Hne. 
  rewrite (cs_curr_size _ Hc) in H0.
  assert (size (evictable_frames r) = 0%nat) as Hs by lia.
  apply size_empty_iff in Hs.
  assert (f ∈ evictable_frames r) as Hf; [|set_solver].
  unfold evictable_frames. apply elem_of_difference. split; [|done].
  apply elem_of_dom, (cs_tracked _ Hc), elem_of_frames. exists it. by apply Hl.
Qed.

Lemma Evict_victim r :
  consistent r →
  match victim r with
  | None => Evict r = (None, r)
  | Some f =>
      ∃ r', Evict r = (Some f, r') ∧
        tracked r f ∧ (f ∉ non_evictable_set_ r) ∧
        count_map_ r' = delete f (count_map_ r) ∧
        frames (inf_history_list_ r') = filter (λ g, g ≠ f) (frames (inf_history_list_ r)) ∧
        frames (history_list_ r') = filter (λ g, g ≠ f) (frames (history_list_ r)) ∧
        non_evictable_set_ r' = non_evictable_set_ r ∧
        Size r' = Size r - 1
  end.
Proof.
  intros Hc. rewrite victim_take_first. unfold Evict.
  pose proof (evictable_frames_bound r Hc) as Hsz.
  pose proof (cs_size_bound _ Hc) as Hb.
  pose proof (cs_curr_size _ Hc) as Hcs.
  pose proof (cs_frames_nodup _ Hc) as Hnd.
  pose proof (cs_tracked _ Hc) as Htr.
  case_bool_decide as H0.
  { rewrite !(no_evictable_scan r) by (done || unfold all_nodes; set_solver). done. }
  assert (to_size_t (curr_size_ r - 1) = curr_size_ r - 1) as Hdec
    by (apply to_size_t_id; lia).
  unfold all_nodes in *. rewrite frames_app in Hnd.
  destruct (take_first (evictable r) (inf_history_list_ r))
    as [[[it f] rest]|] eqn:Hi.
  - apply take_first_Some in Hi as (l1 & l2 & Hinf & -> & Hev & _).
    apply bool_decide_eq_true in Hev. simpl in *.
    eexists. split; [done|]. simpl. rewrite Hinf in *.
    unfold frames in *. rewrite !fmap_app in *. simpl in *.
    apply NoDup_app in Hnd as (Hnd1 & Hnd2 & _).
    repeat split; try done.
    + apply Htr. set_solver.
    + by rewrite filter_out_nodup.
    + rewrite filter_out_absent; [done|]. apply Hnd2. set_solver.
  - destruct (take_first (evictable r) (history_list_ r))
      as [[[it f] rest]|] eqn:Hh; [|done].
    apply take_first_Some in Hh as (l1 & l2 & Hhist & -> & Hev & _).
    apply bool_decide_eq_true in Hev. simpl in *.
    eexists. split; [done|]. simpl. rewrite Hhist in *.
    unfold frames in *. rewrite !fmap_app in *. simpl in *.
    apply NoDup_app in Hnd as (Hnd1 & Hnd2 & Hnd3).
    repeat split; try done.
    + apply Htr. set_solver.
    + rewrite filter_out_absent; [done|]. intros Hf. apply (Hnd2 _ Hf). set_solver.
    + by rewrite filter_out_nodup.
Qed.

(** ** What each call does to the frames of the two lists *)

Lemma erased_frames (l1 l2 : list (nat * Z)) it f :
  erased (frames (l1 ++ (it, f) :: l2)) (frames (l1 ++ l2)) f.
Proof. exists (frames l1), (frames l2). unfold frames. by rewrite !fmap_app. Qed.

Lemma erase_at_frames (l : list (nat * Z)) m f rest :
  iters_agree m l → erase_at l m f = Ok rest → erased (frames l) (frames rest) f.
Proof.
  intros Hag He. apply erase_at_Ok in He as (it & g & l1 & l2 & Hit & -> & ->).
  assert (g = f) as ->.
  { eapply (proj2 Hag); [done|]. set_solver. }
  apply erased_frames.
Qed.

Lemma RecordAccess_effect r f r' :
  consistent r → RecordAccess r f = Ok r' →
  k_ r' = k_ r ∧ replacer_size_ r' = replacer_size_ r ∧
  non_evictable_set_ r' = non_evictable_set_ r ∧
  ((count_map_ r !! f = None ∧ count_map_ r' = <[f := 1]> (count_map_ r) ∧
    frames (inf_history_list_ r') = frames (inf_history_list_ r) ++ [f] ∧
    frames (history_list_ r') = frames (history_list_ r))
   ∨ ∃ count rest, count_map_ r !! f = Some count ∧
       count_map_ r' = <[f := count + 1]> (count_map_ r) ∧
       ((k_ r ≤ count ∧
         frames (inf_history_list_ r') = frames (inf_history_list_ r) ∧
         erased (frames (history_list_ r)) rest f ∧
         frames (history_list_ r') = rest ++ [f])
        ∨ (count < k_ r ≤ count + 1 ∧
           erased (frames (inf_history_list_ r)) (frames (inf_history_list_ r')) f ∧
           frames (history_list_ r') = frames (history_list_ r) ++ [f])
        ∨ (count + 1 < k_ r ∧
           frames (inf_history_list_ r') = frames (inf_history_list_ r) ∧
           frames (history_list_ r') = frames (history_list_ r)))).
Proof.
  intros Hc. unfold RecordAccess.
  destruct (frame_ok r f); simpl; [|done].
  pose proof (cs_inf_iters _ Hc) as Hia. pose proof (cs_hist_iters _ Hc) as Hha.
  destruct (count_map_ r !! f) as [count|] eqn:Hcm.
  - case_bool_decide as Hk.
    + destruct (erase_at (history_list_ r) _ f) as [rest| |] eqn:He; simpl; [|done..].
      intros [= <-]. simpl. repeat split; try done.
      right. exists count, (frames rest). repeat split; try done.
      left. repeat split; try done.
      * by eapply erase_at_frames.
      * unfold frames. by rewrite fmap_app.
    + case_bool_decide as Hk'.
      * destruct (erase_at (inf_history_list_ r) _ f) as [rest| |] eqn:He; simpl; [|done..].
        intros [= <-]. simpl. repeat split; try done.
        right. exists count, []. repeat split; try done.
        right. left. repeat split; try lia.
        -- by eapply erase_at_frames.
        -- unfold frames. by rewrite fmap_app.
      * intros [= <-]. simpl. repeat split; try done.
        right. exists count, []. repeat split; try done.
        right. right. repeat split; try done. lia.
  - intros [= <-]. simpl. repeat split; try done.
    left. repeat split; try done. unfold frames. by rewrite fmap_app.
Qed.

Lemma Remove_effect r f r' :
  consistent r → Remove r f = Ok r' → r' = r ∨ dropped r r' f.
Proof.
  intros Hc. unfold Remove.
  destruct (frame_ok r f); simpl; [|done].
  pose proof (cs_inf_iters _ Hc) as Hia. pose proof (cs_hist_iters _ Hc) as Hha.
  destruct (count_map_ r !! f) as [count|] eqn:Hcm; [|intros [= <-]; by left].
  case_bool_decide as Hne; [intros [= <-]; by left|].
  case_bool_decide as Hk.
  - destruct (erase_at (history_list_ r) _ f) as [rest| |] eqn:He; simpl; [|done..].
    intros [= <-]. right. unfold dropped. simpl. repeat split; try done.
    right. split; [|done]. by eapply erase_at_frames.
  - destruct (erase_at (inf_history_list_ r) _ f) as [rest| |] eqn:He; simpl; [|done..].
    intros [= <-]. right. unfold dropped. simpl. repeat split; try done.
    left. split; [|done]. by eapply erase_at_frames.
Qed.

Lemma Evict_effect r :
  (Evict r).2 = r ∨ ∃ f, (Evict r).1 = Some f ∧ dropped r (Evict r).2 f.
Proof.
  unfold Evict. case_bool_decide; [by left|].
  destruct (take_first (evictable r) (inf_history_list_ r))
    as [[[it f] rest]|] eqn:Hi.
  - apply take_first_Some in Hi as (l1 & l2 & Hinf & -> & Hev & _).
    apply bool_decide_eq_true in Hev. simpl in *.
    right. exists f. split; [done|]. unfold dropped. simpl. repeat split; try done.
    left. split; [|done]. rewrite Hinf. apply erased_frames.
  - destruct (take_first (evictable r) (history_list_ r))
      as [[[it f] rest]|] eqn:Hh; [|by left].
    apply take_first_Some in Hh as (l1 & l2 & Hhist & -> & Hev & _).
    apply bool_decide_eq_true in Hev. simpl in *.
    right. exists f. split; [done|]. unfold dropped. simpl. repeat split; try done.
    right. split; [|done]. rewrite Hhist. apply erased_frames.
Qed.

Lemma SetEvictable_effect r f b r' :
  SetEvictable r f b = Ok r' →
  k_ r' = k_ r ∧ replacer_size_ r' = replacer_size_ r ∧
  count_map_ r' = count_map_ r ∧
  inf_history_list_ r' = inf_history_list_ r ∧
  history_list_ r' = history_list_ r ∧
  inf_history_iter_map_ r' = inf_history_iter_map_ r ∧
  history_iter_map_ r' = history_iter_map_ r.
Proof.
  unfold SetEvictable. destruct (frame_ok r f); simpl; [|done].
  destruct (count_map_ r !! f); [|by intros [= <-]].
  intros [= <-]. by repeat (case_match; simpl).
Qed.

(** ** Lists by access count *)

Lemma erased_elem_of (l l' : list Z) f :
  erased l l' f → NoDup l → ∀ g, g ∈ l' ↔ g ∈ l ∧ g ≠ f.
Proof.
  intros (l1 & l2 & -> & ->) Hnd g.
  apply NoDup_app in Hnd as (_ & H1 & [H2 _]%NoDup_cons).
  rewrite !elem_of_app, elem_of_cons. split.
  - intros [Hg|Hg]; (split; [tauto|]); intros ->; [|done].
    apply (H1 f Hg). by left.
  - tauto.
Qed.

Lemma erased_in (l l' : list Z) f : erased l l' f → f ∈ l.
Proof. intros (l1 & l2 & -> & ->). set_solver. Qed.

Lemma consistent_lists_nodup r :
  consistent r →
  NoDup (frames (inf_history_list_ r)) ∧ NoDup (frames (history_list_ r)) ∧
  ∀ g, g ∈ frames (inf_history_list_ r) → g ∈ frames (history_list_ r) → False.
Proof.
  intros Hc. pose proof (cs_frames_nodup _ Hc) as Hnd.
  unfold all_nodes in Hnd. rewrite frames_app in Hnd.
  apply NoDup_app in Hnd as (? & ? & ?). naive_solver.
Qed.

Lemma consistent_tracked_lists r f :
  consistent r →
  (tracked r f ↔ f ∈ frames (inf_history_list_ r) ∨ f ∈ frames (history_list_ r)).
Proof.
  intros Hc. rewrite (cs_tracked _ Hc). unfold all_nodes.
  by rewrite frames_app, elem_of_app.
Qed.

Lemma dropped_lists_by_count r r' f :
  consistent r → dropped r r' f → lists_by_count r → lists_by_count r'.
Proof.
  intros Hc (Hk & _ & _ & _ & Hcm & Hl) Hlbc g count.
  rewrite Hcm, Hk. intros [Hne Hg]%lookup_delete_Some.
  destruct (consistent_lists_nodup r Hc) as (Hn1 & Hn2 & _).
  destruct (Hlbc g count Hg) as [H1 H2].
  destruct Hl as [[He ->]|[He ->]].
  - rewrite (erased_elem_of _ _ _ He Hn1). naive_solver.
  - rewrite (erased_elem_of _ _ _ He Hn2). naive_solver.
Qed.

Lemma RecordAccess_lists_by_count r f r' :
  consistent r → 2 ≤ k_ r → RecordAccess r f = Ok r' →
  lists_by_count r → lists_by_count r'.
Proof.
  intros Hc Hk2 Hra Hlbc.
  destruct (consistent_lists_nodup r Hc) as (Hn1 & Hn2 & Hdis).
  pose proof (consistent_tracked_lists r f Hc) as Htr.
  destruct (RecordAccess_effect r f r' Hc Hra) as (Hk & _ & _ & Heff).
  intros g count'. rewrite Hk.
  destruct Heff as [(Hnone & -> & -> & ->)
                   |(count & rest & Hsome & -> & Hcase)].
  - assert (¬ tracked r f) as Hnt by (unfold tracked; rewrite Hnone; by intros [? ?]).
    destruct (decide (g = f)) as [->|Hne].
    + rewrite lookup_insert_eq. intros [= <-]. split.
      * split; [lia|]. set_solver.
      * split; [intros; exfalso; tauto|lia].
    + rewrite lookup_insert_ne by done. intros Hg.
      destruct (Hlbc g count' Hg) as [H1 H2]. rewrite <- H1, <- H2.
      split; [|done]. set_solver.
  - specialize (Hlbc f count Hsome) as Hf.
    destruct (decide (g = f)) as [->|Hne].
    + rewrite lookup_insert_eq. intros [= <-].
      destruct Hcase as [(Hc1 & -> & He & ->)|[(Hc1 & He & ->)|(Hc1 & -> & ->)]].
      * split; [|split; [lia|set_solver]].
        split; [intros ?%Hf; lia|lia].
      * split; [|split; [lia|set_solver]].
        rewrite (erased_elem_of _ _ _ He Hn1). split; [naive_solver|lia].
      * split; [split; [lia|intros; apply Hf; lia]|].
        split; [intros ?%Hf; lia|lia].
    + rewrite lookup_insert_ne by done. intros Hg.
      destruct (Hlbc g count' Hg) as [H1 H2]. rewrite <- H1, <- H2.
      destruct Hcase as [(Hc1 & -> & He & ->)|[(Hc1 & He & ->)|(Hc1 & -> & ->)]].
      * split; [done|]. rewrite elem_of_app, (erased_elem_of _ _ _ He Hn2). set_solver.
      * rewrite (erased_elem_of _ _ _ He Hn1). set_solver.
      * done.
Qed.

Lemma step_lists_by_count r c r' :
  consistent r → 2 ≤ k_ r → step r c = Ok r' →
  lists_by_count r → lists_by_count r' ∧ k_ r' = k_ r.
Proof.
  intros Hc Hk2. destruct c as [f|f b|f|]; simpl.
  - intros Hra Hl. split; [by eapply RecordAccess_lists_by_count|].
    by destruct (RecordAccess_effect r f r' Hc Hra) as (? & _).
  - intros (Hk & _ & Hcm & Hi & Hh & _)%SetEvictable_effect Hl.
    split; [|done]. intros g count. rewrite Hk, Hcm, Hi, Hh. apply Hl.
  - intros Hrm Hl. destruct (Remove_effect r f r' Hc Hrm) as [->|Hd]; [done|].
    split; [by eapply dropped_lists_by_count|apply Hd].
  - intros [= <-] Hl. destruct (Evict_effect r) as [->|(f & _ & Hd)]; [done|].
    split; [by eapply dropped_lists_by_count|apply Hd].
Qed.

(** For [k ≥ 2] every tracked frame is in the list its count selects. *)
Lemma run_lists_by_count calls : ∀ r r',
  consistent r → 2 ≤ k_ r → run r calls = Ok r' →
  lists_by_count r → lists_by_count r'.
Proof.
  induction calls as [|c calls IH]; intros r r' Hc Hk2; simpl.
  - by intros [= <-].
  - destruct (step r c) as [r1| |] eqn:Hs; simpl; [|done..].
    intros Hrun Hl.
    destruct (step_lists_by_count r c r1 Hc Hk2 Hs Hl) as [Hl1 Hk1].
    eapply (IH r1); [by eapply step_consistent|lia|done|done].
Qed.

Lemma reachable_lists_by_count num_frames k r :
  2 ≤ k → reachable num_frames k r → lists_by_count r.
Proof.
  intros Hk2 (Hn & _ & calls & Hrun).
  apply (run_lists_by_count calls (new num_frames k) r);
    [by apply new_consistent|simpl; lia|done|].
  intros f count Hf. simpl in Hf. by rewrite lookup_empty in Hf.
Qed.

(** For [k ≥ 2] no call on a frame in range runs into undefined
    behaviour. *)
Lemma erase_at_tracked (l : list (nat * Z)) m f :
  iters_agree m l → f ∈ frames l → is_Ok (erase_at l m f).
Proof.
  intros Hag [it Hit]%elem_of_frames.
  destruct (erase_at_agree l m f it Hag Hit) as (l1 & l2 & _ & ->). by eexists.
Qed.

Lemma step_defined r c :
  consistent r → lists_by_count r →
  match c with
  | CallRecordAccess f | CallSetEvictable f _ | CallRemove f =>
      0 ≤ f < replacer_size_ r
  | CallEvict => True
  end →
  is_Ok (step r c).
Proof.
  intros Hc Hl Hf.
  pose proof (cs_inf_iters _ Hc) as Hia. pose proof (cs_hist_iters _ Hc) as Hha.
  destruct c as [f|f b|f|]; simpl; [| | |by eexists].
  - unfold RecordAccess. rewrite (proj2 (frame_ok_range r f) Hf). simpl.
    destruct (count_map_ r !! f) as [count|] eqn:Hcm; [|by eexists].
    destruct (Hl f count Hcm) as [H1 H2].
    case_bool_decide as Hk.
    + destruct (erase_at_tracked _ _ f Hha) as [rest ->]; [by apply H2|]. by eexists.
    + case_bool_decide as Hk'; [|by eexists].
      destruct (erase_at_tracked _ _ f Hia) as [rest ->]; [apply H1; lia|]. by eexists.
  - unfold SetEvictable. rewrite (proj2 (frame_ok_range r f) Hf). simpl.
    destruct (count_map_ r !! f); by eexists.
  - unfold Remove. rewrite (proj2 (frame_ok_range r f) Hf). simpl.
    destruct (count_map_ r !! f) as [count|] eqn:Hcm; [|by eexists].
    destruct (Hl f count Hcm) as [H1 H2].
    case_bool_decide; [by eexists|].
    case_bool_decide as Hk.
    + destruct (erase_at_tracked _ _ f Hha) as [rest ->]; [by apply H2|]. by eexists.
    + destruct (erase_at_tracked _ _ f Hia) as [rest ->]; [apply H1; lia|]. by eexists.
Qed.

(** ** The lists are ordered by the stamps *)

Lemma earlier_agree (m m' : gmap Z nat) f g :
  m' !! f = m !! f → m' !! g = m !! g → earlier m f g → earlier m' f g.
Proof. intros Hf Hg (a & b & ? & ? & ?). exists a, b. by rewrite Hf, Hg. Qed.

Lemma sorted_agree (m m' : gmap Z nat) (l : list Z) :
  (∀ g, g ∈ l → m' !! g = m !! g) →
  StronglySorted (earlier m) l → StronglySorted (earlier m') l.
Proof.
  induction l as [|x l IH]; intros Hag Hs; [constructor|].
  apply StronglySorted_cons in Hs as [Hx Hs]. apply StronglySorted_cons. split.
  - rewrite Forall_forall in *. intros g Hg.
    apply (earlier_agree m); [apply Hag; by left|apply Hag; by right|by apply Hx].
  - apply IH; [|done]. intros g Hg. apply Hag. by right.
Qed.

Lemma sorted_erased (m : gmap Z nat) (l l' : list Z) f :
  erased l l' f → StronglySorted (earlier m) l → StronglySorted (earlier m) l'.
Proof.
  intros (l1 & l2 & -> & ->). rewrite !StronglySorted_app, StronglySorted_cons.
  intros (H12 & H1 & _ & H2). repeat split; try done.
  intros x1 x2 Hx1 Hx2. apply H12; [done|by right].
Qed.

Lemma sorted_snoc (m : gmap Z nat) (l : list Z) f clock :
  (∀ g, g ∈ l → ∃ a, m !! g = Some a ∧ (a < clock)%nat) →
  m !! f = Some clock →
  StronglySorted (earlier m) l → StronglySorted (earlier m) (l ++ [f]).
Proof.
  intros Hst Hf Hs. apply StronglySorted_app. repeat split; [|done|].
  - intros x1 x2 Hx1 ->%list_elem_of_singleton.
    destruct (Hst _ Hx1) as (a & Ha & Hlt). by exists a, clock.
  - repeat constructor.
Qed.

Lemma dropped_clocked r r' f st clock :
  consistent r → dropped r r' f → clocked r st clock → clocked r' st (S clock).
Proof.
  intros Hc (Hk & _ & _ & _ & Hcm & Hl) [C1 C2 C3 C4 C5].
  destruct (consistent_lists_nodup r Hc) as (Hn1 & Hn2 & Hdis).
  assert (∀ g, g ∈ frames (history_list_ r') →
               g ∈ frames (history_list_ r) ∧ g ≠ f) as Hh.
  { destruct Hl as [[He Heq]|[He Heq]].
    - rewrite Heq. intros g Hg. split; [done|]. intros ->.
      apply erased_in in He. eauto.
    - intros g. by rewrite (erased_elem_of _ _ _ He Hn2). }
  assert (∀ g, g ∈ frames (inf_history_list_ r') →
               g ∈ frames (inf_history_list_ r)) as Hi.
  { destruct Hl as [[He Heq]|[He Heq]]; [|by rewrite Heq].
    intros g. rewrite (erased_elem_of _ _ _ He Hn1). tauto. }
  constructor.
  - intros g Hg%Hi. destruct (C1 g Hg) as (a & ? & ?). exists a. split; [done|lia].
  - intros g [Hg _]%Hh. destruct (C2 g Hg) as (a & ? & ?). exists a. split; [done|lia].
  - destruct Hl as [[He Heq]|[He Heq]]; [by eapply sorted_erased|by rewrite Heq].
  - destruct Hl as [[He Heq]|[He Heq]]; [by rewrite Heq|by eapply sorted_erased].
  - intros g [Hg Hne]%Hh. rewrite Hcm, Hk, lookup_delete_ne by done. by apply C5.
Qed.

Lemma weaken_clocked r st clock : clocked r st clock → clocked r st (S clock).
Proof.
  intros [C1 C2 C3 C4 C5]. constructor; try done.
  - intros g Hg. destruct (C1 g Hg) as (a & ? & ?). exists a. split; [done|lia].
  - intros g Hg. destruct (C2 g Hg) as (a & ? & ?). exists a. split; [done|lia].
Qed.

Lemma RecordAccess_clocked r f r' st clock :
  consistent r → RecordAccess r f = Ok r' → clocked r st clock →
  clocked r' (stamp r st clock (CallRecordAccess f)) (S clock).
Proof.
  intros Hc Hra [C1 C2 C3 C4 C5].
  destruct (consistent_lists_nodup r Hc) as (Hn1 & Hn2 & Hdis).
  pose proof (consistent_tracked_lists r f Hc) as Htr.
  destruct (RecordAccess_effect r f r' Hc Hra) as (Hk & _ & _ & Heff).
  assert (∀ (m : gmap Z nat) g a, g ≠ f → m !! g = Some a → (a < clock)%nat →
            ∃ a', <[f := clock]> m !! g = Some a' ∧ (a' < S clock)%nat) as Hother.
  { intros m g a Hne Hg Hlt. exists a. rewrite lookup_insert_ne by done.
    split; [done|lia]. }
  assert (∀ (m : gmap Z nat) g a, m !! g = Some a → (a < clock)%nat →
            ∃ a', m !! g = Some a' ∧ (a' < S clock)%nat) as Hsame.
  { intros m g a Hg Hlt. exists a. split; [done|lia]. }
  destruct Heff as [(Hnone & Hcm & Hi & Hh)
                   |(count & rest & Hsome & Hcm & Hcase)]; simpl.
  - (* first access *)
    rewrite Hnone.
    assert (¬ tracked r f) as Hnt by (unfold tracked; rewrite Hnone; by intros [? ?]).
    assert (f ∉ frames (inf_history_list_ r)) as Hfi by tauto.
    assert (f ∉ frames (history_list_ r)) as Hfh by tauto.
    constructor; simpl; rewrite ?Hi, ?Hh, ?Hk, ?Hcm.
    + intros g [Hg| ->%list_elem_of_singleton]%elem_of_app.
      * destruct (C1 g Hg) as (a & ? & ?). eapply Hother; [|done..]. by intros ->.
      * exists clock. rewrite lookup_insert_eq. split; [done|lia].
    + intros g Hg. destruct (C2 g Hg) as (a & ? & ?).
      eapply Hother; [|done..]. by intros ->.
    + eapply (sorted_snoc _ _ _ clock).
      * intros g Hg. destruct (C1 g Hg) as (a & ? & ?). exists a.
        rewrite lookup_insert_ne; [done|by intros ->].
      * by rewrite lookup_insert_eq.
      * eapply sorted_agree; [|done]. intros g Hg.
        rewrite lookup_insert_ne; [done|by intros ->].
    + eapply sorted_agree; [|done]. intros g Hg.
      rewrite lookup_insert_ne; [done|by intros ->].
    + intros g Hg. rewrite lookup_insert_ne; [by apply C5|by intros ->].
  - rewrite Hsome.
    destruct Hcase as [(Hc1 & Hi & He & Hh)|[(Hc1 & He & Hh)|(Hc1 & Hi & Hh)]].
    + (* touched in the LRU list *)
      pose proof (erased_elem_of _ _ _ He Hn2) as Hrest.
      constructor; simpl; rewrite ?Hi, ?Hh, ?Hk, ?Hcm.
      * intros g Hg. destruct (C1 g Hg) as (a & ? & ?). by eapply Hsame.
      * intros g [[Hg Hne]%Hrest| ->%list_elem_of_singleton]%elem_of_app.
        -- destruct (C2 g Hg) as (a & ? & ?). by eapply Hother.
        -- exists clock. rewrite lookup_insert_eq. split; [done|lia].
      * done.
      * eapply (sorted_snoc _ _ _ clock).
        -- intros g [Hg Hne]%Hrest. destruct (C2 g Hg) as (a & ? & ?). exists a.
           by rewrite lookup_insert_ne.
        -- by rewrite lookup_insert_eq.
        -- eapply sorted_agree; [|by eapply sorted_erased].
           intros g [Hg Hne]%Hrest. by rewrite lookup_insert_ne.
      * intros g [[Hg Hne]%Hrest| ->%list_elem_of_singleton]%elem_of_app.
        -- rewrite lookup_insert_ne by done. by apply C5.
        -- exists (count + 1). rewrite lookup_insert_eq. split; [done|lia].
    + (* promoted *)
      pose proof (erased_elem_of _ _ _ He Hn1) as Hrest.
      assert (f ∉ frames (history_list_ r)) as Hfh.
      { intros Hf. apply (Hdis f); [by eapply erased_in|done]. }
      constructor; simpl; rewrite ?Hh, ?Hk, ?Hcm.
      * intros g [Hg Hne]%Hrest. destruct (C1 g Hg) as (a & ? & ?). by eapply Hsame.
      * intros g [Hg| ->%list_elem_of_singleton]%elem_of_app.
        -- destruct (C2 g Hg) as (a & ? & ?). eapply Hother; [|done..]. by intros ->.
        -- exists clock. rewrite lookup_insert_eq. split; [done|lia].
      * by eapply sorted_erased.
      * eapply (sorted_snoc _ _ _ clock).
        -- intros g Hg. destruct (C2 g Hg) as (a & ? & ?). exists a.
           rewrite lookup_insert_ne; [done|by intros ->].
        -- by rewrite lookup_insert_eq.
        -- eapply sorted_agree; [|done]. intros g Hg.
           rewrite lookup_insert_ne; [done|by intros ->].
      * intros g [Hg| ->%list_elem_of_singleton]%elem_of_app.
        -- rewrite lookup_insert_ne; [by apply C5|by intros ->].
        -- exists (count + 1). rewrite lookup_insert_eq. split; [done|lia].
    + (* stays in the FIFO list *)
      assert (f ∉ frames (history_list_ r)) as Hfh.
      { intros Hf. destruct (C5 f Hf) as (c' & Hc' & ?). simplify_eq. lia. }
      constructor; simpl; rewrite ?Hi, ?Hh, ?Hk, ?Hcm.
      * intros g Hg. destruct (C1 g Hg) as (a & ? & ?). by eapply Hsame.
      * intros g Hg. destruct (C2 g Hg) as (a & ? & ?).
        eapply Hother; [|done..]. by intros ->.
      * done.
      * eapply sorted_agree; [|done]. intros g Hg.
        rewrite lookup_insert_ne; [done|by intros ->].
      * intros g Hg. rewrite lookup_insert_ne; [by apply C5|by intros ->].
Qed.

Lemma step_clocked r c r' st clock :
  consistent r → step r c = Ok r' → clocked r st clock →
  clocked r' (stamp r st clock c) (S clock).
Proof.
  intros Hc. destruct c as [f|f b|f|]; simpl.
  - by apply RecordAccess_clocked.
  - intros (Hk & _ & Hcm & Hi & Hh & _)%SetEvictable_effect Hck.
    apply weaken_clocked. destruct Hck as [C1 C2 C3 C4 C5].
    constructor; rewrite ?Hk, ?Hcm, ?Hi, ?Hh; done.
  - intros Hrm Hck. destruct (Remove_effect r f r' Hc Hrm) as [->|Hd].
    + by apply weaken_clocked.
    + by eapply dropped_clocked.
  - intros [= <-] Hck. destruct (Evict_effect r) as [->|(f & _ & Hd)].
    + by apply weaken_clocked.
    + by eapply dropped_clocked.
Qed.

Lemma run_clocked_inv calls : ∀ r st clock r' st',
  consistent r → clocked r st clock →
  run_clocked r st clock calls = Ok (r', st') →
  run r calls = Ok r' ∧ ∃ clock', clocked r' st' clock'.
Proof.
  induction calls as [|c calls IH]; intros r st clock r' st' Hc Hck; simpl.
  - intros [= <- <-]. eauto.
  - destruct (step r c) as [r1| |] eqn:Hs; simpl; [|done..].
    intros Hrun. eapply IH; [by eapply step_consistent| |done].
    by eapply step_clocked.
Qed.

Lemma run_clocked_total calls : ∀ r st clock r',
  run r calls = Ok r' → ∃ st', run_clocked r st clock calls = Ok (r', st').
Proof.
  induction calls as [|c calls IH]; intros r st clock r'; simpl.
  - intros [= <-]. eauto.
  - destruct (step r c) as [r1| |] eqn:Hs; simpl; [|done..]. apply IH.
Qed.

Lemma new_clocked num_frames k :
  clocked (new num_frames k) (mkStamps ∅ ∅) 0.
Proof.
  constructor; simpl; try (intros f Hf; by apply elem_of_nil in Hf); constructor.
Qed.

(** ** Evict, as the specification states it *)

Lemma head_filter_first (P : Z → Prop) `{!∀ x, Decision (P x)}
    (R : Z → Z → Prop) (l : list Z) f :
  head (filter P l) = Some f → StronglySorted R l →
  f ∈ l ∧ P f ∧ ∀ g, g ∈ l → P g → g ≠ f → R f g.
Proof.
  intros Hh Hs.
  assert (f ∈ filter P l) as [HP Hf]%list_elem_of_filter by by apply head_Some_elem_of.
  split; [done|]. split; [done|].
  apply head_filter_Some in Hh as (l1 & l2 & -> & Hl1).
  apply StronglySorted_app in Hs as (_ & _ & [Hfl2 _]%StronglySorted_cons).
  rewrite Forall_forall in Hl1, Hfl2.
  intros g [Hg|[->|Hg]%elem_of_cons]%elem_of_app HPg Hne; [|done|by apply Hfl2].
  by destruct (Hl1 g Hg).
Qed.

Lemma head_filter_None (P : Z → Prop) `{!∀ x, Decision (P x)} (l : list Z) :
  head (filter P l) = None → ∀ g, g ∈ l → ¬ P g.
Proof.
  intros Hh%head_None g Hg HP.
  assert (g ∈ filter P l) as Hin by by apply list_elem_of_filter.
  rewrite Hh in Hin. by apply elem_of_nil in Hin.
Qed.

(** The example of the specification: with [k = 2], after the accesses
    A, B, A the victim is B. *)
Lemma Evict_ABA (num_frames A B : Z) :
  0 ≤ A < num_frames → 0 ≤ B < num_frames → A ≠ B →
  ∃ r, run (new num_frames 2)
           [CallRecordAccess A; CallRecordAccess B; CallRecordAccess A] = Ok r
       ∧ (Evict r).1 = Some B.
Proof.
  intros HA HB Hne.
  assert (∀ f, 0 ≤ f < num_frames →
            bool_decide (size_t_of_int f < num_frames) && bool_decide (0 ≤ f) = true)
    as Hok.
  { intros f Hf. apply (frame_ok_range (new num_frames 2) f). by simpl. }
  unfold run, step, RecordAccess, frame_ok. simpl.
  rewrite Hok, lookup_empty by done. simpl.
  rewrite Hok by done. simpl.
  rewrite lookup_insert_ne, lookup_empty by done. simpl.
  rewrite Hok by done. simpl.
  rewrite lookup_insert_ne, lookup_insert_eq by done. simpl.
  unfold erase_at. rewrite lookup_insert_ne, lookup_insert_eq by done. simpl.
  eexists. split; [done|].
  unfold Evict, evictable. simpl. by rewrite bool_decide_true by set_solver.
Qed.

(** C6.  In every state [r] a replacer reaches through calls that
    returned, with [st] the stamps of that call sequence: [Evict] returns
    [victim r], the first frame of the infinite-history list outside the
    non-evictable set, or else the first such frame of the history list,
    or nothing when every tracked frame is non-evictable.  A victim taken
    from the infinite-history list has the oldest first access among the
    evictable frames of that list; one taken from the history list is the
    least recently accessed of its evictable frames.  After a successful
    [Evict] the frame is gone from the count map and from the lists, the
    non-evictable set is unchanged and the size is one less.  With
    [k = 2] and the accesses A, B, A, [Evict] returns B. *)
Theorem Evict_returns_victim (num_frames k : Z) (calls : list call)
    (r : LRUKReplacer) (st : stamps) :
  0 ≤ num_frames ≤ size_t_max → 0 ≤ k ≤ size_t_max →
  run_clocked (new num_frames k) (mkStamps ∅ ∅) 0 calls = Ok (r, st) →
  match victim r with
  | None =>
      Evict r = (None, r) ∧ ∀ f, tracked r f → f ∈ non_evictable_set_ r
  | Some f =>
      (∃ r', Evict r = (Some f, r') ∧
         count_map_ r' = delete f (count_map_ r) ∧
         frames (inf_history_list_ r')
           = filter (λ g, g ≠ f) (frames (inf_history_list_ r)) ∧
         frames (history_list_ r')
           = filter (λ g, g ≠ f) (frames (history_list_ r)) ∧
         non_evictable_set_ r' = non_evictable_set_ r ∧
         Size r' = Size r - 1) ∧
      tracked r f ∧ (f ∉ non_evictable_set_ r) ∧
      (f ∈ frames (inf_history_list_ r) →
         ∀ g, g ∈ frames (inf_history_list_ r) → g ∉ non_evictable_set_ r →
              g ≠ f → earlier (first_access st) f g) ∧
      (f ∉ frames (inf_history_list_ r) →
         (∀ g, g ∈ frames (inf_history_list_ r) → g ∈ non_evictable_set_ r) ∧
         f ∈ frames (history_list_ r) ∧
         ∀ g, g ∈ frames (history_list_ r) → g ∉ non_evictable_set_ r →
              g ≠ f → earlier (last_access st) f g)
  end
  ∧ (∀ n A B, 0 ≤ A < n → 0 ≤ B < n → A ≠ B →
       ∃ r2, run (new n 2)
                 [CallRecordAccess A; CallRecordAccess B; CallRecordAccess A]
             = Ok r2 ∧ (Evict r2).1 = Some B).
Proof.
  intros Hn Hk Hrun. split; [|intros n A B; apply Evict_ABA].
  destruct (run_clocked_inv calls _ _ _ _ _ (new_consistent num_frames k Hn)
              (new_clocked num_frames k) Hrun) as (Hrun' & clock & Hck).
  assert (consistent r) as Hc.
  { eapply run_consistent; [|done]. by apply new_consistent. }
  pose proof (Evict_victim r Hc) as Hev.
  pose proof (consistent_tracked_lists r) as Htr.
  destruct Hck as [_ _ Hsi Hsh _].
  unfold victim in *.
  destruct (head (filter _ (frames (inf_history_list_ r)))) as [f|] eqn:Hi.
  - destruct Hev as (r' & He & Ht & Hne & Hrest).
    destruct (head_filter_first _ _ _ _ Hi Hsi) as (Hf & _ & Hmin).
    split; [by exists r'|]. repeat split; try done.
  - pose proof (head_filter_None _ _ Hi) as Hnone.
    destruct (head (filter _ (frames (history_list_ r)))) as [f|] eqn:Hh.
    + destruct Hev as (r' & He & Ht & Hne & Hrest).
      destruct (head_filter_first _ _ _ _ Hh Hsh) as (Hf & _ & Hmin).
      split; [by exists r'|]. repeat split; try done.
      * intros Hfi. by destruct (Hnone f Hfi).
      * intros g Hg. destruct (decide (g ∈ non_evictable_set_ r)); [done|].
        by destruct (Hnone g Hg).
    + pose proof (head_filter_None _ _ Hh) as Hnone'.
      split; [done|]. intros f [Hf|Hf]%Htr; [| |done].
      * destruct (decide (f ∈ non_evictable_set_ r)); [done|].
        by destruct (Hnone f Hf).
      * destruct (decide (f ∈ non_evictable_set_ r)); [done|].
        by destruct (Hnone' f Hf).
Qed.

(** The hypotheses of [Evict_returns_victim] on the accesses 1, 2, 3, 1,
    2 with [k = 2]: the victim is frame 3. *)
Lemma Evict_returns_victim_witness :
  let calls := [CallRecordAccess 1; CallRecordAccess 2; CallRecordAccess 3;
                CallRecordAccess 1; CallRecordAccess 2] in
  ∃ r st,
    run_clocked (new 7 2) (mkStamps ∅ ∅) 0 calls = Ok (r, st) ∧
    ∃ r', Evict r = (Some 3, r') ∧ Size r' = Size r - 1.
Proof.
  intros calls.
  destruct (run_clocked (new 7 2) (mkStamps ∅ ∅) 0 calls) as [[r st]| |] eqn:Hrun;
    [|vm_compute in Hrun; discriminate..].
  exists r, st. split; [done|].
  pose proof (Evict_returns_victim 7 2 calls r st
                ltac:(unfold size_t_max; lia) ltac:(unfold size_t_max; lia) Hrun)
    as [Hv _].
  assert (victim r = Some 3) as Hvic.
  { vm_compute in Hrun. injection Hrun as <- _. vm_compute. reflexivity. }
  rewrite Hvic in Hv. destruct Hv as ((r' & He & _ & _ & _ & _ & Hs) & _).
  by exists r'.
Defined.

(** ** A replacer built with [k = 1] *)

(** C8, at a failing input.  On a replacer built with [(1, 1)] one
    [RecordAccess(0)] leaves frame 0 with count 1, which is not below
    [k], in the infinite-history list and not in the history list; a
    second [RecordAccess(0)] then erases from the history list through an
    iterator that was never set. *)
Theorem RecordAccess_with_k_1 :
  ∃ r, RecordAccess (new 1 1) 0 = Ok r ∧
       k_ r = 1 ∧ count_map_ r !! 0 = Some 1 ∧
       0 ∈ frames (inf_history_list_ r) ∧
       (0 ∉ frames (history_list_ r)) ∧
       ¬ lists_by_count r ∧
       RecordAccess r 0 = Undefined.
Proof.
  eexists. split; [vm_compute; reflexivity|].
  assert (0 ∈ frames [(0%nat, 0)]) as Hin by (apply list_elem_of_singleton; done).
  assert (0 ∉ frames []) as Hout by apply not_elem_of_nil.
  split; [done|]. split; [by vm_compute|]. split; [exact Hin|]. split; [exact Hout|].
  split; [|by vm_compute].
  intros Hl. destruct (Hl 0 1) as [H1 _]; [by vm_compute|].
  simpl in H1. apply H1 in Hin. lia.
Qed.

(** ** The replacer as the pool uses it *)

Lemma step_sound r c r' :
  sound r → step r c = Ok r' →
  sound r' ∧ replacer_size_ r' = replacer_size_ r.
Proof.
  intros (Hk & Hc & Hl) Hs.
  destruct (step_lists_by_count r c r' Hc Hk Hs Hl) as [Hl' Hk'].
  split; [split; [lia|split; [by eapply step_consistent|done]]|].
  destruct c as [f|f b|f|]; simpl in Hs.
  - by destruct (RecordAccess_effect r f r' Hc Hs) as (_ & ? & _).
  - by destruct (SetEvictable_effect r f b r' Hs) as (_ & ? & _).
  - destruct (Remove_effect r f r' Hc Hs) as [->|(_ & ? & _)]; done.
  - simplify_eq. destruct (Evict_effect r) as [->|(f & _ & _ & ? & _)]; done.
Qed.

Lemma RecordAccess_sound r f :
  sound r → 0 ≤ f < replacer_size_ r →
  ∃ r', RecordAccess r f = Ok r' ∧ sound r' ∧
        replacer_size_ r' = replacer_size_ r ∧
        non_evictable_set_ r' = non_evictable_set_ r.
Proof.
  intros Hs Hf. pose proof Hs as (Hk & Hc & Hl).
  destruct (step_defined r (CallRecordAccess f) Hc Hl Hf) as [r' Hr].
  destruct (step_sound r _ r' Hs Hr) as [Hs' Hsz]. simpl in Hr.
  exists r'. split; [done|]. split; [done|]. split; [done|].
  by destruct (RecordAccess_effect r f r' Hc Hr) as (_ & _ & ? & _).
Qed.

Lemma SetEvictable_sound r f b :
  sound r → 0 ≤ f < replacer_size_ r →
  ∃ r', SetEvictable r f b = Ok r' ∧ sound r' ∧
        replacer_size_ r' = replacer_size_ r ∧
        (∀ g, g ∈ non_evictable_set_ r' →
              g ∈ non_evictable_set_ r ∨ (g = f ∧ b = false)) ∧
        (b = true → f ∉ non_evictable_set_ r').
Proof.
  intros Hs Hf. pose proof Hs as (Hk & Hc & Hl).
  destruct (step_defined r (CallSetEvictable f b) Hc Hl Hf) as [r' Hr].
  destruct (step_sound r _ r' Hs Hr) as [Hs' Hsz]. simpl in Hr.
  exists r'. split; [done|]. split; [done|]. split; [done|].
  unfold SetEvictable in Hr. rewrite (proj2 (frame_ok_range r f) Hf) in Hr.
  simpl in Hr.
  destruct (count_map_ r !! f) as [count|] eqn:Hcm.
  - injection Hr as <-.
    destruct (decide (f ∈ non_evictable_set_ r)) as [Hin|Hin]; destruct b; simpl.
    + rewrite (bool_decide_false (f ∉ _)) by auto. simpl.
      rewrite bool_decide_true by done. simpl. split; [|set_solver].
      intros g Hg. left. set_solver.
    + rewrite (bool_decide_false (f ∉ _)) by auto. simpl.
      rewrite andb_false_r. split; [auto|done].
    + rewrite andb_false_r. simpl. rewrite bool_decide_false by done. simpl.
      split; [auto|done].
    + rewrite (bool_decide_true (f ∉ _)) by done. simpl.
      rewrite andb_false_r. simpl. split; [|done].
      intros g [->%elem_of_singleton|Hg]%elem_of_union; auto.
  - injection Hr as <-. split; [auto|]. intros _ Hin.
    apply (cs_non_evictable _ Hc) in Hin. unfold tracked in Hin.
    rewrite Hcm in Hin. by destruct Hin.
Qed.

Lemma Remove_sound r f :
  sound r → 0 ≤ f < replacer_size_ r → f ∉ non_evictable_set_ r →
  ∃ r', Remove r f = Ok r' ∧ sound r' ∧
        replacer_size_ r' = replacer_size_ r ∧
        non_evictable_set_ r' = non_evictable_set_ r ∧
        ¬ tracked r' f.
Proof.
  intros Hs Hf Hne. pose proof Hs as (Hk & Hc & Hl).
  destruct (step_defined r (CallRemove f) Hc Hl Hf) as [r' Hr].
  destruct (step_sound r _ r' Hs Hr) as [Hs' Hsz]. simpl in Hr.
  exists r'. split; [done|]. split; [done|]. split; [done|].
  unfold Remove in Hr. rewrite (proj2 (frame_ok_range r f) Hf) in Hr.
  simpl in Hr. unfold tracked.
  destruct (count_map_ r !! f) as [count|] eqn:Hcm.
  - rewrite bool_decide_false in Hr by done.
    destruct (bool_decide (k_ r ≤ count));
      destruct (erase_at _ _ f); simpl in Hr; simplify_eq; simpl;
      rewrite lookup_delete_eq; (split; [done|by intros [? ?]]).
  - injection Hr as <-. rewrite Hcm. split; [done|by intros [? ?]].
Qed.

Lemma Evict_sound r victim r' :
  sound r → Evict r = (victim, r') →
  sound r' ∧ replacer_size_ r' = replacer_size_ r ∧
  non_evictable_set_ r' = non_evictable_set_ r ∧
  ∀ f, victim = Some f → 0 ≤ f < replacer_size_ r ∧ ¬ tracked r' f.
Proof.
  intros Hs He. pose proof Hs as (Hk & Hc & Hl).
  destruct (step_sound r CallEvict r' Hs) as [Hs' Hsz].
  { simpl. by rewrite He. }
  split; [done|]. split; [done|].
  pose proof (Evict_victim r Hc) as Hv.
  destruct (LRUKReplacer.victim r) as [f|].
  - destruct Hv as (r2 & He2 & Ht & _ & Hcm & _ & _ & Hne & _).
    rewrite He in He2. simplify_eq. split; [done|].
    intros f' [= <-]. split; [by apply (cs_range _ Hc)|].
    unfold tracked. rewrite Hcm, lookup_delete_eq. by intros [? ?].
  - rewrite He in Hv. by simplify_eq.
Qed.

End ReplacerFacts.

(* ================================================================= *)
(** * More on the replacer: SetEvictable, Remove, Size and the asserts *)

Section ReplacerCalls.
Import LRUKReplacer.

Implicit Types (r : LRUKReplacer) (f g : Z).

(** No call changes the two constructor arguments. *)
Lemma step_params r c r' :
  consistent r → step r c = Ok r' →
  k_ r' = k_ r ∧ replacer_size_ r' = replacer_size_ r.
Proof.
  intros Hc. destruct c as [f|f b|f|]; simpl.
  - intros Hra. by destruct (RecordAccess_effect r f r' Hc Hra) as (? & ? & _).
  - intros He. by destruct (SetEvictable_effect r f b r' He) as (? & ? & _).
  - intros Hrm. destruct (Remove_effect r f r' Hc Hrm) as [->|Hd]; [done|].
    by destruct Hd as (? & ? & _).
  - intros [= <-]. destruct (Evict_effect r) as [->|(f & _ & Hd)]; [done|].
    by destruct Hd as (? & ? & _).
Qed.

Lemma run_params calls : ∀ r r',
  consistent r → run r calls = Ok r' →
  k_ r' = k_ r ∧ replacer_size_ r' = replacer_size_ r.
Proof.
  induction calls as [|c calls IH]; intros r r' Hc; simpl.
  - by intros [= <-].
  - destruct (step r c) as [r1| |] eqn:Hs; simpl; [|done..].
    intros Hrun.
    destruct (step_params r c r1 Hc Hs) as [Hk Hn].
    destruct (IH r1 r' (step_consistent r c r1 Hc Hs) Hrun) as [Hk' Hn'].
    split; congruence.
Qed.

Lemma reachable_params num_frames k r :
  reachable num_frames k r → k_ r = k ∧ replacer_size_ r = num_frames.
Proof.
  intros (Hn & _ & calls & Hrun).
  by apply (run_params calls (new num_frames k) r (new_consistent _ _ Hn)).
Qed.

(** X6.  The asserts and the iterators.  In a replacer built with
    [k ≥ 2], whatever calls came before, [RecordAccess], [SetEvictable]
    and [Remove] on a frame id outside [0, num_frames) abort on their
    assertion; on a frame id inside they return; [Evict] returns; and no
    call ever erases through an iterator that designates no element. *)
Theorem calls_return_or_abort (num_frames k : Z) (r : LRUKReplacer) (c : call) :
  2 ≤ k → reachable num_frames k r →
  match c with
  | CallRecordAccess f | CallSetEvictable f _ | CallRemove f =>
      if decide (0 ≤ f < num_frames) then is_Ok (step r c)
      else step r c = ContractViolation
  | CallEvict => is_Ok (step r c)
  end.
Proof.
  intros Hk Hreach.
  pose proof (reachable_consistent _ _ _ Hreach) as Hc.
  pose proof (reachable_lists_by_count _ _ _ Hk Hreach) as Hl.
  destruct (reachable_params _ _ _ Hreach) as [_ Hn].
  assert (∀ f, ¬ 0 ≤ f < num_frames → frame_ok r f = false) as Hbad.
  { intros f Hf. destruct (frame_ok r f) eqn:Hok; [|done].
    apply frame_ok_range in Hok. by rewrite Hn in Hok. }
  destruct c as [f|f b|f|].
  - case_decide as Hf.
    + apply step_defined; [done..|]. by rewrite Hn.
    + simpl. unfold RecordAccess. by rewrite (Hbad f Hf).
  - case_decide as Hf.
    + apply step_defined; [done..|]. by rewrite Hn.
    + simpl. unfold SetEvictable. by rewrite (Hbad f Hf).
  - case_decide as Hf.
    + apply step_defined; [done..|]. by rewrite Hn.
    + simpl. unfold Remove. by rewrite (Hbad f Hf).
  - by apply step_defined.
Qed.

(** X7.  [Size] counts the evictable frames.  Whatever calls came
    before, [Size()] is the number of frames that are tracked and not in
    the non-evictable set; the counter [curr_size_] never wraps around,
    and never exceeds [num_frames]. *)
Theorem Size_counts_evictable (num_frames k : Z) (r : LRUKReplacer) :
  reachable num_frames k r →
  Size r = Z.of_nat (size (dom (count_map_ r) ∖ non_evictable_set_ r)) ∧
  0 ≤ Size r ≤ num_frames.
Proof.
  intros Hreach.
  pose proof (reachable_consistent _ _ _ Hreach) as Hc.
  destruct (reachable_params _ _ _ Hreach) as [_ Hn].
  pose proof (evictable_frames_bound r Hc) as Hb.
  unfold Size. rewrite (cs_curr_size r Hc), <- Hn. done.
Qed.

(** What one frame leaving or entering the evictable ones does to their
    number. *)
Lemma evictable_size_pin (cm : gmap Z Z) (ne : gset Z) f :
  f ∈ dom cm → f ∉ ne →
  Z.of_nat (size (dom cm ∖ ({[f]} ∪ ne))) = Z.of_nat (size (dom cm ∖ ne)) - 1.
Proof.
  intros Hf Hne.
  assert (dom cm ∖ ({[f]} ∪ ne) = (dom cm ∖ ne) ∖ {[f]}) as -> by set_solver.
  rewrite (size_drop_elem (dom cm ∖ ne) f) by set_solver. lia.
Qed.

Lemma evictable_size_unpin (cm : gmap Z Z) (ne : gset Z) f :
  f ∈ dom cm → f ∈ ne →
  Z.of_nat (size (dom cm ∖ (ne ∖ {[f]}))) = Z.of_nat (size (dom cm ∖ ne)) + 1.
Proof.
  intros Hf Hne.
  assert (dom cm ∖ (ne ∖ {[f]}) = {[f]} ∪ (dom cm ∖ ne)) as ->.
  { apply set_eq. intros g. destruct (decide (g = f)); set_solver. }
  rewrite size_add_elem by set_solver. lia.
Qed.

Lemma evictable_size_drop (cm : gmap Z Z) (ne : gset Z) f :
  f ∈ dom cm → f ∉ ne →
  Z.of_nat (size (dom (delete f cm) ∖ ne)) = Z.of_nat (size (dom cm ∖ ne)) - 1.
Proof.
  intros Hf Hne. rewrite dom_delete_L.
  assert (dom cm ∖ {[f]} ∖ ne = (dom cm ∖ ne) ∖ {[f]}) as -> by set_solver.
  rewrite (size_drop_elem (dom cm ∖ ne) f) by set_solver. lia.
Qed.

(** X8.  [SetEvictable(f, b)] on a frame id in range, whatever calls
    came before.  It returns.  On a frame that is not tracked it changes
    nothing.  On a tracked frame the counts and both lists stay as they
    are; afterwards [f] is in the non-evictable set exactly when [b] is
    false, and no other frame enters or leaves that set; [Size()] goes up
    by one when [f] was non-evictable and [b] is true, down by one when
    [f] was evictable and [b] is false, and is unchanged otherwise.
    Repeating the call changes nothing more. *)
Theorem SetEvictable_spec (num_frames k : Z) (r : LRUKReplacer) (f : Z) (b : bool) :
  reachable num_frames k r → 0 ≤ f < num_frames →
  ∃ r', SetEvictable r f b = Ok r' ∧
    count_map_ r' = count_map_ r ∧
    inf_history_list_ r' = inf_history_list_ r ∧
    history_list_ r' = history_list_ r ∧
    (¬ tracked r f → r' = r) ∧
    (tracked r f →
       (f ∈ non_evictable_set_ r' ↔ b = false) ∧
       (∀ g, g ≠ f → g ∈ non_evictable_set_ r' ↔ g ∈ non_evictable_set_ r) ∧
       Size r' = Size r +
         (if decide (f ∈ non_evictable_set_ r)
          then (if b then 1 else 0) else (if b then 0 else -1))) ∧
    SetEvictable r' f b = Ok r'.
Proof.
  intros Hreach Hf.
  pose proof (reachable_consistent _ _ _ Hreach) as Hc.
  destruct (reachable_params _ _ _ Hreach) as [_ Hn].
  assert (frame_ok r f = true) as Hok by (apply frame_ok_range; by rewrite Hn).
  destruct (SetEvictable r f b) as [r'| |] eqn:He.
  2,3: unfold SetEvictable in He; rewrite Hok in He; simpl in He;
       by destruct (count_map_ r !! f).
  pose proof (SetEvictable_consistent r f b r' Hc He) as Hc'.
  destruct (SetEvictable_effect r f b r' He) as (Hk' & Hn' & Hcm & Hi & Hh & _).
  assert (frame_ok r' f = true) as Hok'
    by (apply frame_ok_range; rewrite Hn', Hn; done).
  exists r'. split; [done|]. split; [done|]. split; [done|]. split; [done|].
  unfold SetEvictable in He. rewrite Hok in He. simpl in He.
  unfold tracked, Size.
  rewrite (cs_curr_size r' Hc'), (cs_curr_size r Hc). unfold evictable_frames.
  rewrite Hcm.
  destruct (count_map_ r !! f) as [count|] eqn:Hcount.
  - assert (f ∈ dom (count_map_ r)) as Hdom by by apply elem_of_dom.
    split; [intros []; eauto|].
    assert ((f ∈ non_evictable_set_ r' ↔ b = false) ∧
            (∀ g, g ≠ f → g ∈ non_evictable_set_ r' ↔ g ∈ non_evictable_set_ r) ∧
            Z.of_nat (size (dom (count_map_ r) ∖ non_evictable_set_ r'))
            = Z.of_nat (size (dom (count_map_ r) ∖ non_evictable_set_ r)) +
              (if decide (f ∈ non_evictable_set_ r)
               then (if b then 1 else 0) else (if b then 0 else -1)))
      as (Hmem & Hother & Hsize).
    { injection He as <-.
      destruct (decide (f ∈ non_evictable_set_ r)) as [Hin|Hin]; destruct b; simpl.
      - rewrite (bool_decide_false (f ∉ _)) by auto. simpl.
        rewrite bool_decide_true by done. simpl.
        split; [set_solver|]. split; [set_solver|].
        by apply evictable_size_unpin.
      - rewrite (bool_decide_false (f ∉ _)) by auto. simpl.
        rewrite andb_false_r. split; [done|]. split; [done|]. lia.
      - rewrite andb_false_r. simpl. rewrite bool_decide_false by done. simpl.
        split; [done|]. split; [done|]. lia.
      - rewrite (bool_decide_true (f ∉ _)) by done. simpl.
        rewrite andb_false_r.
        split; [set_solver|]. split; [set_solver|].
        by apply evictable_size_pin. }
    split; [intros _; done|].
    unfold SetEvictable. rewrite Hok'. simpl. rewrite Hcm, Hcount.
    destruct b.
    + rewrite andb_false_r. rewrite (bool_decide_false (f ∈ _)); [done|].
      intros Hin. by apply Hmem in Hin.
    + rewrite andb_false_r.
      rewrite (bool_decide_false (f ∉ _)); [done|].
      intros Hnin. apply Hnin, Hmem. done.
  - injection He as <-. split; [done|]. split; [by intros [? ?]|].
    unfold SetEvictable. rewrite Hok. simpl. by rewrite Hcount.
Qed.

(** X9.  [Remove(f)] on a frame id in range, in a replacer built with
    [k ≥ 2], whatever calls came before.  It returns.  When [f] is not
    tracked, or is in the non-evictable set, nothing changes.  Otherwise
    [f] is tracked no more: its count is gone, it has left the list it
    was in while the other frames keep their order, the non-evictable
    set is as before, and [Size()] is one less. *)
Theorem Remove_spec (num_frames k : Z) (r : LRUKReplacer) (f : Z) :
  2 ≤ k → reachable num_frames k r → 0 ≤ f < num_frames →
  ∃ r', Remove r f = Ok r' ∧
    if decide (tracked r f ∧ f ∉ non_evictable_set_ r) then
      count_map_ r' = delete f (count_map_ r) ∧
      frames (inf_history_list_ r')
        = filter (λ g, g ≠ f) (frames (inf_history_list_ r)) ∧
      frames (history_list_ r')
        = filter (λ g, g ≠ f) (frames (history_list_ r)) ∧
      non_evictable_set_ r' = non_evictable_set_ r ∧
      Size r' = Size r - 1
    else r' = r.
Proof.
  intros Hk Hreach Hf.
  pose proof (reachable_consistent _ _ _ Hreach) as Hc.
  pose proof (reachable_lists_by_count _ _ _ Hk Hreach) as Hl.
  destruct (reachable_params _ _ _ Hreach) as [_ Hn].
  destruct (step_defined r (CallRemove f) Hc Hl) as [r' Hr];
    [simpl; by rewrite Hn|]. simpl in Hr.
  pose proof (Remove_consistent r f r' Hc Hr) as Hc'.
  exists r'. split; [done|].
  assert (frame_ok r f = true) as Hok by (apply frame_ok_range; by rewrite Hn).
  case_decide as Hcase.
  - destruct Hcase as [[count Hcount] Hne].
    destruct (Remove_effect r f r' Hc Hr) as [->|Hd].
    { (* the call cannot have left the state as it was *)
      unfold Remove in Hr. rewrite Hok, Hcount in Hr. simpl in Hr.
      rewrite bool_decide_false in Hr by done.
      destruct (bool_decide (k_ r ≤ count));
        destruct (erase_at _ _ f); simpl in Hr; try done;
        injection Hr as Hr; apply (f_equal count_map_) in Hr; simpl in Hr;
        apply (f_equal (λ m, m !! f)) in Hr;
        rewrite lookup_delete_eq, Hcount in Hr; done. }
    destruct Hd as (_ & _ & Hne' & _ & Hcm & Hlists).
    destruct (consistent_lists_nodup r Hc) as (Hnd1 & Hnd2 & Hdisj).
    split; [done|].
    assert (frames (inf_history_list_ r')
              = filter (λ g, g ≠ f) (frames (inf_history_list_ r)) ∧
            frames (history_list_ r')
              = filter (λ g, g ≠ f) (frames (history_list_ r))) as [Hi Hh].
    { destruct Hlists as [[(l1 & l2 & H1 & H2) Hsame]|[(l1 & l2 & H1 & H2) Hsame]].
      - rewrite H2, Hsame, H1. rewrite H1 in Hnd1.
        split; [by rewrite filter_out_nodup|].
        rewrite filter_out_absent; [done|].
        intros Hin. apply (Hdisj f); [rewrite H1; set_solver|done].
      - rewrite H2, Hsame, H1. rewrite H1 in Hnd2.
        split; [|by rewrite filter_out_nodup].
        rewrite filter_out_absent; [done|].
        intros Hin. apply (Hdisj f); [done|rewrite H1; set_solver]. }
    split; [done|]. split; [done|]. split; [done|].
    unfold Size. rewrite (cs_curr_size r' Hc'), (cs_curr_size r Hc).
    unfold evictable_frames. rewrite Hcm, Hne'.
    apply evictable_size_drop; [by apply elem_of_dom|done].
  - unfold Remove in Hr. rewrite Hok in Hr. simpl in Hr.
    destruct (count_map_ r !! f) as [count|] eqn:Hcount; [|by injection Hr].
    case_bool_decide as Hne; [by injection Hr|].
    destruct Hcase. split; [by eexists|done].
Qed.

(** X10.  [Evict] and [Size].  Whatever calls came before, [Evict]
    fails exactly when [Size()] is 0; and when it succeeds the frame it
    hands out was tracked and evictable, is tracked no more, and
    [Size()] is one less. *)
Theorem Evict_succeeds_iff_Size_positive (num_frames k : Z) (r : LRUKReplacer) :
  reachable num_frames k r →
  ((Evict r).1 = None ↔ Size r = 0) ∧
  ∀ f, (Evict r).1 = Some f →
    tracked r f ∧ (f ∉ non_evictable_set_ r) ∧
    ¬ tracked (Evict r).2 f ∧ Size (Evict r).2 = Size r - 1.
Proof.
  intros Hreach.
  pose proof (reachable_consistent _ _ _ Hreach) as Hc.
  pose proof (Evict_victim r Hc) as Hev.
  split; [split|].
  - intros Hnone. destruct (victim r) as [f|] eqn:Hv.
    { destruct Hev as (r' & He & _). by rewrite He in Hnone. }
    unfold victim in Hv.
    destruct (head (filter _ (frames (inf_history_list_ r)))) eqn:Hi; [done|].
    pose proof (head_filter_None _ _ Hi) as Hi'.
    pose proof (head_filter_None _ _ Hv) as Hh'.
    unfold Size. rewrite (cs_curr_size r Hc).
    assert (evictable_frames r = ∅) as ->; [|done].
    apply set_eq. intros g. split; [|set_solver].
    unfold evictable_frames. intros [Hg Hne]%elem_of_difference.
    apply elem_of_dom in Hg.
    apply (consistent_tracked_lists r g Hc) in Hg as [Hg|Hg].
    + by destruct (Hi' g Hg).
    + by destruct (Hh' g Hg).
  - intros H0. unfold Evict. unfold Size in H0.
    by rewrite bool_decide_true.
  - intros f Hsome. destruct (victim r) as [f'|] eqn:Hv.
    + destruct Hev as (r' & He & Htr & Hne & Hcm & _ & _ & _ & Hsz).
      rewrite He in Hsome |- *. simpl in *. injection Hsome as ->.
      split; [done|]. split; [done|]. split; [|done].
      unfold tracked. rewrite Hcm, lookup_delete_eq. by intros [? ?].
    + by rewrite Hev in Hsome.
Qed.

End ReplacerCalls.

Section ReplacerCallsExamples.
Import LRUKReplacer.

(** [calls_return_or_abort] after three accesses in a replacer of seven
    frames: a fourth access to frame 2 returns, one to frame 7 aborts. *)
Lemma calls_return_or_abort_witness :
  let calls := [CallRecordAccess 1; CallRecordAccess 2; CallRecordAccess 1] in
  let r := returned (new 7 2) (run (new 7 2) calls) in
  2 ≤ 2 ∧ reachable 7 2 r ∧
  is_Ok (step r (CallRecordAccess 2)) ∧
  step r (CallRemove 7) = ContractViolation.
Proof.
  intros calls r.
  assert (reachable 7 2 r) as Hreach.
  { split; [unfold size_t_max; lia|]. split; [unfold size_t_max; lia|].
    exists calls. vm_compute. reflexivity. }
  split; [lia|]. split; [exact Hreach|]. split.
  - exact (calls_return_or_abort 7 2 r (CallRecordAccess 2) ltac:(lia) Hreach).
  - exact (calls_return_or_abort 7 2 r (CallRemove 7) ltac:(lia) Hreach).
Defined.

(** [Size_counts_evictable] after frame 2 of three tracked frames was
    made non-evictable. *)
Lemma Size_counts_evictable_witness :
  let calls := [CallRecordAccess 1; CallRecordAccess 2; CallRecordAccess 3;
                CallSetEvictable 2 false] in
  let r := returned (new 7 2) (run (new 7 2) calls) in
  reachable 7 2 r ∧ Size r = 2 ∧
  Size r = Z.of_nat (size (dom (count_map_ r) ∖ non_evictable_set_ r)).
Proof.
  intros calls r.
  assert (reachable 7 2 r) as Hreach.
  { split; [unfold size_t_max; lia|]. split; [unfold size_t_max; lia|].
    exists calls. vm_compute. reflexivity. }
  split; [exact Hreach|]. split; [vm_compute; reflexivity|].
  exact (proj1 (Size_counts_evictable 7 2 r Hreach)).
Defined.

(** [SetEvictable_spec] on a tracked, evictable frame. *)
Lemma SetEvictable_spec_witness :
  let calls := [CallRecordAccess 1; CallRecordAccess 2] in
  let r := returned (new 7 2) (run (new 7 2) calls) in
  reachable 7 2 r ∧ 0 ≤ 2 < 7 ∧
  ∃ r', SetEvictable r 2 false = Ok r' ∧
    Size r' = 1 ∧ SetEvictable r' 2 false = Ok r'.
Proof.
  intros calls r.
  assert (reachable 7 2 r) as Hreach.
  { split; [unfold size_t_max; lia|]. split; [unfold size_t_max; lia|].
    exists calls. vm_compute. reflexivity. }
  split; [exact Hreach|]. split; [lia|].
  destruct (SetEvictable_spec 7 2 r 2 false Hreach ltac:(lia))
    as (r' & He & _ & _ & _ & _ & Htr & Hidem).
  exists r'. split; [exact He|]. split; [|exact Hidem].
  assert (tracked r 2) as Ht by (vm_compute; eauto).
  destruct (Htr Ht) as (_ & _ & ->). vm_compute. reflexivity.
Defined.

(** [Remove_spec] on a tracked, evictable frame: frame 1 goes, frame 2
    stays. *)
Lemma Remove_spec_witness :
  let calls := [CallRecordAccess 1; CallRecordAccess 2] in
  let r := returned (new 7 2) (run (new 7 2) calls) in
  2 ≤ 2 ∧ reachable 7 2 r ∧ 0 ≤ 1 < 7 ∧
  ∃ r', Remove r 1 = Ok r' ∧ frames (inf_history_list_ r') = [2] ∧ Size r' = 1.
Proof.
  intros calls r.
  assert (reachable 7 2 r) as Hreach.
  { split; [unfold size_t_max; lia|]. split; [unfold size_t_max; lia|].
    exists calls. vm_compute. reflexivity. }
  split; [lia|]. split; [exact Hreach|]. split; [lia|].
  destruct (Remove_spec 7 2 r 1 ltac:(lia) Hreach ltac:(lia)) as (r' & He & Hspec).
  exists r'. split; [exact He|].
  rewrite decide_True in Hspec.
  - destruct Hspec as (_ & -> & _ & _ & ->). split; vm_compute; reflexivity.
  - split; [vm_compute; eauto|]. vm_compute. intros H. discriminate H.
Defined.

(** [Evict_succeeds_iff_Size_positive] when the one tracked frame is
    non-evictable: [Size()] is 0 and [Evict] fails. *)
Lemma Evict_succeeds_iff_Size_positive_witness :
  let calls := [CallRecordAccess 1; CallSetEvictable 1 false] in
  let r := returned (new 7 2) (run (new 7 2) calls) in
  reachable 7 2 r ∧ Size r = 0 ∧ (Evict r).1 = None.
Proof.
  intros calls r.
  assert (reachable 7 2 r) as Hreach.
  { split; [unfold size_t_max; lia|]. split; [unfold size_t_max; lia|].
    exists calls. vm_compute. reflexivity. }
  split; [exact Hreach|].
  assert (Size r = 0) as H0 by (vm_compute; reflexivity).
  split; [exact H0|].
  exact (proj2 (proj1 (Evict_succeeds_iff_Size_positive 7 2 r Hreach)) H0).
Defined.

End ReplacerCallsExamples.

(* ================================================================= *)
(** * Properties of the buffer pool manager *)

Section PoolFacts.
Import BufferPoolManager.

Variable PAGE_SIZE : nat.

Implicit Types (s : BufferPoolManager) (pg : Page).

Lemma set_replacer_same s : set_replacer s (replacer_ s) = s.
Proof. by destruct s. Qed.

Lemma Evict_None_same r :
  (LRUKReplacer.Evict r).1 = None → (LRUKReplacer.Evict r).2 = r.
Proof.
  unfold LRUKReplacer.Evict. case_bool_decide; [done|].
  destruct (LRUKReplacer.take_first _ (LRUKReplacer.inf_history_list_ r))
    as [[[??]?]|]; [done|].
  by destruct (LRUKReplacer.take_first _ (LRUKReplacer.history_list_ r))
    as [[[??]?]|].
Qed.

(** ** NewPage with no frame to give *)

Lemma find_frame_exhausted s :
  free_list_ s = [] → (LRUKReplacer.Evict (replacer_ s)).1 = None →
  find_frame s = Ok (None, s).
Proof.
  intros Hfree Hev. unfold find_frame. rewrite Hfree. simpl.
  pose proof (Evict_None_same _ Hev) as Hsame.
  destruct (LRUKReplacer.Evict (replacer_ s)) as [victim r]. simpl in *.
  subst. by rewrite set_replacer_same.
Qed.

Lemma NewPage_returns_counter s out frame_id page_id s' :
  NewPage PAGE_SIZE s out = Ok (Some frame_id, page_id, s') →
  ∃ s1, find_frame s = Ok (Some frame_id, s1) ∧ page_id = next_page_id_ s1.
Proof.
  unfold NewPage.
  destruct (find_frame s) as [[[f|] s1]| |]; simpl; try done.
  destruct (get_page _ f); simpl; [|done..].
  destruct (touch_and_pin _ f); simpl; [|done..].
  intros [= <- <- <-]. eauto.
Qed.

Lemma find_frame_next_page_id s found s1 :
  find_frame s = Ok (found, s1) → next_page_id_ s1 = next_page_id_ s.
Proof.
  unfold find_frame. destruct (last (free_list_ s)).
  - by intros [= <- <-].
  - destruct (LRUKReplacer.Evict (replacer_ s)) as [[f|] r]; simpl.
    + destruct (get_page _ f) as [pg| |]; simpl; [|done..].
      intros [= <- <-]. by destruct (is_dirty_ pg).
    + by intros [= <- <-].
Qed.

(** C10.  When the free list is empty and the replacer has no victim,
    [NewPage] returns the null page, leaves [*page_id] as it was and
    returns the pool state it was called on: allocator counter, page
    table, free list, replacer and frames are untouched.  A later
    [NewPage] that succeeds from a state with the same counter returns
    the id that counter holds. *)
Theorem NewPage_exhausted (s : BufferPoolManager) (out : Z) :
  free_list_ s = [] →
  (LRUKReplacer.Evict (replacer_ s)).1 = None →
  NewPage PAGE_SIZE s out = Ok (None, out, s) ∧
  ∀ s1 out1 frame_id page_id s2,
    next_page_id_ s1 = next_page_id_ s →
    NewPage PAGE_SIZE s1 out1 = Ok (Some frame_id, page_id, s2) →
    page_id = next_page_id_ s.
Proof.
  intros Hfree Hev. split.
  - unfold NewPage. by rewrite find_frame_exhausted.
  - intros s1 out1 f pid s2 Hnext Hnew.
    apply NewPage_returns_counter in Hnew as (s1' & Hff & ->).
    apply find_frame_next_page_id in Hff. congruence.
Qed.

(** ** Frames of the page array *)

Lemma get_page_Ok s f pg :
  get_page s f = Ok pg ↔ 0 ≤ f ∧ pages_ s !! Z.to_nat f = Some pg.
Proof.
  unfold get_page. case_bool_decide; [|split; [done|lia]].
  destruct (pages_ s !! Z.to_nat f); naive_solver.
Qed.

Lemma get_page_in_range s f :
  0 ≤ f < Z.of_nat (length (pages_ s)) → ∃ pg, get_page s f = Ok pg.
Proof.
  intros Hf. destruct (lookup_lt_is_Some_2 (pages_ s) (Z.to_nat f)) as [pg Hpg]; [lia|].
  exists pg. apply get_page_Ok. split; [lia|done].
Qed.

Lemma get_page_range s f pg :
  get_page s f = Ok pg → 0 ≤ f < Z.of_nat (length (pages_ s)).
Proof.
  intros [H0 Hl]%get_page_Ok. apply lookup_lt_Some in Hl. lia.
Qed.

Lemma pool_ok_sound s : pool_ok s → LRUKReplacer.sound (replacer_ s).
Proof. intros [? ? ? ? ? ? ? ?]. split; [done|by split]. Qed.

(** ** The invariant under an update of one frame *)

Lemma pool_ok_update s s' f pg' :
  pool_ok s →
  LRUKReplacer.sound (replacer_ s') →
  LRUKReplacer.replacer_size_ (replacer_ s')
    = LRUKReplacer.replacer_size_ (replacer_ s) →
  pages_ s' = <[Z.to_nat f := pg']> (pages_ s) →
  0 ≤ f < Z.of_nat (length (pages_ s)) →
  0 ≤ pin_count_ pg' →
  (∀ pid g, page_table_ s' !! pid = Some g → g = f ∨ page_table_ s !! pid = Some g) →
  (∀ g, g ∈ free_list_ s' → g = f ∨ g ∈ free_list_ s) →
  (∀ g, g ∈ LRUKReplacer.non_evictable_set_ (replacer_ s') →
        g ∈ LRUKReplacer.non_evictable_set_ (replacer_ s) ∨ g = f) →
  (pin_count_ pg' ≤ 0 → f ∉ LRUKReplacer.non_evictable_set_ (replacer_ s')) →
  pool_ok s'.
Proof.
  intros [Hk Hc Hl Hsz Ht Hf Hp Hu] (Hk' & Hc' & Hl') Hsz' Hpages Hfr Hpin Ht' Hf' Hne Hfne.
  assert (length (pages_ s') = length (pages_ s)) as Hlen.
  { by rewrite Hpages, length_insert. }
  constructor; try done.
  - by rewrite Hsz', Hlen.
  - intros pid g [->|Hg]%Ht'; rewrite Hlen; eauto.
  - intros g [->|Hg]%Hf'; rewrite Hlen; eauto.
  - intros pg. rewrite Hpages. intros Hpg.
    apply list_elem_of_lookup in Hpg as [i Hi].
    destruct (decide (i = Z.to_nat f)) as [->|Hne'].
    + rewrite list_lookup_insert_eq in Hi by lia. by simplify_eq.
    + rewrite list_lookup_insert_ne in Hi by done.
      apply Hp. by eapply list_elem_of_lookup_2.
  - intros pid g pg Hg [Hg0 Hpg]%get_page_Ok Hpin'.
    rewrite Hpages in Hpg.
    destruct (decide (g = f)) as [->|Hgf].
    + rewrite list_lookup_insert_eq in Hpg by lia. simplify_eq. by apply Hfne.
    + rewrite list_lookup_insert_ne in Hpg by lia.
      destruct (Ht' _ _ Hg) as [->|Hold]; [done|].
      intros [Hin| ->]%Hne; [|done].
      eapply (Hu pid g pg); [done| |done|done]. by apply get_page_Ok.
Qed.

(** The invariant when the page array is left alone. *)
Lemma pool_ok_shrink s s' :
  pool_ok s →
  LRUKReplacer.sound (replacer_ s') →
  LRUKReplacer.replacer_size_ (replacer_ s')
    = LRUKReplacer.replacer_size_ (replacer_ s) →
  pages_ s' = pages_ s →
  (∀ pid g, page_table_ s' !! pid = Some g → page_table_ s !! pid = Some g) →
  (∀ g, g ∈ free_list_ s' → g ∈ free_list_ s) →
  LRUKReplacer.non_evictable_set_ (replacer_ s')
    = LRUKReplacer.non_evictable_set_ (replacer_ s) →
  pool_ok s'.
Proof.
  intros [Hk Hc Hl Hsz Ht Hf Hp Hu] (Hk' & Hc' & Hl') Hsz' Hpages Ht' Hf' Hne.
  constructor; try done; rewrite ?Hpages, ?Hne, ?Hsz'; try done.
  - intros pid g Hg%Ht'. eauto.
  - intros g Hg%Hf'. eauto.
  - intros pid g pg Hg%Ht' Hpg. eapply Hu; [done|].
    apply get_page_Ok. apply get_page_Ok in Hpg. by rewrite <- Hpages.
Qed.

Lemma new_ok pool_size replacer_k disk :
  0 ≤ pool_size ≤ LRUKReplacer.size_t_max → 2 ≤ replacer_k →
  pool_ok (new PAGE_SIZE pool_size replacer_k disk).
Proof.
  intros Hp Hk. constructor; simpl; try done.
  - by apply new_consistent.
  - rewrite length_replicate. lia.
  - intros g [? ?]%elem_of_seqZ. rewrite length_replicate. lia.
  - intros pg [-> _]%elem_of_replicate. done.
Qed.

(** ** The methods keep the invariant and return *)

Lemma last_elem_of {A} (l : list A) x : last l = Some x → x ∈ l.
Proof.
  destruct l as [|y l] using rev_ind; [done|].
  rewrite last_snoc. intros [= ->]. set_solver.
Qed.

Lemma removelast_subseteq {A} (l : list A) x : x ∈ removelast l → x ∈ l.
Proof.
  destruct l as [|y l] using rev_ind; [done|].
  rewrite removelast_last. set_solver.
Qed.

Lemma find_frame_ok s :
  pool_ok s →
  ∃ found s1, find_frame s = Ok (found, s1) ∧ pool_ok s1 ∧
    length (pages_ s1) = length (pages_ s) ∧
    ∀ f, found = Some f → 0 ≤ f < Z.of_nat (length (pages_ s)).
Proof.
  intros Hok. pose proof (pool_ok_sound s Hok) as Hs.
  unfold find_frame. destruct (last (free_list_ s)) as [f|] eqn:Hlast.
  - eexists _, _. split; [done|]. split; [|split; [done|]].
    + apply (pool_ok_shrink s); try done. simpl. apply removelast_subseteq.
    + intros ? [= <-]. apply (po_free s Hok). by apply last_elem_of.
  - destruct (LRUKReplacer.Evict (replacer_ s)) as [victim r] eqn:Hev.
    destruct (Evict_sound _ _ _ Hs Hev) as (Hs' & Hsz & Hne & Hvic).
    destruct victim as [f|]; simpl.
    + destruct (Hvic f eq_refl) as [Hf _].
      rewrite (po_size s Hok) in Hf.
      destruct (get_page_in_range (set_replacer s r) f) as [pg Hpg]; [done|].
      rewrite Hpg. simpl. eexists _, _. split; [done|].
      split; [|split; [by destruct (is_dirty_ pg)|by intros ? [= <-]]].
      apply (pool_ok_shrink s); try done; destruct (is_dirty_ pg); simpl; try done.
      * intros pid g [_ ?]%lookup_delete_Some. done.
      * intros pid g [_ ?]%lookup_delete_Some. done.
    + eexists _, _. split; [done|]. split; [|split; [done|done]].
      by apply (pool_ok_shrink s).
Qed.

Lemma touch_and_pin_ok s f :
  LRUKReplacer.sound (replacer_ s) →
  0 ≤ f < LRUKReplacer.replacer_size_ (replacer_ s) →
  ∃ r, touch_and_pin s f = Ok (set_replacer s r) ∧ LRUKReplacer.sound r ∧
    LRUKReplacer.replacer_size_ r = LRUKReplacer.replacer_size_ (replacer_ s) ∧
    ∀ g, g ∈ LRUKReplacer.non_evictable_set_ r →
         g ∈ LRUKReplacer.non_evictable_set_ (replacer_ s) ∨ g = f.
Proof.
  intros Hs Hf. unfold touch_and_pin.
  destruct (RecordAccess_sound _ f Hs Hf) as (r1 & -> & Hs1 & Hsz1 & Hne1). simpl.
  destruct (SetEvictable_sound r1 f false Hs1) as (r2 & -> & Hs2 & Hsz2 & Hne2 & _);
    [lia|].
  simpl. exists r2. split; [done|]. split; [done|]. split; [lia|].
  intros g [Hg|[-> _]]%Hne2; [left; by rewrite <- Hne1|by right].
Qed.

Lemma NewPage_ok s out :
  pool_ok s → ∃ found page_id s', NewPage PAGE_SIZE s out = Ok (found, page_id, s')
                                   ∧ pool_ok s'.
Proof.
  intros Hok. unfold NewPage.
  destruct (find_frame_ok s Hok) as (found & s1 & -> & Hok1 & Hlen & Hf). simpl.
  destruct found as [f|]; [|by eexists _, _, _].
  specialize (Hf f eq_refl). rewrite <- Hlen in Hf.
  destruct (get_page_in_range (set_next_page_id s1 (wrap_int32 (next_page_id_ s1 + 1))) f)
    as [pg ->]; [done|].
  simpl.
  set (s2 := put_page _ f _).
  destruct (touch_and_pin_ok s2 f) as (r & -> & Hs & Hsz & Hne).
  { apply (pool_ok_sound s1 Hok1). }
  { simpl. by rewrite (po_size s1 Hok1). }
  simpl. eexists _, _, _. split; [done|].
  eapply (pool_ok_update s1 _ f); try done; simpl; try done.
  - intros pid g [[_ <-]|[_ ?]]%lookup_insert_Some; auto.
  - auto.
Qed.

Lemma FetchPage_ok s page_id :
  pool_ok s →
  match FetchPage PAGE_SIZE s page_id with
  | Ok (_, s') => pool_ok s'
  | ContractViolation => False
  | Undefined =>
      ∃ f pg, page_table_ s !! page_id = Some f ∧ get_page s f = Ok pg
              ∧ pin_count_ pg = INT32_MAX
  end.
Proof.
  intros Hok. unfold FetchPage.
  destruct (page_table_ s !! page_id) as [f|] eqn:Hpt.
  - pose proof (po_table s Hok _ _ Hpt) as Hf.
    destruct (get_page_in_range s f Hf) as [pg Hpg]. rewrite Hpg. simpl.
    case_bool_decide as Hmax; [by eauto|].
    set (s2 := put_page _ f _).
    destruct (touch_and_pin_ok s2 f) as (r & -> & Hs & Hsz & Hne).
    { apply (pool_ok_sound s Hok). }
    { simpl. by rewrite (po_size s Hok). }
    simpl.
    assert (0 ≤ pin_count_ pg) as Hpin.
    { apply (po_pins s Hok). apply get_page_Ok in Hpg as [_ Hpg].
      by eapply list_elem_of_lookup_2. }
    eapply (pool_ok_update s _ f); try done; simpl; try done; try lia; auto.
  - destruct (find_frame_ok s Hok) as (found & s1 & -> & Hok1 & Hlen & Hf). simpl.
    destruct found as [f|]; [|done].
    specialize (Hf f eq_refl). rewrite <- Hlen in Hf.
    destruct (get_page_in_range s1 f) as [pg ->]; [done|].
    simpl.
    set (s2 := put_page _ f _).
    destruct (touch_and_pin_ok s2 f) as (r & -> & Hs & Hsz & Hne).
    { apply (pool_ok_sound s1 Hok1). }
    { simpl. by rewrite (po_size s1 Hok1). }
    simpl.
    eapply (pool_ok_update s1 _ f); try done; simpl; try done.
    + intros pid g [[_ <-]|[_ ?]]%lookup_insert_Some; auto.
    + auto.
Qed.

Lemma UnpinPage_ok s page_id is_dirty :
  pool_ok s → ∃ b s', UnpinPage s page_id is_dirty = Ok (b, s') ∧ pool_ok s'.
Proof.
  intros Hok. unfold UnpinPage.
  destruct (page_table_ s !! page_id) as [f|] eqn:Hpt; [|by eexists _, _].
  pose proof (po_table s Hok _ _ Hpt) as Hf.
  destruct (get_page_in_range s f Hf) as [pg Hpg]. rewrite Hpg. simpl.
  case_bool_decide as Hpin; [by eexists _, _|].
  set (s2 := put_page _ f _).
  case_bool_decide as Hpin'.
  - destruct (SetEvictable_sound (replacer_ s) f true)
      as (r & -> & Hs & Hsz & Hne & Hfne).
    { apply (pool_ok_sound s Hok). }
    { by rewrite (po_size s Hok). }
    simpl. eexists _, _. split; [done|].
    eapply (pool_ok_update s _ f); try done; simpl; try done; try lia; auto.
    intros g [Hg|[_ ?]]%Hne; [auto|done].
  - eexists _, _. split; [done|].
    eapply (pool_ok_update s _ f); try done; simpl; try done; try lia; auto.
    apply (pool_ok_sound s Hok).
Qed.

Lemma FlushPage_ok s page_id :
  pool_ok s → ∃ b s', FlushPage s page_id = Ok (b, s') ∧ pool_ok s'.
Proof.
  intros Hok. unfold FlushPage.
  case_bool_decide; [by eexists _, _|].
  destruct (page_table_ s !! page_id) as [f|] eqn:Hpt; [|by eexists _, _].
  pose proof (po_table s Hok _ _ Hpt) as Hf.
  destruct (get_page_in_range s f Hf) as [pg Hpg]. rewrite Hpg. simpl.
  eexists _, _. split; [done|].
  assert (0 ≤ pin_count_ pg) as Hpin.
  { apply (po_pins s Hok). apply get_page_Ok in Hpg as [_ Hpg].
    by eapply list_elem_of_lookup_2. }
  eapply (pool_ok_update s _ f); try done; simpl; try done; auto.
  - apply (pool_ok_sound s Hok).
  - intros Hle. by eapply (po_unpinned s Hok page_id f pg).
Qed.

Lemma DeletePage_ok s page_id :
  pool_ok s → ∃ b s', DeletePage PAGE_SIZE s page_id = Ok (b, s') ∧ pool_ok s'.
Proof.
  intros Hok. unfold DeletePage.
  destruct (page_table_ s !! page_id) as [f|] eqn:Hpt; [|by eexists _, _].
  pose proof (po_table s Hok _ _ Hpt) as Hf.
  destruct (get_page_in_range s f Hf) as [pg Hpg]. rewrite Hpg. simpl.
  case_bool_decide as Hpin; [by eexists _, _|].
  assert (f ∉ LRUKReplacer.non_evictable_set_ (replacer_ s)) as Hfne.
  { eapply (po_unpinned s Hok page_id f pg); [done..|lia]. }
  destruct (Remove_sound (replacer_ s) f) as (r & -> & Hs & Hsz & Hne & _);
    [apply (pool_ok_sound s Hok)|by rewrite (po_size s Hok)|done|].
  simpl. eexists _, _. split; [done|].
  eapply (pool_ok_update s _ f); try done; simpl; try done.
  - intros pid g [_ ?]%lookup_delete_Some. auto.
  - intros g [?| ->%list_elem_of_singleton]%elem_of_app; auto.
  - rewrite Hne. auto.
  - by rewrite Hne.
Qed.


(** ** A dirty victim is written back before its frame is reused *)

Lemma Evict_Some r0 f r :
  LRUKReplacer.Evict r0 = (Some f, r) →
  LRUKReplacer.count_map_ r !! f = None ∧
  LRUKReplacer.replacer_size_ r = LRUKReplacer.replacer_size_ r0.
Proof.
  unfold LRUKReplacer.Evict. case_bool_decide; [done|].
  destruct (LRUKReplacer.take_first _ (LRUKReplacer.inf_history_list_ r0))
    as [[[??]?]|].
  - intros [= <- <-]. simpl. by rewrite lookup_delete_eq.
  - destruct (LRUKReplacer.take_first _ (LRUKReplacer.history_list_ r0))
      as [[[??]?]|]; [|done].
    intros [= <- <-]. simpl. by rewrite lookup_delete_eq.
Qed.

Lemma touch_and_pin_untracked s f :
  LRUKReplacer.count_map_ (replacer_ s) !! f = None →
  0 ≤ f < LRUKReplacer.replacer_size_ (replacer_ s) →
  ∃ r, touch_and_pin s f = Ok (set_replacer s r).
Proof.
  intros Hcm Hf. unfold touch_and_pin, LRUKReplacer.RecordAccess.
  rewrite (proj2 (frame_ok_range _ f) Hf). simpl. rewrite Hcm. simpl.
  unfold LRUKReplacer.SetEvictable.
  rewrite (proj2 (frame_ok_range _ f)) by done. simpl.
  rewrite lookup_insert_eq. simpl. by eexists.
Qed.

Lemma find_frame_evicts_dirty s f r pg :
  free_list_ s = [] → LRUKReplacer.Evict (replacer_ s) = (Some f, r) →
  get_page s f = Ok pg → is_dirty_ pg = true →
  find_frame s =
    Ok (Some f, set_page_table (write_back (set_replacer s r) pg)
                  (delete (page_id_ pg) (page_table_ s))).
Proof.
  intros Hfree Hev Hpg Hd. unfold find_frame. rewrite Hfree. simpl.
  rewrite Hev. simpl.
  assert (get_page (set_replacer s r) f = Ok pg) as -> by done.
  simpl. by rewrite Hd.
Qed.

Lemma NewPage_writes_back s out f r pg :
  free_list_ s = [] → LRUKReplacer.Evict (replacer_ s) = (Some f, r) →
  get_page s f = Ok pg → is_dirty_ pg = true →
  0 ≤ f < LRUKReplacer.replacer_size_ (replacer_ s) →
  ∃ s', NewPage PAGE_SIZE s out = Ok (Some f, next_page_id_ s, s') ∧
    requests_ s' = requests_ s ++ [mkRequest true (page_id_ pg) (data_ pg)] ∧
    disk_ s' = WritePage (disk_ s) (page_id_ pg) (data_ pg) ∧
    get_page s' f = Ok (mkPage (zeroed PAGE_SIZE) (next_page_id_ s) 1 false).
Proof.
  intros Hfree Hev Hpg Hd Hf.
  destruct (Evict_Some _ _ _ Hev) as [Hcm Hsz].
  unfold NewPage. rewrite (find_frame_evicts_dirty s f r pg) by done. simpl.
  pose proof (get_page_range _ _ _ Hpg) as Hrange.
  set (s1 := set_next_page_id _ _).
  destruct (get_page_in_range s1 f) as [pg1 ->]; [done|]. simpl.
  set (s2 := put_page s1 f _).
  destruct (touch_and_pin_untracked s2 f) as [r' ->]; [done|simpl; lia|].
  simpl. eexists. split; [done|]. simpl. repeat split.
  apply get_page_Ok. split; [lia|]. simpl.
  apply list_lookup_insert_eq. lia.
Qed.

Lemma FetchPage_writes_back s page_id f r pg :
  page_table_ s !! page_id = None →
  free_list_ s = [] → LRUKReplacer.Evict (replacer_ s) = (Some f, r) →
  get_page s f = Ok pg → is_dirty_ pg = true →
  0 ≤ f < LRUKReplacer.replacer_size_ (replacer_ s) →
  ∃ s', FetchPage PAGE_SIZE s page_id = Ok (Some f, s') ∧
    requests_ s' = requests_ s ++ [mkRequest true (page_id_ pg) (data_ pg);
                                   mkRequest false page_id []] ∧
    disk_ s' = WritePage (disk_ s) (page_id_ pg) (data_ pg) ∧
    get_page s' f = Ok (mkPage (ReadPage PAGE_SIZE (disk_ s') page_id) page_id 1 false).
Proof.
  intros Hpt Hfree Hev Hpg Hd Hf.
  destruct (Evict_Some _ _ _ Hev) as [Hcm Hsz].
  unfold FetchPage. rewrite Hpt.
  rewrite (find_frame_evicts_dirty s f r pg) by done. simpl.
  pose proof (get_page_range _ _ _ Hpg) as Hrange.
  set (s1 := set_page_table _ _).
  destruct (get_page_in_range s1 f) as [pg1 ->]; [done|]. simpl.
  set (s2 := put_page _ f _).
  destruct (touch_and_pin_untracked s2 f) as [r' ->]; [done|simpl; lia|].
  simpl. eexists. split; [done|]. simpl. rewrite <- app_assoc. repeat split.
  apply get_page_Ok. split; [lia|]. simpl.
  apply list_lookup_insert_eq. lia.
Qed.

(** C5, as amended.  When [NewPage], or [FetchPage] on a miss, takes a
    dirty victim from the replacer, a write request carrying the victim's
    page id and the bytes it held is scheduled, and the disk holds those
    bytes, before the frame is reset (and, for [FetchPage], before the
    read request).  In the scenario with [pool_size = 3] the final
    [FetchPage(id0)] returns the null page, all three frames being
    pinned; when id1 is unpinned first it returns a frame whose bytes
    begin with "A". *)
Theorem dirty_victim_written_back :
  (∀ s out f r pg,
     free_list_ s = [] → LRUKReplacer.Evict (replacer_ s) = (Some f, r) →
     get_page s f = Ok pg → is_dirty_ pg = true →
     0 ≤ f < LRUKReplacer.replacer_size_ (replacer_ s) →
     ∃ s', NewPage PAGE_SIZE s out = Ok (Some f, next_page_id_ s, s') ∧
       requests_ s' = requests_ s ++ [mkRequest true (page_id_ pg) (data_ pg)] ∧
       disk_ s' = WritePage (disk_ s) (page_id_ pg) (data_ pg) ∧
       get_page s' f = Ok (mkPage (zeroed PAGE_SIZE) (next_page_id_ s) 1 false)) ∧
  (∀ s page_id f r pg,
     page_table_ s !! page_id = None →
     free_list_ s = [] → LRUKReplacer.Evict (replacer_ s) = (Some f, r) →
     get_page s f = Ok pg → is_dirty_ pg = true →
     0 ≤ f < LRUKReplacer.replacer_size_ (replacer_ s) →
     ∃ s', FetchPage PAGE_SIZE s page_id = Ok (Some f, s') ∧
       requests_ s' = requests_ s ++ [mkRequest true (page_id_ pg) (data_ pg);
                                      mkRequest false page_id []] ∧
       disk_ s' = WritePage (disk_ s) (page_id_ pg) (data_ pg) ∧
       get_page s' f
         = Ok (mkPage (ReadPage PAGE_SIZE (disk_ s') page_id) page_id 1 false)) ∧
  (∀ replacer_k, eviction_scenario PAGE_SIZE 3 replacer_k false = Ok None) ∧
  ((0 < PAGE_SIZE)%nat → ∀ replacer_k, ∃ frame rest,
     eviction_scenario PAGE_SIZE 3 replacer_k true
       = Ok (Some (frame, "A"%char :: rest))).
Proof.
  split; [intros; by eapply NewPage_writes_back|].
  split; [intros; by eapply FetchPage_writes_back|].
  split; [intros k; by vm_compute|].
  intros Hps k. destruct PAGE_SIZE as [|n]; [lia|]. vm_compute. eauto.
Qed.


(** ** DeletePage *)

(** X30.  [DeletePage(page_id)] on a page that is not resident returns
    [true] and the state it was called on; on a resident page with a
    positive pin count it returns [false] and the state it was called on;
    these two in every state.  On a resident page nobody pins, in a pool
    that satisfies [pool_ok] (a replacer of [k ≥ 2] among its demands),
    it returns [true] and a state in which the frame is no longer tracked
    by the replacer, the page id has left the page table, the frame is at
    the back of the free list, its memory is zeroed, its page id invalid,
    its pin count 0 and its dirty flag off, and the page id is
    deallocated; the disk and the scheduled requests are as before. *)
Theorem DeletePage_spec (s : BufferPoolManager) (page_id : Z) :
  (page_table_ s !! page_id = None →
   DeletePage PAGE_SIZE s page_id = Ok (true, s)) ∧
  (∀ f pg, page_table_ s !! page_id = Some f → get_page s f = Ok pg →
     pin_count_ pg > 0 →
     DeletePage PAGE_SIZE s page_id = Ok (false, s)) ∧
  (∀ f pg, pool_ok s →
     page_table_ s !! page_id = Some f → get_page s f = Ok pg →
     pin_count_ pg ≤ 0 →
     ∃ r, LRUKReplacer.Remove (replacer_ s) f = Ok r ∧
       ¬ LRUKReplacer.tracked r f ∧
       DeletePage PAGE_SIZE s page_id =
         Ok (true,
             {| pool_size_ := pool_size_ s;
                pages_ := <[Z.to_nat f := mkPage (zeroed PAGE_SIZE) INVALID_PAGE_ID 0 false]>
                            (pages_ s);
                free_list_ := free_list_ s ++ [f];
                page_table_ := delete page_id (page_table_ s);
                replacer_ := r;
                next_page_id_ := next_page_id_ s;
                disk_ := disk_ s;
                requests_ := requests_ s;
                deallocated_ := deallocated_ s ++ [page_id] |})).
Proof.
  split; [|split].
  - intros Hpt. unfold DeletePage. by rewrite Hpt.
  - intros f pg Hpt Hpg Hpin. unfold DeletePage. rewrite Hpt, Hpg. simpl.
    by rewrite bool_decide_true.
  - intros f pg Hok Hpt Hpg Hpin.
    assert (f ∉ LRUKReplacer.non_evictable_set_ (replacer_ s)) as Hfne.
    { by eapply (po_unpinned s Hok page_id f pg). }
    pose proof (po_table s Hok _ _ Hpt) as Hf.
    destruct (Remove_sound (replacer_ s) f) as (r & Hr & _ & _ & _ & Hnt);
      [by apply pool_ok_sound|by rewrite (po_size s Hok)|done|].
    exists r. split; [done|]. split; [done|].
    unfold DeletePage. rewrite Hpt, Hpg. simpl.
    rewrite bool_decide_false by lia. by rewrite Hr.
Qed.


End PoolFacts.

Section PoolExamples.
Import BufferPoolManager.



(** The scenario as the specification words it, with 4096-byte pages
    and [k = 2]: [FetchPage(id0)] does not return a frame whose bytes
    begin with "A"; it returns the null page. *)
Lemma eviction_scenario_all_pinned :
  ¬ ∃ frame rest,
      eviction_scenario 4096 3 2 false = Ok (Some (frame, "A"%char :: rest)).
Proof. intros (frame & rest & H). vm_compute in H. discriminate. Qed.

(** The hypotheses of [dirty_victim_written_back] in the full pool of the
    scenario: [NewPage] evicts frame 2, which holds the dirty page 0, and
    schedules the write of its bytes. *)
Lemma dirty_victim_written_back_witness :
  let s := returned (new 8 3 2 ∅) (full_pool_with_dirty_page 8 3 2) in
  let pg := mkPage ("A"%char :: replicate 7 zero) 0 0 true in
  full_pool_with_dirty_page 8 3 2 = Ok s ∧
  free_list_ s = [] ∧ get_page s 2 = Ok pg ∧
  ∃ s', NewPage 8 s INVALID_PAGE_ID = Ok (Some 2, next_page_id_ s, s') ∧
        requests_ s' = requests_ s ++ [mkRequest true 0 (data_ pg)].
Proof.
  intros s pg.
  split; [vm_compute; reflexivity|].
  split; [vm_compute; reflexivity|].
  split; [vm_compute; reflexivity|].
  destruct (proj1 (dirty_victim_written_back 8) s INVALID_PAGE_ID 2
              (LRUKReplacer.Evict (replacer_ s)).2 pg)
    as (s' & Hnew & Hreq & _).
  - vm_compute; reflexivity.
  - vm_compute; reflexivity.
  - vm_compute; reflexivity.
  - reflexivity.
  - split; vm_compute; [discriminate|reflexivity].
  - exists s'. split; [exact Hnew|exact Hreq].
Defined.

(** The hypotheses of [DeletePage_spec] in a pool of three frames after
    [NewPage] gave page 0 and the page was unpinned dirty. *)
Lemma DeletePage_spec_witness :
  let s0 := new 8 3 2 ∅ in
  let s1 := (returned (None, 0, s0) (NewPage 8 s0 INVALID_PAGE_ID)).2 in
  let s := (returned (false, s1) (UnpinPage s1 0 true)).2 in
  let pg := mkPage (zeroed 8) 0 0 true in
  pool_ok s ∧ page_table_ s !! 0 = Some 2 ∧ get_page s 2 = Ok pg ∧
  ∃ s', DeletePage 8 s 0 = Ok (true, s') ∧
        page_table_ s' = delete 0 (page_table_ s) ∧
        free_list_ s' = free_list_ s ++ [2] ∧
        requests_ s' = requests_ s ∧ disk_ s' = disk_ s.
Proof.
  intros s0 s1 s pg.
  assert (pool_ok s) as Hok.
  { destruct (NewPage_ok 8 s0 INVALID_PAGE_ID) as (found & pid & s1' & H1 & Hok1).
    { apply new_ok; [unfold LRUKReplacer.size_t_max|]; lia. }
    assert (s1 = s1') as <- by (unfold s1; by rewrite H1).
    destruct (UnpinPage_ok s1 0 true Hok1) as (b & s' & H2 & Hok2).
    assert (s = s') as <- by (unfold s; by rewrite H2).
    exact Hok2. }
  assert (page_table_ s !! 0 = Some 2) as Hpt by (vm_compute; reflexivity).
  assert (get_page s 2 = Ok pg) as Hpg by (vm_compute; reflexivity).
  split; [exact Hok|]. split; [exact Hpt|]. split; [exact Hpg|].
  destruct (proj2 (proj2 (DeletePage_spec 8 s 0)) 2 pg Hok Hpt Hpg) as (r & _ & _ & ->).
  { vm_compute. discriminate. }
  eexists. split; [reflexivity|]. simpl. done.
Defined.


(** The hypotheses of [NewPage_exhausted] in a pool of one frame whose
    page is pinned. *)
Lemma NewPage_exhausted_witness :
  let s0 := new 8 1 2 ∅ in
  let s := (returned (None, 0, s0) (NewPage 8 s0 INVALID_PAGE_ID)).2 in
  free_list_ s = [] ∧ (LRUKReplacer.Evict (replacer_ s)).1 = None ∧
  NewPage 8 s 77 = Ok (None, 77, s).
Proof.
  intros s0 s.
  assert (free_list_ s = []) as Hfree by (vm_compute; reflexivity).
  assert ((LRUKReplacer.Evict (replacer_ s)).1 = None) as Hev
    by (vm_compute; reflexivity).
  split; [exact Hfree|]. split; [exact Hev|].
  exact (proj1 (NewPage_exhausted 8 s 77 Hfree Hev)).
Defined.

(** C7, at a failing input.  In a pool of three frames whose replacer
    was built with [k = 1], [NewPage] gives page 0 in frame 2 and
    [UnpinPage(0, true)] brings its pin count to 0: the page is resident
    and nobody pins it.  [DeletePage(0)] then does not return [true]:
    the [Remove] of line 202 finds the count 1 of the frame not below
    [k], takes the frame for one of the history list, and erases through
    [history_iter_map_[2]], an iterator that was never set. *)
Theorem DeletePage_with_k_1 :
  let s0 := new 8 3 1 ∅ in
  ∃ s1 s,
    NewPage 8 s0 INVALID_PAGE_ID = Ok (Some 2, 0, s1) ∧
    UnpinPage s1 0 true = Ok (true, s) ∧
    page_table_ s !! 0 = Some 2 ∧
    get_page s 2 = Ok (mkPage (zeroed 8) 0 0 true) ∧
    LRUKReplacer.k_ (replacer_ s) = 1 ∧
    LRUKReplacer.count_map_ (replacer_ s) !! 2 = Some 1 ∧
    LRUKReplacer.history_iter_map_ (replacer_ s) !! 2 = None ∧
    LRUKReplacer.Remove (replacer_ s) 2 = Undefined ∧
    DeletePage 8 s 0 = Undefined.
Proof.
  intros s0. eexists _, _.
  split; [vm_compute; reflexivity|].
  split; [vm_compute; reflexivity|].
  split; [vm_compute; reflexivity|].
  split; [vm_compute; reflexivity|].
  split; [vm_compute; reflexivity|].
  split; [vm_compute; reflexivity|].
  split; [vm_compute; reflexivity|].
  split; vm_compute; reflexivity.
Qed.

End PoolExamples.

(* ================================================================= *)
(** * More on the buffer pool: the other methods *)

Section PoolMethods.
Import BufferPoolManager.

Variable PAGE_SIZE : nat.

Implicit Types (s : BufferPoolManager) (pg : Page).

Lemma get_page_put_page_eq s f pg pg' :
  get_page s f = Ok pg → get_page (put_page s f pg') f = Ok pg'.
Proof.
  intros [H0 Hl]%get_page_Ok. apply get_page_Ok. split; [done|].
  unfold put_page. simpl. apply list_lookup_insert_eq.
  by eapply lookup_lt_Some.
Qed.

Lemma get_page_put_page_ne s f g pg' :
  0 ≤ f → g ≠ f → get_page (put_page s f pg') g = get_page s g.
Proof.
  intros Hf Hne. unfold get_page, put_page. simpl.
  case_bool_decide as Hg; [|done].
  rewrite list_lookup_insert_ne; [done|]. lia.
Qed.

Lemma get_page_other s s' f g pg' :
  pages_ s' = <[Z.to_nat f := pg']> (pages_ s) → 0 ≤ f → g ≠ f →
  get_page s' g = get_page s g.
Proof.
  intros Hp Hf Hne. unfold get_page. rewrite Hp.
  case_bool_decide as Hg; [|done].
  rewrite list_lookup_insert_ne; [done|]. lia.
Qed.

Lemma get_page_same s s' f pg' :
  pages_ s' = <[Z.to_nat f := pg']> (pages_ s) →
  0 ≤ f < Z.of_nat (length (pages_ s)) →
  get_page s' f = Ok pg'.
Proof.
  intros Hp Hf. apply get_page_Ok. split; [lia|].
  rewrite Hp. apply list_lookup_insert_eq. lia.
Qed.

Lemma get_page_pages s s' f : pages_ s' = pages_ s → get_page s' f = get_page s f.
Proof. intros Hp. unfold get_page. by rewrite Hp. Qed.

(** What [SetEvictable] does to the non-evictable set of a tracked frame. *)
Lemma SetEvictable_set r f b r' :
  LRUKReplacer.SetEvictable r f b = Ok r' → LRUKReplacer.tracked r f →
  LRUKReplacer.non_evictable_set_ r' =
    if b then LRUKReplacer.non_evictable_set_ r ∖ {[f]}
    else {[f]} ∪ LRUKReplacer.non_evictable_set_ r.
Proof.
  unfold LRUKReplacer.SetEvictable, LRUKReplacer.tracked.
  destruct (LRUKReplacer.frame_ok r f); simpl; [|done].
  destruct (LRUKReplacer.count_map_ r !! f); [|by intros _ [? ?]].
  intros [= <-] _.
  destruct (decide (f ∈ LRUKReplacer.non_evictable_set_ r)) as [Hin|Hin];
    destruct b; simpl.
  - rewrite (bool_decide_false (f ∉ _)) by auto. simpl.
    by rewrite bool_decide_true.
  - rewrite (bool_decide_false (f ∉ _)) by auto. simpl.
    rewrite andb_false_r. set_solver.
  - rewrite andb_false_r. simpl. rewrite bool_decide_false by done. simpl.
    set_solver.
  - rewrite (bool_decide_true (f ∉ _)) by done. simpl.
    by rewrite andb_false_r.
Qed.

Lemma RecordAccess_tracked r f r' :
  LRUKReplacer.consistent r → LRUKReplacer.RecordAccess r f = Ok r' →
  ∀ g, LRUKReplacer.tracked r' g ↔ g = f ∨ LRUKReplacer.tracked r g.
Proof.
  intros Hc Hra g.
  destruct (RecordAccess_effect r f r' Hc Hra) as (_ & _ & _ & Heff).
  unfold LRUKReplacer.tracked.
  destruct Heff as [(_ & -> & _)|(count & rest & _ & -> & _)];
    apply tracked_insert.
Qed.

(** [RecordAccess(f); SetEvictable(f, false)] on a frame of the pool. *)
Lemma touch_and_pin_pins s f :
  LRUKReplacer.sound (replacer_ s) →
  0 ≤ f < LRUKReplacer.replacer_size_ (replacer_ s) →
  ∃ r, touch_and_pin s f = Ok (set_replacer s r) ∧ LRUKReplacer.sound r ∧
    LRUKReplacer.replacer_size_ r = LRUKReplacer.replacer_size_ (replacer_ s) ∧
    LRUKReplacer.non_evictable_set_ r
      = {[f]} ∪ LRUKReplacer.non_evictable_set_ (replacer_ s) ∧
    ∀ g, LRUKReplacer.tracked r g ↔ g = f ∨ LRUKReplacer.tracked (replacer_ s) g.
Proof.
  intros Hs Hf. unfold touch_and_pin.
  destruct (RecordAccess_sound _ f Hs Hf) as (r1 & Hra & Hs1 & Hsz1 & Hne1).
  rewrite Hra. simpl.
  destruct (SetEvictable_sound r1 f false Hs1) as (r2 & He & Hs2 & Hsz2 & _);
    [lia|].
  rewrite He. simpl. exists r2. split; [done|]. split; [done|]. split; [lia|].
  pose proof (RecordAccess_tracked _ _ _ (proj1 (proj2 Hs)) Hra) as Htr.
  split.
  - rewrite (SetEvictable_set r1 f false r2 He), Hne1; [done|].
    apply Htr. by left.
  - intros g. rewrite <- Htr. unfold LRUKReplacer.tracked.
    by destruct (SetEvictable_effect r1 f false r2 He) as (_ & _ & -> & _).
Qed.

(** X11.  [UnpinPage].  On a page id that is not resident, and on a
    resident page whose pin count is not positive, it returns [false]
    and changes nothing.  Otherwise, in a well-formed pool, it returns
    [true]: the pin count of the frame is one less, the dirty flag is
    the old one or-ed with [is_dirty] (so never cleared), the bytes of
    the page, the other frames, the page table, the free list and the
    disk are as before; when the pin count has reached zero the frame is
    out of the replacer's non-evictable set, and otherwise the replacer
    is untouched. *)
Theorem UnpinPage_spec (s : BufferPoolManager) (page_id : Z) (is_dirty : bool) :
  (page_table_ s !! page_id = None →
   UnpinPage s page_id is_dirty = Ok (false, s)) ∧
  (∀ f pg, page_table_ s !! page_id = Some f → get_page s f = Ok pg →
     pin_count_ pg ≤ 0 →
     UnpinPage s page_id is_dirty = Ok (false, s)) ∧
  (∀ f pg, pool_ok s →
     page_table_ s !! page_id = Some f → get_page s f = Ok pg →
     0 < pin_count_ pg →
     ∃ s', UnpinPage s page_id is_dirty = Ok (true, s') ∧
       get_page s' f = Ok (mkPage (data_ pg) (page_id_ pg) (pin_count_ pg - 1)
                                  (is_dirty || is_dirty_ pg)) ∧
       (∀ g, g ≠ f → get_page s' g = get_page s g) ∧
       page_table_ s' = page_table_ s ∧ free_list_ s' = free_list_ s ∧
       next_page_id_ s' = next_page_id_ s ∧
       disk_ s' = disk_ s ∧ requests_ s' = requests_ s ∧
       (pin_count_ pg = 1 →
          LRUKReplacer.non_evictable_set_ (replacer_ s')
            = LRUKReplacer.non_evictable_set_ (replacer_ s) ∖ {[f]}) ∧
       (1 < pin_count_ pg → replacer_ s' = replacer_ s)).
Proof.
  split; [|split].
  - intros Hpt. unfold UnpinPage. by rewrite Hpt.
  - intros f pg Hpt Hpg Hpin. unfold UnpinPage. rewrite Hpt, Hpg. simpl.
    by rewrite bool_decide_true.
  - intros f pg Hok Hpt Hpg Hpin. unfold UnpinPage. rewrite Hpt, Hpg. simpl.
    rewrite bool_decide_false by lia.
    pose proof (get_page_range _ _ _ Hpg) as Hf.
    case_bool_decide as Hzero.
    + destruct (SetEvictable_sound (replacer_ s) f true)
        as (r & He & _).
      { apply (pool_ok_sound s Hok). }
      { by rewrite (po_size s Hok). }
      rewrite He. simpl. eexists. split; [done|].
      split; [by eapply get_page_same|].
      split; [intros g Hg; eapply get_page_other; [done|lia|done]|].
      do 5 (split; [done|]). split; [|intros; lia].
      intros _. simpl.
      (* the replacer tracks a resident frame whose pin count was positive? *)
      destruct (LRUKReplacer.count_map_ (replacer_ s) !! f) as [count|] eqn:Hcm.
      * apply (SetEvictable_set _ f true r He). by eexists.
      * unfold LRUKReplacer.SetEvictable in He.
        rewrite (proj2 (frame_ok_range (replacer_ s) f)) in He
          by (by rewrite (po_size s Hok)).
        simpl in He. rewrite Hcm in He. injection He as <-.
        assert (f ∉ LRUKReplacer.non_evictable_set_ (replacer_ s)) as Hnin.
        { intros Hin.
          apply (LRUKReplacer.cs_non_evictable _ (po_replacer s Hok)) in Hin.
          destruct Hin as [? Hin]. by rewrite Hcm in Hin. }
        set_solver.
    + eexists. split; [done|].
      split; [by eapply get_page_same|].
      split; [intros g Hg; eapply get_page_other; [done|lia|done]|].
      do 5 (split; [done|]). split; [intros; lia|done].
Qed.

(** X12.  [FlushPage].  On [INVALID_PAGE_ID] and on a page id that is
    not resident it returns [false] and changes nothing, the disk
    included.  On a resident page it returns [true] after one write
    request: the disk then holds the bytes of the frame under the page id
    the frame carries, reading that page back gives those bytes, the
    frame is clean, and its bytes and pin count, the other frames, the
    page table, the free list and the replacer are as before. *)
Theorem FlushPage_spec (s : BufferPoolManager) (page_id : Z) :
  (page_id = INVALID_PAGE_ID ∨ page_table_ s !! page_id = None →
   FlushPage s page_id = Ok (false, s)) ∧
  (∀ f pg, page_id ≠ INVALID_PAGE_ID →
     page_table_ s !! page_id = Some f → get_page s f = Ok pg →
     ∃ s', FlushPage s page_id = Ok (true, s') ∧
       requests_ s' = requests_ s ++ [mkRequest true (page_id_ pg) (data_ pg)] ∧
       disk_ s' = WritePage (disk_ s) (page_id_ pg) (data_ pg) ∧
       ReadPage PAGE_SIZE (disk_ s') (page_id_ pg) = data_ pg ∧
       get_page s' f = Ok (mkPage (data_ pg) (page_id_ pg) (pin_count_ pg) false) ∧
       (∀ g, g ≠ f → get_page s' g = get_page s g) ∧
       page_table_ s' = page_table_ s ∧ free_list_ s' = free_list_ s ∧
       replacer_ s' = replacer_ s ∧ next_page_id_ s' = next_page_id_ s).
Proof.
  split.
  - intros [->|Hpt]; unfold FlushPage; [done|].
    case_bool_decide; [done|]. by rewrite Hpt.
  - intros f pg Hid Hpt Hpg. unfold FlushPage.
    rewrite bool_decide_false by done. rewrite Hpt, Hpg. simpl.
    pose proof (get_page_range _ _ _ Hpg) as Hf.
    eexists. split; [done|]. split; [done|]. split; [done|].
    split; [unfold ReadPage; simpl; unfold WritePage; by rewrite lookup_insert_eq|].
    split; [by eapply get_page_same|].
    split; [intros g Hg; eapply get_page_other; [done|lia|done]|].
    done.
Qed.

(** X13.  [NewPage] with a frame in the free list, in a well-formed
    pool.  It takes the frame at the back of the free list, hands out
    the allocator's next page id and advances the allocator, and asks
    nothing of the disk: the frame is zeroed, carries the new id with
    pin count 1 and is clean; it is tracked by the replacer and
    non-evictable; the page table maps the new id to it; the other frames
    are as before. *)
Theorem NewPage_takes_free_frame (s : BufferPoolManager) (out f : Z) :
  pool_ok s → last (free_list_ s) = Some f →
  ∃ s', NewPage PAGE_SIZE s out = Ok (Some f, next_page_id_ s, s') ∧
    get_page s' f = Ok (mkPage (zeroed PAGE_SIZE) (next_page_id_ s) 1 false) ∧
    (∀ g, g ≠ f → get_page s' g = get_page s g) ∧
    free_list_ s' = removelast (free_list_ s) ∧
    page_table_ s' = <[next_page_id_ s := f]> (page_table_ s) ∧
    next_page_id_ s' = wrap_int32 (next_page_id_ s + 1) ∧
    disk_ s' = disk_ s ∧ requests_ s' = requests_ s ∧
    LRUKReplacer.tracked (replacer_ s') f ∧
    f ∈ LRUKReplacer.non_evictable_set_ (replacer_ s').
Proof.
  intros Hok Hlast. unfold NewPage, find_frame. rewrite Hlast. simpl.
  assert (0 ≤ f < Z.of_nat (length (pages_ s))) as Hf.
  { apply (po_free s Hok). by apply last_elem_of. }
  set (s1 := set_next_page_id _ _).
  destruct (get_page_in_range s1 f) as [pg Hpg]; [done|].
  rewrite Hpg. simpl.
  set (s2 := put_page _ f _).
  destruct (touch_and_pin_pins s2 f) as (r & -> & _ & _ & Hne & Htr).
  { apply (pool_ok_sound s Hok). }
  { simpl. by rewrite (po_size s Hok). }
  simpl. eexists. split; [done|].
  split; [by eapply get_page_same|].
  split; [intros g Hg; eapply get_page_other; [done|lia|done]|].
  do 5 (split; [done|]). simpl. split; [apply Htr; by left|].
  rewrite Hne. set_solver.
Qed.

(** X14.  [FetchPage] on a resident page, in a pool that satisfies
    [pool_ok] (a replacer of [k ≥ 2] among its demands; with [k = 1] the
    [RecordAccess] of line 110 goes wrong), when the pin count is below
    [INT32_MAX].  It returns the frame the page table names and asks
    nothing of the disk: the pin count is one more, the bytes, the page
    id and the dirty flag of the frame are as before, and so are the
    other frames, the page table and the free list; the frame is
    non-evictable afterwards. *)
Theorem FetchPage_resident (s : BufferPoolManager) (page_id f : Z) (pg : Page) :
  pool_ok s → page_table_ s !! page_id = Some f → get_page s f = Ok pg →
  pin_count_ pg < INT32_MAX →
  ∃ s', FetchPage PAGE_SIZE s page_id = Ok (Some f, s') ∧
    get_page s' f = Ok (mkPage (data_ pg) (page_id_ pg) (pin_count_ pg + 1)
                               (is_dirty_ pg)) ∧
    (∀ g, g ≠ f → get_page s' g = get_page s g) ∧
    page_table_ s' = page_table_ s ∧ free_list_ s' = free_list_ s ∧
    next_page_id_ s' = next_page_id_ s ∧
    disk_ s' = disk_ s ∧ requests_ s' = requests_ s ∧
    f ∈ LRUKReplacer.non_evictable_set_ (replacer_ s').
Proof.
  intros Hok Hpt Hpg Hpin. unfold FetchPage. rewrite Hpt, Hpg. simpl.
  rewrite bool_decide_false by lia.
  pose proof (get_page_range _ _ _ Hpg) as Hf.
  set (s2 := put_page _ f _).
  destruct (touch_and_pin_pins s2 f) as (r & -> & _ & _ & Hne & _).
  { apply (pool_ok_sound s Hok). }
  { simpl. by rewrite (po_size s Hok). }
  simpl. eexists. split; [done|].
  split; [by eapply get_page_same|].
  split; [intros g Hg; eapply get_page_other; [done|lia|done]|].
  do 5 (split; [done|]). simpl. rewrite Hne. set_solver.
Qed.

End PoolMethods.

(* ================================================================= *)
(** * The invariant of the buffer pool *)

Section PoolWellFormed.
Import BufferPoolManager PoolInvariants.

Variable PAGE_SIZE : nat.

Implicit Types (s : BufferPoolManager) (pg : Page).

Lemma resident_range s p f : pool_ok s → resident s p f →
  0 ≤ f < Z.of_nat (length (pages_ s)).
Proof. intros Hok Hr. by apply (po_table s Hok p f). Qed.

Lemma wf_free_not_resident s f p :
  pool_wf PAGE_SIZE s → f ∈ free_list_ s → ¬ resident s p f.
Proof.
  intros Hwf Hfree Hres.
  pose proof (wf_free_blank _ s Hwf f Hfree) as Hpg.
  pose proof (wf_table_ids _ s Hwf p f _ Hres Hpg) as Hid. simpl in Hid.
  pose proof (wf_ids _ s Hwf p f Hres) as Hp.
  unfold INVALID_PAGE_ID in Hid. lia.
Qed.

Lemma wf_resident_inj s p q f :
  pool_wf PAGE_SIZE s → resident s p f → resident s q f → p = q.
Proof.
  intros Hwf Hp Hq.
  destruct (get_page_in_range s f) as [pg Hpg].
  { by apply (resident_range s p f (wf_ok _ s Hwf)). }
  rewrite <- (wf_table_ids _ s Hwf p f pg Hp Hpg).
  by rewrite <- (wf_table_ids _ s Hwf q f pg Hq Hpg).
Qed.

Lemma wf_resident_evictable_unpinned s p f pg :
  pool_wf PAGE_SIZE s → resident s p f → get_page s f = Ok pg →
  f ∉ LRUKReplacer.non_evictable_set_ (replacer_ s) → pin_count_ pg = 0.
Proof.
  intros Hwf Hres Hpg Hne.
  assert (0 ≤ pin_count_ pg) as H0.
  { apply (po_pins s (wf_ok _ s Hwf)). apply get_page_Ok in Hpg as [_ Hpg].
    by eapply list_elem_of_lookup_2. }
  destruct (decide (0 < pin_count_ pg)) as [Hpos|]; [|lia].
  destruct Hne. by eapply (wf_pinned _ s Hwf p f pg).
Qed.

(** The invariant under the change of one frame. *)
Lemma wf_update s s' f pg' :
  pool_wf PAGE_SIZE s → pool_ok s' →
  0 ≤ f < Z.of_nat (length (pages_ s)) →
  pages_ s' = <[Z.to_nat f := pg']> (pages_ s) →
  pool_size_ s' = pool_size_ s →
  next_page_id_ s ≤ next_page_id_ s' ≤ INT32_MAX →
  (∀ p g, g ≠ f → page_table_ s' !! p = Some g ↔ page_table_ s !! p = Some g) →
  (∀ g, g ≠ f → g ∈ free_list_ s' ↔ g ∈ free_list_ s) →
  NoDup (free_list_ s') →
  (∀ g, g ≠ f → LRUKReplacer.tracked (replacer_ s') g
                ↔ LRUKReplacer.tracked (replacer_ s) g) →
  (∀ g, g ≠ f → g ∈ LRUKReplacer.non_evictable_set_ (replacer_ s')
                ↔ g ∈ LRUKReplacer.non_evictable_set_ (replacer_ s)) →
  ((f ∈ free_list_ s' ∧ (∀ p, page_table_ s' !! p ≠ Some f) ∧
    ¬ LRUKReplacer.tracked (replacer_ s') f ∧
    pg' = mkPage (zeroed PAGE_SIZE) INVALID_PAGE_ID 0 false)
   ∨ ((f ∉ free_list_ s') ∧ LRUKReplacer.tracked (replacer_ s') f ∧
      (0 < pin_count_ pg' → f ∈ LRUKReplacer.non_evictable_set_ (replacer_ s')) ∧
      page_table_ s' !! page_id_ pg' = Some f ∧
      0 ≤ page_id_ pg' < next_page_id_ s' ∧
      ∀ p, page_table_ s' !! p = Some f → p = page_id_ pg')) →
  pool_wf PAGE_SIZE s'.
Proof.
  intros Hwf Hok' Hf Hpages Hsize Hnext Htable Hfree Hnodup Htracked Hne Hcase.
  assert (length (pages_ s') = length (pages_ s)) as Hlen
    by (by rewrite Hpages, length_insert).
  assert (get_page s' f = Ok pg') as Hpgf by (by eapply get_page_same).
  assert (∀ g, g ≠ f → get_page s' g = get_page s g) as Hpgo.
  { intros g Hg. eapply get_page_other; [done|lia|done]. }
  constructor.
  - done.
  - by rewrite Hsize, Hlen, (wf_pool_size _ s Hwf).
  - pose proof (wf_next _ s Hwf). lia.
  - intros p g pg Hres Hpg. destruct (decide (g = f)) as [->|Hgf].
    + rewrite Hpgf in Hpg. injection Hpg as <-.
      destruct Hcase as [(_ & Hno & _)|(_ & _ & _ & _ & _ & Huniq)].
      * by destruct (Hno p).
      * symmetry. by apply Huniq.
    + rewrite Hpgo in Hpg by done.
      apply (wf_table_ids _ s Hwf p g pg); [|done]. by apply Htable.
  - intros p g Hres. destruct (decide (g = f)) as [->|Hgf].
    + destruct Hcase as [(_ & Hno & _)|(_ & _ & _ & _ & Hrange & Huniq)].
      * by destruct (Hno p).
      * by rewrite (Huniq p Hres).
    + apply Htable in Hres; [|done].
      pose proof (wf_ids _ s Hwf p g Hres). lia.
  - intros g Hg. destruct (decide (g = f)) as [->|Hgf].
    + destruct Hcase as [(_ & _ & _ & ->)|(Hnf & _)]; [done|by destruct Hnf].
    + rewrite Hpgo by done. apply (wf_free_blank _ s Hwf). by apply Hfree.
  - done.
  - intros g Hg. rewrite Hlen in Hg. destruct (decide (g = f)) as [->|Hgf].
    + destruct Hcase as [(Hin & _)|(_ & _ & _ & Hres & _)]; [by left|].
      right. by eexists.
    + destruct (wf_cover _ s Hwf g Hg) as [Hin|[p Hp]].
      * left. by apply Hfree.
      * right. exists p. by apply Htable.
  - intros g. destruct (decide (g = f)) as [->|Hgf].
    + destruct Hcase as [(_ & Hno & Hnt & _)|(_ & Ht & _ & Hres & _)].
      * split; [done|]. intros [p Hp]. by destruct (Hno p).
      * split; [|done]. intros _. by eexists.
    + rewrite Htracked by done. rewrite (wf_tracked _ s Hwf g).
      split; intros [p Hp]; exists p; by apply Htable.
  - intros p g pg Hres Hpg Hpin. destruct (decide (g = f)) as [->|Hgf].
    + rewrite Hpgf in Hpg. injection Hpg as <-.
      destruct Hcase as [(_ & Hno & _)|(_ & _ & Hp & _)].
      * by destruct (Hno p).
      * by apply Hp.
    + rewrite Hpgo in Hpg by done. apply Hne; [done|].
      apply (wf_pinned _ s Hwf p g pg); [|done..]. by apply Htable.
Qed.

Lemma new_wf pool_size replacer_k disk :
  0 ≤ pool_size ≤ INT32_MAX → 2 ≤ replacer_k →
  pool_wf PAGE_SIZE (new PAGE_SIZE pool_size replacer_k disk).
Proof.
  intros Hp Hk. constructor; simpl.
  - apply new_ok; [|done]. unfold INT32_MAX, LRUKReplacer.size_t_max in *. lia.
  - rewrite length_replicate. lia.
  - unfold INT32_MAX. lia.
  - intros p f pg Hres. unfold resident in Hres. simpl in Hres.
    by rewrite lookup_empty in Hres.
  - intros p f Hres. unfold resident in Hres. simpl in Hres.
    by rewrite lookup_empty in Hres.
  - intros f [H0 Hf]%elem_of_seqZ. apply get_page_Ok. split; [done|].
    simpl. apply lookup_replicate. split; [done|]. lia.
  - apply NoDup_seqZ.
  - intros f Hf. rewrite length_replicate in Hf. left.
    apply elem_of_seqZ. lia.
  - intros f. unfold LRUKReplacer.tracked, resident. simpl.
    rewrite lookup_empty. split; [by intros [? ?]|].
    intros [p Hres]. by rewrite lookup_empty in Hres.
  - intros p f pg Hres. unfold resident in Hres. simpl in Hres.
    by rewrite lookup_empty in Hres.
Qed.

Lemma last_removelast {A} (l : list A) x :
  last l = Some x → l = removelast l ++ [x].
Proof.
  intros [l' ->]%last_Some. by rewrite removelast_last.
Qed.

(** Lines 74-89 and 114-129, in a well-formed pool: either no frame is to
    be had and nothing has changed, or a frame is handed out. *)
Lemma find_frame_inv s found s1 :
  pool_wf PAGE_SIZE s → find_frame s = Ok (found, s1) →
  match found with
  | None => s1 = s ∧ free_list_ s = []
  | Some f => frame_taken s s1 f
  end.
Proof.
  intros Hwf Hfind. pose proof (wf_ok _ s Hwf) as Hok.
  destruct (find_frame_ok s Hok) as (found' & s1' & He' & Hok1 & Hlen & Hrange).
  rewrite Hfind in He'. injection He' as <- <-.
  pose proof (po_replacer s Hok) as Hc.
  unfold find_frame in Hfind.
  destruct (last (free_list_ s)) as [f|] eqn:Hlast.
  - injection Hfind as <- <-.
    pose proof (last_removelast _ _ Hlast) as Hfl.
    pose proof (wf_free_nodup _ s Hwf) as Hnd. rewrite Hfl in Hnd.
    apply NoDup_app in Hnd as (Hnd1 & Hnd2 & _).
    assert (f ∈ free_list_ s) as Hfree by (by apply last_elem_of).
    assert (¬ LRUKReplacer.tracked (replacer_ s) f) as Hnt.
    { intros [p Hp]%(wf_tracked _ s Hwf). by eapply wf_free_not_resident. }
    constructor; simpl; try done.
    + by apply Hrange.
    + intros Hin. apply Hnt. by apply (LRUKReplacer.cs_non_evictable _ Hc).
    + intros p Hp. by eapply wf_free_not_resident.
    + intros g Hg. rewrite Hfl at 2. rewrite elem_of_app, list_elem_of_singleton.
      naive_solver.
    + intros Hin. apply (Hnd2 f Hin). by apply list_elem_of_singleton.
    + by left.
    + by left.
  - apply last_None in Hlast.
    destruct (LRUKReplacer.Evict (replacer_ s)) as [victim r] eqn:Hev.
    pose proof (Evict_victim (replacer_ s) Hc) as Hv.
    destruct (LRUKReplacer.victim (replacer_ s)) as [f'|].
    + destruct Hv as (r2 & He2 & Htr & Hne & Hcm & _ & _ & HNE & _).
      rewrite Hev in He2. injection He2 as -> <-.
      destruct (proj1 (wf_tracked _ s Hwf f') Htr) as [p Hp].
      pose proof (resident_range s p f' Hok Hp) as Hf.
      destruct (get_page_in_range s f' Hf) as [pg Hpg].
      assert (get_page (set_replacer s r) f' = Ok pg) as Hpg' by done.
      cbn -[get_page write_back set_page_table set_replacer] in Hfind.
      rewrite Hpg' in Hfind.
      cbn -[get_page write_back set_page_table set_replacer] in Hfind.
      pose proof (wf_table_ids _ s Hwf p f' pg Hp Hpg) as Hid.
      injection Hfind as <- Hs1.
      assert (s1 = set_page_table
                     (if is_dirty_ pg then write_back (set_replacer s r) pg
                      else set_replacer s r)
                     (delete p (page_table_ s))) as ->.
      { rewrite <- Hs1, Hid. by destruct (is_dirty_ pg). }
      assert (∀ s0, page_table_ (set_page_table s0 (delete p (page_table_ s)))
                    = delete p (page_table_ s)) as Htab by done.
      constructor; try done.
      * by destruct (is_dirty_ pg).
      * by destruct (is_dirty_ pg).
      * by destruct (is_dirty_ pg).
      * assert (replacer_ (set_page_table
                   (if is_dirty_ pg then write_back (set_replacer s r) pg
                    else set_replacer s r) (delete p (page_table_ s))) = r) as ->
          by (by destruct (is_dirty_ pg)).
        unfold LRUKReplacer.tracked. rewrite Hcm, lookup_delete_eq. by intros [? ?].
      * intros g Hg.
        assert (replacer_ (set_page_table
                   (if is_dirty_ pg then write_back (set_replacer s r) pg
                    else set_replacer s r) (delete p (page_table_ s))) = r) as ->
          by (by destruct (is_dirty_ pg)).
        unfold LRUKReplacer.tracked. rewrite Hcm. rewrite lookup_delete_ne by done.
        done.
      * assert (replacer_ (set_page_table
                   (if is_dirty_ pg then write_back (set_replacer s r) pg
                    else set_replacer s r) (delete p (page_table_ s))) = r) as ->
          by (by destruct (is_dirty_ pg)).
        done.
      * intros q g Hg. rewrite Htab. rewrite lookup_delete_Some.
        split; [by intros [_ ?]|]. intros Hq. split; [|done].
        intros ->. unfold resident in Hp. congruence.
      * intros q Hq. rewrite Htab. by apply lookup_delete_None; right.
      * intros q. rewrite Htab. rewrite lookup_delete_Some. intros [Hne' Hq].
        apply Hne'. by eapply wf_resident_inj.
      * intros g Hg.
        assert (free_list_ (set_page_table
                   (if is_dirty_ pg then write_back (set_replacer s r) pg
                    else set_replacer s r) (delete p (page_table_ s)))
                = free_list_ s) as -> by (by destruct (is_dirty_ pg)).
        done.
      * assert (free_list_ (set_page_table
                   (if is_dirty_ pg then write_back (set_replacer s r) pg
                    else set_replacer s r) (delete p (page_table_ s)))
                = free_list_ s) as -> by (by destruct (is_dirty_ pg)).
        rewrite Hlast. by intros ?%elem_of_nil.
      * assert (free_list_ (set_page_table
                   (if is_dirty_ pg then write_back (set_replacer s r) pg
                    else set_replacer s r) (delete p (page_table_ s)))
                = free_list_ s) as -> by (by destruct (is_dirty_ pg)).
        rewrite Hlast. constructor.
      * right. exists p, pg. split; [done|]. split; [done|].
        rewrite (wf_resident_evictable_unpinned s p f' pg); done.
      * destruct (is_dirty_ pg) eqn:Hd; [|by left].
        right. exists pg. by rewrite Hd.
    + rewrite Hev in Hv. injection Hv as -> ->. simpl in Hfind.
      injection Hfind as <- <-. split; [|done]. apply set_replacer_same.
Qed.

Lemma wrap_int32_id x : - 2 ^ 31 ≤ x < 2 ^ 31 → wrap_int32 x = x.
Proof. intros Hx. unfold wrap_int32. rewrite Z.mod_small; lia. Qed.

(** The frame handed out holds the page: the invariant is back. *)
Lemma install_wf s s1 s' f pid data :
  pool_wf PAGE_SIZE s → frame_taken s s1 f → pool_ok s' →
  pages_ s' = <[Z.to_nat f := mkPage data pid 1 false]> (pages_ s1) →
  page_table_ s' = <[pid := f]> (page_table_ s1) →
  free_list_ s' = free_list_ s1 →
  LRUKReplacer.non_evictable_set_ (replacer_ s')
    = {[f]} ∪ LRUKReplacer.non_evictable_set_ (replacer_ s1) →
  (∀ g, LRUKReplacer.tracked (replacer_ s') g
        ↔ g = f ∨ LRUKReplacer.tracked (replacer_ s1) g) →
  pool_size_ s' = pool_size_ s1 →
  next_page_id_ s ≤ next_page_id_ s' ≤ INT32_MAX →
  page_table_ s !! pid = None → 0 ≤ pid < next_page_id_ s' →
  pool_wf PAGE_SIZE s'.
Proof.
  intros Hwf Hft Hok' Hpages Htable Hfree Hne Htr Hsize Hnext Hfresh Hpid.
  apply (wf_update s s' f (mkPage data pid 1 false)); try done.
  - apply (ft_range _ _ _ Hft).
  - by rewrite Hpages, (ft_pages _ _ _ Hft).
  - by rewrite Hsize, (ft_pool_size _ _ _ Hft).
  - intros p g Hg. rewrite Htable, <- (ft_table _ _ _ Hft p g Hg).
    destruct (decide (p = pid)) as [->|Hp].
    + rewrite lookup_insert_eq, (ft_table_sub _ _ _ Hft pid Hfresh).
      split; [intros [= ->]; done|done].
    + by rewrite lookup_insert_ne.
  - intros g Hg. rewrite Hfree. by apply (ft_free _ _ _ Hft).
  - rewrite Hfree. apply (ft_free_nodup _ _ _ Hft).
  - intros g Hg. rewrite Htr, <- (ft_tracked _ _ _ Hft g Hg). naive_solver.
  - intros g Hg. rewrite Hne, (ft_non_evictable _ _ _ Hft). set_solver.
  - right. simpl. split; [|split; [|split; [|split; [|split]]]].
    + rewrite Hfree. apply (ft_not_free _ _ _ Hft).
    + apply Htr. by left.
    + intros _. rewrite Hne. set_solver.
    + by rewrite Htable, lookup_insert_eq.
    + done.
    + intros p. rewrite Htable. destruct (decide (p = pid)) as [->|Hp]; [done|].
      rewrite lookup_insert_ne by done. intros Hres.
      by destruct (ft_not_resident _ _ _ Hft p).
Qed.

Lemma NewPage_wf s out :
  pool_wf PAGE_SIZE s → next_page_id_ s < INT32_MAX →
  ∃ found pid s', NewPage PAGE_SIZE s out = Ok (found, pid, s') ∧
    pool_wf PAGE_SIZE s' ∧
    match found with
    | None => s' = s ∧ pid = out
    | Some f =>
        pid = next_page_id_ s ∧ next_page_id_ s' = pid + 1 ∧
        page_installed s s' f pid (zeroed PAGE_SIZE)
    end.
Proof.
  intros Hwf Hmax. pose proof (wf_ok _ s Hwf) as Hok.
  pose proof (wf_next _ s Hwf) as Hnext.
  destruct (NewPage_ok PAGE_SIZE s out Hok) as (found & pid & s' & He & Hok').
  exists found, pid, s'. split; [done|].
  unfold NewPage in He.
  destruct (find_frame s) as [[found1 s1]| |] eqn:Hfind; [|done..].
  pose proof (find_frame_inv s found1 s1 Hwf Hfind) as Hinv.
  cbn -[get_page touch_and_pin put_page set_next_page_id set_page_table] in He.
  destruct found1 as [f|].
  - pose proof (ft_next _ _ _ Hinv) as Hn1. rewrite Hn1 in He.
    rewrite wrap_int32_id in He by (unfold INT32_MAX in *; lia).
    set (s2 := set_next_page_id s1 (next_page_id_ s + 1)) in *.
    destruct (get_page s2 f) as [pg0| |] eqn:Hpg0; [|done..].
    cbn -[get_page touch_and_pin put_page set_next_page_id set_page_table] in He.
    set (s3 := put_page s2 f _) in *.
    destruct (touch_and_pin_pins s3 f) as (r & Htp & Hs & Hsz & Hne & Htr).
    { apply (pool_ok_sound s1 (ft_ok _ _ _ Hinv)). }
    { simpl. rewrite (po_size s1 (ft_ok _ _ _ Hinv)), (ft_pages _ _ _ Hinv).
      apply (ft_range _ _ _ Hinv). }
    rewrite Htp in He.
    cbn -[get_page touch_and_pin put_page set_next_page_id set_page_table] in He.
    injection He as <- <- <-.
    assert (page_table_ s !! next_page_id_ s = None) as Hfresh.
    { destruct (page_table_ s !! next_page_id_ s) as [g|] eqn:Hg; [|done].
      pose proof (wf_ids _ s Hwf _ g Hg). lia. }
    split; [|split; [done|split; [done|]]].
    + eapply (install_wf s s1 _ f (next_page_id_ s) (zeroed PAGE_SIZE));
        try done; simpl; lia.
    + exists s1. split; [done|]. simpl. rewrite (ft_pages _ _ _ Hinv).
      split; [done|]. split; [done|]. split; [done|]. split; [done|].
      split; [rewrite Hne; set_solver|]. split; [done|].
      apply (ft_disk _ _ _ Hinv).
  - destruct Hinv as [-> _]. injection He as <- <- <-. done.
Qed.

Lemma resident_not_free s p f :
  pool_wf PAGE_SIZE s → resident s p f → f ∉ free_list_ s.
Proof. intros Hwf Hres Hin. by eapply wf_free_not_resident. Qed.

Lemma resident_pin_nonneg s f pg : pool_ok s → get_page s f = Ok pg → 0 ≤ pin_count_ pg.
Proof.
  intros Hok [_ Hpg]%get_page_Ok. apply (po_pins s Hok).
  by eapply list_elem_of_lookup_2.
Qed.

(** The invariant when the frame [f] of the resident page [p] gets new
    metadata [pg'] under the same page id. *)
Lemma wf_update_resident s s' p f pg' :
  pool_wf PAGE_SIZE s → pool_ok s' → resident s p f →
  pages_ s' = <[Z.to_nat f := pg']> (pages_ s) →
  page_id_ pg' = p →
  pool_size_ s' = pool_size_ s → next_page_id_ s' = next_page_id_ s →
  page_table_ s' = page_table_ s → free_list_ s' = free_list_ s →
  (∀ g, LRUKReplacer.tracked (replacer_ s') g
        ↔ LRUKReplacer.tracked (replacer_ s) g) →
  (∀ g, g ≠ f → g ∈ LRUKReplacer.non_evictable_set_ (replacer_ s')
                ↔ g ∈ LRUKReplacer.non_evictable_set_ (replacer_ s)) →
  (0 < pin_count_ pg' → f ∈ LRUKReplacer.non_evictable_set_ (replacer_ s')) →
  pool_wf PAGE_SIZE s'.
Proof.
  intros Hwf Hok' Hres Hpages Hid Hsize Hnext Htable Hfree Htr Hne Hpin.
  pose proof (wf_next _ s Hwf) as Hn.
  apply (wf_update s s' f pg'); try done.
  - by apply (resident_range s p f (wf_ok _ s Hwf)).
  - lia.
  - intros q g _. by rewrite Htable.
  - intros g _. by rewrite Hfree.
  - rewrite Hfree. apply (wf_free_nodup _ s Hwf).
  - right. split; [|split; [|split; [|split; [|split]]]].
    + rewrite Hfree. by eapply resident_not_free.
    + apply Htr, (wf_tracked _ s Hwf). by eexists.
    + done.
    + by rewrite Htable, Hid.
    + rewrite Hid, Hnext. by apply (wf_ids _ s Hwf p f).
    + intros q. rewrite Htable, Hid. intros Hq. by eapply wf_resident_inj.
Qed.

Lemma FetchPage_wf s pid :
  pool_wf PAGE_SIZE s → allowed s (CallFetchPage pid) →
  ∃ found s', FetchPage PAGE_SIZE s pid = Ok (found, s') ∧
    pool_wf PAGE_SIZE s' ∧
    match page_table_ s !! pid with
    | Some f =>
        found = Some f ∧
        ∃ pg, get_page s f = Ok pg ∧
          pages_ s' = <[Z.to_nat f := mkPage (data_ pg) (page_id_ pg)
                                        (pin_count_ pg + 1) (is_dirty_ pg)]> (pages_ s) ∧
          page_table_ s' = page_table_ s ∧ free_list_ s' = free_list_ s ∧
          disk_ s' = disk_ s ∧
          f ∈ LRUKReplacer.non_evictable_set_ (replacer_ s')
    | None =>
        match found with
        | None => s' = s
        | Some f =>
            page_installed s s' f pid (ReadPage PAGE_SIZE (disk_ s') pid)
        end
    end.
Proof.
  intros Hwf [Hpid Hpinmax]. pose proof (wf_ok _ s Hwf) as Hok.
  pose proof (wf_next _ s Hwf) as Hnext.
  pose proof (FetchPage_ok PAGE_SIZE s pid Hok) as Hfok.
  destruct (FetchPage PAGE_SIZE s pid) as [[found s']| |] eqn:He.
  2:{ done. }
  2:{ destruct Hfok as (f & pg & Hf & Hpg & Hmax).
      specialize (Hpinmax f pg Hf Hpg). lia. }
  exists found, s'. split; [done|].
  unfold FetchPage in He.
  destruct (page_table_ s !! pid) as [f|] eqn:Hpt.
  - pose proof (resident_range s pid f Hok Hpt) as Hf.
    destruct (get_page_in_range s f Hf) as [pg Hpg]. rewrite Hpg in He.
    cbn -[get_page touch_and_pin put_page] in He.
    rewrite bool_decide_false in He by (specialize (Hpinmax f pg eq_refl Hpg); lia).
    set (s2 := put_page s f _) in *.
    destruct (touch_and_pin_pins s2 f) as (r & Htp & Hs & Hsz & Hne & Htr).
    { apply (pool_ok_sound s Hok). }
    { simpl. by rewrite (po_size s Hok). }
    rewrite Htp in He. cbn in He. injection He as <- <-.
    assert (LRUKReplacer.tracked (replacer_ s) f) as Htf.
    { apply (wf_tracked _ s Hwf). by eexists. }
    split.
    + apply (wf_update_resident s _ pid f
               (mkPage (data_ pg) (page_id_ pg) (pin_count_ pg + 1) (is_dirty_ pg)));
        try done; simpl.
      * by apply (wf_table_ids _ s Hwf pid f pg).
      * intros g. rewrite Htr. naive_solver.
      * intros g Hg. rewrite Hne. set_solver.
      * intros _. rewrite Hne. set_solver.
    + split; [done|]. exists pg. split; [done|]. simpl.
      do 4 (split; [done|]). rewrite Hne. set_solver.
  - destruct (find_frame s) as [[found1 s1]| |] eqn:Hfind; [|done..].
    pose proof (find_frame_inv s found1 s1 Hwf Hfind) as Hinv.
    cbn -[get_page touch_and_pin put_page read_in set_page_table] in He.
    destruct found1 as [f|].
    + destruct (get_page s1 f) as [pg0| |] eqn:Hpg0; [|done..].
      cbn -[get_page touch_and_pin put_page set_page_table] in He.
      set (s3 := put_page _ f _) in *.
      destruct (touch_and_pin_pins s3 f) as (r & Htp & Hs & Hsz & Hne & Htr).
      { apply (pool_ok_sound s1 (ft_ok _ _ _ Hinv)). }
      { simpl. rewrite (po_size s1 (ft_ok _ _ _ Hinv)), (ft_pages _ _ _ Hinv).
        apply (ft_range _ _ _ Hinv). }
      rewrite Htp in He.
      cbn -[get_page touch_and_pin put_page set_page_table] in He.
      injection He as <- <-.
      split.
      * eapply (install_wf s s1 _ f pid (ReadPage PAGE_SIZE (disk_ s1) pid));
          try done; simpl; try done; rewrite (ft_next _ _ _ Hinv); lia.
      * exists s1. split; [done|]. simpl. rewrite (ft_pages _ _ _ Hinv).
        split; [done|]. split; [done|]. split; [done|]. split; [done|].
        split; [rewrite Hne; set_solver|]. split; [done|].
        apply (ft_disk _ _ _ Hinv).
    + destruct Hinv as [-> _]. injection He as <- <-. done.
Qed.

Lemma replacer_put_page s f pg : replacer_ (put_page s f pg) = replacer_ s.
Proof. done. Qed.

Lemma UnpinPage_wf s pid d :
  pool_wf PAGE_SIZE s →
  ∃ b s', UnpinPage s pid d = Ok (b, s') ∧ pool_wf PAGE_SIZE s' ∧
    if b then
      ∃ f pg, resident s pid f ∧ get_page s f = Ok pg ∧ 0 < pin_count_ pg ∧
        pages_ s' = <[Z.to_nat f := mkPage (data_ pg) (page_id_ pg)
                                      (pin_count_ pg - 1) (d || is_dirty_ pg)]> (pages_ s) ∧
        page_table_ s' = page_table_ s ∧ free_list_ s' = free_list_ s ∧
        disk_ s' = disk_ s ∧
        (pin_count_ pg = 1 →
           f ∉ LRUKReplacer.non_evictable_set_ (replacer_ s'))
    else s' = s.
Proof.
  intros Hwf. pose proof (wf_ok _ s Hwf) as Hok.
  destruct (UnpinPage_ok s pid d Hok) as (b & s' & He & Hok').
  exists b, s'. split; [done|].
  unfold UnpinPage in He.
  destruct (page_table_ s !! pid) as [f|] eqn:Hpt.
  2:{ injection He as <- <-. done. }
  pose proof (resident_range s pid f Hok Hpt) as Hf.
  destruct (get_page_in_range s f Hf) as [pg Hpg]. rewrite Hpg in He.
  cbn -[get_page put_page] in He.
  case_bool_decide as Hpin; [injection He as <- <-; done|].
  pose proof (wf_table_ids _ s Hwf pid f pg Hpt Hpg) as Hid.
  assert (LRUKReplacer.tracked (replacer_ s) f) as Htf.
  { apply (wf_tracked _ s Hwf). by eexists. }
  case_bool_decide as Hzero.
  - rewrite replacer_put_page in He.
    destruct (LRUKReplacer.SetEvictable (replacer_ s) f true) as [r| |] eqn:Hse;
      [|done..].
    cbn in He. injection He as <- <-.
    pose proof (SetEvictable_set _ f true r Hse Htf) as Hne.
    destruct (SetEvictable_effect _ f true r Hse) as (_ & _ & Hcm & _).
    split.
    + apply (wf_update_resident s _ pid f
               (mkPage (data_ pg) (page_id_ pg) (pin_count_ pg - 1) (d || is_dirty_ pg)));
        try done; simpl.
      * intros g. unfold LRUKReplacer.tracked. by rewrite Hcm.
      * intros g Hg. rewrite Hne. set_solver.
      * lia.
    + exists f, pg. split; [done|]. split; [done|]. split; [lia|]. simpl.
      do 4 (split; [done|]). intros _. rewrite Hne. set_solver.
  - injection He as <- <-. split.
    + apply (wf_update_resident s _ pid f
               (mkPage (data_ pg) (page_id_ pg) (pin_count_ pg - 1) (d || is_dirty_ pg)));
        try done; simpl.
      intros _. apply (wf_pinned _ s Hwf pid f pg); [done..|lia].
    + exists f, pg. split; [done|]. split; [done|]. split; [lia|]. simpl.
      do 4 (split; [done|]). intros; lia.
Qed.

Lemma FlushPage_wf s pid :
  pool_wf PAGE_SIZE s →
  ∃ b s', FlushPage s pid = Ok (b, s') ∧ pool_wf PAGE_SIZE s' ∧
    if b then
      ∃ f pg, resident s pid f ∧ get_page s f = Ok pg ∧
        pages_ s' = <[Z.to_nat f := mkPage (data_ pg) (page_id_ pg)
                                      (pin_count_ pg) false]> (pages_ s) ∧
        page_table_ s' = page_table_ s ∧ free_list_ s' = free_list_ s ∧
        replacer_ s' = replacer_ s ∧ next_page_id_ s' = next_page_id_ s ∧
        pool_size_ s' = pool_size_ s ∧
        disk_ s' = WritePage (disk_ s) pid (data_ pg)
    else s' = s.
Proof.
  intros Hwf. pose proof (wf_ok _ s Hwf) as Hok.
  destruct (FlushPage_ok s pid Hok) as (b & s' & He & Hok').
  exists b, s'. split; [done|].
  unfold FlushPage in He.
  case_bool_decide as Hinv; [injection He as <- <-; done|].
  destruct (page_table_ s !! pid) as [f|] eqn:Hpt.
  2:{ injection He as <- <-. done. }
  pose proof (resident_range s pid f Hok Hpt) as Hf.
  destruct (get_page_in_range s f Hf) as [pg Hpg]. rewrite Hpg in He.
  cbn -[get_page put_page write_back] in He. injection He as <- <-.
  pose proof (wf_table_ids _ s Hwf pid f pg Hpt Hpg) as Hid.
  split.
  - apply (wf_update_resident s _ pid f
             (mkPage (data_ pg) (page_id_ pg) (pin_count_ pg) false));
      try done; simpl.
    intros Hpin. by apply (wf_pinned _ s Hwf pid f pg).
  - exists f, pg. split; [done|]. split; [done|]. simpl.
    do 6 (split; [done|]). by rewrite Hid.
Qed.

Lemma DeletePage_wf s pid :
  pool_wf PAGE_SIZE s →
  ∃ b s', DeletePage PAGE_SIZE s pid = Ok (b, s') ∧ pool_wf PAGE_SIZE s' ∧
    match page_table_ s !! pid with
    | None => b = true ∧ s' = s
    | Some f =>
        ∃ pg, get_page s f = Ok pg ∧
          if b then
            pin_count_ pg = 0 ∧
            pages_ s' = <[Z.to_nat f := mkPage (zeroed PAGE_SIZE) INVALID_PAGE_ID 0 false]>
                          (pages_ s) ∧
            page_table_ s' = delete pid (page_table_ s) ∧
            free_list_ s' = free_list_ s ++ [f] ∧
            next_page_id_ s' = next_page_id_ s ∧
            disk_ s' = disk_ s ∧ requests_ s' = requests_ s
          else 0 < pin_count_ pg ∧ s' = s
    end.
Proof.
  intros Hwf. pose proof (wf_ok _ s Hwf) as Hok.
  destruct (DeletePage_ok PAGE_SIZE s pid Hok) as (b & s' & He & Hok').
  exists b, s'. split; [done|].
  unfold DeletePage in He.
  destruct (page_table_ s !! pid) as [f|] eqn:Hpt.
  2:{ injection He as <- <-. done. }
  pose proof (resident_range s pid f Hok Hpt) as Hf.
  destruct (get_page_in_range s f Hf) as [pg Hpg]. rewrite Hpg in He.
  cbn -[get_page put_page] in He.
  case_bool_decide as Hpin.
  { injection He as <- <-. split; [done|]. exists pg. split; [done|]. split; [lia|done]. }
  pose proof (resident_pin_nonneg s f pg Hok Hpg) as Hpin0.
  assert (f ∉ LRUKReplacer.non_evictable_set_ (replacer_ s)) as Hfne.
  { eapply (po_unpinned s Hok pid f pg); [done..|lia]. }
  destruct (Remove_sound (replacer_ s) f) as (r & Hrm & Hs & Hsz & Hne & Hnt);
    [apply (pool_ok_sound s Hok)|by rewrite (po_size s Hok)|done|].
  rewrite Hrm in He. cbn -[get_page put_page] in He. injection He as <- <-.
  assert (∀ g, g ≠ f → LRUKReplacer.tracked r g
                       ↔ LRUKReplacer.tracked (replacer_ s) g) as Htr.
  { intros g Hg.
    destruct (Remove_effect _ f r (po_replacer s Hok) Hrm) as [->|Hd]; [done|].
    destruct Hd as (_ & _ & _ & _ & Hcm & _).
    unfold LRUKReplacer.tracked. rewrite Hcm. by rewrite lookup_delete_ne. }
  split.
  - apply (wf_update s _ f (mkPage (zeroed PAGE_SIZE) INVALID_PAGE_ID 0 false));
      try done; simpl.
    + pose proof (wf_next _ s Hwf). lia.
    + intros q g Hg. rewrite lookup_delete_Some.
      split; [by intros [_ ?]|]. intros Hq. split; [|done].
      intros ->. unfold resident in Hpt. congruence.
    + intros g Hg. rewrite elem_of_app, list_elem_of_singleton. naive_solver.
    + apply NoDup_app. split; [apply (wf_free_nodup _ s Hwf)|].
      split; [|apply NoDup_singleton].
      intros g Hg ->%list_elem_of_singleton. by eapply resident_not_free.
    + intros g Hg. by rewrite Hne.
    + left. split; [|split; [|split]]; [| |done|done].
      * apply elem_of_app. right. by apply list_elem_of_singleton.
      * intros q. rewrite lookup_delete_Some. intros [Hq1 Hq2].
        apply Hq1. by eapply wf_resident_inj.
  - exists pg. split; [done|]. split; [lia|]. done.
Qed.

Lemma page_eta pg :
  mkPage (data_ pg) (page_id_ pg) (pin_count_ pg) (is_dirty_ pg) = pg.
Proof. by destruct pg. Qed.

(** The loop of [FlushAllPages] over the frames [frames]. *)
Lemma flush_frames_wf frames : ∀ s,
  pool_wf PAGE_SIZE s →
  (∀ f, f ∈ frames → 0 ≤ f < Z.of_nat (length (pages_ s))) →
  ∃ s', flush_frames s frames = Ok s' ∧ pool_wf PAGE_SIZE s' ∧
    page_table_ s' = page_table_ s ∧ free_list_ s' = free_list_ s ∧
    replacer_ s' = replacer_ s ∧ next_page_id_ s' = next_page_id_ s ∧
    pool_size_ s' = pool_size_ s ∧
    length (pages_ s') = length (pages_ s) ∧
    (∀ g pg, get_page s g = Ok pg →
       ∃ d, get_page s' g = Ok (mkPage (data_ pg) (page_id_ pg) (pin_count_ pg) d) ∧
            (g ∈ frames → d = false) ∧ (g ∉ frames → d = is_dirty_ pg)) ∧
    (∀ p g pg, resident s p g → g ∈ frames → get_page s g = Ok pg →
       disk_ s' !! p = Some (data_ pg)) ∧
    (∀ p, (∀ g, resident s p g → g ∉ frames) → disk_ s' !! p = disk_ s !! p).
Proof.
  induction frames as [|f rest IH]; intros s Hwf Hrange; simpl.
  - exists s. split; [done|]. split; [done|]. do 6 (split; [done|]).
    split; [|split; [|done]].
    + intros g pg Hpg. exists (is_dirty_ pg). rewrite page_eta.
      split; [done|]. split; [by intros ?%elem_of_nil|done].
    + intros p g pg _ Hin. by apply elem_of_nil in Hin.
  - pose proof (wf_ok _ s Hwf) as Hok.
    destruct (get_page_in_range s f) as [pgf Hpgf];
      [apply Hrange; by left|].
    rewrite Hpgf. simpl.
    destruct (FlushPage_wf s (page_id_ pgf) Hwf) as (b & s1 & He & Hwf1 & Hdelta).
    rewrite He. simpl.
    (* what the flush of this frame did *)
    assert (page_table_ s1 = page_table_ s ∧ free_list_ s1 = free_list_ s ∧
            replacer_ s1 = replacer_ s ∧ next_page_id_ s1 = next_page_id_ s ∧
            pool_size_ s1 = pool_size_ s ∧
            length (pages_ s1) = length (pages_ s) ∧
            (∀ g pg, get_page s g = Ok pg →
               ∃ d, get_page s1 g = Ok (mkPage (data_ pg) (page_id_ pg) (pin_count_ pg) d) ∧
                    (g = f → d = false) ∧ (g ≠ f → d = is_dirty_ pg)) ∧
            (∀ p, resident s p f → disk_ s1 !! p = Some (data_ pgf)) ∧
            (∀ p, ¬ resident s p f → disk_ s1 !! p = disk_ s !! p))
      as (Ht1 & Hfl1 & Hr1 & Hn1 & Hps1 & Hlen1 & Hpg1 & Hd1 & Hd2).
    { destruct b.
      - destruct Hdelta as (f1 & pg1 & Hres & Hpg1 & Hpages & Ht & Hfl & Hr & Hn & Hps & Hdisk).
        assert (f1 = f) as ->.
        { destruct (wf_cover _ s Hwf f) as [Hfree|[q Hq]]; [apply Hrange; by left| |].
          - pose proof (wf_free_blank _ s Hwf f Hfree) as Hb.
            rewrite Hpgf in Hb. injection Hb as ->. simpl in Hres.
            pose proof (wf_ids _ s Hwf _ _ Hres). unfold INVALID_PAGE_ID in *. lia.
          - rewrite (wf_table_ids _ s Hwf q f pgf Hq Hpgf) in Hres.
            unfold resident in *. congruence. }
        rewrite Hpgf in Hpg1. injection Hpg1 as <-.
        do 5 (split; [done|]). split; [by rewrite Hpages, length_insert|].
        split; [|split].
        + intros g pg Hpg. destruct (decide (g = f)) as [->|Hgf].
          * rewrite Hpgf in Hpg. injection Hpg as <-. exists false.
            split; [|done]. eapply get_page_same; [done|]. apply Hrange. by left.
          * exists (is_dirty_ pg). rewrite page_eta. split; [|done].
            rewrite <- Hpg. eapply get_page_other; [done| |done].
            assert (0 ≤ f) by (apply Hrange; by left). done.
        + intros p Hp. rewrite Hdisk.
          rewrite <- (wf_table_ids _ s Hwf p f pgf Hp Hpgf).
          unfold WritePage. by rewrite lookup_insert_eq.
        + intros p Hp. rewrite Hdisk. unfold WritePage.
          rewrite lookup_insert_ne; [done|]. intros <-. done.
      - subst s1. do 6 (split; [done|]). split; [|split; [|done]].
        + intros g pg Hpg. exists (is_dirty_ pg). rewrite page_eta.
          split; [done|]. split; [|done]. intros ->.
          rewrite Hpgf in Hpg. injection Hpg as <-.
          destruct (wf_cover _ s Hwf f) as [Hfree|[q Hq]]; [apply Hrange; by left| |].
          * pose proof (wf_free_blank _ s Hwf f Hfree) as Hb.
            rewrite Hpgf in Hb. by injection Hb as ->.
          * (* a resident frame is flushed *)
            pose proof (wf_table_ids _ s Hwf q f pgf Hq Hpgf) as Hid.
            pose proof (wf_ids _ s Hwf q f Hq) as Hq0.
            unfold FlushPage in He.
            rewrite bool_decide_false in He by (unfold INVALID_PAGE_ID; lia).
            rewrite Hid in He. unfold resident in Hq. rewrite Hq, Hpgf in He.
            simpl in He. by injection He.
        + intros p Hp. exfalso.
          pose proof (wf_table_ids _ s Hwf p f pgf Hp Hpgf) as Hid.
          pose proof (wf_ids _ s Hwf p f Hp) as Hq0.
          unfold FlushPage in He.
          rewrite bool_decide_false in He by (unfold INVALID_PAGE_ID; lia).
          rewrite Hid in He. unfold resident in Hp. rewrite Hp, Hpgf in He.
          simpl in He. by injection He. }
    destruct (IH s1 Hwf1) as (s' & Hrun & Hwf' & Ht & Hfl & Hr & Hn & Hps & Hlen & Hpg & Hdk1 & Hdk2).
    { intros g Hg. rewrite Hlen1. apply Hrange. by right. }
    exists s'. split; [done|]. split; [done|].
    split; [congruence|]. split; [congruence|]. split; [congruence|].
    split; [congruence|]. split; [congruence|]. split; [congruence|].
    split; [|split].
    + intros g pg Hg. destruct (Hpg1 g pg Hg) as (d1 & Hg1 & Hd1f & Hd1o).
      destruct (Hpg g _ Hg1) as (d & Hg' & Hdin & Hdout). simpl in *.
      exists d. split; [done|]. split.
      * intros [->|Hin]%elem_of_cons; [|by apply Hdin].
        destruct (decide (f ∈ rest)) as [Hin|Hnin]; [by apply Hdin|].
        rewrite (Hdout Hnin). by apply Hd1f.
      * intros Hnin. apply not_elem_of_cons in Hnin as [Hgf Hnin].
        rewrite (Hdout Hnin). by apply Hd1o.
    + intros p g pg Hres Hin Hg.
      destruct (Hpg1 g pg Hg) as (d1 & Hg1 & _).
      assert (resident s1 p g) as Hres1 by (unfold resident; by rewrite Ht1).
      destruct (decide (g ∈ rest)) as [Hrest|Hrest].
      * by rewrite (Hdk1 p g _ Hres1 Hrest Hg1).
      * apply elem_of_cons in Hin as [->|Hin]; [|done].
        rewrite Hdk2.
        -- rewrite (Hd1 p Hres). rewrite Hpgf in Hg. by injection Hg as <-.
        -- intros g' Hg'. unfold resident in *. rewrite Ht1 in Hg'.
           rewrite Hres in Hg'. by injection Hg' as <-.
    + intros p Hp. rewrite Hdk2.
      * apply Hd2. intros Hres. apply (Hp f Hres). by left.
      * intros g Hg Hin. unfold resident in Hg. rewrite Ht1 in Hg.
        apply (Hp g Hg). by right.
Qed.

Lemma pool_step_wf s c :
  pool_wf PAGE_SIZE s → allowed s c →
  ∃ s', pool_step PAGE_SIZE s c = Ok s' ∧ pool_wf PAGE_SIZE s'.
Proof.
  intros Hwf Hc. destruct c as [|pid|pid d|pid| |pid]; simpl.
  - destruct (NewPage_wf s INVALID_PAGE_ID Hwf Hc) as (found & id & s' & -> & Hwf' & _).
    by exists s'.
  - destruct (FetchPage_wf s pid Hwf Hc) as (found & s' & -> & Hwf' & _).
    by exists s'.
  - destruct (UnpinPage_wf s pid d Hwf) as (b & s' & -> & Hwf' & _).
    by exists s'.
  - destruct (FlushPage_wf s pid Hwf) as (b & s' & -> & Hwf' & _).
    by exists s'.
  - unfold FlushAllPages.
    destruct (flush_frames_wf (seqZ 0 (pool_size_ s)) s Hwf) as (s' & -> & Hwf' & _).
    { intros f [? ?]%elem_of_seqZ. rewrite <- (wf_pool_size _ s Hwf). lia. }
    by exists s'.
  - destruct (DeletePage_wf s pid Hwf) as (b & s' & -> & Hwf' & _).
    by exists s'.
Qed.

End PoolWellFormed.

(* ================================================================= *)
(** * What the invariant gives the clients of the pool *)

Section PoolGuarantees.
Import BufferPoolManager PoolInvariants.

Variable PAGE_SIZE : nat.

Implicit Types (s : BufferPoolManager) (pg : Page).

(** X15.  The invariant of the pool, and that no call goes wrong.  In
    every state a pool built with [pool_size ≤ INT32_MAX] frames and a
    replacer of [k ≥ 2] can reach by calls of its public methods that
    respect [allowed], the members hang together as [pool_wf] says, and
    every further call that respects [allowed] returns: no access outside
    the page array, no assertion of the replacer fails, no iterator of
    the replacer is misused. *)
Theorem pool_invariant (pool_size replacer_k : Z) (s : BufferPoolManager) :
  0 ≤ pool_size ≤ INT32_MAX → 2 ≤ replacer_k →
  pool_reachable PAGE_SIZE pool_size replacer_k s →
  pool_wf PAGE_SIZE s ∧
  ∀ c, allowed s c → ∃ s', pool_step PAGE_SIZE s c = Ok s'.
Proof.
  intros Hp Hk Hreach.
  assert (pool_wf PAGE_SIZE s) as Hwf.
  { induction Hreach as [disk|s c s' Hreach IH Hc Hstep].
    - by apply new_wf.
    - destruct (pool_step_wf PAGE_SIZE s c IH Hc) as (s2 & He & Hwf2).
      rewrite Hstep in He. by injection He as <-. }
  split; [done|]. intros c Hc.
  destruct (pool_step_wf PAGE_SIZE s c Hwf Hc) as (s' & He & _). by exists s'.
Qed.

(** X16.  A pinned page is never evicted.  In a well-formed pool, let
    the page [p] be resident in the frame [f] with a positive pin count.
    Whatever call comes next, other than [FetchPage(p)] and
    [UnpinPage(p, _)] which change the pin count, the page is still
    resident in the same frame afterwards, with the same bytes and the
    same pin count: [NewPage] and [FetchPage] take another frame,
    [DeletePage(p)] refuses. *)
Theorem pinned_page_stays (s s' : BufferPoolManager) (c : pool_call)
    (p f : Z) (pg : Page) :
  pool_wf PAGE_SIZE s → allowed s c → pool_step PAGE_SIZE s c = Ok s' →
  resident s p f → get_page s f = Ok pg → 0 < pin_count_ pg →
  c ≠ CallFetchPage p → (∀ d, c ≠ CallUnpinPage p d) →
  resident s' p f ∧
  ∃ pg', get_page s' f = Ok pg' ∧ data_ pg' = data_ pg ∧
         page_id_ pg' = p ∧ pin_count_ pg' = pin_count_ pg.
Proof.
  intros Hwf Hc Hstep Hres Hpg Hpin Hnf Hnu.
  pose proof (wf_table_ids _ s Hwf p f pg Hres Hpg) as Hid.
  pose proof (wf_pinned _ s Hwf p f pg Hres Hpg Hpin) as Hne.
  pose proof (resident_range s p f (wf_ok _ s Hwf) Hres) as Hf.
  assert (∀ s2, s2 = s → resident s2 p f ∧
    ∃ pg', get_page s2 f = Ok pg' ∧ data_ pg' = data_ pg ∧
           page_id_ pg' = p ∧ pin_count_ pg' = pin_count_ pg) as Hsame.
  { intros s2 ->. split; [done|]. by exists pg. }
  (* another frame [f0 ≠ f] is rewritten, and the table keeps [p] *)
  assert (∀ f0 pg0, f0 ≠ f → 0 ≤ f0 →
            pages_ s' = <[Z.to_nat f0 := pg0]> (pages_ s) →
            ∃ pg', get_page s' f = Ok pg' ∧ data_ pg' = data_ pg ∧
                   page_id_ pg' = p ∧ pin_count_ pg' = pin_count_ pg) as Hother.
  { intros f0 pg0 Hf0 H0 Hpages. exists pg. split; [|done].
    rewrite <- Hpg. by eapply get_page_other. }
  (* a page installed in a frame taken by the acquisition lines *)
  assert (∀ f0 pid data, page_installed s s' f0 pid data →
            resident s' p f ∧
            ∃ pg', get_page s' f = Ok pg' ∧ data_ pg' = data_ pg ∧
                   page_id_ pg' = p ∧ pin_count_ pg' = pin_count_ pg) as Hinst.
  { intros f0 pid data (s1 & Hft & Hpages & Htable & _ & Hfresh & _).
    assert (f0 ≠ f) as Hf0.
    { intros ->. by apply (ft_evictable _ _ _ Hft). }
    split.
    - unfold resident. rewrite Htable.
      rewrite lookup_insert_ne by (intros ->; unfold resident in Hres; congruence).
      apply (ft_table _ _ _ Hft); [done|done].
    - eapply Hother; [done| |done]. apply (ft_range _ _ _ Hft). }
  destruct c as [|pid|pid d|pid| |pid]; simpl in Hstep.
  - destruct (NewPage_wf PAGE_SIZE s INVALID_PAGE_ID Hwf Hc)
      as (found & id & s2 & He & _ & Hd).
    rewrite He in Hstep. simpl in Hstep. injection Hstep as ->.
    destruct found as [f0|]; [|by apply Hsame; destruct Hd].
    destruct Hd as (_ & _ & Hd). by eapply Hinst.
  - destruct (FetchPage_wf PAGE_SIZE s pid Hwf Hc) as (found & s2 & He & _ & Hd).
    rewrite He in Hstep. simpl in Hstep. injection Hstep as ->.
    destruct (page_table_ s !! pid) as [f0|] eqn:Hpt.
    + destruct Hd as (_ & pg0 & Hpg0 & Hpages & Htable & _).
      assert (f0 ≠ f) as Hf0.
      { intros ->. apply Hnf. f_equal. by eapply (wf_resident_inj PAGE_SIZE s). }
      split; [unfold resident; by rewrite Htable|].
      eapply Hother; [done| |done].
      by apply (resident_range s pid f0 (wf_ok _ s Hwf)).
    + destruct found as [f0|]; [by eapply Hinst|by apply Hsame].
  - destruct (UnpinPage_wf PAGE_SIZE s pid d Hwf) as (b & s2 & He & _ & Hd).
    rewrite He in Hstep. simpl in Hstep. injection Hstep as ->.
    destruct b; [|by apply Hsame].
    destruct Hd as (f0 & pg0 & Hres0 & Hpg0 & _ & Hpages & Htable & _).
    assert (f0 ≠ f) as Hf0.
    { intros ->. apply (Hnu d). f_equal. by eapply (wf_resident_inj PAGE_SIZE s). }
    split; [unfold resident; by rewrite Htable|].
    eapply Hother; [done| |done].
    by apply (resident_range s pid f0 (wf_ok _ s Hwf)).
  - destruct (FlushPage_wf PAGE_SIZE s pid Hwf) as (b & s2 & He & _ & Hd).
    rewrite He in Hstep. simpl in Hstep. injection Hstep as ->.
    destruct b; [|by apply Hsame].
    destruct Hd as (f0 & pg0 & Hres0 & Hpg0 & Hpages & Htable & _).
    split; [unfold resident; by rewrite Htable|].
    destruct (decide (f0 = f)) as [->|Hf0].
    + rewrite Hpg in Hpg0. injection Hpg0 as <-.
      eexists. split; [by eapply get_page_same|]. done.
    + eapply Hother; [done| |done].
      by apply (resident_range s pid f0 (wf_ok _ s Hwf)).
  - unfold FlushAllPages in Hstep.
    destruct (flush_frames_wf PAGE_SIZE (seqZ 0 (pool_size_ s)) s Hwf)
      as (s2 & He & _ & Htable & _ & _ & _ & _ & _ & Hpages & _).
    { intros g [? ?]%elem_of_seqZ. rewrite <- (wf_pool_size _ s Hwf). lia. }
    rewrite He in Hstep. injection Hstep as ->.
    split; [unfold resident; by rewrite Htable|].
    destruct (Hpages f pg Hpg) as (d & Hpg' & _).
    eexists. split; [done|]. done.
  - destruct (DeletePage_wf PAGE_SIZE s pid Hwf) as (b & s2 & He & _ & Hd).
    rewrite He in Hstep. simpl in Hstep. injection Hstep as ->.
    destruct (page_table_ s !! pid) as [f0|] eqn:Hpt; [|by apply Hsame; destruct Hd].
    destruct Hd as (pg0 & Hpg0 & Hd). destruct b; [|by apply Hsame; destruct Hd].
    destruct Hd as (Hpin0 & Hpages & Htable & _).
    assert (f0 ≠ f) as Hf0.
    { intros ->. rewrite Hpg in Hpg0. injection Hpg0 as <-. lia. }
    split.
    + unfold resident. rewrite Htable. rewrite lookup_delete_ne; [done|].
      intros ->. unfold resident in Hres. congruence.
    + eapply Hother; [done| |done].
      by apply (resident_range s pid f0 (wf_ok _ s Hwf)).
Qed.

(** X17.  [FlushAllPages], in a well-formed pool.  It returns; afterwards
    no frame is dirty, every frame holds the bytes, the page id and the
    pin count it held, the disk holds under every resident page id the
    bytes of its frame and is as before under every other id, and the
    page table, the free list and the replacer are as before. *)
Theorem FlushAllPages_spec (s : BufferPoolManager) :
  pool_wf PAGE_SIZE s →
  ∃ s', FlushAllPages s = Ok s' ∧
    (∀ g pg, get_page s g = Ok pg →
       get_page s' g = Ok (mkPage (data_ pg) (page_id_ pg) (pin_count_ pg) false)) ∧
    (∀ p g pg, resident s p g → get_page s g = Ok pg →
       ReadPage PAGE_SIZE (disk_ s') p = data_ pg) ∧
    (∀ p, page_table_ s !! p = None → disk_ s' !! p = disk_ s !! p) ∧
    page_table_ s' = page_table_ s ∧ free_list_ s' = free_list_ s ∧
    replacer_ s' = replacer_ s.
Proof.
  intros Hwf. unfold FlushAllPages.
  assert (∀ g, 0 ≤ g < Z.of_nat (length (pages_ s)) → g ∈ seqZ 0 (pool_size_ s))
    as Hall.
  { intros g Hg. apply elem_of_seqZ. rewrite (wf_pool_size _ s Hwf). lia. }
  destruct (flush_frames_wf PAGE_SIZE (seqZ 0 (pool_size_ s)) s Hwf)
    as (s' & He & _ & Htable & Hfree & Hrep & _ & _ & _ & Hpages & Hd1 & Hd2).
  { intros g [? ?]%elem_of_seqZ. rewrite <- (wf_pool_size _ s Hwf). lia. }
  exists s'. split; [done|]. split; [|split; [|split; [|done]]].
  - intros g pg Hpg. destruct (Hpages g pg Hpg) as (d & Hpg' & Hin & _).
    rewrite Hin in Hpg'; [done|]. apply Hall. by eapply get_page_range.
  - intros p g pg Hres Hpg. unfold ReadPage.
    rewrite (Hd1 p g pg Hres); [done| |done].
    apply Hall. by eapply get_page_range.
  - intros p Hp. apply Hd2. intros g Hg. unfold resident in Hg. congruence.
Qed.

(** X18.  A flushed page survives its deletion.  In a well-formed pool,
    for a resident page [p] that nobody pins: [FlushPage(p)] succeeds,
    [DeletePage(p)] then succeeds, and [FetchPage(p)] after that brings
    the page back, into the frame it was deleted from, with the bytes it
    had when it was flushed, pin count 1 and clean. *)
Theorem Flush_Delete_Fetch_roundtrip (s : BufferPoolManager) (p f : Z) (pg : Page) :
  pool_wf PAGE_SIZE s → resident s p f → get_page s f = Ok pg →
  pin_count_ pg = 0 →
  ∃ s1 s2 s3,
    FlushPage s p = Ok (true, s1) ∧
    DeletePage PAGE_SIZE s1 p = Ok (true, s2) ∧
    FetchPage PAGE_SIZE s2 p = Ok (Some f, s3) ∧
    get_page s3 f = Ok (mkPage (data_ pg) p 1 false).
Proof.
  intros Hwf Hres Hpg Hpin.
  pose proof (wf_ids _ s Hwf p f Hres) as Hp.
  pose proof (wf_table_ids _ s Hwf p f pg Hres Hpg) as Hid.
  pose proof (resident_range s p f (wf_ok _ s Hwf) Hres) as Hf.
  (* flush *)
  destruct (FlushPage_wf PAGE_SIZE s p Hwf) as (b1 & s1 & He1 & Hwf1 & Hd1).
  assert (b1 = true) as ->.
  { unfold FlushPage in He1.
    rewrite bool_decide_false in He1 by (unfold INVALID_PAGE_ID; lia).
    unfold resident in Hres. rewrite Hres, Hpg in He1. simpl in He1.
    by injection He1. }
  destruct Hd1 as (f1 & pg1 & Hres1 & Hpg1 & Hpages1 & Htable1 & Hfree1 & _ & Hnext1 & _ & Hdisk1).
  assert (f1 = f) as -> by (unfold resident in *; congruence).
  rewrite Hpg in Hpg1. injection Hpg1 as <-.
  assert (get_page s1 f = Ok (mkPage (data_ pg) (page_id_ pg) (pin_count_ pg) false))
    as Hpgs1 by (by eapply get_page_same).
  (* delete *)
  destruct (DeletePage_wf PAGE_SIZE s1 p Hwf1) as (b2 & s2 & He2 & Hwf2 & Hd2).
  rewrite Htable1 in Hd2. unfold resident in Hres. rewrite Hres in Hd2.
  destruct Hd2 as (pg2 & Hpg2 & Hd2). rewrite Hpgs1 in Hpg2. injection Hpg2 as <-.
  destruct b2; [|destruct Hd2 as [Hlt _]; simpl in Hlt; lia].
  destruct Hd2 as (_ & Hpages2 & Htable2 & Hfree2 & Hnext2 & Hdisk2 & _).
  (* fetch *)
  exists s1, s2. 
  assert (length (pages_ s2) = length (pages_ s)) as Hlen2.
  { by rewrite Hpages2, length_insert, Hpages1, length_insert. }
  assert (∃ s3, FetchPage PAGE_SIZE s2 p = Ok (Some f, s3) ∧
                pages_ s3 = <[Z.to_nat f := mkPage (ReadPage PAGE_SIZE (disk_ s2) p) p 1 false]>
                              (pages_ s2)) as (s3 & He3 & Hpages3).
  { unfold FetchPage. rewrite Htable2, lookup_delete_eq.
    unfold find_frame. rewrite Hfree2, last_snoc.
    cbn -[get_page touch_and_pin put_page read_in set_page_table set_free_list].
    destruct (get_page_in_range (set_free_list s2 (removelast (free_list_ s1 ++ [f]))) f)
      as [pg3 Hpg3]; [simpl; lia|].
    rewrite Hpg3.
    cbn -[get_page touch_and_pin put_page set_page_table set_free_list].
    set (s2' := put_page _ f _).
    destruct (touch_and_pin_pins s2' f) as (r & Htp & _).
    { apply (pool_ok_sound s2 (wf_ok _ s2 Hwf2)). }
    { simpl. rewrite (po_size s2 (wf_ok _ s2 Hwf2)). lia. }
    rewrite Htp. simpl. eexists. split; [done|]. done. }
  exists s3. split; [done|]. split; [done|]. split; [done|].
  assert (ReadPage PAGE_SIZE (disk_ s2) p = data_ pg) as Hread.
  { rewrite Hdisk2, Hdisk1. unfold ReadPage, WritePage.
    by rewrite lookup_insert_eq. }
  rewrite Hread in Hpages3. apply (get_page_same s2 s3 f); [done|lia].
Qed.

(** X19.  [FetchPage] right after [NewPage].  When [NewPage] has
    returned the frame [f] for the new page id [pid], in a well-formed
    pool, a [FetchPage(pid)] returns the same frame, still zeroed and
    clean, now with pin count 2. *)
Theorem NewPage_then_FetchPage (s s1 : BufferPoolManager) (out f pid : Z) :
  pool_wf PAGE_SIZE s → next_page_id_ s < INT32_MAX →
  NewPage PAGE_SIZE s out = Ok (Some f, pid, s1) →
  ∃ s2, FetchPage PAGE_SIZE s1 pid = Ok (Some f, s2) ∧
    get_page s2 f = Ok (mkPage (zeroed PAGE_SIZE) pid 2 false).
Proof.
  intros Hwf Hmax Hnew.
  destruct (NewPage_wf PAGE_SIZE s out Hwf Hmax) as (found & id & s1' & He & Hwf1 & Hd).
  rewrite Hnew in He. injection He as <- <- <-.
  destruct Hd as (-> & Hnext & s0 & Hft & Hpages & Htable & _).
  assert (get_page s1 f = Ok (mkPage (zeroed PAGE_SIZE) (next_page_id_ s) 1 false))
    as Hpg1.
  { eapply get_page_same; [done|]. apply (ft_range _ _ _ Hft). }
  assert (page_table_ s1 !! next_page_id_ s = Some f) as Hres1
    by (by rewrite Htable, lookup_insert_eq).
  destruct (FetchPage_wf PAGE_SIZE s1 (next_page_id_ s) Hwf1) as (found & s2 & He & _ & Hd).
  { split.
    - pose proof (wf_next _ s Hwf). lia.
    - intros g pg Hg Hpg. rewrite Hres1 in Hg. injection Hg as <-.
      rewrite Hpg1 in Hpg. injection Hpg as <-. simpl. unfold INT32_MAX. lia. }
  rewrite Hres1 in Hd. destruct Hd as (-> & pg & Hpg & Hpages2 & _).
  rewrite Hpg1 in Hpg. injection Hpg as <-. simpl in Hpages2.
  exists s2. split; [done|].
  eapply get_page_same; [done|].
  rewrite Hpages, length_insert. apply (ft_range _ _ _ Hft).
Qed.

End PoolGuarantees.

Section PoolGuaranteesExamples.
Import BufferPoolManager PoolInvariants.

(** The pool of three frames of eight bytes after one [NewPage]: page 0
    sits in frame 2, pinned once. *)
Lemma one_page_wf :
  let s0 := new 8 3 2 ∅ in
  let s := (returned (None, 0, s0) (NewPage 8 s0 INVALID_PAGE_ID)).2 in
  pool_wf 8 s.
Proof.
  intros s0 s.
  destruct (NewPage_wf 8 s0 INVALID_PAGE_ID) as (found & pid & s' & He & Hwf & _).
  { apply new_wf; unfold INT32_MAX; lia. }
  { simpl. unfold INT32_MAX. lia. }
  assert (s = s') as -> by (unfold s; by rewrite He). exact Hwf.
Qed.

(** The same pool after [UnpinPage(0, true)]: page 0 is resident,
    dirty, and nobody pins it. *)
Lemma one_unpinned_page_wf :
  let s0 := new 8 3 2 ∅ in
  let s1 := (returned (None, 0, s0) (NewPage 8 s0 INVALID_PAGE_ID)).2 in
  let s := (returned (false, s1) (UnpinPage s1 0 true)).2 in
  pool_wf 8 s.
Proof.
  intros s0 s1 s.
  destruct (UnpinPage_wf 8 s1 0 true one_page_wf) as (b & s' & He & Hwf & _).
  assert (s = s') as -> by (unfold s; by rewrite He). exact Hwf.
Qed.

Lemma UnpinPage_spec_witness :
  let s0 := new 8 3 2 ∅ in
  let s := (returned (None, 0, s0) (NewPage 8 s0 INVALID_PAGE_ID)).2 in
  pool_ok s ∧ page_table_ s !! 0 = Some 2 ∧
  get_page s 2 = Ok (mkPage (zeroed 8) 0 1 false) ∧
  ∃ s', UnpinPage s 0 true = Ok (true, s') ∧
        get_page s' 2 = Ok (mkPage (zeroed 8) 0 0 true).
Proof.
  intros s0 s.
  assert (pool_ok s) as Hok by apply (wf_ok 8 s one_page_wf).
  assert (page_table_ s !! 0 = Some 2) as Hpt by (vm_compute; reflexivity).
  assert (get_page s 2 = Ok (mkPage (zeroed 8) 0 1 false)) as Hpg
    by (vm_compute; reflexivity).
  split; [exact Hok|]. split; [exact Hpt|]. split; [exact Hpg|].
  destruct (proj2 (proj2 (UnpinPage_spec s 0 true)) 2 _ Hok Hpt Hpg)
    as (s' & He & Hpg' & _); [simpl; lia|].
  exists s'. split; [exact He|]. exact Hpg'.
Defined.

Lemma FlushPage_spec_witness :
  let s0 := new 8 3 2 ∅ in
  let s := (returned (None, 0, s0) (NewPage 8 s0 INVALID_PAGE_ID)).2 in
  0 ≠ INVALID_PAGE_ID ∧ page_table_ s !! 0 = Some 2 ∧
  get_page s 2 = Ok (mkPage (zeroed 8) 0 1 false) ∧
  ∃ s', FlushPage s 0 = Ok (true, s') ∧ ReadPage 8 (disk_ s') 0 = zeroed 8.
Proof.
  intros s0 s.
  assert (page_table_ s !! 0 = Some 2) as Hpt by (vm_compute; reflexivity).
  assert (get_page s 2 = Ok (mkPage (zeroed 8) 0 1 false)) as Hpg
    by (vm_compute; reflexivity).
  split; [done|]. split; [exact Hpt|]. split; [exact Hpg|].
  destruct (proj2 (FlushPage_spec 8 s 0) 2 _ ltac:(done) Hpt Hpg)
    as (s' & He & _ & _ & Hrd & _).
  exists s'. split; [exact He|]. exact Hrd.
Defined.

Lemma NewPage_takes_free_frame_witness :
  let s := new 8 3 2 ∅ in
  pool_ok s ∧ last (free_list_ s) = Some 2 ∧
  ∃ s', NewPage 8 s INVALID_PAGE_ID = Ok (Some 2, 0, s') ∧
        free_list_ s' = [0; 1] ∧ page_table_ s' !! 0 = Some 2.
Proof.
  intros s.
  assert (pool_ok s) as Hok.
  { apply new_ok; unfold LRUKReplacer.size_t_max; lia. }
  assert (last (free_list_ s) = Some 2) as Hlast by (vm_compute; reflexivity).
  split; [exact Hok|]. split; [exact Hlast|].
  destruct (NewPage_takes_free_frame 8 s INVALID_PAGE_ID 2 Hok Hlast)
    as (s' & He & _ & _ & Hfree & Htable & _).
  exists s'. split; [exact He|]. split.
  - rewrite Hfree. vm_compute. reflexivity.
  - rewrite Htable. apply lookup_insert_eq.
Defined.

Lemma FetchPage_resident_witness :
  let s0 := new 8 3 2 ∅ in
  let s := (returned (None, 0, s0) (NewPage 8 s0 INVALID_PAGE_ID)).2 in
  pool_ok s ∧ page_table_ s !! 0 = Some 2 ∧
  get_page s 2 = Ok (mkPage (zeroed 8) 0 1 false) ∧
  ∃ s', FetchPage 8 s 0 = Ok (Some 2, s') ∧
        get_page s' 2 = Ok (mkPage (zeroed 8) 0 2 false) ∧
        requests_ s' = requests_ s.
Proof.
  intros s0 s.
  assert (pool_ok s) as Hok by apply (wf_ok 8 s one_page_wf).
  assert (page_table_ s !! 0 = Some 2) as Hpt by (vm_compute; reflexivity).
  assert (get_page s 2 = Ok (mkPage (zeroed 8) 0 1 false)) as Hpg
    by (vm_compute; reflexivity).
  split; [exact Hok|]. split; [exact Hpt|]. split; [exact Hpg|].
  destruct (FetchPage_resident 8 s 0 2 _ Hok Hpt Hpg)
    as (s' & He & Hpg' & _ & _ & _ & _ & _ & Hreq & _);
    [simpl; unfold INT32_MAX; lia|].
  exists s'. split; [exact He|]. split; [exact Hpg'|exact Hreq].
Defined.

Lemma pool_invariant_witness :
  let s0 := new 8 3 2 ∅ in
  let s := (returned (None, 0, s0) (NewPage 8 s0 INVALID_PAGE_ID)).2 in
  0 ≤ 3 ≤ INT32_MAX ∧ 2 ≤ 2 ∧ pool_reachable 8 3 2 s ∧
  pool_wf 8 s ∧ ∃ s', pool_step 8 s (CallFetchPage 0) = Ok s'.
Proof.
  intros s0 s.
  assert (0 ≤ 3 ≤ INT32_MAX) as H3 by (unfold INT32_MAX; lia).
  assert (pool_reachable 8 3 2 s) as Hreach.
  { apply (reach_step 8 3 2 s0 CallNewPage s).
    - apply reach_new.
    - simpl. unfold INT32_MAX. lia.
    - vm_compute. reflexivity. }
  split; [exact H3|]. split; [lia|]. split; [exact Hreach|].
  destruct (pool_invariant 8 3 2 s H3 ltac:(lia) Hreach) as [Hwf Hsafe].
  split; [exact Hwf|]. apply Hsafe. split.
  - vm_compute. split; [discriminate|reflexivity].
  - intros f pg Hf Hpg.
    assert (page_table_ s !! 0 = Some 2) as Hpt by (vm_compute; reflexivity).
    rewrite Hpt in Hf. injection Hf as <-.
    assert (get_page s 2 = Ok (mkPage (zeroed 8) 0 1 false)) as Hpg2
      by (vm_compute; reflexivity).
    rewrite Hpg2 in Hpg. injection Hpg as <-.
    simpl. unfold INT32_MAX. lia.
Defined.

Lemma pinned_page_stays_witness :
  let s0 := new 8 3 2 ∅ in
  let s := (returned (None, 0, s0) (NewPage 8 s0 INVALID_PAGE_ID)).2 in
  let s' := returned s (pool_step 8 s CallNewPage) in
  pool_wf 8 s ∧ allowed s CallNewPage ∧ pool_step 8 s CallNewPage = Ok s' ∧
  resident s 0 2 ∧ get_page s 2 = Ok (mkPage (zeroed 8) 0 1 false) ∧
  resident s' 0 2 ∧ resident s' 1 1.
Proof.
  intros s0 s s'.
  assert (allowed s CallNewPage) as Hc by (vm_compute; reflexivity).
  assert (pool_step 8 s CallNewPage = Ok s') as Hstep by (vm_compute; reflexivity).
  assert (resident s 0 2) as Hres by (vm_compute; reflexivity).
  assert (get_page s 2 = Ok (mkPage (zeroed 8) 0 1 false)) as Hpg
    by (vm_compute; reflexivity).
  split; [exact one_page_wf|]. split; [exact Hc|]. split; [exact Hstep|].
  split; [exact Hres|]. split; [exact Hpg|]. split.
  - apply (pinned_page_stays 8 s s' CallNewPage 0 2 _ one_page_wf Hc Hstep Hres Hpg);
      [simpl; lia|discriminate|intros d; discriminate].
  - vm_compute. reflexivity.
Defined.

Lemma FlushAllPages_spec_witness :
  let s0 := new 8 3 2 ∅ in
  let s1 := (returned (None, 0, s0) (NewPage 8 s0 INVALID_PAGE_ID)).2 in
  let s := (returned (false, s1) (UnpinPage s1 0 true)).2 in
  pool_wf 8 s ∧ get_page s 2 = Ok (mkPage (zeroed 8) 0 0 true) ∧
  ∃ s', FlushAllPages s = Ok s' ∧
        get_page s' 2 = Ok (mkPage (zeroed 8) 0 0 false) ∧
        ReadPage 8 (disk_ s') 0 = zeroed 8.
Proof.
  intros s0 s1 s.
  assert (resident s 0 2) as Hres by (vm_compute; reflexivity).
  assert (get_page s 2 = Ok (mkPage (zeroed 8) 0 0 true)) as Hpg
    by (vm_compute; reflexivity).
  split; [exact one_unpinned_page_wf|]. split; [exact Hpg|].
  destruct (FlushAllPages_spec 8 s one_unpinned_page_wf)
    as (s' & He & Hpages & Hdisk & _).
  exists s'. split; [exact He|]. split.
  - exact (Hpages 2 _ Hpg).
  - exact (Hdisk 0 2 _ Hres Hpg).
Defined.

Lemma Flush_Delete_Fetch_roundtrip_witness :
  let s0 := new 8 3 2 ∅ in
  let s1 := (returned (None, 0, s0) (NewPage 8 s0 INVALID_PAGE_ID)).2 in
  let s := (returned (false, s1) (UnpinPage s1 0 true)).2 in
  pool_wf 8 s ∧ resident s 0 2 ∧
  get_page s 2 = Ok (mkPage (zeroed 8) 0 0 true) ∧
  ∃ s1 s2 s3,
    FlushPage s 0 = Ok (true, s1) ∧ DeletePage 8 s1 0 = Ok (true, s2) ∧
    FetchPage 8 s2 0 = Ok (Some 2, s3) ∧
    get_page s3 2 = Ok (mkPage (zeroed 8) 0 1 false).
Proof.
  intros s0 s1 s.
  assert (resident s 0 2) as Hres by (vm_compute; reflexivity).
  assert (get_page s 2 = Ok (mkPage (zeroed 8) 0 0 true)) as Hpg
    by (vm_compute; reflexivity).
  split; [exact one_unpinned_page_wf|]. split; [exact Hres|]. split; [exact Hpg|].
  exact (Flush_Delete_Fetch_roundtrip 8 s 0 2 _ one_unpinned_page_wf Hres Hpg eq_refl).
Defined.

Lemma NewPage_then_FetchPage_witness :
  let s := new 8 3 2 ∅ in
  let s1 := (returned (None, 0, s) (NewPage 8 s INVALID_PAGE_ID)).2 in
  pool_wf 8 s ∧ next_page_id_ s < INT32_MAX ∧
  NewPage 8 s INVALID_PAGE_ID = Ok (Some 2, 0, s1) ∧
  ∃ s2, FetchPage 8 s1 0 = Ok (Some 2, s2) ∧
        get_page s2 2 = Ok (mkPage (zeroed 8) 0 2 false).
Proof.
  intros s s1.
  assert (pool_wf 8 s) as Hwf by (apply new_wf; unfold INT32_MAX; lia).
  assert (next_page_id_ s < INT32_MAX) as Hmax by (vm_compute; reflexivity).
  assert (NewPage 8 s INVALID_PAGE_ID = Ok (Some 2, 0, s1)) as Hnew
    by (vm_compute; reflexivity).
  split; [exact Hwf|]. split; [exact Hmax|]. split; [exact Hnew|].
  exact (NewPage_then_FetchPage 8 s s1 INVALID_PAGE_ID 2 0 Hwf Hmax Hnew).
Defined.

End PoolGuaranteesExamples.

(* ================================================================= *)
(** * Properties of the disk scheduler *)

Section SchedulerFacts.
Import DiskScheduler.

Variable PAGE_SIZE : nat.

Implicit Types (s : DiskScheduler) (r : DiskRequest).

Lemma perform_Ok s r s' :
  perform PAGE_SIZE s r = Ok s' →
  ∃ buf, memory_ s !! data_ r = Some buf ∧
    promises_ s !! callback_ r = None ∧
    request_queue_ s' = request_queue_ s ∧
    worker_exited_ s' = worker_exited_ s ∧
    performed_ s' = performed_ s ++ [r] ∧
    promises_ s' = <[callback_ r := true]> (promises_ s) ∧
    disk_ s' = (if is_write_ r
                then BufferPoolManager.WritePage (disk_ s) (page_id_ r) buf
                else disk_ s) ∧
    memory_ s' = (if is_write_ r then memory_ s
                  else <[data_ r := BufferPoolManager.ReadPage PAGE_SIZE (disk_ s)
                                      (page_id_ r)]> (memory_ s)).
Proof.
  unfold perform. destruct (memory_ s !! data_ r) as [buf|]; [|done].
  destruct (promises_ s !! callback_ r); [done|].
  intros [= <-]. exists buf. done.
Qed.

Lemma perform_defined s r :
  is_Some (memory_ s !! data_ r) → promises_ s !! callback_ r = None →
  ∃ s', perform PAGE_SIZE s r = Ok s'.
Proof.
  intros [buf Hbuf] Hp. unfold perform. rewrite Hbuf, Hp. by eexists.
Qed.

Lemma puts_app es1 es2 : puts (es1 ++ es2) = puts es1 ++ puts es2.
Proof. unfold puts. apply omap_app. Qed.

(** What the queue, the worker and the promises have to do with what was
    put so far. *)
Lemma step_order s e s' ps :
  step PAGE_SIZE s e = Ok s' →
  ps = (Some <$> performed_ s)
       ++ (if worker_exited_ s then [None] else []) ++ request_queue_ s →
  (∀ c, promises_ s !! c
        = if decide (c ∈ callback_ <$> performed_ s) then Some true else None) →
  ps ++ puts [e] = (Some <$> performed_ s')
       ++ (if worker_exited_ s' then [None] else []) ++ request_queue_ s' ∧
  (∀ c, promises_ s' !! c
        = if decide (c ∈ callback_ <$> performed_ s') then Some true else None).
Proof.
  intros Hstep -> Hprom. destruct e as [r| |]; simpl in Hstep.
  - injection Hstep as <-. simpl. split; [|done].
    by rewrite <- !(assoc_L (++)).
  - injection Hstep as <-. simpl. split; [|done].
    by rewrite <- !(assoc_L (++)).
  - unfold worker_turn in Hstep. rewrite app_nil_r.
    destruct (worker_exited_ s) eqn:Hex; [by injection Hstep as <-; rewrite Hex|].
    destruct (request_queue_ s) as [|[r|] q] eqn:Hq.
    + injection Hstep as <-. by rewrite Hex, Hq.
    + apply perform_Ok in Hstep
        as (buf & _ & Hfresh & Hq' & Hex' & Hperf & Hp' & _).
      simpl in *. rewrite Hq', Hex', Hex, Hperf, Hp'. split.
      * rewrite fmap_app. simpl. by rewrite <- (assoc_L (++)).
      * intros c. rewrite fmap_app. simpl.
        destruct (decide (c = callback_ r)) as [->|Hc].
        -- rewrite lookup_insert_eq. rewrite decide_True; [done|].
           apply elem_of_app. right. by apply list_elem_of_singleton.
        -- rewrite lookup_insert_ne by done. rewrite Hprom.
           destruct (decide (c ∈ callback_ <$> performed_ s)) as [Hin|Hnin].
           ++ rewrite decide_True; [done|]. apply elem_of_app. by left.
           ++ rewrite decide_False; [done|].
              intros [?|?%list_elem_of_singleton]%elem_of_app; done.
    + injection Hstep as <-. simpl. split; [done|]. done.
Qed.

(** X20.  The worker keeps the order of the queue.  After any turns of
    the threads, starting from a new scheduler, what was put into the
    queue is, in this order: the requests the worker has carried out,
    then [std::nullopt] if the worker has returned, then what is still in
    the queue.  So every request is carried out at most once, in the
    order the requests were put, none is skipped, and none is carried out
    after the [std::nullopt] that stops the worker.  A promise has a
    value, and then the value [true], exactly when its request has been
    carried out. *)
Theorem worker_keeps_order (disk : gmap Z (list ascii))
    (memory : gmap nat (list ascii)) (events : list event) (s : DiskScheduler) :
  run PAGE_SIZE (new disk memory) events = Ok s →
  puts events = (Some <$> performed_ s)
                ++ (if worker_exited_ s then [None] else []) ++ request_queue_ s ∧
  ∀ c, promises_ s !! c
       = if decide (c ∈ callback_ <$> performed_ s) then Some true else None.
Proof.
  assert (∀ es s0 s1 ps,
    run PAGE_SIZE s0 es = Ok s1 →
    ps = (Some <$> performed_ s0)
         ++ (if worker_exited_ s0 then [None] else []) ++ request_queue_ s0 →
    (∀ c, promises_ s0 !! c
          = if decide (c ∈ callback_ <$> performed_ s0) then Some true else None) →
    ps ++ puts es = (Some <$> performed_ s1)
         ++ (if worker_exited_ s1 then [None] else []) ++ request_queue_ s1 ∧
    (∀ c, promises_ s1 !! c
          = if decide (c ∈ callback_ <$> performed_ s1) then Some true else None))
    as Hgen.
  { induction es as [|e es IH]; intros s0 s1 ps Hrun Hps Hprom; simpl in Hrun.
    - injection Hrun as <-. by rewrite app_nil_r.
    - destruct (step PAGE_SIZE s0 e) as [s2| |] eqn:Hstep; simpl in Hrun; [|done..].
      destruct (step_order s0 e s2 ps Hstep Hps Hprom) as [Hps2 Hprom2].
      destruct (IH s2 s1 _ Hrun Hps2 Hprom2) as [Hps1 Hprom1].
      split; [|done]. rewrite <- Hps1.
      change (e :: es) with ([e] ++ es). by rewrite puts_app, (assoc_L (++)). }
  intros Hrun.
  destruct (Hgen events (new disk memory) s [] Hrun) as [Hps Hprom]; [done| |].
  - intros c. simpl. by rewrite lookup_empty.
  - done.
Qed.

Lemma worker_turns_add n m : ∀ s,
  worker_turns PAGE_SIZE (n + m) s
  = s' ← worker_turns PAGE_SIZE n s; worker_turns PAGE_SIZE m s'.
Proof.
  induction n as [|n IH]; intros s; simpl; [done|].
  destruct (worker_turn PAGE_SIZE s) as [s1| |]; simpl; [|done..]. apply IH.
Qed.

(** The worker left to itself on a queue that starts with the requests
    [rs], when their buffers exist and their promises are distinct and
    have no value yet. *)
Lemma worker_turns_requests rs : ∀ s rest,
  worker_exited_ s = false →
  request_queue_ s = (Some <$> rs) ++ rest →
  (∀ r, r ∈ rs → is_Some (memory_ s !! data_ r)) →
  NoDup (callback_ <$> rs) →
  (∀ r, r ∈ rs → promises_ s !! callback_ r = None) →
  ∃ s', worker_turns PAGE_SIZE (length rs) s = Ok s' ∧
    worker_exited_ s' = false ∧ request_queue_ s' = rest ∧
    performed_ s' = performed_ s ++ rs ∧
    (∀ c, promises_ s' !! c
          = if decide (c ∈ callback_ <$> rs) then Some true else promises_ s !! c) ∧
    (∀ a, is_Some (memory_ s' !! a) ↔ is_Some (memory_ s !! a)) ∧
    (∀ a, (∀ r, r ∈ rs → is_write_ r = false → data_ r ≠ a) →
          memory_ s' !! a = memory_ s !! a) ∧
    (∀ p, (∀ r, r ∈ rs → is_write_ r = true → page_id_ r ≠ p) →
          disk_ s' !! p = disk_ s !! p).
Proof.
  induction rs as [|r rs IH]; intros s rest Hex Hq Hmem Hnd Hfresh.
  - exists s. split; [done|]. split; [done|]. split; [done|].
    split; [by rewrite app_nil_r|]. done.
  - rewrite fmap_cons in Hq. rewrite fmap_cons in Hnd.
    rewrite <- app_comm_cons in Hq.
    cbn [worker_turns length]. unfold worker_turn at 1. rewrite Hex, Hq.
    destruct (perform_defined (set_queue s ((Some <$> rs) ++ rest)) r)
      as [s1 Hperf].
    { apply Hmem. by left. }
    { apply Hfresh. by left. }
    rewrite Hperf. cbn [mbind outcome_bind].
    apply perform_Ok in Hperf
      as (buf & Hbuf & _ & Hq1 & Hex1 & Hp1 & Hpr1 & Hd1 & Hm1).
    cbn [memory_ set_queue disk_ request_queue_ worker_exited_ performed_ promises_]
      in Hbuf, Hq1, Hex1, Hp1, Hpr1, Hd1, Hm1.
    apply NoDup_cons in Hnd as [Hnin Hnd].
    assert (∀ a, is_Some (memory_ s1 !! a) ↔ is_Some (memory_ s !! a)) as Hdom1.
    { intros a. rewrite Hm1. destruct (is_write_ r); [done|].
      destruct (decide (a = data_ r)) as [->|Ha].
      - rewrite lookup_insert_eq. split; [by eauto|by eauto].
      - by rewrite lookup_insert_ne. }
    destruct (IH s1 rest) as (s' & Hrun & Hex' & Hq' & Hp' & Hpr' & Hdom' & Hm' & Hd');
      try done.
    { by rewrite Hex1. }
    { intros r' Hr'. apply Hdom1, Hmem. by right. }
    { intros r' Hr'. rewrite Hpr1. rewrite lookup_insert_ne.
      - apply Hfresh. by right.
      - intros Heq. apply Hnin. rewrite Heq. apply list_elem_of_fmap. by exists r'. }
    exists s'. split; [done|]. split; [done|]. split; [done|].
    split; [by rewrite Hp', Hp1, <- (assoc_L (++))|].
    split; [|split; [|split]].
    + intros c. rewrite Hpr', Hpr1.
      destruct (decide (c ∈ callback_ <$> rs)) as [Hin|Hnin'].
      * rewrite decide_True; [done|]. by right.
      * destruct (decide (c = callback_ r)) as [->|Hc].
        -- rewrite lookup_insert_eq. rewrite decide_True; [done|]. by left.
        -- rewrite lookup_insert_ne by done. rewrite decide_False; [done|].
           by intros [?|?]%elem_of_cons.
    + intros a. by rewrite Hdom', Hdom1.
    + intros a Ha. rewrite Hm'; [|intros r' Hr'; apply Ha; by right].
      rewrite Hm1. destruct (is_write_ r) eqn:Hw; [done|].
      rewrite lookup_insert_ne; [done|]. apply Ha; [by left|done].
    + intros p Hp. rewrite Hd'; [|intros r' Hr'; apply Hp; by right].
      rewrite Hd1. destruct (is_write_ r) eqn:Hw; [|done].
      unfold BufferPoolManager.WritePage. rewrite lookup_insert_ne; [done|].
      apply Hp; [by left|done].
Qed.

(** X21.  The destructor drains the queue.  When the worker is running
    on a queue of requests whose buffers exist and whose promises are
    distinct and have no value yet, the destructor returns: the worker
    has carried out every request of the queue, in order, has given each
    promise the value [true], has taken the [std::nullopt] and has
    returned; the queue is empty. *)
Theorem destroy_drains (s : DiskScheduler) (rs : list DiskRequest) :
  worker_exited_ s = false →
  request_queue_ s = Some <$> rs →
  (∀ r, r ∈ rs → is_Some (memory_ s !! data_ r)) →
  NoDup (callback_ <$> rs) →
  (∀ r, r ∈ rs → promises_ s !! callback_ r = None) →
  ∃ s', destroy PAGE_SIZE s = Ok (Some s') ∧
    worker_exited_ s' = true ∧ request_queue_ s' = [] ∧
    performed_ s' = performed_ s ++ rs ∧
    ∀ r, r ∈ rs → promises_ s' !! callback_ r = Some true.
Proof.
  intros Hex Hq Hmem Hnd Hfresh. unfold destroy, join, signal_exit. simpl.
  rewrite Hq, length_app, length_fmap. simpl.
  rewrite worker_turns_add.
  destruct (worker_turns_requests rs (set_queue s ((Some <$> rs) ++ [None])) [None])
    as (s1 & Hrun & Hex1 & Hq1 & Hp1 & Hpr1 & _); try done.
  rewrite Hrun. simpl. unfold worker_turn. rewrite Hex1, Hq1. simpl.
  eexists. split; [done|]. simpl. split; [done|]. split; [done|].
  split; [done|]. intros r Hr. rewrite Hpr1. rewrite decide_True; [done|].
  apply list_elem_of_fmap. by exists r.
Qed.

(** X22.  Reading after writing.  Let the queue hold a write of the page
    [p] from a buffer, then requests none of which writes [p], then a
    read of [p] into a buffer; buffers exist, promises are distinct and
    have no value yet.  When the worker has gone through the queue, the
    buffer of the read holds the bytes the buffer of the write held when
    the worker started. *)
Theorem read_after_write (s : DiskScheduler) (w r : DiskRequest)
    (mid : list DiskRequest) (buf : list ascii) :
  worker_exited_ s = false →
  request_queue_ s = Some <$> (w :: mid ++ [r]) →
  is_write_ w = true → is_write_ r = false → page_id_ r = page_id_ w →
  (∀ m, m ∈ mid → is_write_ m = true → page_id_ m ≠ page_id_ w) →
  memory_ s !! data_ w = Some buf →
  (∀ m, m ∈ w :: mid ++ [r] → is_Some (memory_ s !! data_ m)) →
  NoDup (callback_ <$> (w :: mid ++ [r])) →
  (∀ m, m ∈ w :: mid ++ [r] → promises_ s !! callback_ m = None) →
  ∃ s', worker_turns PAGE_SIZE (length (request_queue_ s)) s = Ok s' ∧
    memory_ s' !! data_ r = Some buf ∧
    request_queue_ s' = [] ∧
    performed_ s' = performed_ s ++ w :: mid ++ [r].
Proof.
  intros Hex Hq Hw Hr Hpid Hmid Hbuf Hmem Hnd Hfresh.
  rewrite Hq, length_fmap.
  replace (length (w :: mid ++ [r])) with (S (length mid + 1))
    by (simpl; rewrite length_app; simpl; lia).
  rewrite fmap_cons, fmap_app in Hq.
  change (Some <$> [r]) with [Some r] in Hq.
  rewrite fmap_cons in Hnd.
  apply NoDup_cons in Hnd as [Hwfresh Hnd].
  rewrite fmap_app in Hnd, Hwfresh.
  apply NoDup_app in Hnd as (Hnd1 & Hnd2 & _).
  (* the round of the write *)
  cbn [worker_turns]. unfold worker_turn at 1. rewrite Hex, Hq.
  destruct (perform_defined (set_queue s ((Some <$> mid) ++ [Some r])) w)
    as [s1 Hperf].
  { apply Hmem. by left. }
  { apply Hfresh. by left. }
  rewrite Hperf. cbn [mbind outcome_bind].
  apply perform_Ok in Hperf
    as (buf0 & Hbuf0 & _ & Hq1 & Hex1 & Hp1 & Hpr1 & Hd1 & Hm1).
  cbn [memory_ set_queue disk_ request_queue_ worker_exited_ performed_ promises_]
    in Hbuf0, Hq1, Hex1, Hp1, Hpr1, Hd1, Hm1.
  rewrite Hbuf in Hbuf0. injection Hbuf0 as <-.
  rewrite Hw in Hd1, Hm1.
  (* the rounds of the requests in between *)
  rewrite worker_turns_add.
  destruct (worker_turns_requests mid s1 [Some r])
    as (s2 & Hrun & Hex2 & Hq2 & Hp2 & Hpr2 & Hdom2 & _ & Hd2); try done.
  { by rewrite Hex1. }
  { intros m Hm. rewrite Hm1. apply Hmem. right. apply elem_of_app. by left. }
  { intros m Hm. rewrite Hpr1, lookup_insert_ne.
    - apply Hfresh. right. apply elem_of_app. by left.
    - intros Heq. apply Hwfresh. rewrite Heq. apply elem_of_app. left.
      apply list_elem_of_fmap. by exists m. }
  rewrite Hrun. cbn [mbind outcome_bind].
  assert (disk_ s2 !! page_id_ w = Some buf) as Hdisk.
  { rewrite Hd2 by done. rewrite Hd1. unfold BufferPoolManager.WritePage.
    by rewrite lookup_insert_eq. }
  (* the round of the read *)
  cbn [worker_turns]. unfold worker_turn. rewrite Hex2, Hq2.
  destruct (perform_defined (set_queue s2 []) r) as [s3 Hperf3].
  { apply Hdom2. rewrite Hm1. apply Hmem. right. apply elem_of_app. right.
    by apply list_elem_of_singleton. }
  { cbn [promises_ set_queue]. rewrite Hpr2. rewrite decide_False.
    - rewrite Hpr1, lookup_insert_ne.
      + apply Hfresh. right. apply elem_of_app. right.
        by apply list_elem_of_singleton.
      + intros Heq. apply Hwfresh. rewrite Heq. apply elem_of_app. right.
        simpl. by left.
    - intros Hin. apply (Hnd2 _ Hin). simpl. by left. }
  rewrite Hperf3. cbn [mbind outcome_bind].
  apply perform_Ok in Hperf3
    as (buf' & _ & _ & Hq3 & _ & Hp3 & _ & _ & Hm3).
  cbn [memory_ set_queue disk_ request_queue_ worker_exited_ performed_ promises_]
    in Hq3, Hp3, Hm3.
  exists s3. split; [done|]. split; [|split; [done|]].
  - rewrite Hm3, Hr, lookup_insert_eq, Hpid.
    unfold BufferPoolManager.ReadPage. by rewrite Hdisk.
  - rewrite Hp3, Hp2, Hp1. rewrite <- !(assoc_L (++)). done.
Qed.

End SchedulerFacts.

Section SchedulerExamples.
Import DiskScheduler.

(** [worker_keeps_order] on a write that is scheduled and carried out,
    followed by the destructor's signal and the worker's return. *)
Lemma worker_keeps_order_witness :
  let w := mkDiskRequest true 0 5 0 in
  let memory : gmap nat (list ascii) := {[ 0%nat := ["A"%char] ]} in
  let events := [EvSchedule w; EvWorker; EvSignalExit; EvWorker] in
  let s := returned (new ∅ memory) (run 1 (new ∅ memory) events) in
  run 1 (new ∅ memory) events = Ok s ∧
  puts events = [Some w; None] ∧
  performed_ s = [w] ∧ worker_exited_ s = true ∧ request_queue_ s = [] ∧
  promises_ s !! 0%nat = Some true.
Proof.
  intros w memory events s.
  assert (run 1 (new ∅ memory) events = Ok s) as Hrun by (vm_compute; reflexivity).
  split; [exact Hrun|].
  destruct (worker_keeps_order 1 ∅ memory events s Hrun) as [Hputs Hprom].
  split; [vm_compute; reflexivity|].
  split; [vm_compute; reflexivity|].
  split; [vm_compute; reflexivity|].
  split; [vm_compute; reflexivity|].
  rewrite Hprom. vm_compute. reflexivity.
Defined.

(** [destroy_drains] on a queue of one write and one read. *)
Lemma destroy_drains_witness :
  let w := mkDiskRequest true 0 5 0 in
  let r := mkDiskRequest false 1 5 1 in
  let memory : gmap nat (list ascii) :=
    {[ 0%nat := ["A"%char]; 1%nat := ["B"%char] ]} in
  let s := Schedule (Schedule (new ∅ memory) w) r in
  worker_exited_ s = false ∧ request_queue_ s = Some <$> [w; r] ∧
  ∃ s', destroy 1 s = Ok (Some s') ∧ performed_ s' = [w; r] ∧
        request_queue_ s' = [].
Proof.
  intros w r memory s.
  split; [reflexivity|]. split; [reflexivity|].
  destruct (destroy_drains 1 s [w; r]) as (s' & He & _ & Hq & Hp & _).
  - reflexivity.
  - reflexivity.
  - intros m [->|[->|Hm%elem_of_nil]%elem_of_cons]%elem_of_cons;
      [vm_compute; eauto|vm_compute; eauto|done].
  - vm_compute. repeat constructor; set_solver.
  - intros m [->|[->|Hm%elem_of_nil]%elem_of_cons]%elem_of_cons;
      [reflexivity|reflexivity|done].
  - exists s'. split; [exact He|]. split; [exact Hp|exact Hq].
Defined.

(** [read_after_write]: a write of page 5 from buffer 0, a read of page
    7, a read of page 5 into buffer 1. *)
Lemma read_after_write_witness :
  let w := mkDiskRequest true 0 5 0 in
  let m := mkDiskRequest false 2 7 1 in
  let r := mkDiskRequest false 1 5 2 in
  let memory : gmap nat (list ascii) :=
    {[ 0%nat := ["A"%char]; 1%nat := ["B"%char]; 2%nat := ["C"%char] ]} in
  let s := Schedule (Schedule (Schedule (new ∅ memory) w) m) r in
  worker_exited_ s = false ∧ request_queue_ s = Some <$> (w :: [m] ++ [r]) ∧
  memory_ s !! data_ w = Some ["A"%char] ∧
  ∃ s', worker_turns 1 (length (request_queue_ s)) s = Ok s' ∧
        memory_ s' !! 1%nat = Some ["A"%char].
Proof.
  intros w m r memory s.
  split; [reflexivity|]. split; [reflexivity|].
  assert (memory_ s !! data_ w = Some ["A"%char]) as Hbuf
    by (vm_compute; reflexivity).
  split; [exact Hbuf|].
  destruct (read_after_write 1 s w r [m] ["A"%char]) as (s' & He & Hmem & _).
  - reflexivity.
  - reflexivity.
  - reflexivity.
  - reflexivity.
  - reflexivity.
  - intros x ->%list_elem_of_singleton. discriminate.
  - exact Hbuf.
  - intros x [->|[->|[->|Hx%elem_of_nil]%elem_of_cons]%elem_of_cons]%elem_of_cons;
      [vm_compute; eauto|vm_compute; eauto|vm_compute; eauto|done].
  - vm_compute. repeat constructor; set_solver.
  - intros x [->|[->|[->|Hx%elem_of_nil]%elem_of_cons]%elem_of_cons]%elem_of_cons;
      [reflexivity|reflexivity|reflexivity|done].
  - exists s'. split; [exact He|exact Hmem].
Defined.

End SchedulerExamples.

(* ================================================================= *)
(** * Page guards *)

Section GuardFacts.
Import PoolInvariants PageGuard.

Variable PAGE_SIZE : nat.

Implicit Types (w : World) (g this that : nat) (x y : BasicPageGuard).

Lemma world_eq w w' :
  pool_ w = pool_ w' → guards_ w = guards_ w' → calls_ w = calls_ w' → w = w'.
Proof. destruct w, w'. simpl. by intros -> -> ->. Qed.

Lemma set_guard_same w g x : guards_ w !! g = Some x → set_guard w g x = w.
Proof.
  intros H. apply world_eq; simpl; try done. by apply insert_id.
Qed.

(** [Drop] on a guard that holds nothing only clears the two pointers. *)
Lemma Drop_inert w g x :
  guards_ w !! g = Some x → bpm_ x = false ∨ page_ x = None →
  BasicPageGuard_Drop w g
  = Ok (set_guard w g (mkBasicPageGuard false None (is_dirty_ x))).
Proof.
  intros Hg Hx. unfold BasicPageGuard_Drop, guard_at. rewrite Hg.
  cbn [mbind outcome_bind].
  assert ((if bpm_ x then
             match page_ x with
             | Some frame_id =>
                 pg ← BufferPoolManager.get_page (pool_ w) frame_id;
                 r ← BufferPoolManager.UnpinPage (pool_ w)
                       (BufferPoolManager.page_id_ pg) (is_dirty_ x);
                 Ok (mkWorld r.2 (guards_ w)
                       (calls_ w ++ [Unpin (BufferPoolManager.page_id_ pg) (is_dirty_ x)]))
             | None => Ok w
             end
           else Ok w) = Ok w) as ->.
  { destruct x as [[] [f|] d]; simpl in *; destruct Hx; done. }
  cbn [mbind outcome_bind]. unfold set_bpm, set_page, guard_at.
  rewrite Hg. cbn [mbind outcome_bind]. unfold set_guard. cbn [guards_].
  rewrite lookup_insert_eq. cbn [mbind outcome_bind bpm_ page_ is_dirty_ pool_ calls_].
  f_equal. apply world_eq; simpl; try done. by rewrite insert_insert_eq.
Qed.

(** [Drop] on a guard that holds a page unpins it, once. *)
Lemma Drop_holding w g f d pg b s' :
  guards_ w !! g = Some (mkBasicPageGuard true (Some f) d) →
  BufferPoolManager.get_page (pool_ w) f = Ok pg →
  BufferPoolManager.UnpinPage (pool_ w) (BufferPoolManager.page_id_ pg) d = Ok (b, s') →
  BasicPageGuard_Drop w g
  = Ok (mkWorld s' (<[g := mkBasicPageGuard false None d]> (guards_ w))
          (calls_ w ++ [Unpin (BufferPoolManager.page_id_ pg) d])).
Proof.
  intros Hg Hpg Hu. unfold BasicPageGuard_Drop, guard_at. rewrite Hg.
  cbn [mbind outcome_bind bpm_ page_ is_dirty_]. rewrite Hpg.
  cbn [mbind outcome_bind]. rewrite Hu. cbn [mbind outcome_bind snd].
  unfold set_bpm, set_page, guard_at. cbn [guards_]. rewrite Hg.
  cbn [mbind outcome_bind]. unfold set_guard. cbn [guards_].
  rewrite lookup_insert_eq. cbn [mbind outcome_bind bpm_ page_ is_dirty_ pool_ calls_].
  f_equal. apply world_eq; simpl; try done. by rewrite insert_insert_eq.
Qed.

(** What is left of the guard after any [Drop] that returns. *)
Lemma Drop_Ok w g w1 :
  BasicPageGuard_Drop w g = Ok w1 →
  ∃ x, guards_ w !! g = Some x ∧
       guards_ w1 = <[g := mkBasicPageGuard false None (is_dirty_ x)]> (guards_ w).
Proof.
  intros HD.
  destruct (guards_ w !! g) as [x|] eqn:Hg.
  2:{ unfold BasicPageGuard_Drop, guard_at in HD. by rewrite Hg in HD. }
  exists x. split; [done|].
  destruct x as [b [f|] d].
  2:{ rewrite (Drop_inert w g _ Hg) in HD by (right; done).
      by injection HD as <-. }
  destruct b.
  2:{ rewrite (Drop_inert w g _ Hg) in HD by (left; done).
      by injection HD as <-. }
  destruct (BufferPoolManager.get_page (pool_ w) f) as [pg| |] eqn:Hpg.
  2,3: unfold BasicPageGuard_Drop, guard_at in HD; rewrite Hg in HD;
       cbn [mbind outcome_bind bpm_ page_] in HD; by rewrite Hpg in HD.
  destruct (BufferPoolManager.UnpinPage (pool_ w) (BufferPoolManager.page_id_ pg) d)
    as [[b s']| |] eqn:Hu.
  2,3: unfold BasicPageGuard_Drop, guard_at in HD; rewrite Hg in HD;
       cbn [mbind outcome_bind bpm_ page_ is_dirty_] in HD; rewrite Hpg in HD;
       cbn [mbind outcome_bind] in HD; by rewrite Hu in HD.
  rewrite (Drop_holding w g f d pg b s' Hg Hpg Hu) in HD.
  by injection HD as <-.
Qed.

Lemma Drop_of_dropped w g d :
  guards_ w !! g = Some (mkBasicPageGuard false None d) →
  BasicPageGuard_Drop w g = Ok w.
Proof.
  intros Hg. rewrite (Drop_inert w g _ Hg) by (by left).
  f_equal. by apply set_guard_same.
Qed.

(** X23. Dropping a guard twice is dropping it once: whenever [Drop]
    returns, a second [Drop] on the same guard returns the world as it
    is, so the page is not unpinned again and no latch is released
    again.  This holds for the three kinds of guard. *)
Theorem Drop_twice (w w1 : World) (g : nat) :
  (BasicPageGuard_Drop w g = Ok w1 → BasicPageGuard_Drop w1 g = Ok w1) ∧
  (ReadPageGuard_Drop w g = Ok w1 → ReadPageGuard_Drop w1 g = Ok w1) ∧
  (WritePageGuard_Drop w g = Ok w1 → WritePageGuard_Drop w1 g = Ok w1).
Proof.
  split; [|split].
  - intros (x & _ & Hg1)%Drop_Ok.
    apply (Drop_of_dropped w1 g (is_dirty_ x)).
    rewrite Hg1. apply lookup_insert_eq.
  - unfold ReadPageGuard_Drop at 1. unfold guard_at.
    destruct (guards_ w !! g) as [x|] eqn:Hg; [|done].
    cbn [mbind outcome_bind].
    intros (x' & _ & Hg1)%Drop_Ok.
    assert (guards_ w1 !! g = Some (mkBasicPageGuard false None (is_dirty_ x'))) as Hl.
    { rewrite Hg1. apply lookup_insert_eq. }
    unfold ReadPageGuard_Drop, guard_at. rewrite Hl.
    cbn [mbind outcome_bind page_].
    by apply (Drop_of_dropped w1 g (is_dirty_ x')).
  - unfold WritePageGuard_Drop at 1. unfold set_is_dirty, guard_at.
    destruct (guards_ w !! g) as [x|] eqn:Hg; [|done].
    cbn [mbind outcome_bind].
    assert (∀ w0, guards_ w0 = guards_ w →
              guards_ w0 !! g = Some x) as Hsame by (by intros w0 ->).
    rewrite (Hsame (match page_ x with
                    | Some frame_id => add_call w (WUnlatch frame_id)
                    | None => w
                    end)) by (by destruct (page_ x)).
    cbn [mbind outcome_bind].
    intros (x' & Hx' & Hg1)%Drop_Ok.
    unfold set_guard in Hx'. cbn [guards_] in Hx'.
    rewrite lookup_insert_eq in Hx'. injection Hx' as <-. cbn [is_dirty_] in Hg1.
    assert (guards_ w1 !! g = Some (mkBasicPageGuard false None true)) as Hl.
    { rewrite Hg1. apply lookup_insert_eq. }
    unfold WritePageGuard_Drop, set_is_dirty, guard_at. rewrite Hl.
    cbn [mbind outcome_bind page_ bpm_]. rewrite Hl.
    cbn [mbind outcome_bind page_ bpm_].
    rewrite (set_guard_same w1 g _ Hl).
    by apply (Drop_of_dropped w1 g true).
Qed.

(** X24. Move assignment, with the case of a guard assigned to itself:
    [this = std::move(that)] first drops [this] (its page is unpinned);
    if [that] is [this], nothing more happens; otherwise [this] becomes
    what [that] was, and [that] is left holding nothing, so that only one
    of the two guards will unpin the page. *)
Theorem move_assign_spec (w : World) (this that : nat) :
  BasicPageGuard_assign w this that =
    w1 ← BasicPageGuard_Drop w this;
    if decide (this = that) then Ok w1
    else
      y ← guard_at w1 that;
      Ok (mkWorld (pool_ w1)
            (<[that := mkBasicPageGuard false None (is_dirty_ y)]>
               (<[this := y]> (guards_ w1)))
            (calls_ w1)).
Proof.
  unfold BasicPageGuard_assign.
  destruct (BasicPageGuard_Drop w this) as [w1| |] eqn:HD; [|done..].
  cbn [mbind outcome_bind].
  apply Drop_Ok in HD as (x & _ & Hg1).
  assert (guards_ w1 !! this = Some (mkBasicPageGuard false None (is_dirty_ x))) as Hthis.
  { rewrite Hg1. apply lookup_insert_eq. }
  case_decide as Heq.
  - subst that.
    unfold take_over, set_bpm, set_page, set_is_dirty, guard_at, set_guard.
    rewrite Hthis.
    repeat (cbn [mbind outcome_bind guards_ pool_ calls_ bpm_ page_ is_dirty_];
            rewrite ?lookup_insert_eq).
    f_equal. apply world_eq; simpl; try done.
    rewrite !insert_insert_eq. by apply insert_id.
  - unfold take_over, set_bpm, set_page, set_is_dirty, guard_at, set_guard.
    destruct (guards_ w1 !! that) as [y|] eqn:Hthat; [|done].
    rewrite Hthis.
    repeat (cbn [mbind outcome_bind guards_ pool_ calls_ bpm_ page_ is_dirty_];
            rewrite ?lookup_insert_eq;
            rewrite ?(lookup_insert_ne _ this that) by done;
            rewrite ?(lookup_insert_ne _ that this) by done;
            rewrite ?Hthat; rewrite ?Hthis).
    f_equal. apply world_eq; simpl; try done.
    apply map_eq. intros i.
    destruct (decide (i = this)) as [Hi1|Hi1];
      destruct (decide (i = that)) as [Hi2|Hi2]; subst; try done.
    + rewrite lookup_insert_eq.
      rewrite (lookup_insert_ne _ that this) by done.
      rewrite lookup_insert_eq. by destruct y.
    + rewrite (lookup_insert_ne _ this that) by done.
      by rewrite !lookup_insert_eq.
    + by rewrite !lookup_insert_ne by done.
Qed.

End GuardFacts.

(* ================================================================= *)
(** * A fetch and the unpin that answers it *)

Section FetchUnpin.
Import BufferPoolManager PoolInvariants.

Variable PAGE_SIZE : nat.

Implicit Types (s : BufferPoolManager) (pg : Page).

(** In a well-formed pool the non-evictable frames are those of the
    pinned pages. *)
Lemma wf_non_evictable s f :
  pool_wf PAGE_SIZE s →
  f ∈ LRUKReplacer.non_evictable_set_ (replacer_ s) ↔
  ∃ p pg, resident s p f ∧ get_page s f = Ok pg ∧ 0 < pin_count_ pg.
Proof.
  intros Hwf. pose proof (wf_ok _ s Hwf) as Hok. split.
  - intros Hne.
    pose proof (LRUKReplacer.cs_non_evictable _ (po_replacer s Hok) f Hne) as Htr.
    apply (wf_tracked _ s Hwf) in Htr as [p Hres].
    destruct (get_page_in_range s f) as [pg Hpg].
    { by apply (resident_range s p f Hok). }
    exists p, pg. split; [done|]. split; [done|].
    destruct (decide (0 < pin_count_ pg)) as [|Hle]; [done|].
    destruct (po_unpinned s Hok p f pg Hres Hpg); [lia|done].
  - intros (p & pg & Hres & Hpg & Hpin). by apply (wf_pinned _ s Hwf p f pg).
Qed.

Lemma same_pins_non_evictable s s' :
  pool_wf PAGE_SIZE s → pool_wf PAGE_SIZE s' →
  page_table_ s' = page_table_ s →
  (∀ f pg pg', get_page s f = Ok pg → get_page s' f = Ok pg' →
               pin_count_ pg' = pin_count_ pg) →
  LRUKReplacer.non_evictable_set_ (replacer_ s')
  = LRUKReplacer.non_evictable_set_ (replacer_ s).
Proof.
  intros Hwf Hwf' Htab Hpins. apply set_eq. intros f.
  rewrite (wf_non_evictable s' f Hwf'), (wf_non_evictable s f Hwf).
  unfold resident. rewrite Htab. split.
  - intros (p & pg' & Hres & Hpg' & Hpin).
    destruct (get_page_in_range s f) as [pg Hpg].
    { by apply (resident_range s p f (wf_ok _ s Hwf)). }
    exists p, pg. split; [done|]. split; [done|].
    rewrite <- (Hpins f pg pg' Hpg Hpg'). done.
  - intros (p & pg & Hres & Hpg & Hpin).
    destruct (get_page_in_range s' f) as [pg' Hpg'].
    { apply (resident_range s' p f (wf_ok _ s' Hwf')). unfold resident.
      by rewrite Htab. }
    exists p, pg'. split; [done|]. split; [done|].
    rewrite (Hpins f pg pg' Hpg Hpg'). done.
Qed.

(** [FetchPage] of a resident page, then [UnpinPage] of that page. *)
Lemma Fetch_Unpin s p d f pg :
  pool_wf PAGE_SIZE s → resident s p f → get_page s f = Ok pg →
  pin_count_ pg < INT32_MAX →
  ∃ s1 s2,
    FetchPage PAGE_SIZE s p = Ok (Some f, s1) ∧
    get_page s1 f = Ok (mkPage (data_ pg) p (pin_count_ pg + 1) (is_dirty_ pg)) ∧
    UnpinPage s1 p d = Ok (true, s2) ∧
    pool_wf PAGE_SIZE s2 ∧
    pages_ s2 = <[Z.to_nat f := mkPage (data_ pg) p (pin_count_ pg)
                                   (d || is_dirty_ pg)]> (pages_ s) ∧
    page_table_ s2 = page_table_ s ∧ free_list_ s2 = free_list_ s ∧
    disk_ s2 = disk_ s ∧
    LRUKReplacer.non_evictable_set_ (replacer_ s2)
    = LRUKReplacer.non_evictable_set_ (replacer_ s).
Proof.
  intros Hwf Hres Hpg Hmax. pose proof (wf_ok _ s Hwf) as Hok.
  pose proof (resident_range s p f Hok Hres) as Hf.
  pose proof (wf_table_ids _ s Hwf p f pg Hres Hpg) as Hid.
  pose proof (resident_pin_nonneg s f pg Hok Hpg) as Hpin0.
  destruct (FetchPage_wf PAGE_SIZE s p Hwf) as (found & s1 & HF & Hwf1 & Hm).
  { split; [by apply (wf_ids _ s Hwf p f)|].
    intros f0 pg0 Hf0 Hpg0. unfold resident in Hres.
    assert (f0 = f) as -> by congruence. congruence. }
  unfold resident in Hres. rewrite Hres in Hm.
  destruct Hm as (-> & pg0 & Hpg0 & Hpages1 & Htab1 & Hfree1 & Hdisk1 & _).
  assert (pg0 = pg) as -> by congruence.
  rewrite Hid in Hpages1.
  pose proof (get_page_same s s1 f _ Hpages1 Hf) as Hpg1.
  destruct (UnpinPage_wf PAGE_SIZE s1 p d Hwf1) as (b & s2 & HU & Hwf2 & Hb).
  assert (b = true) as ->.
  { unfold UnpinPage in HU. rewrite Htab1, Hres, Hpg1 in HU.
    cbn -[get_page put_page] in HU.
    rewrite bool_decide_false in HU by lia.
    destruct b; [done|].
    repeat case_bool_decide;
      repeat (match type of HU with
              | context [LRUKReplacer.SetEvictable ?r ?x ?y] =>
                  destruct (LRUKReplacer.SetEvictable r x y)
              end; cbn in HU); congruence. }
  destruct Hb as (f' & pg' & Hres' & Hpg' & _ & Hpages2 & Htab2 & Hfree2 & Hdisk2 & _).
  unfold resident in Hres'. rewrite Htab1, Hres in Hres'. injection Hres' as <-.
  rewrite Hpg1 in Hpg'. injection Hpg' as <-. simpl in Hpages2.
  rewrite Hpages1, list_insert_insert_eq, Z.add_simpl_r in Hpages2.
  exists s1, s2. do 5 (split; [done|]).
  split; [congruence|]. split; [congruence|]. split; [congruence|].
  apply same_pins_non_evictable; [done|done|congruence|].
  intros g pg1 pg2 Hg1 Hg2.
  destruct (decide (g = f)) as [->|Hne].
  - rewrite (get_page_same s s2 f _ Hpages2 Hf) in Hg2. injection Hg2 as <-.
    simpl. congruence.
  - rewrite (get_page_other s s2 f g _ Hpages2) in Hg2 by (done || lia). congruence.
Qed.

(** [NewPage] that finds a frame, then [UnpinPage] of the new page. *)
Lemma New_Unpin s out d :
  pool_wf PAGE_SIZE s → next_page_id_ s < INT32_MAX →
  ∃ found pid s1, NewPage PAGE_SIZE s out = Ok (found, pid, s1) ∧
    match found with
    | None => s1 = s ∧ pid = out
    | Some f =>
        pid = next_page_id_ s ∧
        get_page s1 f = Ok (mkPage (zeroed PAGE_SIZE) pid 1 false) ∧
        ∃ s2, UnpinPage s1 pid d = Ok (true, s2) ∧
          pool_wf PAGE_SIZE s2 ∧ resident s2 pid f ∧
          get_page s2 f = Ok (mkPage (zeroed PAGE_SIZE) pid 0 d) ∧
          f ∉ LRUKReplacer.non_evictable_set_ (replacer_ s2)
    end.
Proof.
  intros Hwf Hmax.
  destruct (NewPage_wf PAGE_SIZE s out Hwf Hmax) as (found & pid & s1 & HN & Hwf1 & Hm).
  exists found, pid, s1. split; [done|].
  destruct found as [f|]; [|done].
  destruct Hm as (Hpid & _ & s0 & Hft & Hpages1 & Htab1 & _).
  split; [done|].
  pose proof (ft_range _ _ _ Hft) as Hf.
  pose proof (get_page_same s s1 f _ Hpages1 Hf) as Hpg1.
  split; [done|].
  assert (page_table_ s1 !! pid = Some f) as Hres1.
  { rewrite Htab1. apply lookup_insert_eq. }
  destruct (UnpinPage_wf PAGE_SIZE s1 pid d Hwf1) as (b & s2 & HU & Hwf2 & Hb).
  assert (b = true) as ->.
  { unfold UnpinPage in HU. rewrite Hres1, Hpg1 in HU.
    cbn -[get_page put_page] in HU.
    rewrite bool_decide_false in HU by lia.
    destruct b; [done|].
    repeat case_bool_decide;
      repeat (match type of HU with
              | context [LRUKReplacer.SetEvictable ?r ?x ?y] =>
                  destruct (LRUKReplacer.SetEvictable r x y)
              end; cbn in HU); congruence. }
  destruct Hb as (f' & pg' & Hres' & Hpg' & _ & Hpages2 & Htab2 & _ & _ & Hev).
  unfold resident in Hres'. rewrite Hres1 in Hres'. injection Hres' as <-.
  rewrite Hpg1 in Hpg'. injection Hpg' as <-. simpl in Hpages2, Hev.
  exists s2. split; [done|]. split; [done|].
  split; [unfold resident; congruence|].
  split; [|by apply Hev].
  assert (0 ≤ f < Z.of_nat (length (pages_ s1))) as Hf1.
  { by apply (resident_range s1 pid f (wf_ok _ s1 Hwf1)). }
  rewrite (get_page_same s1 s2 f _ Hpages2 Hf1). by rewrite orb_false_r.
Qed.

End FetchUnpin.

(* ================================================================= *)
(** * Guards over the pool: a fetch and the drop that ends it *)

Section GuardScopes.
Import BufferPoolManager PoolInvariants PageGuard.

Variable PAGE_SIZE : nat.

Implicit Types (w : World) (g : nat) (pg : Page).

Lemma pages_insert_same (s : BufferPoolManager) f pg p :
  get_page s f = Ok pg → page_id_ pg = p →
  <[Z.to_nat f := mkPage (data_ pg) p (pin_count_ pg)
                    (BufferPoolManager.is_dirty_ pg)]> (pages_ s) = pages_ s.
Proof.
  intros [_ Hl]%get_page_Ok <-. rewrite page_eta. by apply list_insert_id.
Qed.

(** X25. A basic guard gives back the pin it took.  [FetchPageBasic] of
    a resident page pins it once more and returns a guard that holds its
    frame; dropping that guard asks the pool for one [UnpinPage] of the
    page, not dirty, after which the frames, the page table, the free
    list, the disk and the set of non-evictable frames are what they were
    before the fetch, and the guard holds nothing. *)
Theorem FetchPageBasic_then_Drop (w : World) (p f : Z) (pg : Page) (g : nat) :
  pool_wf PAGE_SIZE (pool_ w) → resident (pool_ w) p f →
  get_page (pool_ w) f = Ok pg → pin_count_ pg < INT32_MAX →
  guards_ w !! g = None →
  ∃ w1 w2,
    FetchPageBasic PAGE_SIZE w p g = Ok w1 ∧
    guards_ w1 !! g = Some (mkBasicPageGuard true (Some f) false) ∧
    get_page (pool_ w1) f
    = Ok (mkPage (data_ pg) p (pin_count_ pg + 1) (BufferPoolManager.is_dirty_ pg)) ∧
    BasicPageGuard_Drop w1 g = Ok w2 ∧
    pool_wf PAGE_SIZE (pool_ w2) ∧
    pages_ (pool_ w2) = pages_ (pool_ w) ∧
    page_table_ (pool_ w2) = page_table_ (pool_ w) ∧
    free_list_ (pool_ w2) = free_list_ (pool_ w) ∧
    disk_ (pool_ w2) = disk_ (pool_ w) ∧
    LRUKReplacer.non_evictable_set_ (replacer_ (pool_ w2))
    = LRUKReplacer.non_evictable_set_ (replacer_ (pool_ w)) ∧
    guards_ w2 = <[g := mkBasicPageGuard false None false]> (guards_ w) ∧
    calls_ w2 = calls_ w ++ [Unpin p false].
Proof.
  intros Hwf Hres Hpg Hmax Hg.
  pose proof (wf_table_ids _ _ Hwf p f pg Hres Hpg) as Hid.
  destruct (Fetch_Unpin PAGE_SIZE (pool_ w) p false f pg Hwf Hres Hpg Hmax)
    as (s1 & s2 & HF & Hpg1 & HU & Hwf2 & Hpages2 & Htab & Hfree & Hdisk & Hne).
  set (w1 := mkWorld s1 (<[g := mkBasicPageGuard true (Some f) false]> (guards_ w))
               (calls_ w)).
  exists w1, (mkWorld s2 (<[g := mkBasicPageGuard false None false]> (guards_ w))
                (calls_ w ++ [Unpin p false])).
  assert (guards_ w1 !! g = Some (mkBasicPageGuard true (Some f) false)) as Hg1
    by apply lookup_insert_eq.
  split.
  { unfold FetchPageBasic. rewrite HF. cbn [mbind outcome_bind fst snd].
    unfold return_guard, construct. cbn [guards_]. by rewrite Hg. }
  split; [exact Hg1|]. split; [exact Hpg1|].
  split.
  { rewrite (Drop_holding w1 g f false _ true s2 Hg1 Hpg1 HU).
    f_equal. apply world_eq; simpl; try done. by rewrite insert_insert_eq. }
  cbn [pool_ guards_ calls_].
  split; [done|]. split.
  { rewrite Hpages2. simpl. by apply pages_insert_same. }
  done.
Qed.

(** X26. A write guard holds the write latch for as long as it holds the
    page, and leaves the page dirty.  In a well-formed pool ([pool_wf],
    a replacer of [k ≥ 2] among its demands), [FetchPageWrite] of a
    resident page whose pin count is below [INT32_MAX], then [Drop]: both
    return, the calls are [WLatch], [WUnlatch] on the frame and one
    [UnpinPage(page, true)], in this order; afterwards the page has its
    pin count of before the fetch, its dirty flag is set, and nothing
    else in the pool has changed (access history of the replacer
    apart). *)
Theorem FetchPageWrite_then_Drop (w : World) (p f : Z) (pg : Page) (g : nat) :
  pool_wf PAGE_SIZE (pool_ w) → resident (pool_ w) p f →
  get_page (pool_ w) f = Ok pg → pin_count_ pg < INT32_MAX →
  guards_ w !! g = None →
  ∃ w1 w2,
    FetchPageWrite PAGE_SIZE w p g = Ok w1 ∧
    guards_ w1 !! g = Some (mkBasicPageGuard true (Some f) false) ∧
    calls_ w1 = calls_ w ++ [WLatch f] ∧
    WritePageGuard_Drop w1 g = Ok w2 ∧
    pool_wf PAGE_SIZE (pool_ w2) ∧
    pages_ (pool_ w2)
    = <[Z.to_nat f := mkPage (data_ pg) p (pin_count_ pg) true]> (pages_ (pool_ w)) ∧
    page_table_ (pool_ w2) = page_table_ (pool_ w) ∧
    free_list_ (pool_ w2) = free_list_ (pool_ w) ∧
    disk_ (pool_ w2) = disk_ (pool_ w) ∧
    LRUKReplacer.non_evictable_set_ (replacer_ (pool_ w2))
    = LRUKReplacer.non_evictable_set_ (replacer_ (pool_ w)) ∧
    guards_ w2 = <[g := mkBasicPageGuard false None true]> (guards_ w) ∧
    calls_ w2 = calls_ w ++ [WLatch f; WUnlatch f; Unpin p true].
Proof.
  intros Hwf Hres Hpg Hmax Hg.
  destruct (Fetch_Unpin PAGE_SIZE (pool_ w) p true f pg Hwf Hres Hpg Hmax)
    as (s1 & s2 & HF & Hpg1 & HU & Hwf2 & Hpages2 & Htab & Hfree & Hdisk & Hne).
  set (w1 := mkWorld s1 (<[g := mkBasicPageGuard true (Some f) false]> (guards_ w))
               (calls_ w ++ [WLatch f])).
  exists w1, (mkWorld s2 (<[g := mkBasicPageGuard false None true]> (guards_ w))
                (calls_ w ++ [WLatch f; WUnlatch f; Unpin p true])).
  assert (guards_ w1 !! g = Some (mkBasicPageGuard true (Some f) false)) as Hg1
    by apply lookup_insert_eq.
  split.
  { unfold FetchPageWrite. rewrite HF. cbn [mbind outcome_bind fst snd].
    unfold return_guard, construct, add_call. cbn [guards_ pool_ calls_].
    by rewrite Hg. }
  split; [exact Hg1|]. split; [done|].
  split.
  { unfold WritePageGuard_Drop, guard_at. rewrite Hg1.
    cbn [mbind outcome_bind page_]. unfold set_is_dirty, guard_at, add_call.
    cbn [guards_ pool_ calls_]. rewrite Hg1.
    cbn [mbind outcome_bind bpm_ page_].
    set (w' := set_guard _ _ _).
    assert (guards_ w' !! g = Some (mkBasicPageGuard true (Some f) true)) as Hg'
      by apply lookup_insert_eq.
    rewrite (Drop_holding w' g f true _ true s2 Hg' Hpg1 HU).
    f_equal. apply world_eq; simpl; try done.
    - by rewrite !insert_insert_eq.
    - by rewrite <- !app_assoc. }
  cbn [pool_ guards_ calls_]. done.
Qed.

(** X27. A read guard holds the read latch for as long as it holds the
    page and gives back the pin.  In a well-formed pool ([pool_wf], a
    replacer of [k ≥ 2] among its demands), [FetchPageRead] of a
    resident page whose pin count is below [INT32_MAX], then [Drop]: both
    return, the calls are [RLatch], [RUnlatch] on the frame and one
    [UnpinPage(page, false)], in this order, and the pool is afterwards
    what it was before the fetch (access history of the replacer
    apart). *)
Theorem FetchPageRead_then_Drop (w : World) (p f : Z) (pg : Page) (g : nat) :
  pool_wf PAGE_SIZE (pool_ w) → resident (pool_ w) p f →
  get_page (pool_ w) f = Ok pg → pin_count_ pg < INT32_MAX →
  guards_ w !! g = None →
  ∃ w1 w2,
    FetchPageRead PAGE_SIZE w p g = Ok w1 ∧
    guards_ w1 !! g = Some (mkBasicPageGuard true (Some f) false) ∧
    calls_ w1 = calls_ w ++ [RLatch f] ∧
    ReadPageGuard_Drop w1 g = Ok w2 ∧
    pool_wf PAGE_SIZE (pool_ w2) ∧
    pages_ (pool_ w2) = pages_ (pool_ w) ∧
    page_table_ (pool_ w2) = page_table_ (pool_ w) ∧
    free_list_ (pool_ w2) = free_list_ (pool_ w) ∧
    disk_ (pool_ w2) = disk_ (pool_ w) ∧
    LRUKReplacer.non_evictable_set_ (replacer_ (pool_ w2))
    = LRUKReplacer.non_evictable_set_ (replacer_ (pool_ w)) ∧
    guards_ w2 = <[g := mkBasicPageGuard false None false]> (guards_ w) ∧
    calls_ w2 = calls_ w ++ [RLatch f; RUnlatch f; Unpin p false].
Proof.
  intros Hwf Hres Hpg Hmax Hg.
  pose proof (wf_table_ids _ _ Hwf p f pg Hres Hpg) as Hid.
  destruct (Fetch_Unpin PAGE_SIZE (pool_ w) p false f pg Hwf Hres Hpg Hmax)
    as (s1 & s2 & HF & Hpg1 & HU & Hwf2 & Hpages2 & Htab & Hfree & Hdisk & Hne).
  set (w1 := mkWorld s1 (<[g := mkBasicPageGuard true (Some f) false]> (guards_ w))
               (calls_ w ++ [RLatch f])).
  exists w1, (mkWorld s2 (<[g := mkBasicPageGuard false None false]> (guards_ w))
                (calls_ w ++ [RLatch f; RUnlatch f; Unpin p false])).
  assert (guards_ w1 !! g = Some (mkBasicPageGuard true (Some f) false)) as Hg1
    by apply lookup_insert_eq.
  split.
  { unfold FetchPageRead. rewrite HF. cbn [mbind outcome_bind fst snd].
    unfold return_guard, construct, add_call. cbn [guards_ pool_ calls_].
    by rewrite Hg. }
  split; [exact Hg1|]. split; [done|].
  split.
  { unfold ReadPageGuard_Drop, guard_at. rewrite Hg1.
    cbn [mbind outcome_bind page_].
    set (w' := add_call _ _).
    assert (guards_ w' !! g = Some (mkBasicPageGuard true (Some f) false)) as Hg'
      by exact Hg1.
    rewrite (Drop_holding w' g f false _ true s2 Hg' Hpg1 HU).
    f_equal. apply world_eq; simpl; try done.
    - by rewrite !insert_insert_eq.
    - by rewrite <- !app_assoc. }
  cbn [pool_ guards_ calls_].
  split; [done|]. split.
  { rewrite Hpages2. simpl. by apply pages_insert_same. }
  done.
Qed.

(** X28. [NewPageGuarded] and the drop of its guard.  When the pool has
    no frame to give, the page id handed in comes back, the pool is
    untouched and the guard holds nothing, so that dropping it asks
    nothing of the pool.  Otherwise the new page has the next page id and
    sits pinned once in the frame the guard holds; after the drop it is
    still resident in that frame, zeroed, clean, with pin count 0, and
    the frame is evictable. *)
Theorem NewPageGuarded_then_Drop (w : World) (out : Z) (g : nat) :
  pool_wf PAGE_SIZE (pool_ w) → next_page_id_ (pool_ w) < INT32_MAX →
  guards_ w !! g = None →
  ∃ found pid w1 w2,
    NewPageGuarded PAGE_SIZE w out g = Ok (pid, w1) ∧
    guards_ w1 !! g = Some (mkBasicPageGuard true found false) ∧
    BasicPageGuard_Drop w1 g = Ok w2 ∧
    guards_ w2 = <[g := mkBasicPageGuard false None false]> (guards_ w) ∧
    match found with
    | None =>
        pid = out ∧ pool_ w1 = pool_ w ∧ pool_ w2 = pool_ w ∧ calls_ w2 = calls_ w
    | Some f =>
        pid = next_page_id_ (pool_ w) ∧
        get_page (pool_ w1) f = Ok (mkPage (zeroed PAGE_SIZE) pid 1 false) ∧
        pool_wf PAGE_SIZE (pool_ w2) ∧ resident (pool_ w2) pid f ∧
        get_page (pool_ w2) f = Ok (mkPage (zeroed PAGE_SIZE) pid 0 false) ∧
        (f ∉ LRUKReplacer.non_evictable_set_ (replacer_ (pool_ w2))) ∧
        calls_ w2 = calls_ w ++ [Unpin pid false]
    end.
Proof.
  intros Hwf Hmax Hg.
  destruct (New_Unpin PAGE_SIZE (pool_ w) out false Hwf Hmax)
    as (found & pid & s1 & HN & Hm).
  set (w1 := mkWorld s1 (<[g := mkBasicPageGuard true found false]> (guards_ w))
               (calls_ w)).
  assert (guards_ w1 !! g = Some (mkBasicPageGuard true found false)) as Hg1
    by apply lookup_insert_eq.
  assert (NewPageGuarded PAGE_SIZE w out g = Ok (pid, w1)) as HNG.
  { unfold NewPageGuarded. rewrite HN. cbn [mbind outcome_bind fst snd].
    unfold return_guard, construct. cbn [guards_]. by rewrite Hg. }
  destruct found as [f|].
  - destruct Hm as (Hpid & Hpg1 & s2 & HU & Hwf2 & Hres2 & Hpg2 & Hev).
    exists (Some f), pid, w1,
      (mkWorld s2 (<[g := mkBasicPageGuard false None false]> (guards_ w))
         (calls_ w ++ [Unpin pid false])).
    split; [done|]. split; [done|].
    split.
    { rewrite (Drop_holding w1 g f false _ true s2 Hg1 Hpg1 HU).
      f_equal. apply world_eq; simpl; try done. by rewrite insert_insert_eq. }
    cbn [pool_ guards_ calls_]. done.
  - destruct Hm as [-> ->].
    exists None, out, w1, (set_guard w1 g (mkBasicPageGuard false None false)).
    split; [done|]. split; [done|].
    split. { apply (Drop_inert w1 g _ Hg1). by right. }
    split. { simpl. by rewrite insert_insert_eq. }
    done.
Qed.

(** X29. A guard over a null page is inert.  When [FetchPage] finds no
    frame and returns the null pointer, the three guarded fetches return
    a guard without calling a latch, and dropping that guard calls no
    latch and no [UnpinPage]: the pool is the one [FetchPage] left. *)
Theorem null_page_guard_inert (w : World) (p : Z) (s1 : BufferPoolManager) (g : nat) :
  FetchPage PAGE_SIZE (pool_ w) p = Ok (None, s1) → guards_ w !! g = None →
  (∃ w1 w2, FetchPageBasic PAGE_SIZE w p g = Ok w1 ∧
            BasicPageGuard_Drop w1 g = Ok w2 ∧
            pool_ w2 = s1 ∧ calls_ w2 = calls_ w) ∧
  (∃ w1 w2, FetchPageRead PAGE_SIZE w p g = Ok w1 ∧
            ReadPageGuard_Drop w1 g = Ok w2 ∧
            pool_ w2 = s1 ∧ calls_ w2 = calls_ w) ∧
  (∃ w1 w2, FetchPageWrite PAGE_SIZE w p g = Ok w1 ∧
            WritePageGuard_Drop w1 g = Ok w2 ∧
            pool_ w2 = s1 ∧ calls_ w2 = calls_ w).
Proof.
  intros HF Hg.
  set (w1 := mkWorld s1 (<[g := mkBasicPageGuard true None false]> (guards_ w))
               (calls_ w)).
  assert (guards_ w1 !! g = Some (mkBasicPageGuard true None false)) as Hg1
    by apply lookup_insert_eq.
  split; [|split].
  - exists w1, (set_guard w1 g (mkBasicPageGuard false None false)).
    split.
    { unfold FetchPageBasic. rewrite HF. cbn [mbind outcome_bind fst snd].
      unfold return_guard, construct. cbn [guards_]. by rewrite Hg. }
    split; [|done]. apply (Drop_inert w1 g _ Hg1). by right.
  - exists w1, (set_guard w1 g (mkBasicPageGuard false None false)).
    split.
    { unfold FetchPageRead. rewrite HF. cbn [mbind outcome_bind fst snd].
      unfold return_guard, construct. cbn [guards_]. by rewrite Hg. }
    split; [|done]. unfold ReadPageGuard_Drop, guard_at. rewrite Hg1.
    cbn [mbind outcome_bind page_]. apply (Drop_inert w1 g _ Hg1). by right.
  - exists w1, (set_guard w1 g (mkBasicPageGuard false None true)).
    split.
    { unfold FetchPageWrite. rewrite HF. cbn [mbind outcome_bind fst snd].
      unfold return_guard, construct. cbn [guards_]. by rewrite Hg. }
    split; [|done]. unfold WritePageGuard_Drop, guard_at. rewrite Hg1.
    cbn [mbind outcome_bind page_]. unfold set_is_dirty, guard_at. rewrite Hg1.
    cbn [mbind outcome_bind bpm_ page_].
    set (w' := set_guard _ _ _).
    assert (guards_ w' !! g = Some (mkBasicPageGuard true None true)) as Hg'
      by apply lookup_insert_eq.
    rewrite (Drop_inert w' g _ Hg') by (by right).
    f_equal. apply world_eq; simpl; try done. by rewrite insert_insert_eq.
Qed.

End GuardScopes.

Section GuardExamples.
Import BufferPoolManager PoolInvariants PageGuard.

(** A guard that holds page 0 of the pool of [one_page_wf], dropped
    twice. *)
Lemma Drop_twice_witness :
  let s0 := new 8 3 2 ∅ in
  let s := (returned (None, 0, s0) (NewPage 8 s0 INVALID_PAGE_ID)).2 in
  let w := mkWorld s {[ 0%nat := mkBasicPageGuard true (Some 2) false ]} [] in
  let w1 := returned w (BasicPageGuard_Drop w 0%nat) in
  BasicPageGuard_Drop w 0%nat = Ok w1 ∧ calls_ w1 = [Unpin 0 false] ∧
  BasicPageGuard_Drop w1 0%nat = Ok w1.
Proof.
  intros s0 s w w1.
  assert (BasicPageGuard_Drop w 0%nat = Ok w1) as HD by (vm_compute; reflexivity).
  split; [exact HD|]. split; [vm_compute; reflexivity|].
  exact (proj1 (Drop_twice w w1 0%nat) HD).
Defined.

Lemma FetchPageBasic_then_Drop_witness :
  let s0 := new 8 3 2 ∅ in
  let s := (returned (None, 0, s0) (NewPage 8 s0 INVALID_PAGE_ID)).2 in
  let w := mkWorld s ∅ [] in
  pool_wf 8 s ∧ resident s 0 2 ∧
  get_page s 2 = Ok (mkPage (zeroed 8) 0 1 false) ∧
  ∃ w1 w2,
    FetchPageBasic 8 w 0 0%nat = Ok w1 ∧
    get_page (pool_ w1) 2 = Ok (mkPage (zeroed 8) 0 2 false) ∧
    BasicPageGuard_Drop w1 0%nat = Ok w2 ∧
    pages_ (pool_ w2) = pages_ s ∧ calls_ w2 = [Unpin 0 false].
Proof.
  intros s0 s w.
  assert (resident s 0 2) as Hres by (vm_compute; reflexivity).
  assert (get_page s 2 = Ok (mkPage (zeroed 8) 0 1 false)) as Hpg
    by (vm_compute; reflexivity).
  split; [exact one_page_wf|]. split; [exact Hres|]. split; [exact Hpg|].
  destruct (FetchPageBasic_then_Drop 8 w 0 2 _ 0%nat one_page_wf Hres Hpg)
    as (w1 & w2 & HF & _ & Hpg1 & HD & _ & Hpages & _ & _ & _ & _ & _ & Hcalls).
  { simpl. unfold INT32_MAX. lia. }
  { apply lookup_empty. }
  exists w1, w2. split; [exact HF|]. split; [exact Hpg1|].
  split; [exact HD|]. split; [exact Hpages|]. exact Hcalls.
Defined.

Lemma FetchPageWrite_then_Drop_witness :
  let s0 := new 8 3 2 ∅ in
  let s := (returned (None, 0, s0) (NewPage 8 s0 INVALID_PAGE_ID)).2 in
  let w := mkWorld s ∅ [] in
  pool_wf 8 s ∧ resident s 0 2 ∧
  get_page s 2 = Ok (mkPage (zeroed 8) 0 1 false) ∧
  ∃ w1 w2,
    FetchPageWrite 8 w 0 0%nat = Ok w1 ∧
    WritePageGuard_Drop w1 0%nat = Ok w2 ∧
    pages_ (pool_ w2) = <[2%nat := mkPage (zeroed 8) 0 1 true]> (pages_ s) ∧
    calls_ w2 = [WLatch 2; WUnlatch 2; Unpin 0 true].
Proof.
  intros s0 s w.
  assert (resident s 0 2) as Hres by (vm_compute; reflexivity).
  assert (get_page s 2 = Ok (mkPage (zeroed 8) 0 1 false)) as Hpg
    by (vm_compute; reflexivity).
  split; [exact one_page_wf|]. split; [exact Hres|]. split; [exact Hpg|].
  destruct (FetchPageWrite_then_Drop 8 w 0 2 _ 0%nat one_page_wf Hres Hpg)
    as (w1 & w2 & HF & _ & _ & HD & _ & Hpages & _ & _ & _ & _ & _ & Hcalls).
  { simpl. unfold INT32_MAX. lia. }
  { apply lookup_empty. }
  exists w1, w2. split; [exact HF|]. split; [exact HD|].
  split; [exact Hpages|]. exact Hcalls.
Defined.

Lemma FetchPageRead_then_Drop_witness :
  let s0 := new 8 3 2 ∅ in
  let s := (returned (None, 0, s0) (NewPage 8 s0 INVALID_PAGE_ID)).2 in
  let w := mkWorld s ∅ [] in
  pool_wf 8 s ∧ resident s 0 2 ∧
  get_page s 2 = Ok (mkPage (zeroed 8) 0 1 false) ∧
  ∃ w1 w2,
    FetchPageRead 8 w 0 0%nat = Ok w1 ∧
    ReadPageGuard_Drop w1 0%nat = Ok w2 ∧
    pages_ (pool_ w2) = pages_ s ∧
    calls_ w2 = [RLatch 2; RUnlatch 2; Unpin 0 false].
Proof.
  intros s0 s w.
  assert (resident s 0 2) as Hres by (vm_compute; reflexivity).
  assert (get_page s 2 = Ok (mkPage (zeroed 8) 0 1 false)) as Hpg
    by (vm_compute; reflexivity).
  split; [exact one_page_wf|]. split; [exact Hres|]. split; [exact Hpg|].
  destruct (FetchPageRead_then_Drop 8 w 0 2 _ 0%nat one_page_wf Hres Hpg)
    as (w1 & w2 & HF & _ & _ & HD & _ & Hpages & _ & _ & _ & _ & _ & Hcalls).
  { simpl. unfold INT32_MAX. lia. }
  { apply lookup_empty. }
  exists w1, w2. split; [exact HF|]. split; [exact HD|].
  split; [exact Hpages|]. exact Hcalls.
Defined.

Lemma NewPageGuarded_then_Drop_witness :
  let s := new 8 3 2 ∅ in
  let w := mkWorld s ∅ [] in
  let r := returned (INVALID_PAGE_ID, w) (NewPageGuarded 8 w INVALID_PAGE_ID 0%nat) in
  pool_wf 8 s ∧ next_page_id_ s < INT32_MAX ∧
  NewPageGuarded 8 w INVALID_PAGE_ID 0%nat = Ok r ∧ r.1 = 0 ∧
  guards_ r.2 !! 0%nat = Some (mkBasicPageGuard true (Some 2) false) ∧
  ∃ w2, BasicPageGuard_Drop r.2 0%nat = Ok w2 ∧
        get_page (pool_ w2) 2 = Ok (mkPage (zeroed 8) 0 0 false).
Proof.
  intros s w r.
  assert (pool_wf 8 s) as Hwf by (apply new_wf; unfold INT32_MAX; lia).
  assert (next_page_id_ s < INT32_MAX) as Hmax by (vm_compute; reflexivity).
  assert (NewPageGuarded 8 w INVALID_PAGE_ID 0%nat = Ok r) as Hc
    by (vm_compute; reflexivity).
  assert (r.1 = 0) as Hc1 by (vm_compute; reflexivity).
  assert (guards_ r.2 !! 0%nat = Some (mkBasicPageGuard true (Some 2) false)) as Hc2
    by (vm_compute; reflexivity).
  split; [exact Hwf|]. split; [exact Hmax|]. split; [exact Hc|].
  split; [exact Hc1|]. split; [exact Hc2|].
  destruct (NewPageGuarded_then_Drop 8 w INVALID_PAGE_ID 0%nat Hwf Hmax (lookup_empty _))
    as (found & pid & w1 & w2 & HN & Hg1 & HD & _ & Hm).
  rewrite Hc in HN. injection HN as <- <-.
  pose proof (eq_trans (eq_sym Hc2) Hg1) as Hfound. injection Hfound as <-.
  destruct Hm as (_ & _ & _ & _ & Hpg2 & _).
  assert (get_page (pool_ w2) 2 = Ok (mkPage (zeroed 8) r.1 0 false)) as Hpg2'
    by exact Hpg2.
  rewrite Hc1 in Hpg2'.
  exists w2. split; [exact HD|]. exact Hpg2'.
Defined.

(** A pool of one frame whose page is pinned has no frame to give. *)
Lemma null_page_guard_inert_witness :
  let s0 := new 8 1 2 ∅ in
  let s := (returned (None, 0, s0) (NewPage 8 s0 INVALID_PAGE_ID)).2 in
  let w := mkWorld s ∅ [] in
  FetchPage 8 s 1 = Ok (None, s) ∧
  ∃ w1 w2, FetchPageWrite 8 w 1 0%nat = Ok w1 ∧
           WritePageGuard_Drop w1 0%nat = Ok w2 ∧
           pool_ w2 = s ∧ calls_ w2 = [].
Proof.
  intros s0 s w.
  assert (FetchPage 8 s 1 = Ok (None, s)) as HF by (vm_compute; reflexivity).
  split; [exact HF|].
  exact (proj2 (proj2 (null_page_guard_inert 8 w 1 s 0%nat HF (lookup_empty _)))).
Defined.

End GuardExamples.
